(** * csg.ts: BSP-tree constructive solid geometry, embedded in Rocq

    The embedding follows [src/csg.ts] class by class.

    - A JavaScript [number] is an IEEE 754 binary64 value: Rocq's primitive
      [float], with the same operations and the same rounding.
    - A [Vector] is never assigned to after its construction, so it is a
      value.  A [Plane] is reached from one owner only (the constructor of
      [Polygon] allocates it, [Node.build] stores a clone), so it is a field
      of its owner and [Plane.flip] is a function on that field.  The same
      holds of the array of vertices of a polygon: [clone], [splitPolygon]
      and the generators pass a fresh array to the constructor, and
      [reverse()] rewrites the field.
    - [Vertex] and [Polygon] objects are shared and mutated in place
      ([Vertex.flip], [Polygon.flip]); they live in a heap and are handled
      through references.  Allocation appends to the store, so a reference
      is the index of the object.
    - A [Node] is owned by its parent or by a local variable and is never
      aliased: the tree is an inductive value passed from call to call.
    - Arrays of polygons are lists of references.  The four output arrays of
      [Plane.splitPolygon] may be the same array ([Node.clipPolygons] passes
      [front] twice, [Node.build] passes [this.polygons] twice): each is
      given as its [push] operation on the caller's frame.
    - Methods that read, allocate or mutate run in the monad [M]; an
      exception leaves the heap as it was when the exception was raised.
    - [Node.build] calls itself on the fragments it makes, and a polygon
      that is not flat can send it round for ever; its model takes a bound
      on the depth of the recursion.  The other methods of [Node] recurse on
      the tree. *)

From Stdlib Require Import Floats ZArith Lia.
From stdpp Require Import base option list.

Set Default Proof Using "Type".

(** ** Numbers *)

Definition number := float.

(** ** class Vector *)

Record Vector := mkVector {
  Vector_x : number;
  Vector_y : number;
  Vector_z : number
}.

Section VectorOps.
Local Open Scope float_scope.

Definition Vector_clone (this : Vector) : Vector :=
  mkVector (Vector_x this) (Vector_y this) (Vector_z this).

Definition Vector_negated (this : Vector) : Vector :=
  mkVector (- Vector_x this) (- Vector_y this) (- Vector_z this).

Definition Vector_plus (this a : Vector) : Vector :=
  mkVector (Vector_x this + Vector_x a) (Vector_y this + Vector_y a)
           (Vector_z this + Vector_z a).

Definition Vector_minus (this a : Vector) : Vector :=
  mkVector (Vector_x this - Vector_x a) (Vector_y this - Vector_y a)
           (Vector_z this - Vector_z a).

Definition Vector_times (this : Vector) (a : number) : Vector :=
  mkVector (Vector_x this * a) (Vector_y this * a) (Vector_z this * a).

Definition Vector_dividedBy (this : Vector) (a : number) : Vector :=
  mkVector (Vector_x this / a) (Vector_y this / a) (Vector_z this / a).

Definition Vector_dot (this a : Vector) : number :=
  Vector_x this * Vector_x a + Vector_y this * Vector_y a
  + Vector_z this * Vector_z a.

Definition Vector_lerp (this a : Vector) (t : number) : Vector :=
  Vector_plus this (Vector_times (Vector_minus a this) t).

Definition Vector_length (this : Vector) : number :=
  sqrt (Vector_dot this this).

Definition Vector_unit (this : Vector) : Vector :=
  Vector_dividedBy this (Vector_length this).

Definition Vector_cross (this a : Vector) : Vector :=
  mkVector
    (Vector_y this * Vector_z a - Vector_z this * Vector_y a)
    (Vector_z this * Vector_x a - Vector_x this * Vector_z a)
    (Vector_x this * Vector_y a - Vector_y this * Vector_x a).
End VectorOps.

(** ** Object layouts *)

(** A reference: the index of the object in its store. *)
Abbreviation ref := nat.

Record Vertex := mkVertex {
  Vertex_pos : Vector;
  Vertex_normal : Vector
}.

Record Plane := mkPlane {
  Plane_normal : Vector;
  Plane_w : number
}.

(** [shared?: unknown]: [None] is [undefined]. *)
Record Polygon (S : Type) := mkPolygon {
  Polygon_vertices : list ref;
  Polygon_shared : option S;
  Polygon_plane : Plane
}.
Arguments mkPolygon {S} _ _ _.
Arguments Polygon_vertices {S} _.
Arguments Polygon_shared {S} _.
Arguments Polygon_plane {S} _.

(** ** The heap and the monad of methods *)

Record Heap (S : Type) := mkHeap {
  vertexStore : list Vertex;
  polygonStore : list (Polygon S)
}.
Arguments mkHeap {S} _ _.
Arguments vertexStore {S} _.
Arguments polygonStore {S} _.

(** [TypeError]: a property of [undefined] or [null] is read.
    [OutOfFuel]: the bound on the depth of recursion is reached.
    [Dangling]: a reference is outside the store (no program produces one). *)
Inductive Error := TypeError | OutOfFuel | Dangling.

Inductive Res (A : Type) :=
| Ok (a : A)
| Throw (e : Error).
Arguments Ok {A} _.
Arguments Throw {A} _.

Definition M (S A : Type) : Type := Heap S -> Res A * Heap S.

Definition ret {S A} (a : A) : M S A := fun h => (Ok a, h).

Definition throw {S A} (e : Error) : M S A := fun h => (Throw e, h).

Definition bind {S A B} (m : M S A) (k : A -> M S B) : M S B :=
  fun h =>
    match m h with
    | (Ok a, h') => k a h'
    | (Throw e, h') => (Throw e, h')
    end.

Notation "'let*' x ':=' m 'in' k" := (bind m (fun x => k))
  (at level 10, x pattern, m at level 100, k at level 200).

Fixpoint Array_fold {S A B} (f : B -> A -> M S B) (l : list A) (b : B) : M S B :=
  match l with
  | [] => ret b
  | a :: l' => let* b' := f b a in Array_fold f l' b'
  end.

Fixpoint Array_map {S A B} (f : A -> M S B) (l : list A) : M S (list B) :=
  match l with
  | [] => ret []
  | a :: l' => let* b := f a in let* bs := Array_map f l' in ret (b :: bs)
  end.

Fixpoint Array_forEach {S A} (f : A -> M S unit) (l : list A) : M S unit :=
  match l with
  | [] => ret tt
  | a :: l' => let* _ := f a in Array_forEach f l'
  end.

(** [a[i].prop]: reading a property of an element beyond the end of an
    array is a TypeError. *)
Definition index {S A} (a : list A) (i : nat) : M S A :=
  match a !! i with
  | Some x => ret x
  | None => throw TypeError
  end.

Section HeapOps.
Context {S : Type}.

Definition getVertex (r : ref) : M S Vertex :=
  fun h =>
    match vertexStore h !! r with
    | Some v => (Ok v, h)
    | None => (Throw Dangling, h)
    end.

Definition setVertex (r : ref) (v : Vertex) : M S unit :=
  fun h =>
    match vertexStore h !! r with
    | Some _ => (Ok tt, mkHeap (<[r := v]> (vertexStore h)) (polygonStore h))
    | None => (Throw Dangling, h)
    end.

Definition newVertex (v : Vertex) : M S ref :=
  fun h =>
    (Ok (length (vertexStore h)),
     mkHeap (vertexStore h ++ [v]) (polygonStore h)).

Definition getPolygon (r : ref) : M S (Polygon S) :=
  fun h =>
    match polygonStore h !! r with
    | Some p => (Ok p, h)
    | None => (Throw Dangling, h)
    end.

Definition setPolygon (r : ref) (p : Polygon S) : M S unit :=
  fun h =>
    match polygonStore h !! r with
    | Some _ => (Ok tt, mkHeap (vertexStore h) (<[r := p]> (polygonStore h)))
    | None => (Throw Dangling, h)
    end.

Definition newPolygon (p : Polygon S) : M S ref :=
  fun h =>
    (Ok (length (polygonStore h)),
     mkHeap (vertexStore h) (polygonStore h ++ [p])).
End HeapOps.

(** ** class Vertex *)

Section VertexMethods.
Context {S : Type}.

(** [new Vertex(pos, normal)]: both vectors are copied. *)
Definition Vertex_new (pos normal : Vector) : M S ref :=
  newVertex (mkVertex (Vector_clone pos) (Vector_clone normal)).

Definition Vertex_clone (this : ref) : M S ref :=
  let* v := getVertex this in
  Vertex_new (Vector_clone (Vertex_pos v)) (Vector_clone (Vertex_normal v)).

Definition Vertex_flip (this : ref) : M S unit :=
  let* v := getVertex this in
  setVertex this (mkVertex (Vertex_pos v) (Vector_negated (Vertex_normal v))).

Definition Vertex_interpolate (this other : ref) (t : number) : M S ref :=
  let* a := getVertex this in
  let* b := getVertex other in
  Vertex_new (Vector_lerp (Vertex_pos a) (Vertex_pos b) t)
             (Vector_lerp (Vertex_normal a) (Vertex_normal b) t).
End VertexMethods.

(** ** class Plane: construction and flip *)

Definition EPSILON : number := 0x1.4f8b588e368f1p-17%float. (* 1e-5 *)

Definition Plane_fromPoints (a b c : Vector) : Plane :=
  let n := Vector_unit (Vector_cross (Vector_minus b a) (Vector_minus c a)) in
  mkPlane n (Vector_dot n a).

Definition Plane_clone (this : Plane) : Plane :=
  mkPlane (Vector_clone (Plane_normal this)) (Plane_w this).

Definition Plane_flip (this : Plane) : Plane :=
  mkPlane (Vector_negated (Plane_normal this)) (- Plane_w this)%float.

(** ** class Polygon *)

Section PolygonMethods.
Context {S : Type}.

Definition Polygon_new (vertices : list ref) (shared : option S) : M S ref :=
  let* r0 := index vertices 0 in
  let* v0 := getVertex r0 in
  let* r1 := index vertices 1 in
  let* v1 := getVertex r1 in
  let* r2 := index vertices 2 in
  let* v2 := getVertex r2 in
  newPolygon
    (mkPolygon vertices shared
       (Plane_fromPoints (Vertex_pos v0) (Vertex_pos v1) (Vertex_pos v2))).

Definition Polygon_clone (this : ref) : M S ref :=
  let* p := getPolygon this in
  let* vertices := Array_map Vertex_clone (Polygon_vertices p) in
  Polygon_new vertices (Polygon_shared p).

(** [flip()].  A polygon holds its vertices as a list of references, a
    value of its own: [this.vertices.reverse()] is the list of the
    receiver, reversed.  Two polygons made on one array object are not
    told apart from two polygons on arrays of the same contents: in the
    source, the flip of one reverses the array of both. *)
Definition Polygon_flip (this : ref) : M S unit :=
  let* p := getPolygon this in
  let reversed := rev (Polygon_vertices p) in
  let* _ := setPolygon this
              (mkPolygon reversed (Polygon_shared p) (Polygon_plane p)) in
  let* _ := Array_forEach Vertex_flip reversed in
  let* p' := getPolygon this in
  setPolygon this
    (mkPolygon (Polygon_vertices p') (Polygon_shared p')
               (Plane_flip (Polygon_plane p'))).
End PolygonMethods.

(** ** Plane.splitPolygon *)

Definition COPLANAR : Z := 0.
Definition FRONT : Z := 1.
Definition BACK : Z := 2.
Definition SPANNING : Z := 3.

(** [var t = this.normal.dot(v.pos) - this.w;
     var type = (t < -EPSILON) ? BACK : (t > EPSILON) ? FRONT : COPLANAR] *)
Definition Plane_distance (this : Plane) (pos : Vector) : number :=
  (Vector_dot (Plane_normal this) pos - Plane_w this)%float.

Definition Plane_classify (this : Plane) (pos : Vector) : Z :=
  let t := Plane_distance this pos in
  if (t <? - EPSILON)%float then BACK
  else if (EPSILON <? t)%float then FRONT
  else COPLANAR.

(** An output array of [splitPolygon], seen from the caller's frame [F] of
    local arrays: the method only ever pushes to it. *)
Record OutArray (F : Type) := mkOutArray { push : ref -> F -> F }.
Arguments mkOutArray {F} _.
Arguments push {F} _ _ _.

Section SplitPolygon.
Context {S : Type}.

(** The first loop: the type of every vertex. *)
Definition Plane_types (this : Plane) (vertices : list ref) : M S (list Z) :=
  Array_map (fun r => let* v := getVertex r in
                 ret (Plane_classify this (Vertex_pos v))) vertices.

(** [polygonType |= type], over all the vertices. *)
Definition polygonTypeOf (types : list Z) : Z :=
  fold_left Z.lor types 0%Z.

(** One turn of the loop of [case SPANNING], on the chains [f] and [b]. *)
Definition Plane_splitEdge (this : Plane) (vertices : list ref)
    (types : list Z) (fb : list ref * list ref) (i : nat)
    : M S (list ref * list ref) :=
  let '(f, b) := fb in
  let j := ((i + 1) mod length vertices)%nat in
  let* ti := index types i in
  let* tj := index types j in
  let* vi := index vertices i in
  let* vj := index vertices j in
  let f := if negb (ti =? BACK)%Z then f ++ [vi] else f in
  let* b := if negb (ti =? FRONT)%Z
            then let* v := if negb (ti =? BACK)%Z
                           then Vertex_clone vi else ret vi in
                 ret (b ++ [v])
            else ret b in
  if (Z.lor ti tj =? SPANNING)%Z then
    let* pi := getVertex vi in
    let* pj := getVertex vj in
    let t := ((Plane_w this - Vector_dot (Plane_normal this) (Vertex_pos pi))
              / Vector_dot (Plane_normal this)
                  (Vector_minus (Vertex_pos pj) (Vertex_pos pi)))%float in
    let* v := Vertex_interpolate vi vj t in
    let* v' := Vertex_clone v in
    ret (f ++ [v], b ++ [v'])
  else ret (f, b).

Definition Plane_splitChains (this : Plane) (vertices : list ref)
    (types : list Z) : M S (list ref * list ref) :=
  Array_fold (Plane_splitEdge this vertices types)
        (seq 0 (length vertices)) ([], []).

Definition Plane_splitPolygon {F : Type} (this : Plane) (polygon : ref)
    (coplanarFront coplanarBack front back : OutArray F) (fr : F) : M S F :=
  let* p := getPolygon polygon in
  let* types := Plane_types this (Polygon_vertices p) in
  let polygonType := polygonTypeOf types in
  if (polygonType =? COPLANAR)%Z then
    ret (push (if (0 <? Vector_dot (Plane_normal this)
                          (Plane_normal (Polygon_plane p)))%float
               then coplanarFront else coplanarBack) polygon fr)
  else if (polygonType =? FRONT)%Z then
    ret (push front polygon fr)
  else if (polygonType =? BACK)%Z then
    ret (push back polygon fr)
  else if (polygonType =? SPANNING)%Z then
    let* (f, b) := Plane_splitChains this (Polygon_vertices p) types in
    let* fr := if (3 <=? length f)%nat
               then let* q := Polygon_new f (Polygon_shared p) in
                    ret (push front q fr)
               else ret fr in
    if (3 <=? length b)%nat
    then let* q := Polygon_new b (Polygon_shared p) in
         ret (push back q fr)
    else ret fr
  else ret fr.
End SplitPolygon.

(** ** class Node *)

#[local] Unset Elimination Schemes.
Inductive Node := mkNode {
  Node_plane : option Plane;
  Node_front : option Node;
  Node_back : option Node;
  Node_polygons : list ref
}.
#[local] Set Elimination Schemes.

(** [new Node()] *)
Definition Node_empty : Node := mkNode None None None [].

(** The frame of [clipPolygons]: the local arrays [front] and [back]. *)
Definition clip_front : OutArray (list ref * list ref) :=
  mkOutArray (fun p fr => (fr.1 ++ [p], fr.2)).
Definition clip_back : OutArray (list ref * list ref) :=
  mkOutArray (fun p fr => (fr.1, fr.2 ++ [p])).

(** The frame of [build]: [this.polygons] and the local arrays [front] and
    [back]. *)
Definition build_polygons : OutArray (list ref * list ref * list ref) :=
  mkOutArray (fun p fr => (fr.1.1 ++ [p], fr.1.2, fr.2)).
Definition build_front : OutArray (list ref * list ref * list ref) :=
  mkOutArray (fun p fr => (fr.1.1, fr.1.2 ++ [p], fr.2)).
Definition build_back : OutArray (list ref * list ref * list ref) :=
  mkOutArray (fun p fr => (fr.1.1, fr.1.2, fr.2 ++ [p])).

Section NodeMethods.
Context {S : Type}.

Fixpoint Node_invert (this : Node) : M S Node :=
  let* _ := Array_forEach Polygon_flip (Node_polygons this) in
  match Node_plane this with
  | None => throw TypeError
  | Some plane =>
      let plane := Plane_flip plane in
      let* front := match Node_front this with
                    | Some n => let* n' := Node_invert n in ret (Some n')
                    | None => ret None
                    end in
      let* back := match Node_back this with
                   | Some n => let* n' := Node_invert n in ret (Some n')
                   | None => ret None
                   end in
      ret (mkNode (Some plane) back front (Node_polygons this))
  end.

Fixpoint Node_clipPolygons (this : Node) (polygons : list ref)
    : M S (list ref) :=
  match Node_plane this with
  | None => ret polygons
  | Some plane =>
      let* (front, back) :=
        Array_fold (fun fr p =>
                 Plane_splitPolygon plane p
                   clip_front clip_back clip_front clip_back fr)
              polygons ([], []) in
      let* front := match Node_front this with
                    | Some n => Node_clipPolygons n front
                    | None => ret front
                    end in
      let* back := match Node_back this with
                   | Some n => Node_clipPolygons n back
                   | None => ret []
                   end in
      ret (front ++ back)
  end.

Fixpoint Node_clipTo (this : Node) (bsp : Node) : M S Node :=
  let* polygons := Node_clipPolygons bsp (Node_polygons this) in
  let* front := match Node_front this with
                | Some n => let* n' := Node_clipTo n bsp in ret (Some n')
                | None => ret None
                end in
  let* back := match Node_back this with
               | Some n => let* n' := Node_clipTo n bsp in ret (Some n')
               | None => ret None
               end in
  ret (mkNode (Node_plane this) front back polygons).

Fixpoint Node_allPolygons (this : Node) : list ref :=
  Node_polygons this
  ++ match Node_front this with
     | Some n => Node_allPolygons n
     | None => []
     end
  ++ match Node_back this with
     | Some n => Node_allPolygons n
     | None => []
     end.

(** [build] recurses on the fragments it has just made; [fuel] bounds the
    depth of the recursion.  The list [polygons] is a value: this is the
    call on an array other than [this.polygons].  Called on the node's own
    array, the loop of the source pushes onto the array that it runs over;
    the statements that [build] returns leave that call out. *)
Fixpoint Node_build (fuel : nat) (this : Node) (polygons : list ref)
    : M S Node :=
  match polygons with
  | [] => ret this
  | p0 :: _ =>
      match fuel with
      | O => throw OutOfFuel
      | Datatypes.S fuel' =>
          let* plane := match Node_plane this with
                        | Some plane => ret plane
                        | None => let* p := getPolygon p0 in
                                  ret (Plane_clone (Polygon_plane p))
                        end in
          let* (own, front, back) :=
            Array_fold (fun fr p =>
                     Plane_splitPolygon plane p
                       build_polygons build_polygons build_front build_back
                       fr)
                  polygons (Node_polygons this, [], []) in
          let* nfront :=
            match front with
            | [] => ret (Node_front this)
            | _ :: _ =>
                let* n := Node_build fuel'
                            (default Node_empty (Node_front this)) front in
                ret (Some n)
            end in
          let* nback :=
            match back with
            | [] => ret (Node_back this)
            | _ :: _ =>
                let* n := Node_build fuel'
                            (default Node_empty (Node_back this)) back in
                ret (Some n)
            end in
          ret (mkNode (Some plane) nfront nback own)
      end
  end.

(** [clone()]: the plane, the front subtree, the back subtree, then the
    polygons of the node. *)
Fixpoint Node_clone (this : Node) : M S Node :=
  let plane := Plane_clone <$> Node_plane this in
  let* front := match Node_front this with
                | Some n => let* n' := Node_clone n in ret (Some n')
                | None => ret None
                end in
  let* back := match Node_back this with
               | Some n => let* n' := Node_clone n in ret (Some n')
               | None => ret None
               end in
  let* polygons := Array_map Polygon_clone (Node_polygons this) in
  ret (mkNode plane front back polygons).

(** [new Node(polygons)] *)
Definition Node_new (fuel : nat) (polygons : list ref) : M S Node :=
  Node_build fuel Node_empty polygons.
End NodeMethods.

(** ** class CSG *)

Record CSG := mkCSG { CSG_polygons : list ref }.

Section CSGMethods.
Context {S : Type}.

Definition CSG_fromPolygons (polygons : list ref) : CSG := mkCSG polygons.

Definition CSG_clone (this : CSG) : M S CSG :=
  let* polygons := Array_map Polygon_clone (CSG_polygons this) in
  ret (mkCSG polygons).

Definition CSG_toPolygons (this : CSG) : list ref := CSG_polygons this.

Definition CSG_union (fuel : nat) (this csg : CSG) : M S CSG :=
  let* ca := CSG_clone this in
  let* a := Node_new fuel (CSG_polygons ca) in
  let* cb := CSG_clone csg in
  let* b := Node_new fuel (CSG_polygons cb) in
  let* a := Node_clipTo a b in
  let* b := Node_clipTo b a in
  let* b := Node_invert b in
  let* b := Node_clipTo b a in
  let* b := Node_invert b in
  let* a := Node_build fuel a (Node_allPolygons b) in
  ret (CSG_fromPolygons (Node_allPolygons a)).

Definition CSG_subtract (fuel : nat) (this csg : CSG) : M S CSG :=
  let* ca := CSG_clone this in
  let* a := Node_new fuel (CSG_polygons ca) in
  let* cb := CSG_clone csg in
  let* b := Node_new fuel (CSG_polygons cb) in
  let* a := Node_invert a in
  let* a := Node_clipTo a b in
  let* b := Node_clipTo b a in
  let* b := Node_invert b in
  let* b := Node_clipTo b a in
  let* b := Node_invert b in
  let* a := Node_build fuel a (Node_allPolygons b) in
  let* a := Node_invert a in
  ret (CSG_fromPolygons (Node_allPolygons a)).

Definition CSG_intersect (fuel : nat) (this csg : CSG) : M S CSG :=
  let* ca := CSG_clone this in
  let* a := Node_new fuel (CSG_polygons ca) in
  let* cb := CSG_clone csg in
  let* b := Node_new fuel (CSG_polygons cb) in
  let* a := Node_invert a in
  let* b := Node_clipTo b a in
  let* b := Node_invert b in
  let* a := Node_clipTo a b in
  let* b := Node_clipTo b a in
  let* a := Node_build fuel a (Node_allPolygons b) in
  let* a := Node_invert a in
  ret (CSG_fromPolygons (Node_allPolygons a)).

Definition CSG_inverse (this : CSG) : M S CSG :=
  let* csg := CSG_clone this in
  let* _ := Array_forEach Polygon_flip (CSG_polygons csg) in
  ret csg.
End CSGMethods.

(** ** cube *)

Section Cube.
Context {S : Type}.
Local Open Scope float_scope.

Definition cube_info : list (list Z * Vector) :=
  [ ([0; 4; 6; 2]%Z, mkVector (-1) 0 0);
    ([1; 3; 7; 5]%Z, mkVector 1 0 0);
    ([0; 1; 5; 4]%Z, mkVector 0 (-1) 0);
    ([2; 6; 7; 3]%Z, mkVector 0 1 0);
    ([0; 2; 3; 1]%Z, mkVector 0 0 (-1));
    ([4; 5; 7; 6]%Z, mkVector 0 0 1) ].

(** [Number(!!(i & m))] *)
Definition bit (i m : Z) : number :=
  if (Z.land i m =? 0)%Z then 0 else 1.

(** [cube({center: c, radius: r})] with [r] given per axis. *)
Definition cube (c r : Vector) : M S CSG :=
  let* polygons :=
    Array_map (fun info : list Z * Vector =>
            let* vertices :=
              Array_map (fun i =>
                      Vertex_new
                        (mkVector
                           (Vector_x c + Vector_x r * (2 * bit i 1 - 1))
                           (Vector_y c + Vector_y r * (2 * bit i 2 - 1))
                           (Vector_z c + Vector_z r * (2 * bit i 4 - 1)))
                        info.2)
                   info.1 in
            Polygon_new vertices None)
         cube_info in
  ret (CSG_fromPolygons polygons).
End Cube.

(** ** Reading the heap: observations used in the statements *)

Section Observations.
Context {S : Type}.

(** The vertex objects of a list of references. *)
Definition vertexObjects (h : Heap S) (vertices : list ref)
    : option (list Vertex) :=
  mapM (M := option) (fun v => vertexStore h !! v) vertices.

(** The positions of the vertices of polygon [r], in order. *)
Definition positions (h : Heap S) (r : ref) : option (list Vector) :=
  p ← polygonStore h !! r;
  xs ← vertexObjects h (Polygon_vertices p);
  Some (map Vertex_pos xs).

(** The type that [splitPolygon] computes for polygon [r]. *)
Definition polygonTypeIn (h : Heap S) (this : Plane) (r : ref) : option Z :=
  p ← polygonStore h !! r;
  xs ← vertexObjects h (Polygon_vertices p);
  Some (polygonTypeOf (map (fun x => Plane_classify this (Vertex_pos x)) xs)).

(** [this.normal.dot(polygon.plane.normal) > 0] *)
Definition facing (h : Heap S) (this : Plane) (r : ref) : bool :=
  match polygonStore h !! r with
  | Some p => (0 <? Vector_dot (Plane_normal this)
                      (Plane_normal (Polygon_plane p)))%float
  | None => false
  end.
End Observations.

(** *** Shapes of trees *)

(** Every node of the tree has a plane. *)
Fixpoint planed (n : Node) : bool :=
  match Node_plane n with Some _ => true | None => false end
  && match Node_front n with Some c => planed c | None => true end
  && match Node_back n with Some c => planed c | None => true end.

Definition children_planed (n : Node) : bool :=
  match Node_front n with Some c => planed c | None => true end
  && match Node_back n with Some c => planed c | None => true end.

(** The tree with every plane flipped and every pair of children swapped:
    what [invert] makes of the nodes. *)
Fixpoint Node_mirror (n : Node) : Node :=
  mkNode (Plane_flip <$> Node_plane n)
         match Node_back n with Some c => Some (Node_mirror c) | None => None end
         match Node_front n with Some c => Some (Node_mirror c) | None => None end
         (Node_polygons n).

(** ** The vocabulary of the statements *)

(** *** Where splitPolygon puts a polygon it does not split *)

(** The array that receives a polygon of type [t] that is not spanning. *)
Definition routed {S F : Type} (this : Plane) (h : Heap S) (r : ref) (t : Z)
    (coplanarFront coplanarBack front back : OutArray F) : OutArray F :=
  if (t =? COPLANAR)%Z
  then if facing h this r then coplanarFront else coplanarBack
  else if (t =? FRONT)%Z then front else back.

(** *** What splitPolygon returns for a polygon it splits *)

(** [q] is the polygon made of a chain of the split of [p]. *)
Definition fragment {S : Type} (chain : list ref) (p q : Polygon S) : Prop :=
  Polygon_vertices q = chain /\ Polygon_shared q = Polygon_shared p.

(** What [splitPolygon] returns for a spanning polygon [p], in terms of the
    two chains [f] and [b] of its loop: the polygons allocated, in order,
    and the frame of the caller. *)
Definition spanning_result {S F : Type} (this : Plane) (h : Heap S)
    (p : Polygon S) (front back : OutArray F) (fr : F)
    (result : Res F * Heap S) : Prop :=
  exists types f b h1 new fr',
    Plane_types this (Polygon_vertices p) h = (Ok types, h)
    /\ Plane_splitChains this (Polygon_vertices p) types h = (Ok (f, b), h1)
    /\ polygonStore h1 = polygonStore h
    /\ result = (Ok fr', mkHeap (vertexStore h1) (polygonStore h ++ new))
    /\ let n := length (polygonStore h) in
       match (3 <=? length f), (3 <=? length b) with
       | true, true =>
           exists qf qb, new = [qf; qb] /\ fragment f p qf /\ fragment b p qb
                         /\ fr' = push back (Datatypes.S n) (push front n fr)
       | true, false =>
           exists qf, new = [qf] /\ fragment f p qf /\ fr' = push front n fr
       | false, true =>
           exists qb, new = [qb] /\ fragment b p qb /\ fr' = push back n fr
       | false, false => new = [] /\ fr' = fr
       end.

(** [m] allocates and writes vertices only. *)
Definition keeps_polygons {S A : Type} (m : M S A) : Prop :=
  forall h, polygonStore (m h).2 = polygonStore h.

(** *** Flipping: the effect of Polygon.flip on the heap *)

(** A family of updates [act i], applied for every index of a list, one
    after the other. *)
Definition acts {X : Type} (act : nat -> X -> X) (l : list nat) (x : X) : X :=
  fold_left (fun x i => act i x) l x.

(** [alter f] at every index of [l], one after the other. *)
Definition alters {A : Type} (f : A -> A) (l : list nat) (st : list A)
    : list A :=
  acts (alter f) l st.

Definition Vertex_flipped (x : Vertex) : Vertex :=
  mkVertex (Vertex_pos x) (Vector_negated (Vertex_normal x)).

Definition Polygon_flipped {S : Type} (p : Polygon S) : Polygon S :=
  mkPolygon (rev (Polygon_vertices p)) (Polygon_shared p)
            (Plane_flip (Polygon_plane p)).

(** The heap after [polygon.flip()] on the polygon at [r]. *)
Definition flipHeap {S : Type} (r : ref) (h : Heap S) : Heap S :=
  match polygonStore h !! r with
  | Some p =>
      mkHeap (alters Vertex_flipped (rev (Polygon_vertices p)) (vertexStore h))
             (alter Polygon_flipped r (polygonStore h))
  | None => h
  end.

(** The heap after flipping the polygons of a list, one after the other. *)
Definition flipsHeap {S : Type} (l : list ref) (h : Heap S) : Heap S :=
  acts flipHeap l h.

(** *** Ownership: which objects a call may touch

    [nv] and [np] split each store in two: the objects below belong to the
    caller, the objects from there on to the operation under way.  With
    [nv = np = 0] every object belongs to the operation, and [good] only
    says that references are not dangling. *)

Section OwnershipVocabulary.
Context {S : Type}.
Variables (nv np : nat).
Implicit Types (h : Heap S).

Definition goodv h (v : ref) : Prop :=
  nv <= v /\ v < length (vertexStore h).

Definition good h (r : ref) : Prop :=
  np <= r
  /\ match polygonStore h !! r with
     | Some p => Forall (goodv h) (Polygon_vertices p)
     | None => False
     end.

Definition roomy h : Prop :=
  nv <= length (vertexStore h) /\ np <= length (polygonStore h).

Record evolves h h' : Prop := mkEvolves {
  ev_vertices : length (vertexStore h) <= length (vertexStore h');
  ev_polygons : length (polygonStore h) <= length (polygonStore h');
  ev_vertex_kept : forall v, v < nv -> vertexStore h' !! v = vertexStore h !! v;
  ev_polygon_kept :
    forall r, r < np -> polygonStore h' !! r = polygonStore h !! r;
  ev_good : forall r, good h r -> good h' r
}.

(** [spec total h m Q]: run from a heap [h] with room for the caller's
    objects, [m] only touches objects of the operation, and its result
    satisfies [Q] in the final heap; when [total] is set, it does not
    throw. *)
Definition spec {A} (total : bool) h (m : M S A) (Q : Heap S -> A -> Prop)
    : Prop :=
  roomy h ->
  evolves h (m h).2
  /\ match (m h).1 with
     | Ok a => Q (m h).2 a
     | Throw _ => total = false
     end.

(** Every polygon held in the tree belongs to the operation. *)
Definition good_tree h (n : Node) : Prop :=
  Forall (good h) (Node_allPolygons n).

Definition good_child h (c : option Node) : Prop :=
  from_option (good_tree h) True c.
End OwnershipVocabulary.

(** References that are not dangling: [good] with nothing set apart for a
    caller. *)
Definition valid_polygon {S : Type} (h : Heap S) (r : ref) : Prop :=
  good 0 0 h r.

Definition valid_tree {S : Type} (h : Heap S) (n : Node) : Prop :=
  good_tree 0 0 h n.

(** The same, as a test that runs. *)
Definition valid_polygonb {S : Type} (h : Heap S) (r : ref) : bool :=
  match polygonStore h !! r with
  | Some p =>
      forallb (fun v => v <? length (vertexStore h)) (Polygon_vertices p)
  | None => false
  end.

(** Every object of [h] is in [h'], at the same reference and with the same
    fields. *)
Definition unchanged {S : Type} (h h' : Heap S) : Prop :=
  (forall v x, vertexStore h !! v = Some x -> vertexStore h' !! v = Some x)
  /\ (forall r p, polygonStore h !! r = Some p ->
                  polygonStore h' !! r = Some p).

(** *** The sequence of union

    The clips and inversions of [union], on the two trees, in the words of
    the specification: [a.clipTo(b); b.clipTo(a); b.invert(); b.clipTo(a);
    b.invert(); a.build(b.allPolygons())]. *)
Definition clip_sequence {S : Type} (fuel : nat) (a b : Node) : M S Node :=
  let* a := Node_clipTo a b in
  let* b := Node_clipTo b a in
  let* b := Node_invert b in
  let* b := Node_clipTo b a in
  let* b := Node_invert b in
  Node_build fuel a (Node_allPolygons b).

(** *** Faces: polygons read as values

    A polygon with the vertex objects of its array, in order, its shared
    tag and its plane. *)
Record Face (S : Type) := mkFace {
  Face_vertices : list Vertex;
  Face_shared : option S;
  Face_plane : Plane
}.
Arguments mkFace {S} _ _ _.
Arguments Face_vertices {S} _.
Arguments Face_shared {S} _.
Arguments Face_plane {S} _.

Definition faceOf {S : Type} (h : Heap S) (r : ref) : option (Face S) :=
  p ← polygonStore h !! r;
  xs ← vertexObjects h (Polygon_vertices p);
  Some (mkFace xs (Polygon_shared p) (Polygon_plane p)).

(** The plane that the constructor of [Polygon] derives from the vertex
    objects of its array: [Plane.fromPoints] of the first three positions. *)
Definition facePlane (xs : list Vertex) : Plane :=
  match xs with
  | x0 :: x1 :: x2 :: _ =>
      Plane_fromPoints (Vertex_pos x0) (Vertex_pos x1) (Vertex_pos x2)
  | _ => mkPlane (mkVector 0%float 0%float 0%float) 0%float
  end.

(** The face that [new Polygon(vertices, shared)] makes of the vertices and
    the tag of a face. *)
Definition Face_rebuilt {S : Type} (f : Face S) : Face S :=
  mkFace (Face_vertices f) (Face_shared f) (facePlane (Face_vertices f)).

(** The face after [flip]: the vertices in reverse order with their normals
    negated, the plane flipped. *)
Definition Face_flipped {S : Type} (f : Face S) : Face S :=
  mkFace (rev (map Vertex_flipped (Face_vertices f))) (Face_shared f)
         (Plane_flip (Face_plane f)).

(** The heap after [clone] on a polygon of face [f]: the vertex objects of
    the face once more, and then a polygon on these. *)
Definition cloneHeap {S : Type} (f : Face S) (h : Heap S) : Heap S :=
  mkHeap (vertexStore h ++ Face_vertices f)
         (polygonStore h
          ++ [mkPolygon (seq (length (vertexStore h))
                             (length (Face_vertices f)))
                        (Face_shared f) (facePlane (Face_vertices f))]).

(** [clone] succeeds on polygon [r]: it is in the heap with its vertices,
    and has at least three of them. *)
Definition clonable {S : Type} (h : Heap S) (r : ref) : bool :=
  match faceOf h r with
  | Some f => 3 <=? length (Face_vertices f)
  | None => false
  end.

(** Polygon [q] of [h'] was allocated after [h], and so were its vertices,
    which are all different. *)
Definition fresh {S : Type} (h h' : Heap S) (q : ref) : Prop :=
  length (polygonStore h) <= q
  /\ match polygonStore h' !! q with
     | Some p' =>
         Forall (fun v => length (vertexStore h) <= v) (Polygon_vertices p')
         /\ NoDup (Polygon_vertices p')
     | None => False
     end.

(** Polygon [q] of [h'] is a fresh polygon whose face is [g] of the face
    that polygon [r] had in [h]. *)
Definition made_from {S : Type} (g : Face S -> Face S) (h h' : Heap S)
    (r q : ref) : Prop :=
  exists f, faceOf h r = Some f /\ faceOf h' q = Some (g f) /\ fresh h h' q.

(** A deep copy: same vertex data in the same order, same tag, and the plane
    of the first three vertices. *)
Definition copy_of {S : Type} (h h' : Heap S) (r q : ref) : Prop :=
  made_from Face_rebuilt h h' r q.

(** The corner of index [i] of the cuboid of centre [c] and radius [r], and
    the face that [cube] makes for one line of its table. *)
Definition cube_corner (c r : Vector) (i : Z) : Vector :=
  mkVector
    (Vector_x c + Vector_x r * (2 * bit i 1 - 1))%float
    (Vector_y c + Vector_y r * (2 * bit i 2 - 1))%float
    (Vector_z c + Vector_z r * (2 * bit i 4 - 1))%float.

Definition cube_face {S : Type} (c r : Vector) (info : list Z * Vector)
    : Face S :=
  Face_rebuilt
    (mkFace (map (fun i => mkVertex (cube_corner c r i) info.2) info.1)
            None (facePlane [])).

(** The vertex references of the polygons of a list, one polygon after the
    other. *)
Definition vertexRefs {S : Type} (h : Heap S) (ps : list ref) : list ref :=
  ps ≫= (fun r => match polygonStore h !! r with
                  | Some p => Polygon_vertices p
                  | None => []
                  end).

(** No polygon is twice in the list, and no vertex is used twice by the
    polygons of the list. *)
Definition separate {S : Type} (h : Heap S) (ps : list ref) : Prop :=
  NoDup ps /\ NoDup (vertexRefs h ps).

(** Tree [t] copies tree [n] node by node: same plane, polygons that are
    deep copies, children that are copies. *)
Fixpoint Node_copy {S : Type} (h h' : Heap S) (n t : Node) : Prop :=
  Node_plane t = Node_plane n
  /\ Forall2 (copy_of h h') (Node_polygons n) (Node_polygons t)
  /\ match Node_front n, Node_front t with
     | Some c, Some c' => Node_copy h h' c c'
     | None, None => True
     | _, _ => False
     end
  /\ match Node_back n, Node_back t with
     | Some c, Some c' => Node_copy h h' c c'
     | None, None => True
     | _, _ => False
     end.

(** [h'] is [h] with the polygons of [ps] and their vertices flipped, each
    one once, and nothing else changed. *)
Definition flipped_once {S : Type} (h h' : Heap S) (ps : list ref) : Prop :=
  (forall r, polygonStore h' !! r
             = if decide (r ∈ ps)
               then Polygon_flipped <$> polygonStore h !! r
               else polygonStore h !! r)
  /\ (forall v, vertexStore h' !! v
                = if decide (v ∈ vertexRefs h ps)
                  then Vertex_flipped <$> vertexStore h !! v
                  else vertexStore h !! v).

(** *** Shared tags: where the tag of a polygon comes from

    [h0] is the heap at the start of an operation and [src] the polygons
    that the operation is given. *)
Section TagVocabulary.
Context {S : Type}.
Variables (h0 : Heap S) (src : list ref).

(** The tag of one of the polygons given, as it was at the start. *)
Definition tag_ok (s : option S) : Prop :=
  exists r p, r ∈ src /\ polygonStore h0 !! r = Some p
              /\ Polygon_shared p = s.

(** A polygon that the operation may read: one it was given, or one made
    since the start. *)
Definition known (r : ref) : Prop :=
  length (polygonStore h0) <= r \/ r ∈ src.

(** A polygon made since the start. *)
Definition made (r : ref) : Prop := length (polygonStore h0) <= r.

(** The polygons that were there at the start are as they were, and every
    polygon made since carries the tag of one of the polygons given. *)
Definition tagged (h : Heap S) : Prop :=
  length (polygonStore h0) <= length (polygonStore h)
  /\ forall r p, polygonStore h !! r = Some p ->
       if decide (r < length (polygonStore h0))
       then polygonStore h0 !! r = Some p
       else tag_ok (Polygon_shared p).

(** [m] keeps the heap [tagged], and its result satisfies [Q]. *)
Definition tspec {A : Type} (m : M S A) (Q : A -> Prop) : Prop :=
  forall h, tagged h ->
    tagged (m h).2
    /\ match (m h).1 with Ok a => Q a | Throw _ => True end.
End TagVocabulary.

(** *** The chains of a split, counted

    What one turn of the loop of [case SPANNING] pushes, for a vertex of
    type [ti] followed by a vertex of type [tj]: to the chain [f], to the
    chain [b], and to both at once (a vertex in the plane, the point where
    the edge crosses the plane). *)
Definition pushedFront (ti tj : Z) : nat :=
  (if (ti =? BACK)%Z then 0 else 1)
  + (if (Z.lor ti tj =? SPANNING)%Z then 1 else 0).

Definition pushedBack (ti tj : Z) : nat :=
  (if (ti =? FRONT)%Z then 0 else 1)
  + (if (Z.lor ti tj =? SPANNING)%Z then 1 else 0).

Definition pushedBoth (ti tj : Z) : nat :=
  (if (ti =? COPLANAR)%Z then 1 else 0)
  + (if (Z.lor ti tj =? SPANNING)%Z then 1 else 0).

(** The sum of [w ti tj] over the turns of the loop on the types [l], the
    last vertex being followed by [first]. *)
Fixpoint turns (w : Z -> Z -> nat) (first : Z) (l : list Z) : nat :=
  match l with
  | [] => 0
  | ti :: m => w ti (hd first m) + turns w first m
  end.

(** *** Types and the flipped plane *)

(** The type with FRONT and BACK exchanged. *)
Definition flipType (t : Z) : Z :=
  if (t =? FRONT)%Z then BACK else if (t =? BACK)%Z then FRONT else t.

(** A binary64 number up to the sign of zero. *)
Definition unsigned_zero (x : spec_float) : spec_float :=
  match x with
  | S754_zero _ => S754_zero false
  | _ => x
  end.

(** *** Live polygons

    The polygons of a list are in the heap with their vertices; no polygon
    is twice in the list and no vertex object is used twice by them. *)
Definition live {S : Type} (h : Heap S) (l : list ref) : Prop :=
  Forall (valid_polygon h) l /\ separate h l.

(** The same, as a test that runs. *)
Definition liveb {S : Type} (h : Heap S) (l : list ref) : bool :=
  forallb (valid_polygonb h) l
  && bool_decide (NoDup l) && bool_decide (NoDup (vertexRefs h l)).

(** The chains while the loop runs: no vertex twice in the two chains
    together; every vertex of a chain is in the heap and is one of the
    vertices [old] of the polygon, or one made since the loop began, when
    the heap had [nv0] vertices. *)
Definition chains_ok {S : Type} (nv0 : nat) (old : list ref)
    (fb : list ref * list ref) (h : Heap S) : Prop :=
  NoDup (fb.1 ++ fb.2)
  /\ Forall (fun v => v < length (vertexStore h)) (fb.1 ++ fb.2)
  /\ Forall (fun v => v ∈ old \/ nv0 <= v) (fb.1 ++ fb.2)
  /\ nv0 <= length (vertexStore h).

(** *** What no method does *)

(** [m] takes every heap to a heap that [R] relates to it, whatever the
    outcome of [m]. *)
Definition steps {S A : Type} (R : Heap S -> Heap S -> Prop) (m : M S A)
    : Prop :=
  forall h, R h (m h).2.

(** Every object of [h] stays in [h']: a vertex with its position, and
    with its normal or the opposite normal; a polygon with its shared tag,
    with its vertices in the same order or in reverse order, and with its
    plane or the flipped plane. *)
Definition settled {S : Type} (h h' : Heap S) : Prop :=
  (forall v x, vertexStore h !! v = Some x ->
               vertexStore h' !! v = Some x
               \/ vertexStore h' !! v = Some (Vertex_flipped x))
  /\ (forall r p, polygonStore h !! r = Some p ->
        exists p', polygonStore h' !! r = Some p'
          /\ Polygon_shared p' = Polygon_shared p
          /\ (Polygon_vertices p' = Polygon_vertices p
              \/ Polygon_vertices p' = rev (Polygon_vertices p))
          /\ (Polygon_plane p' = Polygon_plane p
              \/ Polygon_plane p' = Plane_flip (Polygon_plane p))).

(** The vertices that come from the vertices [old]: those of [old], a
    vertex with its normal negated, and the vertex [interpolate] makes of
    two vertices. *)
Inductive derived (old : list Vertex) : Vertex -> Prop :=
  | derived_old x : x ∈ old -> derived old x
  | derived_flipped x : derived old x -> derived old (Vertex_flipped x)
  | derived_between x y t :
      derived old x -> derived old y ->
      derived old
        (mkVertex (Vector_lerp (Vertex_pos x) (Vertex_pos y) t)
                  (Vector_lerp (Vertex_normal x) (Vertex_normal y) t)).

(** Every vertex of [h'] comes from the vertices of [h]. *)
Definition derives {S : Type} (h h' : Heap S) : Prop :=
  Forall (derived (vertexStore h)) (vertexStore h').

(** *** Degenerate triangles *)

(** A zero or a NaN. *)
Definition zero_or_nan (x : number) : bool :=
  match Prim2SF x with
  | S754_zero _ | S754_nan => true
  | _ => false
  end.

(** The cross product that [Plane.fromPoints] normalises has no component
    other than zeros and NaN: the three points coincide or are aligned, as
    far as the arithmetic can tell. *)
Definition degenerate (a b c : Vector) : bool :=
  let n := Vector_cross (Vector_minus b a) (Vector_minus c a) in
  zero_or_nan (Vector_x n) && zero_or_nan (Vector_y n)
  && zero_or_nan (Vector_z n).

(** *** Polygons that no plane of a tree cuts *)

(** The planes of the nodes of a tree. *)
Fixpoint Node_planes (n : Node) : list Plane :=
  match Node_plane n with Some plane => [plane] | None => [] end
  ++ match Node_front n with Some c => Node_planes c | None => [] end
  ++ match Node_back n with Some c => Node_planes c | None => [] end.

(** [splitPolygon] does not split polygon [r]: its type is not SPANNING. *)
Definition whole {S : Type} (h : Heap S) (plane : Plane) (r : ref) : bool :=
  match polygonTypeIn h plane r with
  | Some t => negb (t =? SPANNING)%Z
  | None => false
  end.

(** No plane of the tree splits a polygon of the list. *)
Definition all_whole {S : Type} (h : Heap S) (n : Node) (ps : list ref)
    : bool :=
  forallb (fun r => forallb (fun plane => whole h plane r) (Node_planes n))
          ps.

(** Polygon [r] has type [t] for the plane. *)
Definition hasType {S : Type} (h : Heap S) (plane : Plane) (t : Z) (r : ref)
    : bool :=
  match polygonTypeIn h plane r with
  | Some t' => (t' =? t)%Z
  | None => false
  end.

(** [clipPolygons] puts polygon [r] in its list [front]: the polygon is in
    front of the plane, or in the plane and facing the way of the plane. *)
Definition toFront {S : Type} (h : Heap S) (plane : Plane) (r : ref) : bool :=
  match polygonTypeIn h plane r with
  | Some t => (t =? FRONT)%Z || ((t =? COPLANAR)%Z && facing h plane r)
  | None => false
  end.

(** The walk of a whole polygon down a tree, to the front where it is in
    front and to the back otherwise, ends where a front child is missing
    (or at a node without plane): the polygon is outside the solid. *)
Fixpoint outside {S : Type} (h : Heap S) (n : Node) (r : ref) : bool :=
  match Node_plane n with
  | None => true
  | Some plane =>
      if toFront h plane r
      then match Node_front n with Some c => outside h c r | None => true end
      else match Node_back n with Some c => outside h c r | None => false end
  end.

(** Polygon [r] is on one side of the plane: all in front, all behind, or
    in the plane with a normal that points to one side of it. *)
Definition oneSided {S : Type} (h : Heap S) (plane : Plane) (r : ref) : bool :=
  hasType h plane FRONT r || hasType h plane BACK r
  || (hasType h plane COPLANAR r
      && (facing h plane r || facing h (Plane_flip plane) r)).

(** *** Building

    The plane that [build] splits by at the node it is called on: the plane
    of the node, or for a node without plane the plane of the first polygon
    of the list. *)
Definition splitting_plane {S : Type} (h : Heap S) (n : Node)
    (ps : list ref) : option Plane :=
  match Node_plane n with
  | Some plane => Some plane
  | None => p0 ← head ps; p ← polygonStore h !! p0; Some (Polygon_plane p)
  end.

(** *** Calls that only allocate *)

(** Whatever its outcome, [m] leaves every object of the heap as it was. *)
Definition grows {S A : Type} (m : M S A) : Prop :=
  forall h, unchanged h (m h).2.

(** Whenever [m] returns, its result satisfies [Q]. *)
Definition returns {S A : Type} (m : M S A) (Q : A -> Prop) : Prop :=
  forall h a h', m h = (Ok a, h') -> Q a.

(** *** Shapes of trees, compared *)

(** Same planes, same children, node by node; the polygons may differ. *)
Fixpoint same_shape (n t : Node) : Prop :=
  Node_plane t = Node_plane n
  /\ match Node_front n, Node_front t with
     | Some c, Some c' => same_shape c c'
     | None, None => True
     | _, _ => False
     end
  /\ match Node_back n, Node_back t with
     | Some c, Some c' => same_shape c c'
     | None, None => True
     | _, _ => False
     end.

(** [t] is [n] with polygons pushed after those it had and subtrees added
    or extended: a plane of [n] is the plane of [t], a child of [n] is
    extended in [t]. *)
Fixpoint Node_extends (n t : Node) : Prop :=
  (forall plane, Node_plane n = Some plane -> Node_plane t = Some plane)
  /\ Node_polygons n `prefix_of` Node_polygons t
  /\ match Node_front n with
     | Some c => match Node_front t with
                 | Some c' => Node_extends c c'
                 | None => False
                 end
     | None => True
     end
  /\ match Node_back n with
     | Some c => match Node_back t with
                 | Some c' => Node_extends c c'
                 | None => False
                 end
     | None => True
     end.

(** *** Planes that cut alike

    Two numbers that are the same, or two zeros of either sign; planes and
    vectors with such components. *)
Definition same_or_zeros (x y : number) : Prop :=
  x = y \/ (is_zero x = true /\ is_zero y = true).

Definition Vector_alike (a b : Vector) : Prop :=
  same_or_zeros (Vector_x a) (Vector_x b)
  /\ same_or_zeros (Vector_y a) (Vector_y b)
  /\ same_or_zeros (Vector_z a) (Vector_z b).

Definition Plane_alike (p q : Plane) : Prop :=
  Vector_alike (Plane_normal p) (Plane_normal q)
  /\ same_or_zeros (Plane_w p) (Plane_w q).

(** No coordinate of the vector is infinite or NaN. *)
Definition finite_vector (v : Vector) : Prop :=
  is_finite (Vector_x v) = true /\ is_finite (Vector_y v) = true
  /\ is_finite (Vector_z v) = true.

(** [t] of [splitPolygon], for the edge from [a] to [b]:
    [(this.w - this.normal.dot(vi.pos)) / this.normal.dot(vj.pos.minus(vi.pos))] *)
Definition Plane_cut (this : Plane) (a b : Vector) : number :=
  ((Plane_w this - Vector_dot (Plane_normal this) a)
   / Vector_dot (Plane_normal this) (Vector_minus b a))%float.

(** The same on the specification of binary64: the same number, or two
    zeros; and the numbers that are infinite or NaN. *)
Definition spec_alike (a b : spec_float) : Prop :=
  a = b \/ exists s s', a = S754_zero s /\ b = S754_zero s'.

Definition spec_wild (a : spec_float) : Prop :=
  a = S754_nan \/ exists s, a = S754_infinity s.

(** *** Two heaps with the same objects at other references

    Two runs of the same calls from two heaps: [v0] and [p0] pair the
    vertices and the polygons that the two heaps have at the start, below
    [nv] and [np] in the first heap and below [nv'] and [np'] in the
    second; an object made later by one run is paired with the object that
    the other run makes at the same step.  Paired vertices have the same
    fields; the planes of paired polygons and of the nodes of two trees are
    related by [alikeP]. *)
Section AlikeVocabulary.
Context {S : Type}.
Variables (v0 p0 : ref -> ref -> Prop) (nv nv' np np' : nat).
Variable alikeP : Plane -> Plane -> Prop.
Variable sound : Vector -> Prop.

Definition samev (a b : ref) : Prop :=
  v0 a b \/ (nv <= a /\ a + nv' = b + nv).

Definition samep (a b : ref) : Prop :=
  p0 a b \/ (np <= a /\ a + np' = b + np).

(** The pairs of the start are between objects of the start, and pair
    each object with one object at most. *)
Definition base_ok : Prop :=
  (forall a b, v0 a b -> a < nv /\ b < nv')
  /\ (forall a b b', v0 a b -> v0 a b' -> b = b')
  /\ (forall a a' b, v0 a b -> v0 a' b -> a = a')
  /\ (forall a b, p0 a b -> a < np /\ b < np')
  /\ (forall a b b', p0 a b -> p0 a b' -> b = b')
  /\ (forall a a' b, p0 a b -> p0 a' b -> a = a').

(** Two polygons with paired vertices, the same tag and planes alike. *)
Definition same_polygon (p p' : Polygon S) : Prop :=
  Forall2 samev (Polygon_vertices p) (Polygon_vertices p')
  /\ Polygon_shared p = Polygon_shared p'
  /\ alikeP (Polygon_plane p) (Polygon_plane p').

(** Two pairs of chains of [splitPolygon], vertex by vertex. *)
Definition same_chains (fb fb' : list ref * list ref) : Prop :=
  Forall2 samev fb.1 fb'.1 /\ Forall2 samev fb.2 fb'.2.

(** The two heaps have grown by as many objects since the start, paired
    vertices have the same position and normal, and paired polygons are
    the same on paired vertices. *)
Definition alike (h h' : Heap S) : Prop :=
  nv <= length (vertexStore h)
  /\ length (vertexStore h) + nv' = length (vertexStore h') + nv
  /\ np <= length (polygonStore h)
  /\ length (polygonStore h) + np' = length (polygonStore h') + np
  /\ (forall a b x, samev a b -> vertexStore h !! a = Some x ->
                    vertexStore h' !! b = Some x)
  /\ (forall a b p, samep a b -> polygonStore h !! a = Some p ->
        exists p', polygonStore h' !! b = Some p' /\ same_polygon p p').

(** The planes of two nodes: two planes alike, or none. *)
Definition same_plane (o o' : option Plane) : Prop :=
  match o, o' with
  | Some p, Some q => alikeP p q
  | None, None => True
  | _, _ => False
  end.

(** Two trees of the same shape, with planes alike and paired polygons. *)
Fixpoint Node_alike (n n' : Node) : Prop :=
  same_plane (Node_plane n) (Node_plane n')
  /\ Forall2 samep (Node_polygons n) (Node_polygons n')
  /\ match Node_front n, Node_front n' with
     | Some c, Some c' => Node_alike c c'
     | None, None => True
     | _, _ => False
     end
  /\ match Node_back n, Node_back n' with
     | Some c, Some c' => Node_alike c c'
     | None, None => True
     | _, _ => False
     end.

(** Two children of two nodes: two trees alike, or none. *)
Definition same_child (c c' : option Node) : Prop :=
  match c, c' with
  | Some n, Some n' => Node_alike n n'
  | None, None => True
  | _, _ => False
  end.

(** The vertices made since the start are at sound positions. *)
Definition sound_heap (h : Heap S) : Prop :=
  forall v x, nv <= v -> vertexStore h !! v = Some x -> sound (Vertex_pos x).

(** [h'], if sound, comes from a sound heap [h]. *)
Definition sound_before (h h' : Heap S) : Prop :=
  sound_heap h' -> sound_heap h.

(** Whenever [m] returns from a heap where [P] holds, to a sound heap, [m']
    returns from every heap that is alike, the two final heaps are alike,
    and [Q] relates the results. *)
Definition follows {A : Type} (P : Heap S -> Prop) (Q : A -> A -> Prop)
    (m m' : M S A) : Prop :=
  forall h h', alike h h' -> P h ->
    forall a h1, m h = (Ok a, h1) -> sound_heap h1 ->
      exists a' h1', m' h' = (Ok a', h1') /\ alike h1 h1' /\ Q a a'.
End AlikeVocabulary.

(** *** Pairs of objects at the start of two runs *)

(** [a] and [b] are at the same place in the two lists. *)
Definition paired {A : Type} (l l' : list A) (a b : A) : Prop :=
  exists i, l !! i = Some a /\ l' !! i = Some b.

(** [a] and [b] are at the same place in the vertex lists of two polygons
    at the same place in the two lists. *)
Definition paired_vertices {S : Type} (h h' : Heap S) (l l' : list ref)
    (a b : ref) : Prop :=
  exists r r' p p',
    paired l l' r r'
    /\ polygonStore h !! r = Some p /\ polygonStore h' !! r' = Some p'
    /\ paired (Polygon_vertices p) (Polygon_vertices p') a b.

(** An object of the list, paired with itself. *)
Definition kept {A : Type} (l : list A) (a b : A) : Prop :=
  a = b /\ a ∈ l.

(** *** Polygons flipped in place *)

(** [hf] holds the polygons of the list flipped. *)
Definition flipped_in {S : Type} (h hf : Heap S) (ps : list ref) : Prop :=
  Forall (fun r => exists f, faceOf h r = Some f
                             /\ faceOf hf r = Some (Face_flipped f)) ps.

(** No polygon of the list is split by the plane of a polygon of the
    list. *)
Definition never_split {S : Type} (h : Heap S) (ps : list ref) : Prop :=
  forall r r' p, r ∈ ps -> r' ∈ ps -> polygonStore h !! r = Some p ->
                 whole h (Polygon_plane p) r' = true.

(** *** Solids that [subtract] and the complement identity treat alike *)

(** The plane of the first three vertices turns with the polygon: computed
    on the vertices as [flip] leaves them, it is the flipped plane of the
    vertices as they are, but for the sign of the components that are
    zero. *)
Definition plane_turns {S : Type} (h : Heap S) (r : ref) : Prop :=
  match faceOf h r with
  | Some f => Plane_alike (Plane_flip (facePlane (Face_vertices f)))
                          (facePlane (Face_vertices (Face_flipped f)))
  | None => False
  end.

(** No polygon of the list is split by the plane of the first three
    vertices of a polygon of the list. *)
Definition uncut {S : Type} (h : Heap S) (ps : list ref) : bool :=
  forallb (fun r => match faceOf h r with
                    | Some f =>
                        forallb (whole h (facePlane (Face_vertices f))) ps
                    | None => false
                    end) ps.

(** No vertex of [h] from reference [n] on has an infinite or NaN
    coordinate. *)
Definition finite_since {S : Type} (n : nat) (h : Heap S) : bool :=
  forallb (fun x => is_finite (Vector_x (Vertex_pos x))
                    && is_finite (Vector_y (Vertex_pos x))
                    && is_finite (Vector_z (Vertex_pos x)))
          (drop n (vertexStore h)).

(** ** Concrete scenes *)

Section Scenes.
Local Open Scope float_scope.

(** The plane z = 0 facing up, and a triangle lying in it that faces down
    (its vertices turn clockwise seen from above). *)
Definition ground : Plane := mkPlane (mkVector 0 0 1) 0.

Definition down_triangle_heap : Heap nat :=
  mkHeap
    [ mkVertex (mkVector 0 0 0) (mkVector 0 0 (-1));
      mkVertex (mkVector 0 1 0) (mkVector 0 0 (-1));
      mkVertex (mkVector 1 0 0) (mkVector 0 0 (-1)) ]
    [ mkPolygon [0; 1; 2]%nat None
        (Plane_fromPoints (mkVector 0 0 0) (mkVector 0 1 0)
                          (mkVector 1 0 0)) ].

(** The plane x = 0 of the tests of [splitPolygon], and their triangle on
    the side x = 1. *)
Definition yz_plane : Plane :=
  Plane_fromPoints (mkVector 0 0 0) (mkVector 0 1 0) (mkVector 0 0 1).

Definition front_triangle_heap : Heap nat :=
  mkHeap
    [ mkVertex (mkVector 1 0 0) (mkVector 1 0 0);
      mkVertex (mkVector 1 1 0) (mkVector 1 0 0);
      mkVertex (mkVector 1 0 1) (mkVector 1 0 0) ]
    [ mkPolygon [0; 1; 2]%nat None
        (Plane_fromPoints (mkVector 1 0 0) (mkVector 1 1 0)
                          (mkVector 1 0 1)) ].

(** The frame of a caller that passes four different arrays, as the tests
    do: [(coplanarFront, coplanarBack, front, back)]. *)
Definition Lists : Type := list ref * list ref * list ref * list ref.
Definition lists_coplanarFront : OutArray Lists :=
  mkOutArray (fun p fr => (fr.1.1.1 ++ [p], fr.1.1.2, fr.1.2, fr.2)).
Definition lists_coplanarBack : OutArray Lists :=
  mkOutArray (fun p fr => (fr.1.1.1, fr.1.1.2 ++ [p], fr.1.2, fr.2)).
Definition lists_front : OutArray Lists :=
  mkOutArray (fun p fr => (fr.1.1.1, fr.1.1.2, fr.1.2 ++ [p], fr.2)).
Definition lists_back : OutArray Lists :=
  mkOutArray (fun p fr => (fr.1.1.1, fr.1.1.2, fr.1.2, fr.2 ++ [p])).

(** The cube of the tests, [cube({center: [1, 1, 1], radius: 1})], made in an
    empty heap, and the tree [new Node(polygons)] built from its faces. *)
Definition unit_cube : Res CSG * Heap nat :=
  cube (mkVector 1 1 1) (mkVector 1 1 1) (mkHeap [] []).

Definition unit_cube_heap : Heap nat := unit_cube.2.

Definition unit_cube_faces : list ref := [0; 1; 2; 3; 4; 5]%nat.

Definition unit_cube_built : Res Node * Heap nat :=
  Node_new 6 unit_cube_faces unit_cube_heap.

Definition unit_cube_tree : Node :=
  match unit_cube_built.1 with Ok t => t | Throw _ => Node_empty end.

(** The square of the test "Plane.splitPolygon down the middle": it lies in
    the plane z = 0 and is cut in two by the plane x = 0. *)
Definition square_heap : Heap nat :=
  mkHeap
    [ mkVertex (mkVector (-1) 1 0) (mkVector 0 0 1);
      mkVertex (mkVector (-1) (-1) 0) (mkVector 0 0 1);
      mkVertex (mkVector 1 (-1) 0) (mkVector 0 0 1);
      mkVertex (mkVector 1 1 0) (mkVector 0 0 1) ]
    [ mkPolygon [0; 1; 2; 3]%nat None
        (Plane_fromPoints (mkVector (-1) 1 0) (mkVector (-1) (-1) 0)
                          (mkVector 1 (-1) 0)) ].

Definition square : Polygon nat :=
  mkPolygon [0; 1; 2; 3]%nat None
    (Plane_fromPoints (mkVector (-1) 1 0) (mkVector (-1) (-1) 0)
                      (mkVector 1 (-1) 0)).

(** [new Polygon(points.map(p => new Vertex(p, normal)))] *)
Definition face (normal : Vector) (points : list Vector) : M nat ref :=
  let* vertices := Array_map (fun p => Vertex_new p normal) points in
  Polygon_new vertices None.

(** The cube from 0 to 2 along every axis, with one more vertex on its face
    x = 0: the point (0, 2, 1), in the middle of the edge from (0, 2, 2) to
    (0, 2, 0).  The face is still a flat convex loop and its first three
    vertices are not aligned; its last three are. *)
Definition notched_cube : M nat CSG :=
  let* p0 := face (mkVector (-1) 0 0)
               [mkVector 0 0 0; mkVector 0 0 2; mkVector 0 2 2;
                mkVector 0 2 1; mkVector 0 2 0] in
  let* p1 := face (mkVector 1 0 0)
               [mkVector 2 0 0; mkVector 2 2 0; mkVector 2 2 2;
                mkVector 2 0 2] in
  let* p2 := face (mkVector 0 (-1) 0)
               [mkVector 0 0 0; mkVector 2 0 0; mkVector 2 0 2;
                mkVector 0 0 2] in
  let* p3 := face (mkVector 0 1 0)
               [mkVector 0 2 0; mkVector 0 2 2; mkVector 2 2 2;
                mkVector 2 2 0] in
  let* p4 := face (mkVector 0 0 (-1))
               [mkVector 0 0 0; mkVector 0 2 0; mkVector 2 2 0;
                mkVector 2 0 0] in
  let* p5 := face (mkVector 0 0 1)
               [mkVector 0 0 2; mkVector 2 0 2; mkVector 2 2 2;
                mkVector 0 2 2] in
  ret (CSG_fromPolygons [p0; p1; p2; p3; p4; p5]).

(** The notched cube and the cube of centre (1.5, 1.5, 1.5) and radius 1,
    in one heap. *)
Definition two_cubes : Res (CSG * CSG) * Heap nat :=
  (let* a := notched_cube in
   let* b := cube (mkVector 1.5 1.5 1.5) (mkVector 1 1 1) in
   ret (a, b)) (mkHeap [] []).

Definition two_cubes_heap : Heap nat := two_cubes.2.
Definition two_cubes_A : CSG := CSG_fromPolygons [0; 1; 2; 3; 4; 5]%nat.
Definition two_cubes_B : CSG := CSG_fromPolygons [6; 7; 8; 9; 10; 11]%nat.

Definition centre_same : Vector := mkVector 1 1 1.
Definition centre_overlapping : Vector := mkVector 1.5 1.5 1.5.
Definition centre_far : Vector := mkVector 10 10 10.

(** The two cubes of the tests, made in an empty heap, and an operator
    applied to them; the number of polygons of the result. *)
Definition on_test_cubes (centre : Vector)
    (op : nat -> CSG -> CSG -> M nat CSG) : Res CSG * Heap nat :=
  (let* a := cube (mkVector 1 1 1) (mkVector 1 1 1) in
   let* b := cube centre (mkVector 1 1 1) in
   op 20%nat a b) (mkHeap [] []).

Definition polygon_count (result : Res CSG * Heap nat) : option nat :=
  match result.1 with
  | Ok c => Some (length (CSG_polygons c))
  | Throw _ => None
  end.

(** [inverse(union(inverse(A), B))] *)
Definition inverse_union_inverse {S : Type} (fuel : nat) (A B : CSG)
    : M S CSG :=
  let* iA := CSG_inverse A in
  let* u := CSG_union fuel iA B in
  CSG_inverse u.
(** The faces of the cube pushed once more into the tree built from them. *)
Definition unit_cube_rebuilt : Res Node * Heap nat :=
  Node_build 6 unit_cube_tree unit_cube_faces unit_cube_built.2.

Definition unit_cube_twice : Node :=
  match unit_cube_rebuilt.1 with Ok t => t | Throw _ => Node_empty end.
(** The clone of the cube, and the tree built from the clone. *)
Definition unit_cube_clone : Res CSG * Heap nat :=
  CSG_clone (CSG_fromPolygons unit_cube_faces) unit_cube_heap.

Definition unit_cube_clone_faces : list ref := [6; 7; 8; 9; 10; 11]%nat.

Definition unit_cube_clone_built : Res Node * Heap nat :=
  Node_new 6 unit_cube_clone_faces unit_cube_clone.2.

Definition unit_cube_clone_tree : Node :=
  match unit_cube_clone_built.1 with Ok t => t | Throw _ => Node_empty end.
(** The union of the two cubes. *)
Definition two_cubes_union : Res CSG * Heap nat :=
  CSG_union 20 two_cubes_A two_cubes_B two_cubes_heap.

Definition two_cubes_united : CSG :=
  match two_cubes_union.1 with Ok c => c | Throw _ => mkCSG [] end.
(** Three points on a line. *)
Definition aligned_a : Vector := mkVector 0 0 0.
Definition aligned_b : Vector := mkVector 1 0 0.
Definition aligned_c : Vector := mkVector 2 0 0.
(** The two cubes of the tests that overlap at a corner, in one heap; the
    first less the second, by [subtract] and by the complement identity. *)
Definition corner_cubes : Res (CSG * CSG) * Heap nat :=
  (let* a := cube (mkVector 1 1 1) (mkVector 1 1 1) in
   let* b := cube centre_overlapping (mkVector 1 1 1) in
   ret (a, b)) (mkHeap [] []).

Definition corner_cubes_heap : Heap nat := corner_cubes.2.
Definition corner_cubes_A : CSG := CSG_fromPolygons [0; 1; 2; 3; 4; 5]%nat.
Definition corner_cubes_B : CSG :=
  CSG_fromPolygons [6; 7; 8; 9; 10; 11]%nat.

Definition corner_cubes_subtract : Res CSG * Heap nat :=
  CSG_subtract 20 corner_cubes_A corner_cubes_B corner_cubes_heap.

Definition corner_cubes_complement : Res CSG * Heap nat :=
  inverse_union_inverse 20 corner_cubes_A corner_cubes_B corner_cubes_heap.

Definition solid_of (result : Res CSG * Heap nat) : CSG :=
  match result.1 with Ok c => c | Throw _ => mkCSG [] end.
End Scenes.

(** * Verification *)

(** ** The model against the tests of the repository *)

Example test_union_corner_overlapping_cubes :
  polygon_count (on_test_cubes centre_overlapping CSG_union) = Some 24.
Proof. vm_compute. reflexivity. Qed.

Example test_intersection_non_overlapping_cubes :
  polygon_count (on_test_cubes centre_far CSG_intersect) = Some 0.
Proof. vm_compute. reflexivity. Qed.

Example test_intersection_corner_overlapping_cubes :
  polygon_count (on_test_cubes centre_overlapping CSG_intersect)
  = Some 6.
Proof. vm_compute. reflexivity. Qed.

Example test_intersection_incident_cubes :
  polygon_count (on_test_cubes centre_same CSG_intersect) = Some 6.
Proof. vm_compute. reflexivity. Qed.

Example test_union_disjoint_cubes :
  polygon_count (on_test_cubes centre_far CSG_union) = Some 12.
Proof. vm_compute. reflexivity. Qed.

Example unit_cube_made :
  unit_cube = (Ok (CSG_fromPolygons unit_cube_faces), unit_cube_heap).
Proof. vm_compute. reflexivity. Qed.

Example two_cubes_made :
  two_cubes = (Ok (two_cubes_A, two_cubes_B), two_cubes_heap).
Proof. vm_compute. reflexivity. Qed.

(** ** Numbers: the two facts about binary64 the proofs rely on *)

Lemma float_opp_involutive (a : number) : (- - a)%float = a.
Proof.
  apply Prim2SF_inj. rewrite !opp_spec.
  destruct (Prim2SF a) as [s|s| |s m e]; simpl;
    try rewrite negb_involutive; reflexivity.
Qed.

Lemma EPSILON_spec :
  Prim2SF EPSILON = S754_finite false 5902958103587057 (-69).
Proof. vm_compute. reflexivity. Qed.

(** [t < -EPSILON] and [t > EPSILON] exclude each other. *)
Lemma float_back_front_exclusive (t : number) :
  (t <? - EPSILON)%float = true -> (EPSILON <? t)%float = false.
Proof.
  rewrite !ltb_spec, opp_spec, EPSILON_spec.
  unfold SFltb.
  destruct (Prim2SF t) as [s|s| |s m e]; cbn [SFopp SFcompare negb].
  - destruct s; intros H; reflexivity.
  - destruct s; intros H; try reflexivity. discriminate H.
  - reflexivity.
  - destruct s; [reflexivity|]. intros H. discriminate H.
Qed.

Lemma Vector_negated_involutive (v : Vector) :
  Vector_negated (Vector_negated v) = v.
Proof.
  destruct v. unfold Vector_negated. simpl.
  by rewrite !float_opp_involutive.
Qed.

Lemma Plane_flip_involutive (pl : Plane) : Plane_flip (Plane_flip pl) = pl.
Proof.
  destruct pl. unfold Plane_flip. simpl.
  by rewrite Vector_negated_involutive, float_opp_involutive.
Qed.

(** ** The monad *)

Section MonadLemmas.
Context {S : Type}.

Lemma bind_Ok {A B} (m : M S A) (k : A -> M S B) h a h' :
  m h = (Ok a, h') -> (let* x := m in k x) h = k a h'.
Proof. unfold bind. by intros ->. Qed.

Lemma bind_assoc {A B C} (m : M S A) (k1 : A -> M S B) (k2 : B -> M S C) h :
  (let* y := (let* x := m in k1 x) in k2 y) h
  = (let* x := m in let* y := k1 x in k2 y) h.
Proof. unfold bind. by destruct (m h) as [[a|e] h1]. Qed.

Lemma bind_ext {A B} (m : M S A) (k1 k2 : A -> M S B) h :
  (forall a h', k1 a h' = k2 a h') ->
  (let* x := m in k1 x) h = (let* x := m in k2 x) h.
Proof. intros H. unfold bind. destruct (m h) as [[a|e] h1]; auto. Qed.

Lemma index_Some {A} (a : list A) i x h :
  a !! i = Some x -> index (S := S) a i h = (Ok x, h).
Proof. unfold index. by intros ->. Qed.

Lemma getVertex_Some (h : Heap S) v x :
  vertexStore h !! v = Some x -> getVertex v h = (Ok x, h).
Proof. unfold getVertex. by intros ->. Qed.

Lemma getPolygon_Some (h : Heap S) r p :
  polygonStore h !! r = Some p -> getPolygon r h = (Ok p, h).
Proof. unfold getPolygon. by intros ->. Qed.

End MonadLemmas.

(** Run the next call of a [let*] with an equation for it. *)
Ltac run_with H := rewrite (bind_Ok _ _ _ _ _ H).

(** ** Reading vertices and the type of a polygon *)

Section Reading.
Context {S : Type}.

Lemma vertexObjects_cons (h : Heap S) v vs x xs :
  vertexStore h !! v = Some x -> vertexObjects h vs = Some xs ->
  vertexObjects h (v :: vs) = Some (x :: xs).
Proof. unfold vertexObjects. simpl. by intros -> ->. Qed.

Lemma vertexObjects_cons_inv (h : Heap S) v vs ys :
  vertexObjects h (v :: vs) = Some ys ->
  exists x xs, ys = x :: xs /\ vertexStore h !! v = Some x
               /\ vertexObjects h vs = Some xs.
Proof.
  unfold vertexObjects. simpl.
  destruct (vertexStore h !! v) as [x|]; [|done]. simpl.
  destruct (mapM _ vs) as [xs|]; [|done]. simpl.
  intros [= <-]. eauto.
Qed.

Lemma vertexObjects_length (h : Heap S) vs xs :
  vertexObjects h vs = Some xs -> length xs = length vs.
Proof.
  revert xs. induction vs as [|v vs IH]; intros xs H.
  - by injection H as <-.
  - apply vertexObjects_cons_inv in H as (x & xs' & -> & _ & H).
    simpl. f_equal. by apply IH.
Qed.

Lemma vertexObjects_lookup (h : Heap S) vs xs i v :
  vertexObjects h vs = Some xs -> vs !! i = Some v ->
  exists x, xs !! i = Some x /\ vertexStore h !! v = Some x.
Proof.
  revert xs i. induction vs as [|v' vs IH]; intros xs i H Hi; [done|].
  apply vertexObjects_cons_inv in H as (x & xs' & -> & Hx & H).
  destruct i as [|i]; simpl in *.
  - injection Hi as <-. eauto.
  - eauto.
Qed.

Lemma Plane_types_Ok (this : Plane) (h : Heap S) vs xs :
  vertexObjects h vs = Some xs ->
  Plane_types this vs h
  = (Ok (map (fun x => Plane_classify this (Vertex_pos x)) xs), h).
Proof.
  revert xs. induction vs as [|v vs IH]; intros xs H.
  - by injection H as <-.
  - apply vertexObjects_cons_inv in H as (x & xs' & -> & Hx & H).
    unfold Plane_types in *. simpl.
    rewrite bind_assoc.
    rewrite (bind_Ok _ _ _ _ _ (getVertex_Some _ _ _ Hx)).
    rewrite (bind_Ok (ret _) _ h _ h eq_refl).
    by rewrite (bind_Ok _ _ _ _ _ (IH _ H)).
Qed.

(** The type of a polygon is one of the four codes. *)
Lemma polygonTypeOf_range (this : Plane) (ps : list Vector) :
  let t := polygonTypeOf (map (Plane_classify this) ps) in
  t = COPLANAR \/ t = FRONT \/ t = BACK \/ t = SPANNING.
Proof.
  unfold polygonTypeOf.
  assert (G : forall acc, (acc = 0 \/ acc = 1 \/ acc = 2 \/ acc = 3)%Z ->
    let t := fold_left Z.lor (map (Plane_classify this) ps) acc in
    (t = 0 \/ t = 1 \/ t = 2 \/ t = 3)%Z).
  { induction ps as [|p ps IH]; intros acc Hacc; simpl; [done|].
    apply IH. unfold Plane_classify.
    destruct (_ <? _)%float; [|destruct (_ <? _)%float];
      unfold BACK, FRONT, COPLANAR;
      destruct Hacc as [->|[->|[->| ->]]]; simpl; auto. }
  apply G. auto.
Qed.
End Reading.

(** ** Plane.splitPolygon on a polygon that is not split *)

Section SplitWhole.
Context {S F : Type}.
Implicit Types (h : Heap S) (fr : F).

Lemma polygonTypeIn_range this h r t :
  polygonTypeIn h this r = Some t ->
  t = COPLANAR \/ t = FRONT \/ t = BACK \/ t = SPANNING.
Proof.
  unfold polygonTypeIn.
  destruct (polygonStore h !! r) as [p|]; [simpl|done].
  destruct (vertexObjects h (Polygon_vertices p)) as [xs|]; [simpl|done].
  intros [= <-]. rewrite <- (map_map Vertex_pos (Plane_classify this)).
  apply polygonTypeOf_range.
Qed.

Lemma splitPolygon_whole this h r t cF cB fo bo fr :
  polygonTypeIn h this r = Some t -> t <> SPANNING ->
  Plane_splitPolygon this r cF cB fo bo fr h
  = (Ok (push (routed this h r t cF cB fo bo) r fr), h).
Proof.
  intros Ht Hns. pose proof (polygonTypeIn_range _ _ _ _ Ht) as Hr.
  unfold polygonTypeIn in Ht. unfold routed, facing.
  destruct (polygonStore h !! r) as [p|] eqn:Hp; [simpl in Ht|done].
  destruct (vertexObjects h (Polygon_vertices p)) as [xs|] eqn:Hxs;
    [simpl in Ht|done].
  injection Ht as Ht. unfold Plane_splitPolygon.
  run_with (getPolygon_Some _ _ _ Hp).
  run_with (Plane_types_Ok this _ _ _ Hxs).
  rewrite Ht.
  destruct Hr as [->|[->|[->| ->]]]; try done.
Qed.
End SplitWhole.

(** ** Induction on BSP trees *)

Lemma Node_induction (P : Node -> Prop) :
  (forall plane front back polygons,
      from_option P True front -> from_option P True back ->
      P (mkNode plane front back polygons)) ->
  forall n, P n.
Proof.
  intros H. fix IH 1. intros [plane front back polygons].
  apply H; [destruct front | destruct back]; simpl; auto.
Qed.

(** ** Node.clipPolygons on coplanar polygons *)

Section ClipCoplanar.
Context {S : Type}.
Implicit Types (h : Heap S).

(** The loop of [clipPolygons] on polygons that all lie in the plane:
    those facing the way of the plane join [front], the others [back]. *)
Lemma clip_loop_coplanar (plane : Plane) h ps f b :
  Forall (fun r => polygonTypeIn h plane r = Some COPLANAR) ps ->
  Array_fold
    (fun fr p => Plane_splitPolygon plane p
                   clip_front clip_back clip_front clip_back fr)
    ps (f, b) h
  = (Ok (f ++ List.filter (facing h plane) ps,
         b ++ List.filter (fun r => negb (facing h plane r)) ps), h).
Proof.
  intros Hall. revert f b.
  induction Hall as [|r ps Hr _ IH]; intros f b; simpl.
  - by rewrite !app_nil_r.
  - run_with (splitPolygon_whole plane h r COPLANAR
                clip_front clip_back clip_front clip_back (f, b) Hr
                ltac:(done)).
    unfold routed. simpl.
    destruct (facing h plane r); simpl; rewrite IH;
      by rewrite <- ?app_assoc.
Qed.
End ClipCoplanar.

(** ** Claims on splitPolygon and clipPolygons *)

(** C4. [splitPolygon] gives every vertex the code BACK when its signed
    distance [t = dot(normal, pos) - w] is below [-EPSILON], FRONT when it is
    above [EPSILON], COPLANAR otherwise; the type of the polygon is the
    bitwise OR of these codes, one of 0, 1, 2, 3; a polygon whose type is not
    SPANNING is pushed, as the same object and with the heap untouched, to
    one output array: [front] for FRONT, [back] for BACK, and for COPLANAR
    [coplanarFront] when [dot(normal, polygon.plane.normal) > 0] and
    [coplanarBack] otherwise. *)
Theorem splitPolygon_classification {S F : Type} (this : Plane) (h : Heap S)
    (r : ref) (p : Polygon S) (xs : list Vertex)
    (coplanarFront coplanarBack front back : OutArray F) (fr : F) :
  polygonStore h !! r = Some p ->
  vertexObjects h (Polygon_vertices p) = Some xs ->
  let code (x : Vertex) : Z :=
    let t := (Vector_dot (Plane_normal this) (Vertex_pos x)
              - Plane_w this)%float in
    if (t <? - EPSILON)%float then 2%Z
    else if (EPSILON <? t)%float then 1%Z else 0%Z in
  let polygonType := fold_left Z.lor (map code xs) 0%Z in
  let result := Plane_splitPolygon this r coplanarFront coplanarBack
                  front back fr h in
  (forall x, let t := Plane_distance this (Vertex_pos x) in
     ((t <? - EPSILON)%float = true ->
        Plane_classify this (Vertex_pos x) = BACK
        /\ (EPSILON <? t)%float = false)
     /\ ((EPSILON <? t)%float = true ->
        Plane_classify this (Vertex_pos x) = FRONT)
     /\ ((t <? - EPSILON)%float = false -> (EPSILON <? t)%float = false ->
        Plane_classify this (Vertex_pos x) = COPLANAR))
  /\ polygonTypeIn h this r = Some polygonType
  /\ (polygonType = 0 \/ polygonType = 1 \/ polygonType = 2
      \/ polygonType = 3)%Z
  /\ (polygonType = COPLANAR ->
      result
      = (Ok (push (if (0 <? Vector_dot (Plane_normal this)
                             (Plane_normal (Polygon_plane p)))%float
                   then coplanarFront else coplanarBack) r fr), h))
  /\ (polygonType = FRONT -> result = (Ok (push front r fr), h))
  /\ (polygonType = BACK -> result = (Ok (push back r fr), h)).
Proof.
  intros Hp Hxs code polygonType result.
  assert (Ht : polygonTypeIn h this r = Some polygonType).
  { unfold polygonTypeIn. rewrite Hp. simpl. rewrite Hxs. done. }
  split; [|split; [done|split; [exact (polygonTypeIn_range _ _ _ _ Ht)|]]].
  - intros x t. unfold Plane_classify. fold t. split; [|split].
    + intros Hb. rewrite Hb. split; [done|].
      by apply float_back_front_exclusive.
    + intros Hf. destruct (t <? - EPSILON)%float eqn:Hb; [|by rewrite Hf].
      apply float_back_front_exclusive in Hb. congruence.
    + by intros -> ->.
  - subst result. repeat split; intros Hty;
      rewrite (splitPolygon_whole this h r polygonType _ _ _ _ fr Ht)
        by (rewrite Hty; done);
      rewrite Hty; unfold routed, facing; simpl; by rewrite ?Hp.
Qed.

(** The triangle at x = 1 against the plane x = 0: pushed to [front]. *)
Lemma splitPolygon_classification_witness :
  Plane_splitPolygon yz_plane 0 lists_coplanarFront lists_coplanarBack
    lists_front lists_back ([], [], [], []) front_triangle_heap
  = (Ok ([], [], [0%nat], []), front_triangle_heap).
Proof.
  pose proof (splitPolygon_classification yz_plane front_triangle_heap 0
                _ _ lists_coplanarFront lists_coplanarBack lists_front
                lists_back ([], [], [], []) eq_refl eq_refl) as H.
  destruct H as (_ & _ & _ & _ & H & _). apply H. reflexivity.
Defined.

(** C1, as the code has it.  On a node with a plane, a polygon lying in the
    plane is handled as a front fragment when it faces the way of the plane
    ([dot(normal, polygon.plane.normal) > 0]) and as a back fragment
    otherwise: [clipPolygons] passes [front] for [coplanarFront] and [back]
    for [coplanarBack].  The first kind goes to the front child or, without
    one, is returned; the second kind goes to the back child or, without
    one, is discarded. *)
Theorem clipPolygons_coplanar {S : Type} (n : Node) (plane : Plane)
    (ps : list ref) (h : Heap S) :
  Node_plane n = Some plane ->
  Forall (fun r => polygonTypeIn h plane r = Some COPLANAR) ps ->
  let same := List.filter (facing h plane) ps in
  let opposite := List.filter (fun r => negb (facing h plane r)) ps in
  Node_clipPolygons n ps h
  = (let* front := match Node_front n with
                   | Some c => Node_clipPolygons c same
                   | None => ret same
                   end in
     let* back := match Node_back n with
                  | Some c => Node_clipPolygons c opposite
                  | None => ret []
                  end in
     ret (front ++ back)) h
  /\ (Node_front n = None -> Node_back n = None ->
      Node_clipPolygons n ps h = (Ok same, h)).
Proof.
  intros Hplane Hall same opposite.
  assert (E : Node_clipPolygons n ps h
              = (let* front := match Node_front n with
                               | Some c => Node_clipPolygons c same
                               | None => ret same
                               end in
                 let* back := match Node_back n with
                              | Some c => Node_clipPolygons c opposite
                              | None => ret []
                              end in
                 ret (front ++ back)) h).
  { destruct n as [pl front back polygons]. simpl in *. subst pl.
    by run_with (clip_loop_coplanar plane h ps [] [] Hall). }
  split; [exact E|]. intros Hf Hb. rewrite E, Hf, Hb.
  rewrite (bind_Ok (ret same) _ h _ h eq_refl).
  rewrite (bind_Ok (ret []) _ h _ h eq_refl).
  unfold ret. by rewrite app_nil_r.
Qed.

(** A node without children keeps nothing of the triangle that lies in its
    plane and faces the other way. *)
Lemma clipPolygons_coplanar_witness :
  Node_clipPolygons (mkNode (Some ground) None None []) [0%nat]
    down_triangle_heap
  = (Ok [], down_triangle_heap).
Proof.
  refine (proj2 (clipPolygons_coplanar
                   (mkNode (Some ground) None None []) ground [0%nat]
                   down_triangle_heap eq_refl _) eq_refl eq_refl).
  repeat constructor.
Defined.

(** C1, as stated, fails: the triangle lies in the plane of the node (its
    type is COPLANAR), the node has a plane and no back child, and the
    triangle is discarded by [clipPolygons]. *)
Lemma clipPolygons_discards_coplanar :
  polygonTypeIn down_triangle_heap ground 0 = Some COPLANAR
  /\ In 0%nat [0%nat]
  /\ exists kept,
       Node_clipPolygons (mkNode (Some ground) None None []) [0%nat]
         down_triangle_heap
       = (Ok kept, down_triangle_heap)
       /\ ~ In 0%nat kept.
Proof.
  split; [reflexivity|]. split; [by left|].
  exists []. split; [reflexivity | by intros []].
Qed.

(** C9. On a node without a plane [clipPolygons] returns the polygons it was
    given, the same objects in the same order, and leaves the heap as it
    was: nothing is modified, nothing is allocated. *)
Theorem clipPolygons_empty_tree {S : Type} (n : Node) (ps : list ref)
    (h : Heap S) :
  Node_plane n = None ->
  Node_clipPolygons n ps h = (Ok ps, h).
Proof. destruct n as [plane front back polygons]. simpl. by intros ->. Qed.

Lemma clipPolygons_empty_tree_witness :
  Node_clipPolygons Node_empty [0%nat; 0%nat; 5%nat] down_triangle_heap
  = (Ok [0%nat; 0%nat; 5%nat], down_triangle_heap).
Proof. apply clipPolygons_empty_tree. reflexivity. Defined.

(** C10. [build] with an empty list returns at once: plane, children and
    polygons of the node are as before, and so is the heap. *)
Theorem build_nil {S : Type} (fuel : nat) (n : Node) (h : Heap S) :
  Node_build fuel n [] h = (Ok n, h).
Proof. by destruct fuel. Qed.

(** ** Flipping *)

(** Updates that commute and undo themselves: applying them along two
    lists with the same elements gives back the start. *)
Section Actions.
Context {X : Type} (act : nat -> X -> X).
Hypothesis act_commute : forall i j x, act i (act j x) = act j (act i x).
Hypothesis act_undo : forall i x, act i (act i x) = x.

Lemma acts_app l1 l2 (x : X) : acts act (l1 ++ l2) x = acts act l2 (acts act l1 x).
Proof. apply fold_left_app. Qed.

Lemma acts_Permutation l1 l2 (x : X) :
  l1 ≡ₚ l2 -> acts act l1 x = acts act l2 x.
Proof using act_commute.
  intros Hp. revert x.
  induction Hp as [|i l1 l2 _ IH|i j l|l1 l2 l3 _ IH1 _ IH2]; intros x.
  - done.
  - apply IH.
  - unfold acts. simpl. f_equal. apply act_commute.
  - by rewrite IH1.
Qed.

Lemma acts_twice l (x : X) : acts act (l ++ l) x = x.
Proof using act_commute act_undo.
  revert x. induction l as [|i l IH]; intros x; [done|].
  rewrite (acts_Permutation ((i :: l) ++ i :: l) (i :: i :: (l ++ l))).
  - unfold acts in *. simpl. rewrite act_undo. apply IH.
  - simpl. constructor. by rewrite Permutation_middle.
Qed.

Lemma acts_undo l1 l2 (x : X) :
  l1 ≡ₚ l2 -> acts act l2 (acts act l1 x) = x.
Proof using act_commute act_undo.
  intros Hp. rewrite <- acts_app.
  rewrite (acts_Permutation (l1 ++ l2) (l1 ++ l1)) by (by rewrite Hp).
  apply acts_twice.
Qed.
End Actions.

Section Alters.
Context {A : Type} (f : A -> A).

Lemma alter_commute i j (st : list A) :
  alter f i (alter f j st) = alter f j (alter f i st).
Proof.
  destruct (decide (i = j)) as [->|Hne]; [done|].
  by apply list_alter_alter_ne.
Qed.

Lemma alters_app l1 l2 (st : list A) :
  alters f (l1 ++ l2) st = alters f l2 (alters f l1 st).
Proof. apply acts_app. Qed.

Lemma length_alters l (st : list A) : length (alters f l st) = length st.
Proof.
  revert st. induction l as [|i l IH]; intros st; simpl; [done|].
  unfold alters, acts in *. simpl. by rewrite IH, length_alter.
Qed.

Lemma alters_Permutation l1 l2 (st : list A) :
  l1 ≡ₚ l2 -> alters f l1 st = alters f l2 st.
Proof. apply acts_Permutation. intros. apply alter_commute. Qed.

(** Flipping along two lists with the same elements undoes itself. *)
Lemma alters_undo l1 l2 (st : list A) :
  (forall x, f (f x) = x) -> l1 ≡ₚ l2 ->
  alters f l2 (alters f l1 st) = st.
Proof.
  intros Hf. apply acts_undo.
  - intros. apply alter_commute.
  - intros i x. rewrite list_alter_alter_eq. by apply list_alter_id.
Qed.
End Alters.

Lemma Vertex_flipped_involutive (x : Vertex) :
  Vertex_flipped (Vertex_flipped x) = x.
Proof.
  destruct x. unfold Vertex_flipped. simpl.
  by rewrite Vector_negated_involutive.
Qed.

Lemma Polygon_flipped_involutive {S : Type} (p : Polygon S) :
  Polygon_flipped (Polygon_flipped p) = p.
Proof.
  destruct p. unfold Polygon_flipped. simpl.
  by rewrite rev_involutive, Plane_flip_involutive.
Qed.

Lemma insert_as_alter {A : Type} (f : A -> A) (l : list A) i x :
  l !! i = Some x -> <[i := f x]> l = alter f i l.
Proof.
  intros H. apply list_eq. intros j. destruct (decide (i = j)) as [<-|Hne].
  - rewrite list_lookup_insert_eq by (by eapply lookup_lt_Some).
    by rewrite list_lookup_alter_eq, H.
  - by rewrite list_lookup_insert_ne, list_lookup_alter_ne.
Qed.

Section Flip.
Context {S : Type}.
Implicit Types (h : Heap S).

Lemma Vertex_flip_Ok h v :
  v < length (vertexStore h) ->
  Vertex_flip v h
  = (Ok tt, mkHeap (alter Vertex_flipped v (vertexStore h)) (polygonStore h)).
Proof.
  intros Hv. destruct (lookup_lt_is_Some_2 _ _ Hv) as [x Hx].
  unfold Vertex_flip. run_with (getVertex_Some _ _ _ Hx).
  unfold setVertex. rewrite Hx. do 2 f_equal.
  by apply (insert_as_alter Vertex_flipped).
Qed.

Lemma forEach_Vertex_flip_Ok vs h :
  Forall (fun v => v < length (vertexStore h)) vs ->
  Array_forEach Vertex_flip vs h
  = (Ok tt, mkHeap (alters Vertex_flipped vs (vertexStore h))
                   (polygonStore h)).
Proof.
  revert h. induction vs as [|v vs IH]; intros h Hvs.
  - by destruct h.
  - inversion Hvs as [|? ? Hv Hvs']; subst. simpl.
    run_with (Vertex_flip_Ok h v Hv). rewrite IH; [done|].
    simpl. by rewrite length_alter.
Qed.

Lemma Polygon_flip_Ok h r p :
  polygonStore h !! r = Some p ->
  Forall (fun v => v < length (vertexStore h)) (Polygon_vertices p) ->
  Polygon_flip r h = (Ok tt, flipHeap r h).
Proof.
  intros Hp Hvs. unfold Polygon_flip, flipHeap. rewrite Hp.
  run_with (getPolygon_Some _ _ _ Hp).
  unfold setPolygon at 1. unfold bind at 1. rewrite Hp.
  erewrite bind_Ok
    by (apply forEach_Vertex_flip_Ok; simpl; by apply Forall_rev).
  simpl polygonStore.
  assert (Hr : r < length (polygonStore h)) by (by eapply lookup_lt_Some).
  unfold getPolygon, bind, setPolygon. simpl.
  rewrite list_lookup_insert_eq by done. simpl.
  rewrite list_lookup_insert_eq by done.
  rewrite list_insert_insert_eq. do 2 f_equal.
  by apply (insert_as_alter Polygon_flipped).
Qed.

Lemma polygonStore_flipHeap h r :
  polygonStore (flipHeap r h) = alter Polygon_flipped r (polygonStore h).
Proof.
  unfold flipHeap. destruct (polygonStore h !! r) eqn:E; [done|].
  symmetry. apply list_eq. intros i. rewrite list_lookup_alter.
  case_decide; [subst; by rewrite E | done].
Qed.

Lemma flipHeap_flipHeap h r : flipHeap r (flipHeap r h) = h.
Proof.
  unfold flipHeap at 1. rewrite polygonStore_flipHeap.
  rewrite list_lookup_alter_eq. unfold flipHeap.
  destruct (polygonStore h !! r) as [p|] eqn:Hp; simpl; [|done].
  rewrite rev_involutive, list_alter_alter_eq.
  rewrite (list_alter_id (Polygon_flipped ∘ Polygon_flipped))
    by (intros x; apply Polygon_flipped_involutive).
  rewrite alters_undo.
  - by destruct h.
  - apply Vertex_flipped_involutive.
  - by rewrite <- Permutation_rev.
Qed.
End Flip.

(** C7. Flipping a polygon twice restores it: after the second [flip] the
    vertex order, the plane (normal and w) and the normal of every vertex
    are as before the first; the whole heap is the one the calls started
    from.  Negation of binary64 numbers is exact, so no tolerance is
    involved. *)
Theorem Polygon_flip_twice {S : Type} (h : Heap S) (r : ref) (p : Polygon S) :
  polygonStore h !! r = Some p ->
  Forall (fun v => v < length (vertexStore h)) (Polygon_vertices p) ->
  (let* _ := Polygon_flip r in Polygon_flip r) h = (Ok tt, h)
  /\ exists h1, Polygon_flip r h = (Ok tt, h1)
       /\ polygonStore h1 !! r
          = Some (mkPolygon (rev (Polygon_vertices p)) (Polygon_shared p)
                            (Plane_flip (Polygon_plane p)))
       /\ Polygon_flip r h1 = (Ok tt, h).
Proof.
  intros Hp Hvs.
  pose proof (Polygon_flip_Ok h r p Hp Hvs) as H1.
  assert (H1p : polygonStore (flipHeap r h) !! r = Some (Polygon_flipped p)).
  { by rewrite polygonStore_flipHeap, list_lookup_alter_eq, Hp. }
  assert (H2 : Polygon_flip r (flipHeap r h) = (Ok tt, h)).
  { rewrite (Polygon_flip_Ok _ r _ H1p), flipHeap_flipHeap; [done|].
    unfold flipHeap. rewrite Hp. simpl. rewrite length_alters.
    by apply Forall_rev. }
  split.
  - by run_with H1.
  - exists (flipHeap r h). done.
Qed.

Lemma Polygon_flip_twice_witness :
  (let* _ := Polygon_flip 0 in Polygon_flip 0) front_triangle_heap
  = (Ok tt, front_triangle_heap).
Proof.
  refine (proj1 (Polygon_flip_twice front_triangle_heap 0 _ eq_refl _)).
  repeat (constructor; [simpl; lia|]). constructor.
Defined.

(** ** Ownership: which objects a call may touch *)

Section Ownership.
Context {S : Type}.
Variables (nv np : nat).
Implicit Types (h : Heap S).

Local Abbreviation goodv := (goodv nv).
Local Abbreviation good := (good nv np).
Local Abbreviation roomy := (roomy nv np).
Local Abbreviation evolves := (evolves nv np).
Local Abbreviation spec := (spec nv np).

Lemma evolves_refl h : evolves h h.
Proof. by constructor. Qed.

Lemma evolves_trans h1 h2 h3 : evolves h1 h2 -> evolves h2 h3 -> evolves h1 h3.
Proof.
  intros [? ? Hv1 Hp1 ?] [? ? Hv2 Hp2 ?]. constructor; try lia; auto.
  - intros v Hv. by rewrite Hv2, Hv1.
  - intros r Hr. by rewrite Hp2, Hp1.
Qed.

Lemma goodv_mono h h' v : evolves h h' -> goodv h v -> goodv h' v.
Proof. intros [] []. split; lia. Qed.

Lemma good_mono h h' r : evolves h h' -> good h r -> good h' r.
Proof. intros []. auto. Qed.

Lemma Forall_goodv_mono h h' vs :
  evolves h h' -> Forall (goodv h) vs -> Forall (goodv h') vs.
Proof.
  intros He H. eapply Forall_impl; [exact H|]. intros v. by apply goodv_mono.
Qed.

Lemma Forall_good_mono h h' rs :
  evolves h h' -> Forall (good h) rs -> Forall (good h') rs.
Proof.
  intros He H. eapply Forall_impl; [exact H|]. intros v. by apply good_mono.
Qed.

Lemma roomy_mono h h' : evolves h h' -> roomy h -> roomy h'.
Proof. intros [] []. split; lia. Qed.

Lemma spec_ret {A} total h (a : A) (Q : Heap S -> A -> Prop) :
  Q h a -> spec total h (ret a) Q.
Proof. intros HQ _. split; [apply evolves_refl | done]. Qed.

Lemma spec_throw {A} h e (Q : Heap S -> A -> Prop) :
  spec false h (throw e) Q.
Proof. intros _. split; [apply evolves_refl | done]. Qed.

Lemma spec_bind {A B} total h (m : M S A) (k : A -> M S B)
    (Q1 : Heap S -> A -> Prop) (Q2 : Heap S -> B -> Prop) :
  spec total h m Q1 ->
  (forall h' a, evolves h h' -> roomy h' -> Q1 h' a -> spec total h' (k a) Q2) ->
  spec total h (let* x := m in k x) Q2.
Proof.
  intros Hm Hk Hroom. destruct (Hm Hroom) as [He HQ].
  unfold bind. destruct (m h) as [[a|e] h1]; simpl in *; [|done].
  assert (Hroom1 : roomy h1) by (by eapply roomy_mono).
  destruct (Hk h1 a He Hroom1 HQ Hroom1) as [He2 HQ2].
  split; [by eapply evolves_trans | done].
Qed.

Lemma spec_weaken {A} total total' h (m : M S A)
    (Q Q' : Heap S -> A -> Prop) :
  spec total h m Q ->
  (total' = true -> total = true) ->
  (forall h' a, evolves h h' -> Q h' a -> Q' h' a) ->
  spec total' h m Q'.
Proof.
  intros Hm Ht HQ Hroom. destruct (Hm Hroom) as [He H]. split; [done|].
  destruct (m h).1; [by apply HQ|].
  destruct total'; [|done]. rewrite Ht in H; done.
Qed.

Lemma spec_Ok {A} h (m : M S A) (Q : Heap S -> A -> Prop) :
  roomy h -> spec true h m Q ->
  exists a h', m h = (Ok a, h') /\ evolves h h' /\ Q h' a.
Proof.
  intros Hroom Hm. destruct (Hm Hroom) as [He H].
  destruct (m h) as [[a|e] h']; simpl in *; [eauto | done].
Qed.

Lemma spec_fold {A B} total (f : B -> A -> M S B) (I : Heap S -> B -> Prop)
    (P : Heap S -> A -> Prop) l :
  (forall h h' a, evolves h h' -> P h a -> P h' a) ->
  (forall h b a, I h b -> P h a -> spec total h (f b a) I) ->
  forall h b, Forall (P h) l -> I h b -> spec total h (Array_fold f l b) I.
Proof.
  intros HP Hf. induction l as [|a l IH]; intros h b Hl Hb; simpl.
  - by apply spec_ret.
  - inversion Hl as [|? ? Ha Hl']; subst.
    eapply spec_bind; [by apply Hf|].
    intros h' b' He Hroom HI. apply IH; [|done].
    eapply Forall_impl; [exact Hl'|]. intros x. by apply HP.
Qed.

Lemma spec_map {A B} total (f : A -> M S B) (Q : Heap S -> B -> Prop)
    (P : Heap S -> A -> Prop) l :
  (forall h h' a, evolves h h' -> P h a -> P h' a) ->
  (forall h h' b, evolves h h' -> Q h b -> Q h' b) ->
  (forall h a, P h a -> spec total h (f a) Q) ->
  forall h, Forall (P h) l ->
    spec total h (Array_map f l)
      (fun h' bs => Forall (Q h') bs /\ length bs = length l).
Proof.
  intros HP HQ Hf. induction l as [|a l IH]; intros h Hl; simpl.
  - by apply spec_ret.
  - inversion Hl as [|? ? Ha Hl']; subst.
    eapply spec_bind; [by apply Hf|].
    intros h1 b He1 Hroom1 Hb.
    eapply spec_bind.
    + apply IH. eapply Forall_impl; [exact Hl'|]. intros x. by apply HP.
    + intros h2 bs He2 Hroom2 [Hbs Hlen]. apply spec_ret. split.
      * constructor; [by eapply HQ | done].
      * simpl. by rewrite Hlen.
Qed.

Lemma spec_forEach {A} total (f : A -> M S unit)
    (P : Heap S -> A -> Prop) l :
  (forall h h' a, evolves h h' -> P h a -> P h' a) ->
  (forall h a, P h a -> spec total h (f a) (fun _ _ => True)) ->
  forall h, Forall (P h) l ->
    spec total h (Array_forEach f l) (fun _ _ => True).
Proof.
  intros HP Hf. induction l as [|a l IH]; intros h Hl; simpl.
  - by apply spec_ret.
  - inversion Hl as [|? ? Ha Hl']; subst.
    eapply spec_bind; [by apply Hf|].
    intros h1 [] He1 Hroom1 _. apply IH.
    eapply Forall_impl; [exact Hl'|]. intros x. by apply HP.
Qed.
End Ownership.

Section Primitives.
Context {S : Type}.
Variables (nv np : nat).
Implicit Types (h : Heap S).

Local Abbreviation goodv := (goodv nv).
Local Abbreviation good := (good nv np).
Local Abbreviation evolves := (evolves nv np).
Local Abbreviation spec := (spec nv np).

Lemma good_lookup h r :
  good h r ->
  exists p, polygonStore h !! r = Some p
            /\ Forall (goodv h) (Polygon_vertices p).
Proof.
  intros [_ H]. destruct (polygonStore h !! r) as [p|]; [eauto | done].
Qed.

Lemma goodv_lookup h v : goodv h v -> exists x, vertexStore h !! v = Some x.
Proof. intros [_ H]. by apply lookup_lt_is_Some_2. Qed.

(** A heap that differs only by vertices added or rewritten in place, above
    [nv], has evolved. *)
Lemma evolves_vertices h vs' :
  length (vertexStore h) <= length vs' ->
  (forall v, v < nv -> vs' !! v = vertexStore h !! v) ->
  evolves h (mkHeap vs' (polygonStore h)).
Proof.
  intros Hlen Hkept. constructor; simpl; auto.
  intros r [Hr Hp]. split; [done|]. simpl.
  destruct (polygonStore h !! r) as [p|]; [|done].
  eapply Forall_impl; [exact Hp|]. intros v [? ?]. split; simpl; lia.
Qed.

Lemma spec_getVertex_any h v :
  spec false h (getVertex v) (fun h' _ => h' = h).
Proof.
  intros _. unfold getVertex.
  destruct (vertexStore h !! v); simpl; (split; [apply evolves_refl | done]).
Qed.

Lemma spec_getVertex h v :
  goodv h v ->
  spec true h (getVertex v)
    (fun h' x => h' = h /\ vertexStore h !! v = Some x).
Proof.
  intros Hv _. destruct (goodv_lookup h v Hv) as [x Hx].
  rewrite (getVertex_Some h v x Hx). simpl.
  split; [apply evolves_refl | done].
Qed.

Lemma spec_newVertex h x :
  spec true h (newVertex x) (fun h' v => goodv h' v).
Proof.
  intros [Hv Hp]. unfold newVertex. simpl. split.
  - apply evolves_vertices.
    + rewrite length_app. lia.
    + intros v Hlt. apply lookup_app_l. lia.
  - split; simpl; [done|]. rewrite length_app. simpl. lia.
Qed.

Lemma spec_setVertex h v x :
  goodv h v -> spec true h (setVertex v x) (fun _ _ => True).
Proof.
  intros Hv _. destruct (goodv_lookup h v Hv) as [y Hy].
  unfold setVertex. rewrite Hy. simpl. split; [|done].
  apply evolves_vertices.
  - by rewrite length_insert.
  - intros v' Hlt. apply list_lookup_insert_ne. destruct Hv. lia.
Qed.

Lemma spec_getPolygon_any h r :
  spec false h (getPolygon r) (fun h' _ => h' = h).
Proof.
  intros _. unfold getPolygon.
  destruct (polygonStore h !! r); simpl; (split; [apply evolves_refl | done]).
Qed.

Lemma spec_getPolygon h r :
  good h r ->
  spec true h (getPolygon r)
    (fun h' p => h' = h /\ polygonStore h !! r = Some p
                 /\ Forall (goodv h) (Polygon_vertices p)).
Proof.
  intros Hr _. destruct (good_lookup h r Hr) as (p & Hp & Hvs).
  rewrite (getPolygon_Some h r p Hp). simpl.
  split; [apply evolves_refl | done].
Qed.

Lemma spec_newPolygon h p :
  Forall (goodv h) (Polygon_vertices p) ->
  spec true h (newPolygon p) (fun h' r => good h' r).
Proof.
  intros Hvs [Hv Hp]. unfold newPolygon. simpl. split.
  - constructor; simpl; auto.
    + rewrite length_app. lia.
    + intros r Hlt. apply lookup_app_l. lia.
    + intros r [Hr Hg]. split; [done|]. simpl.
      destruct (polygonStore h !! r) as [q|] eqn:Hq; [|done].
      by rewrite (lookup_app_l_Some _ _ _ _ Hq).
  - split; simpl; [done|]. by rewrite list_lookup_middle.
Qed.

Lemma spec_setPolygon h r p :
  good h r -> Forall (goodv h) (Polygon_vertices p) ->
  spec true h (setPolygon r p) (fun _ _ => True).
Proof.
  intros Hr Hvs _. destruct (good_lookup h r Hr) as (q & Hq & _).
  unfold setPolygon. rewrite Hq. simpl. split; [|done].
  constructor; simpl; auto.
  - by rewrite length_insert.
  - intros r' Hlt. apply list_lookup_insert_ne. destruct Hr. lia.
  - intros r' [Hr' Hg]. split; [done|]. simpl.
    destruct (decide (r = r')) as [<-|Hne].
    + rewrite list_lookup_insert_eq by (by eapply lookup_lt_Some). done.
    + by rewrite list_lookup_insert_ne.
Qed.

Lemma spec_index {A} h (a : list A) i :
  spec false h (index a i)
    (fun h' x => h' = h /\ a !! i = Some x).
Proof.
  intros _. unfold index.
  destruct (a !! i); simpl; (split; [apply evolves_refl | done]).
Qed.

Lemma spec_index_total {A} h (a : list A) i :
  i < length a ->
  spec true h (index a i) (fun h' x => h' = h /\ a !! i = Some x).
Proof.
  intros Hi _. destruct (lookup_lt_is_Some_2 _ _ Hi) as [x Hx].
  rewrite (index_Some a i x h Hx). simpl.
  split; [apply evolves_refl | done].
Qed.

(** *** Vertex *)

Lemma spec_Vertex_new h pos normal :
  spec true h (Vertex_new pos normal) (fun h' v => goodv h' v).
Proof. apply spec_newVertex. Qed.

Lemma spec_Vertex_clone_any h v :
  spec false h (Vertex_clone v) (fun h' v' => goodv h' v').
Proof.
  eapply spec_bind; [apply spec_getVertex_any|].
  intros h' x _ _ ->.
  eapply spec_weaken; [apply spec_Vertex_new | done | auto].
Qed.

Lemma spec_Vertex_clone h v :
  goodv h v -> spec true h (Vertex_clone v) (fun h' v' => goodv h' v').
Proof.
  intros Hv. eapply spec_bind; [by apply spec_getVertex|].
  intros h' x _ _ [-> _]. apply spec_Vertex_new.
Qed.

Lemma spec_Vertex_flip h v :
  goodv h v -> spec true h (Vertex_flip v) (fun _ _ => True).
Proof.
  intros Hv. eapply spec_bind; [by apply spec_getVertex|].
  intros h' x _ _ [-> _]. by apply spec_setVertex.
Qed.

Lemma spec_Vertex_interpolate h v1 v2 t :
  goodv h v1 -> goodv h v2 ->
  spec true h (Vertex_interpolate v1 v2 t) (fun h' v' => goodv h' v').
Proof.
  intros H1 H2. eapply spec_bind; [by apply spec_getVertex|].
  intros h' x _ _ [-> _]. eapply spec_bind; [by apply spec_getVertex|].
  intros h' y _ _ [-> _]. apply spec_Vertex_new.
Qed.

(** *** Polygon *)

Lemma spec_Polygon_new h vs shared :
  Forall (goodv h) vs ->
  spec (3 <=? length vs) h (Polygon_new vs shared) (fun h' r => good h' r).
Proof.
  intros Hvs. unfold Polygon_new. destruct (3 <=? length vs) eqn:E.
  - apply Nat.leb_le in E. intros Hroom.
    assert (Hi : forall i, i < 3 ->
      exists r x, vs !! i = Some r /\ vertexStore h !! r = Some x).
    { intros i Hi.
      destruct (lookup_lt_is_Some_2 vs i) as [r Hr]; [lia|].
      destruct (goodv_lookup h r (Forall_lookup_1 _ _ _ _ Hvs Hr)) as [x Hx].
      eauto. }
    destruct (Hi 0) as (r0 & x0 & Hr0 & Hx0); [lia|].
    destruct (Hi 1) as (r1 & x1 & Hr1 & Hx1); [lia|].
    destruct (Hi 2) as (r2 & x2 & Hr2 & Hx2); [lia|].
    run_with (index_Some (S := S) vs 0 r0 h Hr0).
    run_with (getVertex_Some h r0 x0 Hx0).
    run_with (index_Some (S := S) vs 1 r1 h Hr1).
    run_with (getVertex_Some h r1 x1 Hx1).
    run_with (index_Some (S := S) vs 2 r2 h Hr2).
    run_with (getVertex_Some h r2 x2 Hx2).
    by apply spec_newPolygon.
  - eapply spec_bind; [apply spec_index|]. intros ? r0 _ _ [-> _].
    eapply spec_bind; [apply spec_getVertex_any|]. intros ? x0 _ _ ->.
    eapply spec_bind; [apply spec_index|]. intros ? r1 _ _ [-> _].
    eapply spec_bind; [apply spec_getVertex_any|]. intros ? x1 _ _ ->.
    eapply spec_bind; [apply spec_index|]. intros ? r2 _ _ [-> _].
    eapply spec_bind; [apply spec_getVertex_any|]. intros ? x2 _ _ ->.
    eapply spec_weaken; [by apply spec_newPolygon | done | auto].
Qed.
End Primitives.

Section PolygonSpecs.
Context {S : Type}.
Variables (nv np : nat).
Implicit Types (h : Heap S).

Local Abbreviation goodv := (goodv nv).
Local Abbreviation good := (good nv np).
Local Abbreviation evolves := (evolves nv np).
Local Abbreviation spec := (spec nv np).

(** [clone] reads a polygon of anyone and makes one of the operation. *)
Lemma spec_Polygon_clone h r :
  spec false h (Polygon_clone r) (fun h' q => good h' q).
Proof.
  eapply spec_bind; [apply spec_getPolygon_any|]. intros ? p _ _ ->.
  eapply spec_bind.
  - apply (spec_map nv np false Vertex_clone (fun h' v => goodv h' v)
             (fun _ _ => True)); auto.
    + intros h1 h2 v He. by apply (goodv_mono nv np).
    + intros h1 v _. apply spec_Vertex_clone_any.
    + by apply Forall_true.
  - intros h' vs _ _ [Hvs _].
    eapply spec_weaken; [by apply spec_Polygon_new | done | auto].
Qed.

Lemma spec_Polygon_flip h r :
  good h r -> spec true h (Polygon_flip r) (fun _ _ => True).
Proof.
  intros Hr. eapply spec_bind; [by apply spec_getPolygon|].
  intros ? p _ _ (-> & Hp & Hvs).
  eapply spec_bind; [apply spec_setPolygon; [done | by apply Forall_rev]|].
  intros h1 [] He1 _ _.
  eapply spec_bind.
  - apply (spec_forEach nv np true Vertex_flip (fun h' v => goodv h' v)).
    + intros ? ? v He. by apply (goodv_mono nv np).
    + intros ? v Hv. by apply spec_Vertex_flip.
    + apply Forall_rev. by eapply Forall_goodv_mono.
  - intros h2 [] He2 _ _.
    assert (Hr2 : good h2 r).
    { eapply good_mono; [|exact Hr]. by eapply evolves_trans. }
    eapply spec_bind; [by apply spec_getPolygon|].
    intros ? p' _ _ (-> & Hp' & Hvs').
    by apply spec_setPolygon.
Qed.

Lemma spec_Plane_types h (this : Plane) vs :
  Forall (goodv h) vs ->
  spec true h (Plane_types this vs)
    (fun h' types => length types = length vs).
Proof.
  intros Hvs. eapply spec_weaken.
  - apply (spec_map nv np true _ (fun _ _ => True)
             (fun h' v => goodv h' v)); [| |
      |exact Hvs]; auto.
    + intros ? ? v He. by apply (goodv_mono nv np).
    + intros h1 v Hv. eapply spec_bind; [by apply spec_getVertex|].
      intros ? x _ _ [-> _]. by apply spec_ret.
  - done.
  - by intros h' types _ [_ ?].
Qed.

Lemma spec_Plane_splitEdge h (this : Plane) vertices types f b i :
  Forall (goodv h) vertices -> Forall (goodv h) f -> Forall (goodv h) b ->
  length types = length vertices -> i < length vertices ->
  spec true h (Plane_splitEdge this vertices types (f, b) i)
    (fun h' fb => Forall (goodv h') fb.1 /\ Forall (goodv h') fb.2).
Proof.
  intros Hvs Hf Hb Hlen Hi. unfold Plane_splitEdge.
  assert (Hj : (i + 1) mod length vertices < length vertices)
    by (apply Nat.mod_upper_bound; lia).
  eapply spec_bind; [apply spec_index_total; lia|]. intros ? ti _ _ [-> _].
  eapply spec_bind; [apply spec_index_total; lia|]. intros ? tj _ _ [-> _].
  eapply spec_bind; [by apply spec_index_total|]. intros ? vi _ _ [-> Hvi].
  eapply spec_bind; [by apply spec_index_total|]. intros ? vj _ _ [-> Hvj].
  assert (Gi : goodv h vi) by exact (Forall_lookup_1 _ _ _ _ Hvs Hvi).
  assert (Gj : goodv h vj) by exact (Forall_lookup_1 _ _ _ _ Hvs Hvj).
  set (f' := if negb (ti =? BACK)%Z then f ++ [vi] else f).
  assert (Hf' : Forall (goodv h) f').
  { subst f'. destruct (negb _); [|done]. apply Forall_app. auto. }
  clearbody f'.
  eapply spec_bind with
    (Q1 := fun h' b' => Forall (goodv h') b').
  { destruct (negb (ti =? FRONT)%Z); [|by apply spec_ret].
    eapply spec_bind with (Q1 := fun h' v => goodv h' v).
    - destruct (negb (ti =? BACK)%Z);
        [by apply spec_Vertex_clone | by apply spec_ret].
    - intros h1 v He1 _ Hv. apply spec_ret. apply Forall_app. split.
      + by eapply Forall_goodv_mono.
      + by constructor. }
  intros h1 b' He1 _ Hb'.
  destruct (Z.lor ti tj =? SPANNING)%Z.
  - eapply spec_bind;
      [apply spec_getVertex; by eapply goodv_mono|].
    intros ? pi _ _ [-> _].
    eapply spec_bind;
      [apply spec_getVertex; by eapply goodv_mono|].
    intros ? pj _ _ [-> _].
    eapply spec_bind;
      [apply spec_Vertex_interpolate; by eapply goodv_mono|].
    intros h2 v He2 _ Hv.
    eapply spec_bind; [by apply spec_Vertex_clone|].
    intros h3 v' He3 _ Hv'. apply spec_ret. simpl. split.
    + apply Forall_app. split; [|constructor; [by eapply goodv_mono | done]].
      eapply Forall_goodv_mono; [|exact Hf'].
      eapply evolves_trans; [exact He1|]. by eapply evolves_trans.
    + apply Forall_app. split; [|by constructor].
      eapply Forall_goodv_mono; [|exact Hb']. by eapply evolves_trans.
  - apply spec_ret. simpl. split; [|done]. by eapply Forall_goodv_mono.
Qed.

Lemma spec_Plane_splitChains h (this : Plane) vertices types :
  Forall (goodv h) vertices -> length types = length vertices ->
  spec true h (Plane_splitChains this vertices types)
    (fun h' fb => Forall (goodv h') fb.1 /\ Forall (goodv h') fb.2).
Proof.
  intros Hvs Hlen. unfold Plane_splitChains. eapply spec_weaken.
  - apply (spec_fold nv np true _
             (fun h' fb => Forall (goodv h') vertices
                           /\ Forall (goodv h') fb.1
                           /\ Forall (goodv h') fb.2)
             (fun _ i => i < length vertices)); auto.
    + intros h1 [f b] i (Hv1 & Hf1 & Hb1) Hi.
      eapply spec_weaken; [by apply spec_Plane_splitEdge | done |].
      intros h2 fb He [? ?]. split; [|done]. by eapply Forall_goodv_mono.
    + apply Forall_forall. intros i Hin. apply elem_of_seq in Hin. lia.
  - done.
  - by intros h' fb _ (_ & ? & ?).
Qed.

(** What [splitPolygon] needs of the caller's frame: [Φ] holds of the
    arrays, survives the evolution of the heap, and pushing a polygon of
    the operation to any of the four arrays keeps it. *)
Lemma spec_Plane_splitPolygon {F} h (this : Plane) r
    (cF cB fo bo : OutArray F) (fr : F) (Φ : Heap S -> F -> Prop) :
  (forall h1 h2 x, evolves h1 h2 -> Φ h1 x -> Φ h2 x) ->
  (forall a, a = cF \/ a = cB \/ a = fo \/ a = bo ->
     forall h1 q x, good h1 q -> Φ h1 x -> Φ h1 (push a q x)) ->
  good h r -> Φ h fr ->
  spec true h (Plane_splitPolygon this r cF cB fo bo fr) Φ.
Proof.
  intros Hmono Hpush Hr Hfr. unfold Plane_splitPolygon.
  eapply spec_bind; [by apply spec_getPolygon|].
  intros ? p _ _ (-> & Hp & Hvs).
  eapply spec_bind; [by apply spec_Plane_types|].
  intros h1 types He1 _ Hlen.
  assert (Hr1 : good h1 r) by (by eapply good_mono).
  assert (Hfr1 : Φ h1 fr) by (by eapply Hmono).
  destruct (_ =? COPLANAR)%Z.
  { apply spec_ret. destruct (_ <? _)%float; apply Hpush; auto. }
  destruct (_ =? FRONT)%Z; [apply spec_ret; apply Hpush; auto|].
  destruct (_ =? BACK)%Z; [apply spec_ret; apply Hpush; auto|].
  destruct (_ =? SPANNING)%Z; [|by apply spec_ret].
  eapply spec_bind.
  { apply spec_Plane_splitChains; [by eapply Forall_goodv_mono | done]. }
  intros h2 [f b] He2 _ [Hf Hb]. simpl in Hf, Hb.
  eapply spec_bind with (Q1 := Φ).
  { destruct (3 <=? length f) eqn:E; [|apply spec_ret; by eapply Hmono].
    eapply spec_bind.
    - pose proof (spec_Polygon_new nv np h2 f (Polygon_shared p) Hf) as H.
      rewrite E in H. exact H.
    - intros h3 q He3 _ Hq. apply spec_ret. apply Hpush; auto.
      eapply Hmono; [|exact Hfr1]. by eapply evolves_trans. }
  intros h3 fr' He3 _ Hfr'.
  destruct (3 <=? length b) eqn:E; [|by apply spec_ret].
  eapply spec_bind.
  - pose proof (spec_Polygon_new nv np h3 b (Polygon_shared p)) as H.
    rewrite E in H. apply H. by eapply Forall_goodv_mono.
  - intros h4 q He4 _ Hq. apply spec_ret. apply Hpush; auto.
    by eapply Hmono.
Qed.
End PolygonSpecs.

Section NodeSpecs.
Context {S : Type}.
Variables (nv np : nat).
Implicit Types (h : Heap S).

Local Abbreviation goodv := (goodv nv).
Local Abbreviation good := (good nv np).
Local Abbreviation evolves := (evolves nv np).
Local Abbreviation spec := (spec nv np).
Local Abbreviation good_tree := (good_tree nv np).
Local Abbreviation good_child := (good_child nv np).

Lemma good_tree_mkNode h plane front back polygons :
  good_tree h (mkNode plane front back polygons)
  <-> Forall (good h) polygons /\ good_child h front /\ good_child h back.
Proof.
  unfold good_tree, good_child. simpl. rewrite !Forall_app.
  destruct front, back; simpl; unfold good_tree; intuition.
Qed.

Lemma good_tree_mono h h' n : evolves h h' -> good_tree h n -> good_tree h' n.
Proof. apply Forall_good_mono. Qed.

Lemma good_child_mono h h' c :
  evolves h h' -> good_child h c -> good_child h' c.
Proof. destruct c; [apply good_tree_mono | done]. Qed.

Lemma good_tree_empty h : good_tree h Node_empty.
Proof. constructor. Qed.

Lemma spec_Node_clipPolygons (n : Node) :
  forall ps h, Forall (good h) ps ->
    spec true h (Node_clipPolygons n ps) (fun h' l => Forall (good h') l).
Proof.
  induction n as [plane front back polygons IHf IHb] using Node_induction.
  intros ps h Hps. destruct plane as [plane|]; simpl; [|by apply spec_ret].
  eapply spec_bind.
  { apply (spec_fold nv np true _
             (fun h' fr => Forall (good h') fr.1 /\ Forall (good h') fr.2)
             (fun h' r => good h' r)); [| |exact Hps|by split].
    - intros ? ? r He. by apply (good_mono nv np).
    - intros h1 fr r Hfr Hr. apply spec_Plane_splitPolygon; [| |done|done].
      + intros ? ? x He [? ?]. split; by eapply Forall_good_mono.
      + intros a [->|[->|[->| ->]]] h2 q x Hq [? ?]; simpl;
          split; try done; apply Forall_app; auto. }
  intros h1 [fs bs] He1 _ [Hfs Hbs]. simpl in Hfs, Hbs.
  eapply spec_bind with (Q1 := fun h' l => Forall (good h') l).
  { destruct front as [c|]; [by apply IHf | by apply spec_ret]. }
  intros h2 fs' He2 _ Hfs'.
  eapply spec_bind with (Q1 := fun h' l => Forall (good h') l).
  { destruct back as [c|]; [|by apply spec_ret].
    apply IHb. by eapply Forall_good_mono. }
  intros h3 bs' He3 _ Hbs'. apply spec_ret. apply Forall_app. split; [|done].
  by eapply Forall_good_mono.
Qed.

Lemma spec_Node_clipTo (n bsp : Node) :
  forall h, good_tree h n ->
    spec true h (Node_clipTo n bsp) (fun h' t => good_tree h' t).
Proof.
  induction n as [plane front back polygons IHf IHb] using Node_induction.
  intros h Hn. apply good_tree_mkNode in Hn as (Hps & Hf & Hb). simpl.
  eapply spec_bind; [by apply spec_Node_clipPolygons|].
  intros h1 ps' He1 _ Hps'.
  eapply spec_bind with (Q1 := fun h' c => good_child h' c).
  { destruct front as [c|]; simpl in *; [|by apply spec_ret].
    eapply spec_bind; [apply IHf; by eapply good_tree_mono|].
    intros h2 c' _ _ Hc'. by apply spec_ret. }
  intros h2 front' He2 _ Hfront'.
  eapply spec_bind with (Q1 := fun h' c => good_child h' c).
  { destruct back as [c|]; simpl in *; [|by apply spec_ret].
    eapply spec_bind.
    - apply IHb. eapply good_tree_mono; [|exact Hb].
      by eapply evolves_trans.
    - intros h3 c' _ _ Hc'. by apply spec_ret. }
  intros h3 back' He3 _ Hback'. apply spec_ret.
  apply good_tree_mkNode. repeat split; [|by eapply good_child_mono|done].
  eapply Forall_good_mono; [|exact Hps']. by eapply evolves_trans.
Qed.

(** [invert] throws only at a node without a plane. *)
Lemma spec_Node_invert (n : Node) :
  forall h, good_tree h n ->
    spec (planed n) h (Node_invert n) (fun h' t => good_tree h' t).
Proof.
  induction n as [plane front back polygons IHf IHb] using Node_induction.
  intros h Hn. apply good_tree_mkNode in Hn as (Hps & Hf & Hb). simpl.
  eapply spec_bind.
  { eapply spec_weaken; [|by intros _|].
    - apply (spec_forEach nv np true Polygon_flip (fun h' r => good h' r));
        [| |exact Hps].
      + intros ? ? r He. by apply (good_mono nv np).
      + intros h1 r Hr. by apply spec_Polygon_flip.
    - intros h' a _ H. exact H. }
  intros h1 [] He1 _ _.
  destruct plane as [plane|]; simpl; [|apply spec_throw].
  eapply spec_bind with (Q1 := fun h' c => good_child h' c).
  { destruct front as [c|]; simpl in *; [|by apply spec_ret].
    eapply spec_bind.
    - eapply spec_weaken; [apply IHf; by eapply good_tree_mono| |].
      + intros H. by apply andb_prop in H as [? _].
      + intros h' a _ H. exact H.
    - intros h2 c' _ _ Hc'. by apply spec_ret. }
  intros h2 front' He2 _ Hfront'.
  eapply spec_bind with (Q1 := fun h' c => good_child h' c).
  { destruct back as [c|]; simpl in *; [|by apply spec_ret].
    eapply spec_bind.
    - eapply spec_weaken.
      + apply IHb. eapply good_tree_mono; [|exact Hb].
        by eapply evolves_trans.
      + intros H. by apply andb_prop in H as [_ ?].
      + intros h' a _ H. exact H.
    - intros h3 c' _ _ Hc'. by apply spec_ret. }
  intros h3 back' He3 _ Hback'. apply spec_ret.
  apply good_tree_mkNode. repeat split; [|done|by eapply good_child_mono].
  eapply Forall_good_mono; [|exact Hps].
  eapply evolves_trans; [exact He1|]. by eapply evolves_trans.
Qed.

Lemma planed_children (n : Node) : planed n = true -> children_planed n = true.
Proof.
  destruct n as [plane front back polygons]. unfold children_planed. simpl.
  destruct plane; simpl; [done | discriminate].
Qed.

Lemma spec_Node_build (fuel : nat) :
  forall (n : Node) ps h, good_tree h n -> Forall (good h) ps ->
    spec false h (Node_build fuel n ps)
      (fun h' t => good_tree h' t
                   /\ (children_planed n = true ->
                       children_planed t = true
                       /\ (ps <> [] -> planed t = true))).
Proof.
  induction fuel as [|fuel IH]; intros n ps h Hn Hps.
  { destruct ps; [by apply spec_ret | apply spec_throw]. }
  destruct ps as [|p0 ps']; [by apply spec_ret|].
  set (ps := p0 :: ps') in *. simpl.
  destruct n as [plane front back polygons].
  apply good_tree_mkNode in Hn as (Hown & Hf & Hb). simpl.
  eapply spec_bind with (Q1 := fun _ _ => True).
  { destruct plane as [plane|]; [by apply spec_ret|].
    eapply spec_bind.
    - eapply spec_weaken; [apply spec_getPolygon| |].
      + by inversion Hps.
      + done.
      + intros h' a _ H. exact H.
    - intros. by apply spec_ret. }
  intros h1 pl He1 _ _.
  match goal with
  | |- context [bind (bind ?m ?k) ?k2] =>
      change (bind (bind m k) k2)
        with (bind (Array_fold
                      (fun fr p =>
                         Plane_splitPolygon pl p build_polygons build_polygons
                           build_front build_back fr)
                      ps (polygons, [], [])) k2)
  end.
  eapply spec_bind.
  { eapply spec_weaken; [|by intros _|].
    - apply (spec_fold nv np true _
               (fun h' fr => Forall (good h') fr.1.1
                             /\ Forall (good h') fr.1.2
                             /\ Forall (good h') fr.2)
               (fun h' r => good h' r)).
      + intros ? ? r He. by apply (good_mono nv np).
      + intros h2 fr r Hfr Hr. apply spec_Plane_splitPolygon; [| |done|done].
        * intros ? ? x He (? & ? & ?).
          repeat split; by eapply Forall_good_mono.
        * intros a [->|[->|[->| ->]]] h3 q x Hq (? & ? & ?); simpl;
            repeat split; try done; apply Forall_app; auto.
      + by eapply Forall_good_mono.
      + simpl. repeat split; [by eapply Forall_good_mono|done|done].
    - intros h' a _ H. exact H. }
  intros h2 [[own fs] bs] He2 _ (Hown2 & Hfs & Hbs). simpl in Hown2, Hfs, Hbs.
  assert (He12 : evolves h h2) by (by eapply evolves_trans).
  eapply spec_bind with
    (Q1 := fun h' c => good_child h' c
             /\ (children_planed (mkNode plane front back polygons) = true ->
                 match c with Some c => planed c | None => true end = true)).
  { destruct fs as [|f0 fs'].
    - apply spec_ret. split; [by eapply good_child_mono|].
      unfold children_planed. simpl. intros H.
      by apply andb_prop in H as [? _].
    - eapply spec_bind.
      + apply IH; [|exact Hfs].
        destruct front as [c|]; simpl in *;
          [by eapply good_tree_mono | apply good_tree_empty].
      + intros h3 t He3 _ [Ht Hpl]. apply spec_ret. split; [done|].
        unfold children_planed at 1. simpl. intros H.
        apply andb_prop in H as [H _]. apply Hpl; [|done].
        destruct front as [c|]; simpl; [by apply planed_children | done]. }
  intros h3 nfront He3 _ [Hnf Hnfp].
  eapply spec_bind with
    (Q1 := fun h' c => good_child h' c
             /\ (children_planed (mkNode plane front back polygons) = true ->
                 match c with Some c => planed c | None => true end = true)).
  { destruct bs as [|b0 bs'].
    - apply spec_ret. split.
      + eapply good_child_mono; [|exact Hb]. by eapply evolves_trans.
      + unfold children_planed. simpl. intros H.
        by apply andb_prop in H as [_ ?].
    - eapply spec_bind.
      + apply IH; [|by eapply Forall_good_mono].
        destruct back as [c|]; simpl in *; [|apply good_tree_empty].
        eapply good_tree_mono; [|exact Hb]. by eapply evolves_trans.
      + intros h4 t He4 _ [Ht Hpl]. apply spec_ret. split; [done|].
        unfold children_planed at 1. simpl. intros H.
        apply andb_prop in H as [_ H]. apply Hpl; [|done].
        destruct back as [c|]; simpl; [by apply planed_children | done]. }
  intros h4 nback He4 _ [Hnb Hnbp]. apply spec_ret. split.
  - apply good_tree_mkNode. repeat split; [|by eapply good_child_mono|done].
    eapply Forall_good_mono; [|exact Hown2]. by eapply evolves_trans.
  - intros Hcp. specialize (Hnfp Hcp). specialize (Hnbp Hcp).
    unfold children_planed. simpl. rewrite Hnfp, Hnbp. done.
Qed.
End NodeSpecs.

(** ** Node.invert: the tree and the heap it leaves *)

Lemma valid_polygonb_valid {S : Type} (h : Heap S) (rs : list ref) :
  forallb (valid_polygonb h) rs = true -> Forall (valid_polygon h) rs.
Proof.
  rewrite forallb_forall. intros H. apply Forall_forall. intros r Hr.
  apply list_elem_of_In, H in Hr.
  unfold valid_polygonb, valid_polygon, good in *. split; [lia|].
  destruct (polygonStore h !! r); [|done].
  apply Forall_forall. intros v Hv. rewrite forallb_forall in Hr.
  split; [lia|]. apply Nat.ltb_lt. apply Hr. by apply list_elem_of_In.
Qed.

Section Invert.
Context {S : Type}.
Implicit Types (h : Heap S).

Lemma roomy_0 h : roomy 0 0 h.
Proof. split; lia. Qed.

Lemma spec_run {A} nv np total h (m : M S A) Q a h' :
  spec nv np total h m Q -> roomy nv np h -> m h = (Ok a, h') ->
  evolves nv np h h' /\ Q h' a.
Proof. intros Hm Hroom E. destruct (Hm Hroom) as [? ?]. by rewrite E in *. Qed.

Lemma flipHeap_Some h r p :
  polygonStore h !! r = Some p ->
  flipHeap r h
  = mkHeap (alters Vertex_flipped (rev (Polygon_vertices p)) (vertexStore h))
           (alter Polygon_flipped r (polygonStore h)).
Proof. unfold flipHeap. by intros ->. Qed.

Lemma flipHeap_None h r : polygonStore h !! r = None -> flipHeap r h = h.
Proof. unfold flipHeap. by intros ->. Qed.

Lemma lookup_flipHeap_ne h r r' :
  r <> r' -> polygonStore (flipHeap r' h) !! r = polygonStore h !! r.
Proof.
  intros Hne. rewrite polygonStore_flipHeap. by apply list_lookup_alter_ne.
Qed.

Lemma flipHeap_commute r r' h :
  flipHeap r (flipHeap r' h) = flipHeap r' (flipHeap r h).
Proof.
  destruct (decide (r = r')) as [->|Hne]; [done|].
  destruct (polygonStore h !! r) as [p|] eqn:Hp;
    destruct (polygonStore h !! r') as [p'|] eqn:Hp'.
  - rewrite (flipHeap_Some (flipHeap r' h) r p)
      by (by rewrite lookup_flipHeap_ne).
    rewrite (flipHeap_Some (flipHeap r h) r' p')
      by (by rewrite lookup_flipHeap_ne).
    rewrite (flipHeap_Some h r p Hp), (flipHeap_Some h r' p' Hp'). simpl.
    f_equal.
    + rewrite <- !alters_app. apply alters_Permutation.
      apply Permutation_app_comm.
    + by apply list_alter_alter_ne.
  - rewrite (flipHeap_None h r' Hp').
    by rewrite (flipHeap_None (flipHeap r h) r')
      by (by rewrite lookup_flipHeap_ne).
  - rewrite (flipHeap_None h r Hp).
    by rewrite (flipHeap_None (flipHeap r' h) r)
      by (by rewrite lookup_flipHeap_ne).
  - by rewrite (flipHeap_None h r Hp), (flipHeap_None h r' Hp'),
      (flipHeap_None h r Hp).
Qed.

Lemma flipsHeap_undo l1 l2 h :
  l1 ≡ₚ l2 -> flipsHeap l2 (flipsHeap l1 h) = h.
Proof.
  apply acts_undo.
  - intros. apply flipHeap_commute.
  - intros. apply flipHeap_flipHeap.
Qed.

Lemma valid_polygon_lookup h r :
  valid_polygon h r ->
  exists p, polygonStore h !! r = Some p
            /\ Forall (fun v => v < length (vertexStore h))
                      (Polygon_vertices p).
Proof.
  intros Hr. destruct (good_lookup 0 0 h r Hr) as (p & Hp & Hvs).
  exists p. split; [done|]. eapply Forall_impl; [exact Hvs|].
  by intros v [_ ?].
Qed.

Lemma Polygon_flip_valid h r :
  valid_polygon h r ->
  Polygon_flip r h = (Ok tt, flipHeap r h) /\ evolves 0 0 h (flipHeap r h).
Proof.
  intros Hr. destruct (valid_polygon_lookup h r Hr) as (p & Hp & Hvs).
  pose proof (Polygon_flip_Ok h r p Hp Hvs) as E. split; [done|].
  by destruct (spec_run 0 0 true h _ _ _ _ (spec_Polygon_flip 0 0 h r Hr)
                 (roomy_0 h) E).
Qed.

Lemma forEach_Polygon_flip_valid l :
  forall h, Forall (valid_polygon h) l ->
    Array_forEach Polygon_flip l h = (Ok tt, flipsHeap l h)
    /\ evolves 0 0 h (flipsHeap l h).
Proof.
  induction l as [|r l IH]; intros h Hl.
  - split; [done | apply evolves_refl].
  - inversion Hl as [|? ? Hr Hl']; subst.
    destruct (Polygon_flip_valid h r Hr) as [E He]. simpl.
    run_with E.
    destruct (IH (flipHeap r h)) as [E' He'].
    { eapply Forall_impl; [exact Hl'|]. intros r'.
      by apply (good_mono 0 0). }
    split; [exact E' | by eapply evolves_trans].
Qed.

Lemma planed_mirror (n : Node) : planed (Node_mirror n) = planed n.
Proof.
  induction n as [plane front back polygons IHf IHb] using Node_induction.
  simpl. destruct plane; simpl; [|done].
  destruct front as [f|], back as [b|]; simpl in *;
    rewrite ?IHf, ?IHb, ?andb_true_r; try done. apply andb_comm.
Qed.

Lemma allPolygons_mirror (n : Node) :
  Node_allPolygons (Node_mirror n) ≡ₚ Node_allPolygons n.
Proof.
  induction n as [plane front back polygons IHf IHb] using Node_induction.
  simpl. f_equiv.
  destruct front as [f|], back as [b|]; simpl in *;
    rewrite ?IHf, ?IHb, ?app_nil_r; try done. apply Permutation_app_comm.
Qed.

Lemma mirror_mirror (n : Node) : Node_mirror (Node_mirror n) = n.
Proof.
  induction n as [plane front back polygons IHf IHb] using Node_induction.
  simpl. f_equal.
  - destruct plane; simpl; [|done]. by rewrite Plane_flip_involutive.
  - destruct front; simpl in *; [by rewrite IHf | done].
  - destruct back; simpl in *; [by rewrite IHb | done].
Qed.

(** On a tree whose nodes all have a plane and whose polygons are not
    dangling, [invert] returns the mirrored tree and has flipped the
    polygons in the order of [allPolygons]. *)
Lemma Node_invert_Ok (n : Node) :
  forall h, planed n = true -> valid_tree h n ->
    Node_invert n h = (Ok (Node_mirror n), flipsHeap (Node_allPolygons n) h)
    /\ evolves 0 0 h (flipsHeap (Node_allPolygons n) h).
Proof.
  induction n as [plane front back polygons IHf IHb] using Node_induction.
  intros h Hpl Hn. apply good_tree_mkNode in Hn as (Hps & Hf & Hb).
  simpl in Hpl. destruct plane as [plane|]; simpl in Hpl; [|done].
  apply andb_prop in Hpl as [Hplf Hplb].
  destruct (forEach_Polygon_flip_valid polygons h Hps) as [E1 He1].
  simpl. run_with E1. simpl.
  unfold flipsHeap. rewrite !acts_app. fold (flipsHeap polygons h).
  set (h1 := flipsHeap polygons h) in *.
  assert (exists h2,
    (match front with
     | Some c => let* n' := Node_invert c in ret (Some n')
     | None => ret None
     end) h1
    = (Ok match front with Some c => Some (Node_mirror c) | None => None end,
       h2)
    /\ h2 = acts flipHeap
              match front with Some c => Node_allPolygons c | None => [] end
              h1
    /\ evolves 0 0 h1 h2) as (h2 & E2 & -> & He2).
  { destruct front as [c|]; simpl in *.
    - destruct (IHf h1 Hplf) as [E He]; [by eapply good_tree_mono|].
      eexists. split; [by run_with E | done].
    - eexists. split; [done|]. split; [done | apply evolves_refl]. }
  run_with E2.
  set (h2 := acts flipHeap _ h1) in *.
  assert (exists h3,
    (match back with
     | Some c => let* n' := Node_invert c in ret (Some n')
     | None => ret None
     end) h2
    = (Ok match back with Some c => Some (Node_mirror c) | None => None end,
       h3)
    /\ h3 = acts flipHeap
              match back with Some c => Node_allPolygons c | None => [] end
              h2
    /\ evolves 0 0 h2 h3) as (h3 & E3 & -> & He3).
  { destruct back as [c|]; simpl in *.
    - destruct (IHb h2 Hplb) as [E He].
      { eapply good_tree_mono; [|exact Hb]. by eapply evolves_trans. }
      eexists. split; [by run_with E | done].
    - eexists. split; [done|]. split; [done | apply evolves_refl]. }
  run_with E3. split; [done|].
  eapply evolves_trans; [exact He1|]. by eapply evolves_trans.
Qed.
End Invert.

(** ** Claims on build and invert *)

(** C8. A tree that [build] returns for a non-empty list of polygons, from a
    fresh node or from a node whose descendants have planes, has a plane at
    every node, so that [invert] runs on it without reading a property of
    [null]: it returns a tree.  On a fresh node, whose plane is [null],
    [invert] throws a TypeError. *)
Theorem build_planes_every_node {S : Type} (fuel : nat) (n : Node)
    (ps : list ref) (h : Heap S) (t : Node) (h1 : Heap S) :
  ps <> [] ->
  children_planed n = true ->
  valid_tree h n ->
  Forall (valid_polygon h) ps ->
  Node_build fuel n ps h = (Ok t, h1) ->
  planed t = true
  /\ (exists t' h2, Node_invert t h1 = (Ok t', h2))
  /\ (forall h' : Heap S,
        Node_invert Node_empty h' = (Throw TypeError, h')).
Proof.
  intros Hne Hcp Hn Hps E.
  destruct (spec_run 0 0 false h _ _ _ _
              (spec_Node_build 0 0 fuel n ps h Hn Hps) (roomy_0 h) E)
    as (He & Ht & Hpl).
  destruct (Hpl Hcp) as [_ Hplaned]. specialize (Hplaned Hne).
  split; [done|]. split; [|done].
  destruct (Node_invert_Ok t h1 Hplaned Ht) as [Einv _]. eauto.
Qed.

Lemma unit_cube_faces_valid :
  Forall (valid_polygon unit_cube_heap) unit_cube_faces.
Proof. apply valid_polygonb_valid. vm_compute. reflexivity. Qed.

Lemma unit_cube_built_Ok :
  Node_build 6 Node_empty unit_cube_faces unit_cube_heap
  = (Ok unit_cube_tree, unit_cube_built.2).
Proof. vm_compute. reflexivity. Qed.

Lemma build_planes_every_node_witness :
  planed unit_cube_tree = true
  /\ (exists t' h2, Node_invert unit_cube_tree unit_cube_built.2 = (Ok t', h2))
  /\ (forall h' : Heap nat,
        Node_invert Node_empty h' = (Throw TypeError, h')).
Proof.
  apply (build_planes_every_node 6 Node_empty unit_cube_faces unit_cube_heap).
  - discriminate.
  - reflexivity.
  - constructor.
  - exact unit_cube_faces_valid.
  - exact unit_cube_built_Ok.
Defined.

(** C6. On a tree built from a non-empty list of polygons, two calls of
    [invert] return the tree they started from and leave the heap as it
    was; in particular the polygons of [allPolygons], compared by the
    positions of their vertices, are the same collection after the two
    calls as before. *)
Theorem invert_twice {S : Type} (fuel : nat) (ps : list ref) (h : Heap S)
    (t : Node) (h1 : Heap S) :
  ps <> [] ->
  Forall (valid_polygon h) ps ->
  Node_new fuel ps h = (Ok t, h1) ->
  (let* t1 := Node_invert t in Node_invert t1) h1 = (Ok t, h1)
  /\ exists t1 h2 t2 h3,
       Node_invert t h1 = (Ok t1, h2)
       /\ Node_invert t1 h2 = (Ok t2, h3)
       /\ map (positions h3) (Node_allPolygons t2)
          ≡ₚ map (positions h1) (Node_allPolygons t).
Proof.
  intros Hne Hps E. unfold Node_new in E.
  destruct (spec_run 0 0 false h _ _ _ _
              (spec_Node_build 0 0 fuel Node_empty ps h
                 (good_tree_empty 0 0 h) Hps) (roomy_0 h) E)
    as (He & Ht & Hpl).
  destruct (Hpl eq_refl) as [_ Hplaned]. specialize (Hplaned Hne).
  destruct (Node_invert_Ok t h1 Hplaned Ht) as [E1 He1].
  destruct (Node_invert_Ok (Node_mirror t)
              (flipsHeap (Node_allPolygons t) h1)) as [E2 _].
  { by rewrite planed_mirror. }
  { unfold valid_tree, good_tree. rewrite allPolygons_mirror.
    by eapply good_tree_mono. }
  rewrite mirror_mirror in E2.
  rewrite flipsHeap_undo in E2 by (by rewrite allPolygons_mirror).
  split; [by run_with E1|].
  eexists _, _, _, _. split; [exact E1|]. split; [exact E2|]. done.
Qed.

Lemma invert_twice_witness :
  (let* t1 := Node_invert unit_cube_tree in Node_invert t1) unit_cube_built.2
  = (Ok unit_cube_tree, unit_cube_built.2).
Proof.
  refine (proj1 (invert_twice 6 unit_cube_faces unit_cube_heap
                   unit_cube_tree unit_cube_built.2 _ _ _)).
  - discriminate.
  - exact unit_cube_faces_valid.
  - exact unit_cube_built_Ok.
Defined.

(** ** The operators and their arguments *)

Section CSGSpecs.
Context {S : Type}.
Variables (nv np : nat).
Implicit Types (h : Heap S).

Local Abbreviation good := (good nv np).
Local Abbreviation evolves := (evolves nv np).
Local Abbreviation spec := (spec nv np).
Local Abbreviation good_tree := (good_tree nv np).

Lemma spec_CSG_clone h (c : CSG) :
  spec false h (CSG_clone c) (fun h' c' => Forall (good h') (CSG_polygons c')).
Proof.
  eapply spec_bind.
  - apply (spec_map nv np false Polygon_clone (fun h' q => good h' q)
             (fun _ _ => True)); auto.
    + intros ? ? q He. by apply (good_mono nv np).
    + intros h1 r _. apply spec_Polygon_clone.
    + by apply Forall_true.
  - intros h1 qs _ _ [Hqs _]. by apply spec_ret.
Qed.

Lemma spec_Node_new h fuel ps :
  Forall (good h) ps ->
  spec false h (Node_new fuel ps) (fun h' t => good_tree h' t).
Proof.
  intros Hps. eapply (spec_weaken nv np false false); [| done |].
  - apply spec_Node_build; [apply good_tree_empty | exact Hps].
  - by intros h' t _ [? _].
Qed.

Lemma spec_build_into h fuel n (b : Node) :
  good_tree h n -> good_tree h b ->
  spec false h (Node_build fuel n (Node_allPolygons b))
    (fun h' t => good_tree h' t).
Proof.
  intros Hn Hb. eapply (spec_weaken nv np false false); [| done |].
  - by apply spec_Node_build.
  - by intros h' t _ [? _].
Qed.

Lemma spec_invert h n :
  good_tree h n -> spec false h (Node_invert n) (fun h' t => good_tree h' t).
Proof.
  intros Hn. eapply spec_weaken; [by apply spec_Node_invert | done |].
  intros h' t _ H. exact H.
Qed.

Lemma spec_clipTo h n bsp :
  good_tree h n ->
  spec false h (Node_clipTo n bsp) (fun h' t => good_tree h' t).
Proof.
  intros Hn. eapply spec_weaken; [by apply spec_Node_clipTo | done |].
  intros h' t _ H. exact H.
Qed.

(** The two trees that every operator starts from. *)
Lemma spec_two_trees {A} h fuel (this csg : CSG) (k : Node -> Node -> M S A)
    (Q : Heap S -> A -> Prop) :
  (forall h' a b, good_tree h' a -> good_tree h' b -> spec false h' (k a b) Q) ->
  spec false h
    (let* ca := CSG_clone this in
     let* a := Node_new fuel (CSG_polygons ca) in
     let* cb := CSG_clone csg in
     let* b := Node_new fuel (CSG_polygons cb) in
     k a b) Q.
Proof.
  intros Hk.
  eapply spec_bind; [apply spec_CSG_clone|]. intros h1 ca _ _ Hca.
  eapply spec_bind; [by apply spec_Node_new|]. intros h2 a _ _ Ha.
  eapply spec_bind; [apply spec_CSG_clone|]. intros h3 cb He3 _ Hcb.
  eapply spec_bind; [by apply spec_Node_new|]. intros h4 b He4 _ Hb.
  apply Hk; [|done]. eapply good_tree_mono; [|exact Ha].
  by eapply evolves_trans.
Qed.

Lemma spec_CSG_union h fuel (this csg : CSG) :
  spec false h (CSG_union fuel this csg) (fun _ _ => True).
Proof.
  apply spec_two_trees. intros h0 a b Ha Hb.
  eapply spec_bind; [by apply spec_clipTo|]. intros h1 a1 He1 _ Ha1.
  eapply spec_bind; [apply spec_clipTo; by eapply good_tree_mono|].
  intros h2 b2 He2 _ Hb2.
  eapply spec_bind; [by apply spec_invert|]. intros h3 b3 He3 _ Hb3.
  eapply spec_bind; [by apply spec_clipTo|]. intros h4 b4 He4 _ Hb4.
  eapply spec_bind; [by apply spec_invert|]. intros h5 b5 He5 _ Hb5.
  eapply spec_bind.
  - apply spec_build_into; [|done]. eapply good_tree_mono; [|exact Ha1].
    repeat (eapply evolves_trans; [eassumption|]). apply evolves_refl.
  - intros. by apply spec_ret.
Qed.

Lemma spec_CSG_subtract h fuel (this csg : CSG) :
  spec false h (CSG_subtract fuel this csg) (fun _ _ => True).
Proof.
  apply spec_two_trees. intros h0 a b Ha Hb.
  eapply spec_bind; [by apply spec_invert|]. intros h1 a1 He1 _ Ha1.
  eapply spec_bind; [by apply spec_clipTo|]. intros h2 a2 He2 _ Ha2.
  eapply spec_bind.
  { apply spec_clipTo. eapply good_tree_mono; [|exact Hb].
    by eapply evolves_trans. }
  intros h3 b3 He3 _ Hb3.
  eapply spec_bind; [by apply spec_invert|]. intros h4 b4 He4 _ Hb4.
  eapply spec_bind; [by apply spec_clipTo|]. intros h5 b5 He5 _ Hb5.
  eapply spec_bind; [by apply spec_invert|]. intros h6 b6 He6 _ Hb6.
  eapply spec_bind.
  { apply spec_build_into; [|done]. eapply good_tree_mono; [|exact Ha2].
    repeat (eapply evolves_trans; [eassumption|]). apply evolves_refl. }
  intros h7 a7 He7 _ Ha7.
  eapply spec_bind; [by apply spec_invert|]. intros. by apply spec_ret.
Qed.

Lemma spec_CSG_intersect h fuel (this csg : CSG) :
  spec false h (CSG_intersect fuel this csg) (fun _ _ => True).
Proof.
  apply spec_two_trees. intros h0 a b Ha Hb.
  eapply spec_bind; [by apply spec_invert|]. intros h1 a1 He1 _ Ha1.
  eapply spec_bind; [apply spec_clipTo; by eapply good_tree_mono|].
  intros h2 b2 He2 _ Hb2.
  eapply spec_bind; [by apply spec_invert|]. intros h3 b3 He3 _ Hb3.
  eapply spec_bind.
  { apply spec_clipTo. eapply good_tree_mono; [|exact Ha1].
    by eapply evolves_trans. }
  intros h4 a4 He4 _ Ha4.
  eapply spec_bind; [apply spec_clipTo; by eapply good_tree_mono|].
  intros h5 b5 He5 _ Hb5.
  eapply spec_bind.
  { apply spec_build_into; [|done]. by eapply good_tree_mono. }
  intros h6 a6 He6 _ Ha6.
  eapply spec_bind; [by apply spec_invert|]. intros. by apply spec_ret.
Qed.

Lemma spec_CSG_inverse h (this : CSG) :
  spec false h (CSG_inverse this) (fun _ _ => True).
Proof.
  eapply spec_bind; [apply spec_CSG_clone|]. intros h1 c _ _ Hc.
  eapply spec_bind.
  - eapply (spec_weaken nv np true false); [| done |].
    + apply (spec_forEach nv np true Polygon_flip (fun h' r => good h' r));
        [| |exact Hc].
      * intros ? ? r He. by apply (good_mono nv np).
      * intros h2 r Hr. by apply spec_Polygon_flip.
    + intros h' a _ H. exact H.
  - intros. by apply spec_ret.
Qed.
End CSGSpecs.

Lemma spec_unchanged {S A : Type} (h : Heap S) (m : M S A) Q :
  spec (length (vertexStore h)) (length (polygonStore h)) false h m Q ->
  unchanged h (m h).2.
Proof.
  intros Hm. destruct Hm as [[_ _ Hv Hp _] _]; [split; lia|].
  split.
  - intros v x Hx. rewrite Hv; [done|]. by eapply lookup_lt_Some.
  - intros r p Hr. rewrite Hp; [done|]. by eapply lookup_lt_Some.
Qed.

(** C2. [union], [subtract], [intersect] and [inverse] leave their
    arguments as they were: whatever the solids, the bound on the recursion
    and the outcome of the call (a solid or an exception), every vertex and
    every polygon that existed before the call is unchanged after it: same
    position and normal, same vertex list, plane and shared tag. *)
Theorem operators_leave_arguments {S : Type} (fuel : nat) (A B : CSG)
    (h : Heap S) :
  unchanged h (CSG_union fuel A B h).2
  /\ unchanged h (CSG_subtract fuel A B h).2
  /\ unchanged h (CSG_intersect fuel A B h).2
  /\ unchanged h (CSG_inverse A h).2.
Proof.
  repeat split.
  - eapply (spec_unchanged h), spec_CSG_union.
  - eapply (spec_unchanged h), spec_CSG_union.
  - eapply (spec_unchanged h), spec_CSG_subtract.
  - eapply (spec_unchanged h), spec_CSG_subtract.
  - eapply (spec_unchanged h), spec_CSG_intersect.
  - eapply (spec_unchanged h), spec_CSG_intersect.
  - eapply (spec_unchanged h), spec_CSG_inverse.
  - eapply (spec_unchanged h), spec_CSG_inverse.
Qed.

(** ** Plane.splitPolygon on a spanning polygon *)

Section KeepsPolygons.
Context {S : Type}.

Lemma keeps_ret {A} (a : A) : keeps_polygons (ret (S := S) a).
Proof. by intros h. Qed.

Lemma keeps_bind {A B} (m : M S A) (k : A -> M S B) :
  keeps_polygons m -> (forall a, keeps_polygons (k a)) ->
  keeps_polygons (let* x := m in k x).
Proof.
  intros Hm Hk h. unfold bind. specialize (Hm h).
  destruct (m h) as [[a|e] h1]; simpl in *; [|done].
  by rewrite Hk.
Qed.

Lemma keeps_index {A} (a : list A) i : keeps_polygons (index (S := S) a i).
Proof. intros h. unfold index. by destruct (a !! i). Qed.

Lemma keeps_getVertex v : keeps_polygons (getVertex (S := S) v).
Proof. intros h. unfold getVertex. by destruct (vertexStore h !! v). Qed.

Lemma keeps_Vertex_new pos normal :
  keeps_polygons (Vertex_new (S := S) pos normal).
Proof. by intros h. Qed.

Lemma keeps_Vertex_clone v : keeps_polygons (Vertex_clone (S := S) v).
Proof.
  apply keeps_bind; [apply keeps_getVertex|]. intros x. apply keeps_Vertex_new.
Qed.

Lemma keeps_Vertex_interpolate v1 v2 t :
  keeps_polygons (Vertex_interpolate (S := S) v1 v2 t).
Proof.
  apply keeps_bind; [apply keeps_getVertex|]. intros x.
  apply keeps_bind; [apply keeps_getVertex|]. intros y.
  apply keeps_Vertex_new.
Qed.

Lemma keeps_Array_fold {A B} (f : B -> A -> M S B) l :
  (forall b a, keeps_polygons (f b a)) ->
  forall b, keeps_polygons (Array_fold f l b).
Proof.
  intros Hf. induction l as [|a l IH]; intros b; simpl.
  - apply keeps_ret.
  - apply keeps_bind; [apply Hf | apply IH].
Qed.

Lemma keeps_Plane_splitEdge (this : Plane) vertices types fb i :
  keeps_polygons (Plane_splitEdge (S := S) this vertices types fb i).
Proof.
  destruct fb as [f b]. unfold Plane_splitEdge.
  apply keeps_bind; [apply keeps_index|]. intros ti.
  apply keeps_bind; [apply keeps_index|]. intros tj.
  apply keeps_bind; [apply keeps_index|]. intros vi.
  apply keeps_bind; [apply keeps_index|]. intros vj.
  apply keeps_bind.
  { destruct (negb (ti =? FRONT)%Z); [|apply keeps_ret].
    apply keeps_bind; [|intros; apply keeps_ret].
    destruct (negb (ti =? BACK)%Z);
      [apply keeps_Vertex_clone | apply keeps_ret]. }
  intros b'. destruct (Z.lor ti tj =? SPANNING)%Z; [|apply keeps_ret].
  apply keeps_bind; [apply keeps_getVertex|]. intros pi.
  apply keeps_bind; [apply keeps_getVertex|]. intros pj.
  apply keeps_bind; [apply keeps_Vertex_interpolate|]. intros v.
  apply keeps_bind; [apply keeps_Vertex_clone|]. intros v'.
  apply keeps_ret.
Qed.

Lemma keeps_Plane_splitChains (this : Plane) vertices types :
  keeps_polygons (Plane_splitChains (S := S) this vertices types).
Proof. apply keeps_Array_fold. intros. apply keeps_Plane_splitEdge. Qed.

Lemma Polygon_new_Ok (h : Heap S) vs shared :
  3 <= length vs ->
  Forall (fun v => v < length (vertexStore h)) vs ->
  exists plane,
    Polygon_new vs shared h
    = (Ok (length (polygonStore h)),
       mkHeap (vertexStore h)
              (polygonStore h ++ [mkPolygon vs shared plane])).
Proof.
  intros Hlen Hvs.
  assert (Hi : forall i, i < 3 ->
    exists r x, vs !! i = Some r /\ vertexStore h !! r = Some x).
  { intros i Hi.
    destruct (lookup_lt_is_Some_2 vs i) as [r Hr]; [lia|].
    destruct (lookup_lt_is_Some_2 (vertexStore h) r) as [x Hx];
      [exact (Forall_lookup_1 _ _ _ _ Hvs Hr) | eauto]. }
  destruct (Hi 0) as (r0 & x0 & Hr0 & Hx0); [lia|].
  destruct (Hi 1) as (r1 & x1 & Hr1 & Hx1); [lia|].
  destruct (Hi 2) as (r2 & x2 & Hr2 & Hx2); [lia|].
  eexists. unfold Polygon_new.
  run_with (index_Some (S := S) vs 0 r0 h Hr0).
  run_with (getVertex_Some h r0 x0 Hx0).
  run_with (index_Some (S := S) vs 1 r1 h Hr1).
  run_with (getVertex_Some h r1 x1 Hx1).
  run_with (index_Some (S := S) vs 2 r2 h Hr2).
  run_with (getVertex_Some h r2 x2 Hx2).
  reflexivity.
Qed.

End KeepsPolygons.

(** C5. For a spanning polygon, each of the two chains of the loop becomes a
    new polygon, pushed to [front] (respectively [back]), exactly when it
    holds at least 3 vertices; the new polygon has the chain as its vertices
    and the shared tag of the polygon that was split.  A shorter chain is
    dropped: no exception, no polygon allocated for it, nothing pushed for
    it to any array. *)
Theorem splitPolygon_spanning {S F : Type} (this : Plane) (h : Heap S)
    (r : ref) (p : Polygon S)
    (coplanarFront coplanarBack front back : OutArray F) (fr : F) :
  polygonStore h !! r = Some p ->
  polygonTypeIn h this r = Some SPANNING ->
  spanning_result this h p front back fr
    (Plane_splitPolygon this r coplanarFront coplanarBack front back fr h).
Proof.
  intros Hp Ht. unfold polygonTypeIn in Ht. rewrite Hp in Ht. simpl in Ht.
  destruct (vertexObjects h (Polygon_vertices p)) as [xs|] eqn:Hxs;
    [simpl in Ht|done].
  injection Ht as Ht.
  pose proof (Plane_types_Ok this h _ _ Hxs) as Etypes.
  set (types := map _ xs) in *.
  assert (Hvs : Forall (goodv 0 h) (Polygon_vertices p)).
  { apply Forall_forall. intros v Hv.
    apply list_elem_of_lookup in Hv as [i Hi].
    destruct (vertexObjects_lookup h _ _ _ _ Hxs Hi) as (x & _ & Hx).
    split; [lia|]. by eapply lookup_lt_Some. }
  destruct (spec_Ok 0 0 h _ _ (roomy_0 h)
              (spec_Plane_splitChains 0 0 h this (Polygon_vertices p) types
                 Hvs ltac:(subst types; rewrite length_map;
                           by eapply vertexObjects_length)))
    as ([f b] & h1 & Echains & _ & Hf & Hb).
  simpl in Hf, Hb.
  pose proof (keeps_Plane_splitChains this (Polygon_vertices p) types h)
    as Hkeep. rewrite Echains in Hkeep. simpl in Hkeep.
  assert (Hvalid : forall l, Forall (goodv 0 h1) l ->
            Forall (fun v => v < length (vertexStore h1)) l).
  { intros l Hl. eapply Forall_impl; [exact Hl|]. by intros v [_ ?]. }
  unfold Plane_splitPolygon.
  run_with (getPolygon_Some _ _ _ Hp). run_with Etypes. rewrite Ht.
  change (SPANNING =? COPLANAR)%Z with false.
  change (SPANNING =? FRONT)%Z with false.
  change (SPANNING =? BACK)%Z with false.
  change (SPANNING =? SPANNING)%Z with true. cbv iota.
  run_with Echains. cbv iota beta.
  exists types, f, b, h1.
  destruct (3 <=? length f) eqn:Ef; destruct (3 <=? length b) eqn:Eb.
  - apply Nat.leb_le in Ef, Eb.
    destruct (Polygon_new_Ok h1 f (Polygon_shared p) Ef (Hvalid f Hf))
      as [plf E1].
    rewrite (bind_assoc (Polygon_new f _)). run_with E1.
    rewrite (bind_Ok (ret _) _ _ _ _ eq_refl).
    destruct (Polygon_new_Ok
                (mkHeap (vertexStore h1)
                   (polygonStore h1 ++ [mkPolygon f (Polygon_shared p) plf]))
                b (Polygon_shared p) Eb (Hvalid b Hb)) as [plb E2].
    run_with E2. simpl. rewrite length_app, Hkeep. simpl.
    eexists _, _. repeat split; try done.
    + by rewrite <- app_assoc.
    + eexists _, _. repeat split; try done.
      do 2 f_equal. lia.
  - apply Nat.leb_le in Ef.
    destruct (Polygon_new_Ok h1 f (Polygon_shared p) Ef (Hvalid f Hf))
      as [plf E1].
    rewrite (bind_assoc (Polygon_new f _)). run_with E1.
    rewrite (bind_Ok (ret _) _ _ _ _ eq_refl). rewrite Hkeep.
    eexists _, _. repeat split; try done. eexists. by repeat split.
  - apply Nat.leb_le in Eb.
    rewrite (bind_Ok (ret _) _ _ _ _ eq_refl).
    destruct (Polygon_new_Ok h1 b (Polygon_shared p) Eb (Hvalid b Hb))
      as [plb E2].
    run_with E2. rewrite Hkeep.
    eexists _, _. repeat split; try done. eexists. by repeat split.
  - rewrite (bind_Ok (ret _) _ _ _ _ eq_refl).
    exists [], fr. rewrite app_nil_r, <- Hkeep. by destruct h1.
Qed.

Lemma splitPolygon_spanning_witness :
  spanning_result yz_plane square_heap square lists_front lists_back
    ([], [], [], [])
    (Plane_splitPolygon yz_plane 0 lists_coplanarFront lists_coplanarBack
       lists_front lists_back ([], [], [], []) square_heap).
Proof.
  apply (splitPolygon_spanning yz_plane square_heap 0 square).
  - reflexivity.
  - vm_compute. reflexivity.
Defined.

(** ** subtract and union *)

(** Rewrite two computations to the same sequence of calls. *)
Ltac same_calls :=
  repeat first
    [ reflexivity
    | rewrite bind_assoc
    | apply bind_ext; intros ].

(** [union] and [subtract], with the clips and inversions that they share
    read as one call: [subtract] is the sequence of [union] between two
    inversions of the tree of its first argument. *)
Lemma subtract_calls {S : Type} (fuel : nat)
    (A B : CSG) (h : Heap S) :
  CSG_union fuel A B h
  = (let* ca := CSG_clone A in
     let* a := Node_new fuel (CSG_polygons ca) in
     let* cb := CSG_clone B in
     let* b := Node_new fuel (CSG_polygons cb) in
     let* a := clip_sequence fuel a b in
     ret (CSG_fromPolygons (Node_allPolygons a))) h
  /\ CSG_subtract fuel A B h
     = (let* ca := CSG_clone A in
        let* a := Node_new fuel (CSG_polygons ca) in
        let* cb := CSG_clone B in
        let* b := Node_new fuel (CSG_polygons cb) in
        let* a := Node_invert a in
        let* a := clip_sequence fuel a b in
        let* a := Node_invert a in
        ret (CSG_fromPolygons (Node_allPolygons a))) h.
Proof.
  unfold CSG_union, CSG_subtract, clip_sequence. split; same_calls.
Qed.



(** * Further properties

    ** Calls that only allocate *)

Section Grows.
Context {S : Type}.
Implicit Types (h : Heap S).

Lemma unchanged_refl h : unchanged h h.
Proof. by split. Qed.

Lemma unchanged_trans h1 h2 h3 :
  unchanged h1 h2 -> unchanged h2 h3 -> unchanged h1 h3.
Proof. intros [Hv Hp] [Hv' Hp']. split; eauto. Qed.

Lemma grows_ret {A} (a : A) : grows (ret (S := S) a).
Proof. intros h. apply unchanged_refl. Qed.

Lemma grows_throw {A} e : grows (throw (S := S) (A := A) e).
Proof. intros h. apply unchanged_refl. Qed.

Lemma grows_bind {A B} (m : M S A) (k : A -> M S B) :
  grows m -> (forall a, grows (k a)) -> grows (let* x := m in k x).
Proof.
  intros Hm Hk h. unfold bind. specialize (Hm h).
  destruct (m h) as [[a|e] h1]; simpl in *; [|done].
  eapply unchanged_trans; [exact Hm | apply Hk].
Qed.

Lemma grows_index {A} (a : list A) i : grows (index (S := S) a i).
Proof. intros h. unfold index. destruct (a !! i); apply unchanged_refl. Qed.

Lemma grows_getVertex v : grows (getVertex (S := S) v).
Proof.
  intros h. unfold getVertex.
  destruct (vertexStore h !! v); apply unchanged_refl.
Qed.

Lemma grows_getPolygon r : grows (getPolygon (S := S) r).
Proof.
  intros h. unfold getPolygon.
  destruct (polygonStore h !! r); apply unchanged_refl.
Qed.

Lemma grows_newVertex x : grows (newVertex (S := S) x).
Proof.
  intros h. split; simpl; [|done].
  intros v y Hy. by apply lookup_app_l_Some.
Qed.

Lemma grows_newPolygon p : grows (newPolygon (S := S) p).
Proof.
  intros h. split; simpl; [done|].
  intros r q Hq. by apply lookup_app_l_Some.
Qed.

Lemma grows_fold {A B} (f : B -> A -> M S B) l :
  (forall b a, grows (f b a)) -> forall b, grows (Array_fold f l b).
Proof.
  intros Hf. induction l as [|a l IH]; intros b; simpl.
  - apply grows_ret.
  - apply grows_bind; [apply Hf | apply IH].
Qed.

Lemma grows_map {A B} (f : A -> M S B) l :
  (forall a, grows (f a)) -> grows (Array_map f l).
Proof.
  intros Hf. induction l as [|a l IH]; simpl.
  - apply grows_ret.
  - apply grows_bind; [apply Hf|]. intros b.
    apply grows_bind; [apply IH|]. intros bs. apply grows_ret.
Qed.

Lemma grows_if {A} (c : bool) (m1 m2 : M S A) :
  grows m1 -> grows m2 -> grows (if c then m1 else m2).
Proof. by destruct c. Qed.

Lemma grows_Vertex_new pos normal : grows (Vertex_new (S := S) pos normal).
Proof. apply grows_newVertex. Qed.

Lemma grows_Vertex_clone v : grows (Vertex_clone (S := S) v).
Proof.
  apply grows_bind; [apply grows_getVertex|]. intros. apply grows_Vertex_new.
Qed.

Lemma grows_Vertex_interpolate v1 v2 t :
  grows (Vertex_interpolate (S := S) v1 v2 t).
Proof.
  apply grows_bind; [apply grows_getVertex|]. intros.
  apply grows_bind; [apply grows_getVertex|]. intros.
  apply grows_Vertex_new.
Qed.

Lemma grows_Polygon_new vs (shared : option S) :
  grows (Polygon_new vs shared).
Proof.
  unfold Polygon_new.
  repeat (apply grows_bind;
          [first [apply grows_index | apply grows_getVertex]|]; intros).
  apply grows_newPolygon.
Qed.

Lemma grows_Polygon_clone r : grows (Polygon_clone (S := S) r).
Proof.
  apply grows_bind; [apply grows_getPolygon|]. intros p.
  apply grows_bind; [apply grows_map, grows_Vertex_clone|]. intros.
  apply grows_Polygon_new.
Qed.

Lemma grows_Plane_types (this : Plane) vs :
  grows (Plane_types (S := S) this vs).
Proof.
  apply grows_map. intros r.
  apply grows_bind; [apply grows_getVertex|]. intros. apply grows_ret.
Qed.

Lemma grows_Plane_splitEdge (this : Plane) vertices types fb i :
  grows (Plane_splitEdge (S := S) this vertices types fb i).
Proof.
  destruct fb as [f b]. unfold Plane_splitEdge.
  do 4 (apply grows_bind; [apply grows_index|]; intros).
  apply grows_bind.
  - apply grows_if; [|apply grows_ret].
    apply grows_bind; [|intros; apply grows_ret].
    apply grows_if; [apply grows_Vertex_clone | apply grows_ret].
  - intros b'. apply grows_if; [|apply grows_ret].
    do 2 (apply grows_bind; [apply grows_getVertex|]; intros).
    apply grows_bind; [apply grows_Vertex_interpolate|]. intros.
    apply grows_bind; [apply grows_Vertex_clone|]. intros. apply grows_ret.
Qed.

Lemma grows_Plane_splitChains (this : Plane) vertices types :
  grows (Plane_splitChains (S := S) this vertices types).
Proof. apply grows_fold. intros. apply grows_Plane_splitEdge. Qed.

Lemma grows_Plane_splitPolygon {F} (this : Plane) r
    (cF cB fo bo : OutArray F) fr :
  grows (Plane_splitPolygon (S := S) this r cF cB fo bo fr).
Proof.
  apply grows_bind; [apply grows_getPolygon|]. intros p.
  apply grows_bind; [apply grows_Plane_types|]. intros types.
  repeat (apply grows_if; [apply grows_ret|]).
  apply grows_if; [|apply grows_ret].
  apply grows_bind; [apply grows_Plane_splitChains|]. intros [f b].
  apply grows_bind.
  - apply grows_if; [|apply grows_ret].
    apply grows_bind; [apply grows_Polygon_new|]. intros. apply grows_ret.
  - intros fr'. apply grows_if; [|apply grows_ret].
    apply grows_bind; [apply grows_Polygon_new|]. intros. apply grows_ret.
Qed.

Lemma grows_child (f : Node -> M S Node) (c : option Node) :
  (forall n, c = Some n -> grows (f n)) ->
  grows match c with
        | Some n => let* n' := f n in ret (Some n')
        | None => ret None
        end.
Proof.
  intros Hf. destruct c as [n|]; [|apply grows_ret].
  apply grows_bind; [by apply Hf|]. intros. apply grows_ret.
Qed.

Lemma grows_Node_clipPolygons (n : Node) :
  forall ps, grows (Node_clipPolygons (S := S) n ps).
Proof.
  induction n as [plane front back polygons IHf IHb] using Node_induction.
  intros ps. simpl. destruct plane as [plane|]; [|apply grows_ret].
  apply grows_bind.
  { apply grows_fold. intros. apply grows_Plane_splitPolygon. }
  intros [f b].
  apply grows_bind.
  { destruct front; [by apply IHf | apply grows_ret]. }
  intros f'. apply grows_bind; [|intros; apply grows_ret].
  destruct back; [by apply IHb | apply grows_ret].
Qed.

Lemma grows_Node_clipTo (n bsp : Node) : grows (Node_clipTo (S := S) n bsp).
Proof.
  induction n as [plane front back polygons IHf IHb] using Node_induction.
  simpl. apply grows_bind; [apply grows_Node_clipPolygons|]. intros ps.
  apply grows_bind.
  { apply (grows_child (fun n => Node_clipTo n bsp)).
    by intros n ->; apply IHf. }
  intros f. apply grows_bind; [|intros; apply grows_ret].
  apply (grows_child (fun n => Node_clipTo n bsp)).
  by intros n ->; apply IHb.
Qed.

Lemma grows_Node_build (fuel : nat) :
  forall n ps, grows (Node_build (S := S) fuel n ps).
Proof.
  induction fuel as [|fuel IH]; intros n ps; destruct ps as [|p0 ps];
    try apply grows_ret; [apply grows_throw|].
  cbn [Node_build]. apply grows_bind.
  { destruct (Node_plane n); [apply grows_ret|].
    apply grows_bind; [apply grows_getPolygon|]. intros. apply grows_ret. }
  intros plane. apply grows_bind.
  { apply grows_fold. intros. apply grows_Plane_splitPolygon. }
  intros [[own f] b].
  apply grows_bind.
  { destruct f; [apply grows_ret|].
    apply grows_bind; [apply IH|]. intros. apply grows_ret. }
  intros nf. apply grows_bind; [|intros; apply grows_ret].
  destruct b; [apply grows_ret|].
  apply grows_bind; [apply IH|]. intros. apply grows_ret.
Qed.

Lemma grows_Node_clone (n : Node) : grows (Node_clone (S := S) n).
Proof.
  induction n as [plane front back polygons IHf IHb] using Node_induction.
  simpl. apply grows_bind.
  { apply (grows_child Node_clone). by intros n ->; apply IHf. }
  intros f. apply grows_bind.
  { apply (grows_child Node_clone). by intros n ->; apply IHb. }
  intros b. apply grows_bind; [|intros; apply grows_ret].
  apply grows_map, grows_Polygon_clone.
Qed.

Lemma grows_CSG_clone (c : CSG) : grows (CSG_clone (S := S) c).
Proof.
  apply grows_bind; [|intros; apply grows_ret].
  apply grows_map, grows_Polygon_clone.
Qed.

Lemma grows_cube (c r : Vector) : grows (cube (S := S) c r).
Proof.
  apply grows_bind; [|intros; apply grows_ret].
  apply grows_map. intros info.
  apply grows_bind; [|intros; apply grows_Polygon_new].
  apply grows_map. intros. apply grows_Vertex_new.
Qed.
End Grows.

(** X1. Splitting, clipping, building and cloning only allocate: whatever
    the plane, the trees, the polygons, the bound on the recursion and the
    outcome of the call (a result or an exception, also on dangling or
    degenerate input), [splitPolygon], [clipPolygons], [clipTo], [build],
    the [clone] methods of [Node], [CSG], [Polygon] and [Vertex],
    [Vertex.interpolate] and [cube] leave every vertex and every polygon
    that existed before the call as it was. *)
Theorem clipping_and_building_only_allocate {S F : Type} (fuel : nat)
    (plane : Plane) (n bsp : Node) (A : CSG) (ps : list ref) (r v w : ref)
    (t : number)
    (coplanarFront coplanarBack front back : OutArray F) (fr : F)
    (c rad : Vector) (h : Heap S) :
  unchanged h
    (Plane_splitPolygon plane r coplanarFront coplanarBack front back fr h).2
  /\ unchanged h (Node_clipPolygons n ps h).2
  /\ unchanged h (Node_clipTo n bsp h).2
  /\ unchanged h (Node_build fuel n ps h).2
  /\ unchanged h (Node_clone n h).2
  /\ unchanged h (CSG_clone A h).2
  /\ unchanged h (Polygon_clone r h).2
  /\ unchanged h (Vertex_clone v h).2
  /\ unchanged h (Vertex_interpolate v w t h).2
  /\ unchanged h (cube c rad h).2.
Proof.
  split; [apply grows_Plane_splitPolygon|].
  split; [apply grows_Node_clipPolygons|].
  split; [apply grows_Node_clipTo|].
  split; [apply grows_Node_build|].
  split; [apply grows_Node_clone|].
  split; [apply grows_CSG_clone|].
  split; [apply grows_Polygon_clone|].
  split; [apply grows_Vertex_clone|].
  split; [apply grows_Vertex_interpolate | apply grows_cube].
Qed.


(** ** Copies: the constructor of Polygon and the clone methods *)

Lemma Vector_clone_id (v : Vector) : Vector_clone v = v.
Proof. by destruct v. Qed.

Lemma Plane_clone_id (pl : Plane) : Plane_clone pl = pl.
Proof. destruct pl as [n w]. unfold Plane_clone. simpl. by rewrite Vector_clone_id. Qed.

Section Copies.
Context {S : Type}.
Implicit Types (h : Heap S).

Lemma unchanged_lengths h h' :
  unchanged h h' ->
  length (vertexStore h) <= length (vertexStore h')
  /\ length (polygonStore h) <= length (polygonStore h').
Proof.
  intros [Hv Hp]. split.
  - destruct (vertexStore h) as [|x l] eqn:E using rev_ind; [simpl; lia|].
    clear IHl. specialize (Hv (length l) x).
    rewrite list_lookup_middle in Hv by done.
    apply lookup_lt_Some in Hv; [|done]. rewrite length_app. simpl. lia.
  - destruct (polygonStore h) as [|x l] eqn:E using rev_ind; [simpl; lia|].
    clear IHl. specialize (Hp (length l) x).
    rewrite list_lookup_middle in Hp by done.
    apply lookup_lt_Some in Hp; [|done]. rewrite length_app. simpl. lia.
Qed.

Lemma vertexObjects_unchanged h h' vs xs :
  unchanged h h' -> vertexObjects h vs = Some xs ->
  vertexObjects h' vs = Some xs.
Proof.
  intros [Hv _]. revert xs. induction vs as [|v vs IH]; intros xs H.
  - done.
  - apply vertexObjects_cons_inv in H as (x & xs' & -> & Hx & H).
    apply vertexObjects_cons; eauto.
Qed.

Lemma vertexObjects_Forall h vs xs :
  vertexObjects h vs = Some xs ->
  Forall (fun v => v < length (vertexStore h)) vs.
Proof.
  revert xs. induction vs as [|v vs IH]; intros xs H; [done|].
  apply vertexObjects_cons_inv in H as (x & xs' & -> & Hx & H).
  constructor; [by eapply lookup_lt_Some | eauto].
Qed.

Lemma vertexObjects_seq (l xs l' : list Vertex) (ps : list (Polygon S)) :
  vertexObjects (mkHeap (l ++ xs ++ l') ps) (seq (length l) (length xs))
  = Some xs.
Proof.
  revert l. induction xs as [|x xs IH]; intros l; [done|].
  cbn [length seq app]. apply vertexObjects_cons.
  - simpl. by rewrite list_lookup_middle.
  - specialize (IH (l ++ [x])). rewrite length_app in IH. simpl in IH.
    rewrite Nat.add_1_r in IH. by rewrite <- app_assoc in IH.
Qed.

Lemma vertexObjects_seq_end (l xs : list Vertex) (ps : list (Polygon S)) :
  vertexObjects (mkHeap (l ++ xs) ps) (seq (length l) (length xs)) = Some xs.
Proof.
  pose proof (vertexObjects_seq l xs [] ps) as H.
  by rewrite app_nil_r in H.
Qed.

Lemma faceOf_Some h r f :
  faceOf h r = Some f <->
  exists p, polygonStore h !! r = Some p
            /\ vertexObjects h (Polygon_vertices p) = Some (Face_vertices f)
            /\ Face_shared f = Polygon_shared p
            /\ Face_plane f = Polygon_plane p.
Proof.
  unfold faceOf. split.
  - destruct (polygonStore h !! r) as [p|]; simpl; [|done].
    destruct (vertexObjects h (Polygon_vertices p)) as [xs|] eqn:Hxs;
      simpl; [|done].
    intros [= <-]. by exists p.
  - intros (p & -> & Hxs & Hs & Hpl). simpl. rewrite Hxs. simpl.
    destruct f; simpl in *; by subst.
Qed.

Lemma faceOf_unchanged h h' r f :
  unchanged h h' -> faceOf h r = Some f -> faceOf h' r = Some f.
Proof.
  intros Hu. rewrite !faceOf_Some. intros (p & Hp & Hxs & ?).
  exists p. split; [by apply Hu|]. split; [|done].
  by eapply vertexObjects_unchanged.
Qed.

Lemma clonable_unchanged h h' r :
  unchanged h h' -> clonable h r = true -> clonable h' r = true.
Proof.
  intros Hu. unfold clonable.
  destruct (faceOf h r) as [f|] eqn:E; [|done].
  by rewrite (faceOf_unchanged h h' r f Hu E).
Qed.

Lemma Vertex_clone_Ok h v x :
  vertexStore h !! v = Some x ->
  Vertex_clone v h
  = (Ok (length (vertexStore h)),
     mkHeap (vertexStore h ++ [x]) (polygonStore h)).
Proof.
  intros Hx. unfold Vertex_clone. run_with (getVertex_Some _ _ _ Hx).
  unfold Vertex_new, newVertex. rewrite !Vector_clone_id. by destruct x.
Qed.

Lemma map_Vertex_clone_Ok vs :
  forall h xs, vertexObjects h vs = Some xs ->
    Array_map Vertex_clone vs h
    = (Ok (seq (length (vertexStore h)) (length vs)),
       mkHeap (vertexStore h ++ xs) (polygonStore h)).
Proof.
  induction vs as [|v vs IH]; intros h xs H.
  - injection H as <-. rewrite app_nil_r. by destruct h.
  - apply vertexObjects_cons_inv in H as (x & xs' & -> & Hx & H).
    simpl. run_with (Vertex_clone_Ok h v x Hx).
    erewrite bind_Ok; cycle 1.
    { apply (IH _ xs'). eapply vertexObjects_unchanged; [|exact H].
      apply (grows_newVertex x h). }
    simpl. rewrite length_app, Nat.add_1_r, <- app_assoc. done.
Qed.

(** The constructor, on an array of three vertices or more. *)
Lemma Polygon_new_exact h vs (shared : option S) xs :
  vertexObjects h vs = Some xs -> 3 <= length vs ->
  Polygon_new vs shared h
  = (Ok (length (polygonStore h)),
     mkHeap (vertexStore h)
            (polygonStore h ++ [mkPolygon vs shared (facePlane xs)])).
Proof.
  intros H Hlen.
  destruct vs as [|r0 [|r1 [|r2 vs]]]; simpl in Hlen; try lia.
  apply vertexObjects_cons_inv in H as (x0 & xs0 & -> & Hx0 & H).
  apply vertexObjects_cons_inv in H as (x1 & xs1 & -> & Hx1 & H).
  apply vertexObjects_cons_inv in H as (x2 & xs2 & -> & Hx2 & H).
  unfold Polygon_new.
  run_with (index_Some (S := S) (r0 :: r1 :: r2 :: vs) 0 r0 h eq_refl).
  run_with (getVertex_Some h r0 x0 Hx0).
  run_with (index_Some (S := S) (r0 :: r1 :: r2 :: vs) 1 r1 h eq_refl).
  run_with (getVertex_Some h r1 x1 Hx1).
  run_with (index_Some (S := S) (r0 :: r1 :: r2 :: vs) 2 r2 h eq_refl).
  run_with (getVertex_Some h r2 x2 Hx2).
  reflexivity.
Qed.

(** The constructor, on an array of fewer than three vertices. *)
Lemma Polygon_new_short h vs (shared : option S) xs :
  vertexObjects h vs = Some xs -> length vs < 3 ->
  Polygon_new vs shared h = (Throw TypeError, h).
Proof.
  intros H Hlen.
  destruct vs as [|r0 [|r1 [|r2 vs]]]; simpl in Hlen; try lia.
  - done.
  - apply vertexObjects_cons_inv in H as (x0 & xs0 & -> & Hx0 & H).
    unfold Polygon_new.
    run_with (index_Some (S := S) [r0] 0 r0 h eq_refl).
    run_with (getVertex_Some h r0 x0 Hx0). done.
  - apply vertexObjects_cons_inv in H as (x0 & xs0 & -> & Hx0 & H).
    apply vertexObjects_cons_inv in H as (x1 & xs1 & -> & Hx1 & H).
    unfold Polygon_new.
    run_with (index_Some (S := S) [r0; r1] 0 r0 h eq_refl).
    run_with (getVertex_Some h r0 x0 Hx0).
    run_with (index_Some (S := S) [r0; r1] 1 r1 h eq_refl).
    run_with (getVertex_Some h r1 x1 Hx1). done.
Qed.

Lemma Polygon_clone_Ok h r f :
  faceOf h r = Some f -> 3 <= length (Face_vertices f) ->
  Polygon_clone r h = (Ok (length (polygonStore h)), cloneHeap f h).
Proof.
  intros Hf Hlen. apply faceOf_Some in Hf as (p & Hp & Hxs & Hs & _).
  unfold Polygon_clone, cloneHeap. rewrite Hs.
  run_with (getPolygon_Some _ _ _ Hp).
  run_with (map_Vertex_clone_Ok _ _ _ Hxs).
  rewrite <- (vertexObjects_length _ _ _ Hxs).
  rewrite (Polygon_new_exact _ _ _ (Face_vertices f)); [done| |].
  - apply vertexObjects_seq_end.
  - by rewrite length_seq.
Qed.

Lemma unchanged_cloneHeap h (f : Face S) : unchanged h (cloneHeap f h).
Proof.
  split; simpl; intros; by apply lookup_app_l_Some.
Qed.

Lemma faceOf_cloneHeap h (f : Face S) :
  faceOf (cloneHeap f h) (length (polygonStore h)) = Some (Face_rebuilt f).
Proof.
  apply faceOf_Some. eexists. simpl. rewrite list_lookup_middle by done.
  split; [done|]. simpl. split; [|done].
  apply vertexObjects_seq_end.
Qed.

Lemma copy_of_cloneHeap h r f :
  faceOf h r = Some f ->
  copy_of h (cloneHeap f h) r (length (polygonStore h)).
Proof.
  intros Hf. exists f. split; [done|]. split; [apply faceOf_cloneHeap|].
  split; [done|]. simpl. rewrite list_lookup_middle by done. simpl.
  split; [|apply NoDup_seq]. apply Forall_seq. intros. lia.
Qed.
Lemma fresh_grow h h1 h2 q :
  unchanged h h1 -> unchanged h1 h2 -> fresh h1 h2 q -> fresh h h2 q.
Proof.
  intros Hu Hu' [Hq Hp]. apply unchanged_lengths in Hu as [Hlv Hlp].
  split; [lia|]. destruct (polygonStore h2 !! q) as [p'|]; [|done].
  destruct Hp as [Hvs Hnd]. split; [|done].
  eapply Forall_impl; [exact Hvs|]. simpl. intros. lia.
Qed.

Lemma made_from_grow_r (g : Face S -> Face S) h h1 h2 r q :
  unchanged h1 h2 -> made_from g h h1 r q -> made_from g h h2 r q.
Proof.
  intros Hu (f & Hf & Hq & Hlen & Hp). exists f. split; [done|].
  split; [by eapply faceOf_unchanged|]. split; [done|].
  destruct (polygonStore h1 !! q) as [p'|] eqn:E; [|done].
  by rewrite (proj2 Hu q p' E).
Qed.

Lemma made_from_grow_l (g : Face S -> Face S) h h1 h2 r q :
  unchanged h h1 -> unchanged h1 h2 -> is_Some (faceOf h r) ->
  made_from g h1 h2 r q -> made_from g h h2 r q.
Proof.
  intros Hu Hu' [f Hf] (f' & Hf' & Hq & Hfr).
  rewrite (faceOf_unchanged h h1 r f Hu Hf) in Hf'. injection Hf' as <-.
  exists f. split; [done|]. split; [done|]. by eapply fresh_grow.
Qed.

Lemma clonable_is_Some h r : clonable h r = true -> is_Some (faceOf h r).
Proof. unfold clonable. destruct (faceOf h r); [eauto | done]. Qed.

Lemma Forall2_copy_of_grow_l h h1 h2 ps qs :
  unchanged h h1 -> unchanged h1 h2 ->
  Forall (fun r => clonable h r = true) ps ->
  Forall2 (copy_of h1 h2) ps qs -> Forall2 (copy_of h h2) ps qs.
Proof.
  intros Hu Hu' Hps H. induction H as [|r q ps qs Hrq H IH]; [done|].
  inversion Hps as [|? ? Hr Hps']; subst. constructor; [|by apply IH].
  eapply made_from_grow_l; [done..| |done]. by apply clonable_is_Some.
Qed.

Lemma Forall_clonable_unchanged h h' ps :
  unchanged h h' ->
  Forall (fun r => clonable h r = true) ps ->
  Forall (fun r => clonable h' r = true) ps.
Proof.
  intros Hu Hps. eapply Forall_impl; [exact Hps|].
  intros r. by apply clonable_unchanged.
Qed.

Lemma Forall_clonable h ps :
  forallb (clonable h) ps = true ->
  Forall (fun r => clonable h r = true) ps.
Proof.
  induction ps as [|r ps IH]; simpl; [done|].
  intros [Hr Hps]%andb_prop. constructor; auto.
Qed.

Lemma vertexRefs_cons h r ps :
  vertexRefs h (r :: ps)
  = match polygonStore h !! r with
    | Some p => Polygon_vertices p
    | None => []
    end ++ vertexRefs h ps.
Proof. done. Qed.

(** [map(p => p.clone())] on polygons that can be cloned: the copies are
    the next polygons of the heap, on the next vertices of the heap. *)
Lemma clones_Ok ps :
  forall h, Forall (fun r => clonable h r = true) ps ->
    exists h',
      Array_map Polygon_clone ps h
      = (Ok (seq (length (polygonStore h)) (length ps)), h')
      /\ Forall2 (copy_of h h') ps (seq (length (polygonStore h)) (length ps))
      /\ unchanged h h'
      /\ length (polygonStore h') = length (polygonStore h) + length ps
      /\ vertexRefs h' (seq (length (polygonStore h)) (length ps))
         = seq (length (vertexStore h))
               (length (vertexStore h') - length (vertexStore h)).
Proof.
  induction ps as [|r ps IH]; intros h Hps.
  - exists h. split; [done|]. split; [constructor|].
    split; [apply unchanged_refl|]. split; [simpl; lia|].
    by rewrite Nat.sub_diag.
  - inversion Hps as [|? ? Hr Hps']; subst.
    pose proof Hr as Hr'. unfold clonable in Hr'.
    destruct (faceOf h r) as [f|] eqn:Hf; [|done].
    apply Nat.leb_le in Hr'.
    pose proof (unchanged_cloneHeap h f) as Hu1.
    destruct (IH (cloneHeap f h)) as (h' & E & Hcopies & Hu & Hlen & Hrefs).
    { by eapply Forall_clonable_unchanged. }
    assert (Hnp : length (polygonStore (cloneHeap f h))
                  = Datatypes.S (length (polygonStore h))).
    { simpl. rewrite length_app. simpl. lia. }
    assert (Hnv : length (vertexStore (cloneHeap f h))
                  = length (vertexStore h) + length (Face_vertices f)).
    { simpl. by rewrite length_app. }
    rewrite Hnp in *. rewrite Hnv in Hrefs.
    exists h'. cbn [Array_map length seq].
    run_with (Polygon_clone_Ok h r f Hf Hr'). run_with E.
    split; [done|]. split; [|split; [|split]].
    + constructor.
      * eapply made_from_grow_r; [exact Hu|]. by apply copy_of_cloneHeap.
      * by eapply Forall2_copy_of_grow_l.
    + by eapply unchanged_trans.
    + lia.
    + rewrite vertexRefs_cons, Hrefs.
      assert (Hq : polygonStore (cloneHeap f h) !! length (polygonStore h)
                   = Some (mkPolygon
                             (seq (length (vertexStore h))
                                  (length (Face_vertices f)))
                             (Face_shared f) (facePlane (Face_vertices f)))).
      { simpl. by rewrite list_lookup_middle. }
      rewrite (proj2 Hu _ _ Hq). simpl.
      apply unchanged_lengths in Hu as [Hlv _]. rewrite Hnv in Hlv.
      rewrite <- seq_app. f_equal. lia.
Qed.

Lemma Node_copy_grow_r h h1 h2 (n : Node) :
  forall t, unchanged h1 h2 -> Node_copy h h1 n t -> Node_copy h h2 n t.
Proof.
  induction n as [plane front back polygons IHf IHb] using Node_induction.
  intros [plane' front' back' polygons'] Hu (Hpl & Hps & Hf & Hb).
  simpl in *. split; [done|]. split; [|split].
  - eapply Forall2_impl; [exact Hps|]. intros r q.
    by apply made_from_grow_r.
  - destruct front as [c|], front' as [c'|]; try done. by apply IHf.
  - destruct back as [c|], back' as [c'|]; try done. by apply IHb.
Qed.

Lemma Node_copy_grow_l h h1 h2 (n : Node) :
  forall t, unchanged h h1 -> unchanged h1 h2 ->
    Forall (fun r => clonable h r = true) (Node_allPolygons n) ->
    Node_copy h1 h2 n t -> Node_copy h h2 n t.
Proof.
  induction n as [plane front back polygons IHf IHb] using Node_induction.
  intros [plane' front' back' polygons'] Hu Hu' Hall (Hpl & Hps & Hf & Hb).
  simpl in *. apply Forall_app in Hall as [Hown Hall].
  apply Forall_app in Hall as [Hfront Hback].
  split; [done|]. split; [|split].
  - by eapply Forall2_copy_of_grow_l.
  - destruct front as [c|], front' as [c'|]; try done. by apply IHf.
  - destruct back as [c|], back' as [c'|]; try done. by apply IHb.
Qed.

Lemma Node_clone_Ok (n : Node) :
  forall h, Forall (fun r => clonable h r = true) (Node_allPolygons n) ->
    exists t h',
      Node_clone n h = (Ok t, h') /\ Node_copy h h' n t /\ unchanged h h'.
Proof.
  induction n as [plane front back polygons IHf IHb] using Node_induction.
  intros h Hall. simpl in Hall. apply Forall_app in Hall as [Hown Hall].
  apply Forall_app in Hall as [Hfront Hback].
  assert (exists front' h1,
    (match front with
     | Some c => let* n' := Node_clone c in ret (Some n')
     | None => ret None
     end) h = (Ok front', h1)
    /\ unchanged h h1
    /\ match front, front' with
       | Some c, Some c' => Node_copy h h1 c c'
       | None, None => True
       | _, _ => False
       end) as (front' & h1 & E1 & Hu1 & Hc1).
  { destruct front as [c|]; simpl in *.
    - destruct (IHf h Hfront) as (t & h1 & E & Hc & Hu).
      exists (Some t), h1. by run_with E.
    - exists None, h. split; [done|]. split; [apply unchanged_refl | done]. }
  assert (exists back' h2,
    (match back with
     | Some c => let* n' := Node_clone c in ret (Some n')
     | None => ret None
     end) h1 = (Ok back', h2)
    /\ unchanged h1 h2
    /\ match back, back' with
       | Some c, Some c' => Node_copy h1 h2 c c'
       | None, None => True
       | _, _ => False
       end) as (back' & h2 & E2 & Hu2 & Hc2).
  { destruct back as [c|]; simpl in *.
    - destruct (IHb h1) as (t & h2 & E & Hc & Hu).
      { by eapply Forall_clonable_unchanged. }
      exists (Some t), h2. by run_with E.
    - exists None, h1. split; [done|]. split; [apply unchanged_refl | done]. }
  pose proof (unchanged_trans _ _ _ Hu1 Hu2) as Hu12.
  destruct (clones_Ok polygons h2) as (h3 & E3 & Hc3 & Hu3 & _).
  { by eapply Forall_clonable_unchanged. }
  eexists _, h3. cbn [Node_clone Node_front Node_back Node_polygons Node_plane].
  run_with E1. run_with E2. run_with E3. split; [done|].
  split; [|eapply unchanged_trans; [exact Hu12 | exact Hu3]].
  simpl. split; [|split; [|split]].
  - destruct plane as [pl|]; [|done]. simpl. by rewrite Plane_clone_id.
  - by eapply Forall2_copy_of_grow_l.
  - destruct front as [c|], front' as [c'|]; try done.
    eapply Node_copy_grow_r; [|exact Hc1]. by eapply unchanged_trans.
  - destruct back as [c|], back' as [c'|]; try done.
    eapply Node_copy_grow_r; [exact Hu3|].
    by apply (Node_copy_grow_l h h1 h2).
Qed.
End Copies.

(** X2. The constructor of [Polygon], on an array of vertices that are in
    the heap: with three vertices or more it allocates one polygon on this
    very array, with the tag given and the plane through the positions of
    the first three vertices, and touches nothing else; with fewer than
    three vertices it throws a TypeError (the position of a vertex that is
    not there is read) and no polygon results. *)
Theorem Polygon_new_needs_three_vertices {S : Type} (h : Heap S)
    (vertices : list ref) (shared : option S) (xs : list Vertex) :
  vertexObjects h vertices = Some xs ->
  Polygon_new vertices shared h
  = if 3 <=? length vertices
    then (Ok (length (polygonStore h)),
          mkHeap (vertexStore h)
                 (polygonStore h ++ [mkPolygon vertices shared (facePlane xs)]))
    else (Throw TypeError, h).
Proof.
  intros H. destruct (3 <=? length vertices) eqn:E.
  - apply Nat.leb_le in E. by apply Polygon_new_exact.
  - apply Nat.leb_gt in E. by eapply Polygon_new_short.
Qed.

Lemma Polygon_new_needs_three_vertices_witness :
  Polygon_new [0; 1] None front_triangle_heap
  = (Throw TypeError, front_triangle_heap).
Proof.
  exact (Polygon_new_needs_three_vertices front_triangle_heap [0; 1] None
           _ eq_refl).
Defined.

(** X3. [Polygon.clone] makes a deep copy: on a polygon of three vertices or
    more it returns a new polygon on new vertex objects, all different, that
    carry the same positions and normals in the same order; the copy has
    the same shared tag, and its plane is computed anew from its first three
    vertices.  The polygon cloned and all other objects are as before. *)
Theorem Polygon_clone_deep_copy {S : Type} (h : Heap S) (r : ref) :
  clonable h r = true ->
  exists q h',
    Polygon_clone r h = (Ok q, h') /\ copy_of h h' r q /\ unchanged h h'.
Proof.
  intros Hr. pose proof Hr as Hr'. unfold clonable in Hr'.
  destruct (faceOf h r) as [f|] eqn:Hf; [|done].
  apply Nat.leb_le in Hr'.
  exists (length (polygonStore h)), (cloneHeap f h).
  split; [by apply Polygon_clone_Ok|].
  split; [by apply copy_of_cloneHeap | apply unchanged_cloneHeap].
Qed.

Lemma Polygon_clone_deep_copy_witness :
  exists q h',
    Polygon_clone 0 square_heap = (Ok q, h')
    /\ copy_of square_heap h' 0 q /\ unchanged square_heap h'.
Proof. exact (Polygon_clone_deep_copy square_heap 0 eq_refl). Defined.

(** X4. [CSG.clone] makes a deep copy of a solid: for polygons of three
    vertices or more it returns as many new polygons, in the same order,
    each a deep copy of the polygon at its place; no polygon is twice in
    the copy and no vertex object is shared between two polygons of the
    copy or used twice by one, even where the original shares vertices.
    The original and all other objects are as before. *)
Theorem CSG_clone_deep_copy {S : Type} (A : CSG) (h : Heap S) :
  Forall (fun r => clonable h r = true) (CSG_polygons A) ->
  exists B h',
    CSG_clone A h = (Ok B, h')
    /\ Forall2 (copy_of h h') (CSG_polygons A) (CSG_polygons B)
    /\ separate h' (CSG_polygons B)
    /\ unchanged h h'.
Proof.
  intros HA.
  destruct (clones_Ok (CSG_polygons A) h HA)
    as (h' & E & Hc & Hu & _ & Hrefs).
  eexists _, h'. unfold CSG_clone. run_with E.
  split; [done|]. split; [done|]. split; [|done].
  split; simpl; [|rewrite Hrefs]; apply NoDup_seq.
Qed.

Lemma CSG_clone_deep_copy_witness :
  exists B h',
    CSG_clone (CSG_fromPolygons unit_cube_faces) unit_cube_heap = (Ok B, h')
    /\ Forall2 (copy_of unit_cube_heap h') unit_cube_faces (CSG_polygons B)
    /\ separate h' (CSG_polygons B)
    /\ unchanged unit_cube_heap h'.
Proof.
  apply (CSG_clone_deep_copy (CSG_fromPolygons unit_cube_faces)
           unit_cube_heap).
  apply Forall_clonable. vm_compute. reflexivity.
Defined.

(** X5. [Node.clone] makes a deep copy of a tree: when the polygons of the
    tree have three vertices or more it returns a tree of the same shape
    with the same plane at each node (no plane where there was none), whose
    polygons are, node by node and in order, deep copies of the polygons of
    the original.  The original and all other objects are as before. *)
Theorem Node_clone_deep_copy {S : Type} (n : Node) (h : Heap S) :
  Forall (fun r => clonable h r = true) (Node_allPolygons n) ->
  exists t h',
    Node_clone n h = (Ok t, h') /\ Node_copy h h' n t /\ unchanged h h'.
Proof. apply Node_clone_Ok. Qed.

Lemma Node_clone_deep_copy_witness :
  exists t h',
    Node_clone unit_cube_tree unit_cube_built.2 = (Ok t, h')
    /\ Node_copy unit_cube_built.2 h' unit_cube_tree t
    /\ unchanged unit_cube_built.2 h'.
Proof.
  apply (Node_clone_deep_copy unit_cube_tree unit_cube_built.2).
  apply Forall_clonable. vm_compute. reflexivity.
Defined.


(** ** Flips: what invert and inverse do to each polygon *)

Lemma lookup_alters {A : Type} (f : A -> A) (l : list nat) :
  forall (st : list A) i, NoDup l ->
    alters f l st !! i
    = if decide (i ∈ l) then f <$> st !! i else st !! i.
Proof.
  induction l as [|j l IH]; intros st i Hnd.
  - by rewrite decide_False by apply not_elem_of_nil.
  - apply NoDup_cons in Hnd as [Hj Hnd].
    change (alters f (j :: l) st) with (alters f l (alter f j st)).
    rewrite IH by done. destruct (decide (i = j)) as [->|Hne].
    + rewrite (decide_False _ _ Hj), decide_True by left.
      apply list_lookup_alter_eq.
    + rewrite list_lookup_alter_ne by done.
      destruct (decide (i ∈ l)) as [Hi|Hi].
      * by rewrite decide_True by (by right).
      * rewrite decide_False; [done|]. by intros [?|?]%elem_of_cons.
Qed.

Lemma rev_as_reverse {A : Type} (l : list A) : rev l = reverse l.
Proof. unfold reverse. apply rev_alt. Qed.

Section Flips.
Context {S : Type}.
Implicit Types (h : Heap S).

Lemma flipsHeap_cons r ps h :
  flipsHeap (r :: ps) h = flipsHeap ps (flipHeap r h).
Proof. done. Qed.

Lemma polygonStore_flipsHeap ps :
  forall h, polygonStore (flipsHeap ps h)
            = alters Polygon_flipped ps (polygonStore h).
Proof.
  induction ps as [|r ps IH]; intros h; [done|].
  by rewrite flipsHeap_cons, IH, polygonStore_flipHeap.
Qed.

Lemma vertexRefs_ext h h' ps :
  (forall r, r ∈ ps -> polygonStore h' !! r = polygonStore h !! r) ->
  vertexRefs h' ps = vertexRefs h ps.
Proof.
  induction ps as [|r ps IH]; intros H; [done|].
  rewrite !vertexRefs_cons, H by left. f_equal. apply IH.
  intros r' Hr'. apply H. by right.
Qed.

Lemma vertexStore_flipHeap h r :
  vertexStore (flipHeap r h)
  = alters Vertex_flipped (rev (vertexRefs h [r])) (vertexStore h).
Proof.
  unfold flipHeap, vertexRefs. simpl.
  destruct (polygonStore h !! r) as [p|]; simpl; [|done].
  by rewrite app_nil_r.
Qed.

Lemma vertexStore_flipsHeap ps :
  forall h, NoDup ps ->
    exists l, l ≡ₚ vertexRefs h ps
              /\ vertexStore (flipsHeap ps h)
                 = alters Vertex_flipped l (vertexStore h).
Proof.
  induction ps as [|r ps IH]; intros h Hnd.
  - by exists [].
  - apply NoDup_cons in Hnd as [Hr Hnd].
    destruct (IH (flipHeap r h) Hnd) as (l & Hl & E).
    exists (rev (vertexRefs h [r]) ++ l). split.
    + rewrite vertexRefs_cons, Hl, <- Permutation_rev.
      rewrite (vertexRefs_ext h (flipHeap r h)).
      * unfold vertexRefs at 1. simpl. by rewrite app_nil_r.
      * intros r' Hr'. apply lookup_flipHeap_ne. by intros ->.
    + by rewrite flipsHeap_cons, E, vertexStore_flipHeap, alters_app.
Qed.

Lemma flipsHeap_flipped_once h ps :
  separate h ps -> flipped_once h (flipsHeap ps h) ps.
Proof.
  intros [Hnd Hndv]. split.
  - intros r. rewrite polygonStore_flipsHeap. by apply lookup_alters.
  - intros v. destruct (vertexStore_flipsHeap ps h Hnd) as (l & Hl & ->).
    rewrite (alters_Permutation _ _ _ _ Hl). by apply lookup_alters.
Qed.

Lemma vertexObjects_Forall2 h vs xs :
  vertexObjects h vs = Some xs
  <-> Forall2 (fun v x => vertexStore h !! v = Some x) vs xs.
Proof. apply mapM_Some. Qed.

Lemma vertexObjects_rev h vs xs :
  vertexObjects h vs = Some xs -> vertexObjects h (rev vs) = Some (rev xs).
Proof.
  rewrite !vertexObjects_Forall2, !rev_as_reverse. apply Forall2_reverse.
Qed.

Lemma vertexObjects_fmap h h' (g : Vertex -> Vertex) vs xs :
  (forall v, v ∈ vs -> vertexStore h' !! v = g <$> vertexStore h !! v) ->
  vertexObjects h vs = Some xs -> vertexObjects h' vs = Some (map g xs).
Proof.
  rewrite !vertexObjects_Forall2. intros Hg H.
  induction H as [|v x vs xs Hx H IH]; [constructor|].
  simpl. constructor.
  - rewrite Hg by left. by rewrite Hx.
  - apply IH. intros v' Hv'. apply Hg. by right.
Qed.

Lemma elem_of_vertexRefs h ps r p v :
  r ∈ ps -> polygonStore h !! r = Some p -> v ∈ Polygon_vertices p ->
  v ∈ vertexRefs h ps.
Proof.
  intros Hr Hp Hv. apply list_elem_of_bind. exists r. split; [|done].
  by rewrite Hp.
Qed.

(** A polygon of the list, read as a face after the flips. *)
Lemma faceOf_flipped_once h h' ps r f :
  flipped_once h h' ps -> r ∈ ps -> faceOf h r = Some f ->
  faceOf h' r = Some (Face_flipped f).
Proof.
  intros [Hp Hv] Hr. rewrite !faceOf_Some.
  intros (p & Hpr & Hxs & Hs & Hpl).
  exists (Polygon_flipped p). split.
  { by rewrite Hp, decide_True, Hpr by done. }
  split; [|simpl; by rewrite Hs, Hpl].
  simpl. rewrite <- map_rev. apply (vertexObjects_fmap h).
  - intros v Hv'. rewrite Hv, decide_True; [done|].
    eapply elem_of_vertexRefs; [done..|].
    by rewrite rev_as_reverse, elem_of_reverse in Hv'.
  - by apply vertexObjects_rev.
Qed.

Lemma vertexRefs_flipped_once h h' ps :
  flipped_once h h' ps -> vertexRefs h' ps ≡ₚ vertexRefs h ps.
Proof.
  intros [Hp _].
  assert (G : forall l, (forall r, r ∈ l -> r ∈ ps) ->
                        vertexRefs h' l ≡ₚ vertexRefs h l).
  { induction l as [|r l IH]; intros Hl; [done|].
    rewrite !vertexRefs_cons. f_equiv.
    - rewrite Hp, decide_True by (apply Hl; left).
      destruct (polygonStore h !! r) as [p|]; simpl; [|done].
      by rewrite <- Permutation_rev.
    - apply IH. intros r' Hr'. apply Hl. by right. }
  by apply G.
Qed.

Lemma separate_flipped_once h h' ps :
  flipped_once h h' ps -> separate h ps -> separate h' ps.
Proof.
  intros Hf [Hnd Hndv]. split; [done|].
  by rewrite (vertexRefs_flipped_once h h' ps Hf).
Qed.

Lemma faceOf_valid h r : is_Some (faceOf h r) -> valid_polygon h r.
Proof.
  intros [f (p & Hp & Hxs & _)%faceOf_Some].
  split; [lia|]. rewrite Hp.
  eapply Forall_impl; [by eapply vertexObjects_Forall|].
  intros v Hv. split; [lia | done].
Qed.

Lemma made_from_is_Some (g : Face S -> Face S) h h' r q :
  made_from g h h' r q -> is_Some (faceOf h' q).
Proof. intros (f & _ & Hq & _). eauto. Qed.

Lemma fresh_flipped_once h h1 h' ps q :
  flipped_once h1 h' ps -> fresh h h1 q -> fresh h h' q.
Proof.
  intros [Hp _] [Hq Hvs]. split; [done|]. rewrite Hp.
  destruct (polygonStore h1 !! q) as [p|]; [|done].
  destruct Hvs as [Hvs Hnd].
  destruct (decide (q ∈ ps)); simpl; [|done]. split.
  - by apply Forall_rev.
  - by rewrite <- Permutation_rev.
Qed.

Lemma made_from_flipped_once (g : Face S -> Face S) h h1 h' ps r q :
  flipped_once h1 h' ps -> q ∈ ps -> made_from g h h1 r q ->
  made_from (fun f => Face_flipped (g f)) h h' r q.
Proof.
  intros Hfl Hq (f & Hf & Hgf & Hfr). exists f. split; [done|]. split.
  - by eapply faceOf_flipped_once.
  - by eapply fresh_flipped_once.
Qed.

Lemma Forall2_made_from_flipped_once (g : Face S -> Face S) h h1 h' ps qs :
  flipped_once h1 h' qs ->
  Forall2 (made_from g h h1) ps qs ->
  Forall2 (made_from (fun f => Face_flipped (g f)) h h') ps qs.
Proof.
  intros Hfl H.
  assert (G : forall ps' qs', (forall q, q ∈ qs' -> q ∈ qs) ->
    Forall2 (made_from g h h1) ps' qs' ->
    Forall2 (made_from (fun f => Face_flipped (g f)) h h') ps' qs').
  { intros ps' qs' Hsub H'.
    induction H' as [|r q ps' qs' Hrq H' IH]; [constructor|].
    constructor.
    - eapply made_from_flipped_once; [done| |done]. apply Hsub. left.
    - apply IH. intros q' Hq'. apply Hsub. by right. }
  by apply G.
Qed.

(** [inverse], on polygons that can be cloned. *)
Lemma CSG_inverse_Ok (A : CSG) h :
  Forall (fun r => clonable h r = true) (CSG_polygons A) ->
  exists B h',
    CSG_inverse A h = (Ok B, h')
    /\ Forall2 (made_from (fun f => Face_flipped (Face_rebuilt f)) h h')
               (CSG_polygons A) (CSG_polygons B)
    /\ separate h' (CSG_polygons B)
    /\ unchanged h h'.
Proof.
  intros HA.
  destruct (clones_Ok (CSG_polygons A) h HA)
    as (h1 & E & Hc & Hu & _ & Hrefs).
  set (qs := seq (length (polygonStore h)) (length (CSG_polygons A))) in *.
  assert (Hsep : separate h1 qs).
  { split; [|rewrite Hrefs]; apply NoDup_seq. }
  assert (Hvalid : Forall (valid_polygon h1) qs).
  { apply Forall_forall. intros q Hq.
    apply list_elem_of_lookup in Hq as [i Hi].
    destruct (Forall2_lookup_r _ _ _ _ _ Hc Hi) as (r & _ & Hrq).
    by eapply faceOf_valid, made_from_is_Some. }
  destruct (forEach_Polygon_flip_valid qs h1 Hvalid) as [E' _].
  pose proof (flipsHeap_flipped_once h1 qs Hsep) as Hfl.
  exists (mkCSG qs), (flipsHeap qs h1).
  assert (Hrun : CSG_inverse A h = (Ok (mkCSG qs), flipsHeap qs h1)).
  { unfold CSG_inverse, CSG_clone. rewrite bind_assoc. run_with E.
    rewrite (bind_Ok (ret _) _ h1 _ h1 eq_refl). simpl.
    by run_with E'. }
  split; [done|]. split; [|split].
  - by apply Forall2_made_from_flipped_once with h1.
  - by eapply separate_flipped_once.
  - pose proof (spec_unchanged h (CSG_inverse A) _
                  (spec_CSG_inverse _ _ h A)) as Hun.
    by rewrite Hrun in Hun.
Qed.

Lemma Forall_clonable_made_from (g : Face S -> Face S) h h' ps qs :
  (forall f, length (Face_vertices (g f)) = length (Face_vertices f)) ->
  Forall (fun r => clonable h r = true) ps ->
  Forall2 (made_from g h h') ps qs ->
  Forall (fun q => clonable h' q = true) qs.
Proof.
  intros Hg Hps H. induction H as [|r q ps qs Hrq H IH]; [constructor|].
  inversion Hps as [|? ? Hr Hps']; subst. constructor; [|by apply IH].
  destruct Hrq as (f & Hf & Hq & _). unfold clonable in *.
  rewrite Hf in Hr. by rewrite Hq, Hg.
Qed.

Lemma made_from_compose (g1 g2 : Face S -> Face S) h h1 h2 r q s :
  unchanged h h1 -> unchanged h1 h2 ->
  made_from g1 h h1 r q -> made_from g2 h1 h2 q s ->
  made_from (fun f => g2 (g1 f)) h h2 r s.
Proof.
  intros Hu Hu' (f & Hf & Hq & _) (f' & Hf' & Hs & Hfr).
  rewrite Hq in Hf'. injection Hf' as <-.
  exists f. split; [done|]. split; [done|]. by eapply fresh_grow.
Qed.

Lemma Forall2_made_from_compose (g1 g2 : Face S -> Face S) h h1 h2 ps qs ss :
  unchanged h h1 -> unchanged h1 h2 ->
  Forall2 (made_from g1 h h1) ps qs -> Forall2 (made_from g2 h1 h2) qs ss ->
  Forall2 (made_from (fun f => g2 (g1 f)) h h2) ps ss.
Proof.
  intros Hu Hu' H. revert ss.
  induction H as [|r q ps qs Hrq H IH]; intros ss H'.
  - inversion H'. constructor.
  - inversion H' as [|? s ? ss' Hqs H'']; subst. constructor; [|by apply IH].
    by eapply made_from_compose.
Qed.

Lemma map_Vertex_flipped_involutive (xs : list Vertex) :
  rev (map Vertex_flipped (rev (map Vertex_flipped xs))) = xs.
Proof.
  rewrite map_rev, rev_involutive, map_map.
  rewrite <- (map_id xs) at 2. apply map_ext.
  intros x. apply Vertex_flipped_involutive.
Qed.
End Flips.

Lemma made_from_ext {S : Type} (g g' : Face S -> Face S) (h h' : Heap S) r q :
  (forall f, g f = g' f) -> made_from g h h' r q -> made_from g' h h' r q.
Proof.
  intros Hg (f & Hf & Hq & Hfr). exists f. by rewrite <- Hg.
Qed.

(** X6. [inverse] returns a flipped deep copy: for polygons of three
    vertices or more it returns as many new polygons, in the same order, on
    new vertex objects; each has the vertices of the original in reverse
    order, with the same positions and negated normals, the same shared tag,
    and for plane the flipped plane of the first three vertices of the
    original.  No vertex object is shared in the result, and the original
    and all other objects are as before. *)
Theorem CSG_inverse_flipped_copy {S : Type} (A : CSG) (h : Heap S) :
  Forall (fun r => clonable h r = true) (CSG_polygons A) ->
  exists B h',
    CSG_inverse A h = (Ok B, h')
    /\ Forall2 (made_from (fun f => Face_flipped (Face_rebuilt f)) h h')
               (CSG_polygons A) (CSG_polygons B)
    /\ separate h' (CSG_polygons B)
    /\ unchanged h h'.
Proof. apply CSG_inverse_Ok. Qed.

Lemma CSG_inverse_flipped_copy_witness :
  exists B h',
    CSG_inverse (CSG_fromPolygons unit_cube_faces) unit_cube_heap
    = (Ok B, h')
    /\ Forall2 (made_from (fun f => Face_flipped (Face_rebuilt f))
                  unit_cube_heap h')
               unit_cube_faces (CSG_polygons B)
    /\ separate h' (CSG_polygons B)
    /\ unchanged unit_cube_heap h'.
Proof.
  apply (CSG_inverse_flipped_copy (CSG_fromPolygons unit_cube_faces)
           unit_cube_heap).
  apply Forall_clonable. vm_compute. reflexivity.
Defined.

(** X7. [inverse] of [inverse]: for polygons of three vertices or more the
    second result has, polygon by polygon and in the order of the original,
    the vertices of the original in their order with their positions and
    their normals, and the shared tags.  The plane of each polygon is the
    flipped plane of its last three vertices taken backwards; it is not
    read from the original. *)
Theorem CSG_inverse_twice {S : Type} (A : CSG) (h : Heap S) :
  Forall (fun r => clonable h r = true) (CSG_polygons A) ->
  exists C h',
    (let* B := CSG_inverse A in CSG_inverse B) h = (Ok C, h')
    /\ Forall2
         (made_from
            (fun f =>
               mkFace (Face_vertices f) (Face_shared f)
                 (Plane_flip
                    (facePlane (rev (map Vertex_flipped (Face_vertices f))))))
            h h')
         (CSG_polygons A) (CSG_polygons C)
    /\ unchanged h h'.
Proof.
  intros HA.
  destruct (CSG_inverse_Ok A h HA) as (B & h1 & E1 & H1 & _ & Hu1).
  destruct (CSG_inverse_Ok B h1) as (C & h2 & E2 & H2 & _ & Hu2).
  { eapply Forall_clonable_made_from; [|exact HA|exact H1].
    intros f. simpl. by rewrite length_rev, length_map. }
  exists C, h2. run_with E1. split; [done|].
  split; [|by eapply unchanged_trans].
  eapply Forall2_impl.
  { exact (Forall2_made_from_compose _ _ h h1 h2 _ _ _ Hu1 Hu2 H1 H2). }
  intros r s. apply made_from_ext. intros f.
  unfold Face_flipped, Face_rebuilt. simpl.
  by rewrite map_Vertex_flipped_involutive.
Qed.

Lemma CSG_inverse_twice_witness :
  exists C h',
    (let* B := CSG_inverse (CSG_fromPolygons unit_cube_faces) in
     CSG_inverse B) unit_cube_heap = (Ok C, h')
    /\ Forall2
         (made_from
            (fun f =>
               mkFace (Face_vertices f) (Face_shared f)
                 (Plane_flip
                    (facePlane (rev (map Vertex_flipped (Face_vertices f))))))
            unit_cube_heap h')
         unit_cube_faces (CSG_polygons C)
    /\ unchanged unit_cube_heap h'.
Proof.
  apply (CSG_inverse_twice (CSG_fromPolygons unit_cube_faces)
           unit_cube_heap).
  apply Forall_clonable. vm_compute. reflexivity.
Defined.

(** X8. [invert] flips every polygon of the tree exactly once: on a tree
    with a plane at every node, whose polygons are in the heap, are all
    different and share no vertex object, it returns the mirrored tree
    (planes flipped, children swapped), which holds the same polygons;
    after it each polygon of the tree has its vertices in reverse order,
    each of them with its normal negated once, and its plane flipped;
    every other vertex is as before, and so is every other polygon whose
    vertex list is not the list of a polygon of the tree (a polygon on
    other vertices is on another array than the arrays that [flip]
    reverses). *)
Theorem invert_flips_each_polygon_once {S : Type} (n : Node) (h : Heap S) :
  planed n = true -> valid_tree h n -> separate h (Node_allPolygons n) ->
  exists h',
    Node_invert n h = (Ok (Node_mirror n), h')
    /\ Node_allPolygons (Node_mirror n) ≡ₚ Node_allPolygons n
    /\ (forall r p, r ∈ Node_allPolygons n -> polygonStore h !! r = Some p ->
                    polygonStore h' !! r = Some (Polygon_flipped p))
    /\ (forall r f, r ∈ Node_allPolygons n -> faceOf h r = Some f ->
                    faceOf h' r = Some (Face_flipped f))
    /\ (forall v, vertexStore h' !! v
                  = if decide (v ∈ vertexRefs h (Node_allPolygons n))
                    then Vertex_flipped <$> vertexStore h !! v
                    else vertexStore h !! v)
    /\ (forall r p, r ∉ Node_allPolygons n -> polygonStore h !! r = Some p ->
          (forall q pq, q ∈ Node_allPolygons n ->
                        polygonStore h !! q = Some pq ->
                        Polygon_vertices pq <> Polygon_vertices p) ->
          polygonStore h' !! r = Some p).
Proof.
  intros Hpl Hn Hsep. destruct (Node_invert_Ok n h Hpl Hn) as [E _].
  pose proof (flipsHeap_flipped_once h _ Hsep) as Hfl.
  eexists. split; [exact E|]. split; [apply allPolygons_mirror|].
  split; [|split; [|split]].
  - intros r p Hr Hp. destruct Hfl as [Hfl _].
    by rewrite Hfl, decide_True, Hp.
  - intros r f. by apply faceOf_flipped_once.
  - by destruct Hfl as [_ Hfl].
  - intros r p Hr Hp _. destruct Hfl as [Hfl _].
    by rewrite Hfl, decide_False.
Qed.

Lemma invert_flips_each_polygon_once_witness :
  exists h',
    Node_invert unit_cube_tree unit_cube_built.2
    = (Ok (Node_mirror unit_cube_tree), h')
    /\ Node_allPolygons (Node_mirror unit_cube_tree)
       ≡ₚ Node_allPolygons unit_cube_tree
    /\ (forall r p, r ∈ Node_allPolygons unit_cube_tree ->
                    polygonStore unit_cube_built.2 !! r = Some p ->
                    polygonStore h' !! r = Some (Polygon_flipped p))
    /\ (forall r f, r ∈ Node_allPolygons unit_cube_tree ->
                    faceOf unit_cube_built.2 r = Some f ->
                    faceOf h' r = Some (Face_flipped f))
    /\ (forall v, vertexStore h' !! v
                  = if decide (v ∈ vertexRefs unit_cube_built.2
                                     (Node_allPolygons unit_cube_tree))
                    then Vertex_flipped <$> vertexStore unit_cube_built.2 !! v
                    else vertexStore unit_cube_built.2 !! v)
    /\ (forall r p, r ∉ Node_allPolygons unit_cube_tree ->
          polygonStore unit_cube_built.2 !! r = Some p ->
          (forall q pq, q ∈ Node_allPolygons unit_cube_tree ->
                        polygonStore unit_cube_built.2 !! q = Some pq ->
                        Polygon_vertices pq <> Polygon_vertices p) ->
          polygonStore h' !! r = Some p).
Proof.
  apply (invert_flips_each_polygon_once unit_cube_tree unit_cube_built.2).
  - vm_compute. reflexivity.
  - apply valid_polygonb_valid. vm_compute. reflexivity.
  - split; apply (bool_decide_unpack _); vm_compute; exact I.
Defined.


(** ** Results: what a call returns when it returns *)

Section Returns.
Context {S : Type}.
Implicit Types (h : Heap S).

Lemma bind_Ok_inv {A B} (m : M S A) (k : A -> M S B) h b h' :
  (let* x := m in k x) h = (Ok b, h') ->
  exists a h1, m h = (Ok a, h1) /\ k a h1 = (Ok b, h').
Proof.
  unfold bind. destruct (m h) as [[a|e] h1]; [eauto | done].
Qed.

Lemma child_Ok_inv (f : Node -> M S Node) (c : option Node) h oc h' :
  (match c with
   | Some n => let* n' := f n in ret (Some n')
   | None => ret None
   end) h = (Ok oc, h') ->
  match c, oc with
  | Some n, Some n' => f n h = (Ok n', h')
  | None, None => h' = h
  | _, _ => False
  end.
Proof.
  destruct c as [n|].
  - intros (n' & h1 & E & [= <- <-])%bind_Ok_inv. done.
  - by intros [= <- <-].
Qed.

Lemma returns_ret {A} (a : A) (Q : A -> Prop) :
  Q a -> returns (ret (S := S) a) Q.
Proof. by intros HQ h a' h' [= <- <-]. Qed.

Lemma returns_throw {A} e (Q : A -> Prop) :
  returns (throw (S := S) e) Q.
Proof. by intros h a h'. Qed.

Lemma returns_bind {A B} (m : M S A) (k : A -> M S B)
    (Q1 : A -> Prop) (Q2 : B -> Prop) :
  returns m Q1 -> (forall a, Q1 a -> returns (k a) Q2) ->
  returns (let* x := m in k x) Q2.
Proof.
  intros Hm Hk h b h' (a & h1 & E & E')%bind_Ok_inv.
  eapply Hk; [|exact E']. by eapply Hm.
Qed.

Lemma returns_any {A} (m : M S A) : returns m (fun _ => True).
Proof. by intros h a h'. Qed.

Lemma returns_if {A} (c : bool) (m1 m2 : M S A) (Q : A -> Prop) :
  returns m1 Q -> returns m2 Q -> returns (if c then m1 else m2) Q.
Proof. by destruct c. Qed.

Lemma returns_fold {A B} (f : B -> A -> M S B) (I : B -> Prop) l :
  (forall b a, I b -> returns (f b a) I) ->
  forall b, I b -> returns (Array_fold f l b) I.
Proof.
  intros Hf. induction l as [|a l IH]; intros b Hb; simpl.
  - by apply returns_ret.
  - eapply returns_bind; [by apply Hf | apply IH].
Qed.

(** The frame that [splitPolygon] returns is the frame it was given, after
    pushes to the four arrays. *)
Lemma returns_Plane_splitPolygon {F} (this : Plane) r
    (cF cB fo bo : OutArray F) (fr : F) (I : F -> Prop) :
  (forall a q x, a = cF \/ a = cB \/ a = fo \/ a = bo ->
                 I x -> I (push a q x)) ->
  I fr -> returns (Plane_splitPolygon (S := S) this r cF cB fo bo fr) I.
Proof.
  intros Hpush Hfr. unfold Plane_splitPolygon.
  eapply returns_bind; [apply returns_any|]. intros p _.
  eapply returns_bind; [apply returns_any|]. intros types _.
  apply returns_if.
  { apply returns_ret. destruct (_ <? _)%float; apply Hpush; auto. }
  apply returns_if; [apply returns_ret, Hpush; auto|].
  apply returns_if; [apply returns_ret, Hpush; auto|].
  apply returns_if; [|by apply returns_ret].
  eapply returns_bind; [apply returns_any|]. intros [f b] _.
  eapply (returns_bind _ _ I).
  - apply returns_if; [|by apply returns_ret].
    eapply returns_bind; [apply returns_any|]. intros q _.
    apply returns_ret, Hpush; auto.
  - intros fr' Hfr'. apply returns_if; [|by apply returns_ret].
    eapply returns_bind; [apply returns_any|]. intros q _.
    apply returns_ret, Hpush; auto.
Qed.

Lemma Node_extends_refl (n : Node) : Node_extends n n.
Proof.
  induction n as [plane front back polygons IHf IHb] using Node_induction.
  simpl. split; [done|]. split; [done|]. split.
  - by destruct front.
  - by destruct back.
Qed.

Lemma returns_Node_clipTo (n bsp : Node) :
  returns (Node_clipTo (S := S) n bsp) (same_shape n).
Proof.
  induction n as [plane front back polygons IHf IHb] using Node_induction.
  intros h t h'. simpl.
  intros (ps & h1 & _ & (f & h2 & Ef & (b & h3 & Eb & [= <- <-])%bind_Ok_inv)
                          %bind_Ok_inv)%bind_Ok_inv.
  apply child_Ok_inv in Ef, Eb. simpl. split; [done|]. split.
  - destruct front as [c|], f as [c'|]; try done. by eapply IHf.
  - destruct back as [c|], b as [c'|]; try done. by eapply IHb.
Qed.

(** Against a tree without a plane, [clipTo] removes nothing. *)
Lemma Node_clipTo_planeless (n bsp : Node) :
  Node_plane bsp = None -> forall h, Node_clipTo n bsp h = (Ok n, h).
Proof.
  intros Hbsp.
  induction n as [plane front back polygons IHf IHb] using Node_induction.
  intros h. simpl.
  assert (E : Node_clipPolygons bsp polygons h = (Ok polygons, h)).
  { destruct bsp. simpl in *. by subst. }
  run_with E.
  destruct front as [f|]; simpl in *.
  - rewrite bind_assoc. run_with (IHf h).
    rewrite (bind_Ok (ret _) _ h _ h eq_refl).
    destruct back as [b|]; simpl in *; [|done].
    rewrite bind_assoc. by run_with (IHb h).
  - rewrite (bind_Ok (ret _) _ h _ h eq_refl).
    destruct back as [b|]; simpl in *; [|done].
    rewrite bind_assoc. by run_with (IHb h).
Qed.

Lemma returns_Node_build (fuel : nat) :
  forall n ps, returns (Node_build (S := S) fuel n ps) (Node_extends n).
Proof.
  induction fuel as [|fuel IH]; intros n ps; destruct ps as [|p0 ps];
    try (apply returns_ret, Node_extends_refl); [apply returns_throw|].
  cbn [Node_build].
  eapply (returns_bind _ _
            (fun plane => forall pl, Node_plane n = Some pl -> plane = pl)).
  { destruct (Node_plane n) as [pl|].
    - apply returns_ret. by intros ? [= <-].
    - intros h a h' _. done. }
  intros plane Hplane.
  eapply (returns_bind _ _
            (fun fr => Node_polygons n `prefix_of` fr.1.1)).
  { apply returns_fold; [|done]. intros fr p Hfr.
    apply returns_Plane_splitPolygon; [|done].
    intros a q x [->|[->|[->| ->]]] Hx; simpl; try done;
      by apply prefix_app_r. }
  intros [[own f] b] Hown. simpl in Hown.
  eapply (returns_bind _ _
            (fun nf => match Node_front n with
                       | Some c => match nf with
                                   | Some c' => Node_extends c c'
                                   | None => False
                                   end
                       | None => True
                       end)).
  { destruct f.
    - apply returns_ret. destruct (Node_front n); [|done].
      apply Node_extends_refl.
    - eapply returns_bind; [apply IH|]. intros t Ht. apply returns_ret.
      by destruct (Node_front n). }
  intros nf Hnf.
  eapply (returns_bind _ _
            (fun nb => match Node_back n with
                       | Some c => match nb with
                                   | Some c' => Node_extends c c'
                                   | None => False
                                   end
                       | None => True
                       end)).
  { destruct b.
    - apply returns_ret. destruct (Node_back n); [|done].
      apply Node_extends_refl.
    - eapply returns_bind; [apply IH|]. intros t Ht. apply returns_ret.
      by destruct (Node_back n). }
  intros nb Hnb. apply returns_ret. destruct n. simpl in *.
  split; [|done]. intros pl Hpl. f_equal. by apply Hplane.
Qed.

Lemma Node_extends_allPolygons (n : Node) :
  forall t r, Node_extends n t ->
    r ∈ Node_allPolygons n -> r ∈ Node_allPolygons t.
Proof.
  induction n as [plane front back polygons IHf IHb] using Node_induction.
  intros [plane' front' back' polygons'] r (_ & [k Hk] & Hf & Hb).
  simpl in *. subst polygons'. rewrite !elem_of_app. intros [Hr|[Hr|Hr]].
  - left. left. done.
  - right. left.
    destruct front as [c|], front' as [c'|]; try done;
      [by eapply IHf | by apply elem_of_nil in Hr].
  - right. right.
    destruct back as [c|], back' as [c'|]; try done;
      [by eapply IHb | by apply elem_of_nil in Hr].
Qed.
End Returns.

(** X9. [clipTo] on a tree whose polygons are in the heap, against any tree:
    it returns, and the tree it returns has the shape of the one it was
    called on, with the same plane at every node and the same children;
    only the lists of polygons differ, and they hold polygons that are in
    the heap.  Every vertex and polygon that existed is as before. *)
Theorem clipTo_keeps_shape {S : Type} (n bsp : Node) (h : Heap S) :
  valid_tree h n ->
  exists t h',
    Node_clipTo n bsp h = (Ok t, h')
    /\ same_shape n t /\ valid_tree h' t /\ unchanged h h'.
Proof.
  intros Hn.
  destruct (spec_Ok 0 0 h _ _ (roomy_0 h) (spec_Node_clipTo 0 0 n bsp h Hn))
    as (t & h' & E & _ & Ht).
  exists t, h'. split; [done|].
  split; [by eapply returns_Node_clipTo|]. split; [done|].
  pose proof (grows_Node_clipTo n bsp h) as Hu. by rewrite E in Hu.
Qed.

Lemma clipTo_keeps_shape_witness :
  exists t h',
    Node_clipTo unit_cube_tree unit_cube_tree unit_cube_built.2 = (Ok t, h')
    /\ same_shape unit_cube_tree t /\ valid_tree h' t
    /\ unchanged unit_cube_built.2 h'.
Proof.
  apply (clipTo_keeps_shape unit_cube_tree unit_cube_tree unit_cube_built.2).
  apply valid_polygonb_valid. vm_compute. reflexivity.
Defined.

(** X10. Against a tree without a plane (a fresh node, the tree of an empty
    solid) [clipTo] removes nothing: it returns the tree it was called on
    and leaves the heap as it is. *)
Theorem clipTo_empty_tree {S : Type} (n bsp : Node) (h : Heap S) :
  Node_plane bsp = None -> Node_clipTo n bsp h = (Ok n, h).
Proof. intros Hbsp. by apply Node_clipTo_planeless. Qed.

Lemma clipTo_empty_tree_witness :
  Node_clipTo unit_cube_tree Node_empty unit_cube_built.2
  = (Ok unit_cube_tree, unit_cube_built.2).
Proof.
  exact (clipTo_empty_tree unit_cube_tree Node_empty unit_cube_built.2
           eq_refl).
Defined.

(** X11. [build] only adds to the tree it is called on: in the tree it
    returns, every node of the old tree is still there with the plane it
    had; its polygons are still in its list, at the front and in their
    order, followed by the polygons pushed; its children are the old
    children, extended in the same way, or new subtrees where there was
    none.  So every polygon of the old tree is a polygon of the new one. *)
Theorem build_extends_tree {S : Type} (fuel : nat) (n t : Node)
    (ps : list ref) (h h' : Heap S) :
  Node_build fuel n ps h = (Ok t, h') ->
  Node_extends n t
  /\ (forall r, r ∈ Node_allPolygons n -> r ∈ Node_allPolygons t).
Proof.
  intros E. pose proof (returns_Node_build fuel n ps h t h' E) as Ht.
  split; [done|]. intros r. by apply Node_extends_allPolygons.
Qed.

Lemma build_extends_tree_witness :
  Node_extends unit_cube_tree unit_cube_twice
  /\ (forall r, r ∈ Node_allPolygons unit_cube_tree ->
                r ∈ Node_allPolygons unit_cube_twice).
Proof.
  apply (build_extends_tree 6 unit_cube_tree unit_cube_twice unit_cube_faces
           unit_cube_built.2 unit_cube_rebuilt.2).
  vm_compute. reflexivity.
Defined.


(** ** Empty solids as operands *)

Section EmptyOperands.
Context {S : Type}.
Implicit Types (h : Heap S).

Lemma bind_Throw {A B} (m : M S A) (k : A -> M S B) h e h' :
  m h = (Throw e, h') -> (let* x := m in k x) h = (Throw e, h').
Proof. unfold bind. by intros ->. Qed.

Lemma Node_clipPolygons_nil (n : Node) :
  forall h, Node_clipPolygons n [] h = (Ok [], h).
Proof.
  induction n as [plane front back polygons IHf IHb] using Node_induction.
  intros h. simpl. destruct plane as [plane|]; [|done].
  rewrite (bind_Ok (ret _) _ h _ h eq_refl).
  erewrite bind_Ok; cycle 1.
  { destruct front as [c|]; [apply IHf | reflexivity]. }
  erewrite bind_Ok; cycle 1.
  { destruct back as [c|]; [apply IHb | reflexivity]. }
  done.
Qed.

Lemma Node_new_nil fuel h : Node_new fuel [] h = (Ok Node_empty, h).
Proof. by destruct fuel. Qed.

Lemma Node_clipTo_empty (bsp : Node) h :
  Node_clipTo Node_empty bsp h = (Ok Node_empty, h).
Proof. simpl. by run_with (Node_clipPolygons_nil bsp h). Qed.

(** The two trees of an operator whose second operand is empty. *)
Lemma two_trees_empty_r {A} fuel (this : CSG) (k : Node -> Node -> M S A)
    h ca h1 a h2 :
  CSG_clone this h = (Ok ca, h1) ->
  Node_new fuel (CSG_polygons ca) h1 = (Ok a, h2) ->
  (let* ca := CSG_clone this in
   let* a := Node_new fuel (CSG_polygons ca) in
   let* cb := CSG_clone (mkCSG []) in
   let* b := Node_new fuel (CSG_polygons cb) in
   k a b) h
  = k a Node_empty h2.
Proof.
  intros E1 E2. run_with E1. run_with E2.
  rewrite (bind_Ok (CSG_clone (mkCSG [])) _ h2 (mkCSG []) h2 eq_refl).
  by run_with (Node_new_nil fuel h2).
Qed.

(** The two trees of an operator whose first operand is empty. *)
Lemma two_trees_empty_l {A} fuel (csg : CSG) (k : Node -> Node -> M S A)
    h cb h1 b h2 :
  CSG_clone csg h = (Ok cb, h1) ->
  Node_new fuel (CSG_polygons cb) h1 = (Ok b, h2) ->
  (let* ca := CSG_clone (mkCSG []) in
   let* a := Node_new fuel (CSG_polygons ca) in
   let* cb := CSG_clone csg in
   let* b := Node_new fuel (CSG_polygons cb) in
   k a b) h
  = k Node_empty b h2.
Proof.
  intros E1 E2.
  rewrite (bind_Ok (CSG_clone (mkCSG [])) _ h (mkCSG []) h eq_refl).
  run_with (Node_new_nil fuel h). run_with E1. by run_with E2.
Qed.

Lemma union_empty_r fuel (this : CSG) h ca h1 a h2 :
  CSG_clone this h = (Ok ca, h1) ->
  Node_new fuel (CSG_polygons ca) h1 = (Ok a, h2) ->
  CSG_union fuel this (mkCSG []) h = (Throw TypeError, h2).
Proof.
  intros E1 E2. unfold CSG_union.
  rewrite (two_trees_empty_r fuel this _ h ca h1 a h2 E1 E2).
  run_with (Node_clipTo_planeless (S := S) a Node_empty eq_refl h2).
  by run_with (Node_clipTo_empty a h2).
Qed.

Lemma subtract_empty_r fuel (this : CSG) h ca h1 a h2 :
  CSG_clone this h = (Ok ca, h1) ->
  Node_new fuel (CSG_polygons ca) h1 = (Ok a, h2) ->
  forall c, (CSG_subtract fuel this (mkCSG []) h).1 <> Ok c.
Proof.
  intros E1 E2 c. unfold CSG_subtract.
  rewrite (two_trees_empty_r fuel this _ h ca h1 a h2 E1 E2).
  destruct (Node_invert a h2) as [[a'|e] h3] eqn:E3.
  - run_with E3.
    run_with (Node_clipTo_planeless (S := S) a' Node_empty eq_refl h3).
    by run_with (Node_clipTo_empty a' h3).
  - by rewrite (bind_Throw _ _ _ _ _ E3).
Qed.

Lemma intersect_empty_r fuel (this : CSG) h ca h1 a h2 :
  CSG_clone this h = (Ok ca, h1) ->
  Node_new fuel (CSG_polygons ca) h1 = (Ok a, h2) ->
  forall c, (CSG_intersect fuel this (mkCSG []) h).1 <> Ok c.
Proof.
  intros E1 E2 c. unfold CSG_intersect.
  rewrite (two_trees_empty_r fuel this _ h ca h1 a h2 E1 E2).
  destruct (Node_invert a h2) as [[a'|e] h3] eqn:E3.
  - run_with E3. by run_with (Node_clipTo_empty a' h3).
  - by rewrite (bind_Throw _ _ _ _ _ E3).
Qed.

Lemma subtract_empty_l fuel (csg : CSG) h cb h1 b h2 :
  CSG_clone csg h = (Ok cb, h1) ->
  Node_new fuel (CSG_polygons cb) h1 = (Ok b, h2) ->
  CSG_subtract fuel (mkCSG []) csg h = (Throw TypeError, h2).
Proof.
  intros E1 E2. unfold CSG_subtract.
  by rewrite (two_trees_empty_l fuel csg _ h cb h1 b h2 E1 E2).
Qed.

Lemma intersect_empty_l fuel (csg : CSG) h cb h1 b h2 :
  CSG_clone csg h = (Ok cb, h1) ->
  Node_new fuel (CSG_polygons cb) h1 = (Ok b, h2) ->
  CSG_intersect fuel (mkCSG []) csg h = (Throw TypeError, h2).
Proof.
  intros E1 E2. unfold CSG_intersect.
  by rewrite (two_trees_empty_l fuel csg _ h cb h1 b h2 E1 E2).
Qed.

(** An operator returns only if the tree of its other operand was made. *)
Lemma trees_made_r {A} fuel (this : CSG) (k : Node -> Node -> M S A) h c :
  ((let* ca := CSG_clone this in
    let* a := Node_new fuel (CSG_polygons ca) in
    let* cb := CSG_clone (mkCSG []) in
    let* b := Node_new fuel (CSG_polygons cb) in
    k a b) h).1 = Ok c ->
  exists ca h1 a h2,
    CSG_clone this h = (Ok ca, h1)
    /\ Node_new fuel (CSG_polygons ca) h1 = (Ok a, h2).
Proof.
  destruct (CSG_clone this h) as [[ca|e] h1] eqn:E1;
    [|by rewrite (bind_Throw _ _ _ _ _ E1)].
  run_with E1.
  destruct (Node_new fuel (CSG_polygons ca) h1) as [[a|e] h2] eqn:E2;
    [|by rewrite (bind_Throw _ _ _ _ _ E2)].
  eauto 6.
Qed.

Lemma trees_made_l {A} fuel (csg : CSG) (k : Node -> Node -> M S A) h c :
  ((let* ca := CSG_clone (mkCSG []) in
    let* a := Node_new fuel (CSG_polygons ca) in
    let* cb := CSG_clone csg in
    let* b := Node_new fuel (CSG_polygons cb) in
    k a b) h).1 = Ok c ->
  exists cb h1 b h2,
    CSG_clone csg h = (Ok cb, h1)
    /\ Node_new fuel (CSG_polygons cb) h1 = (Ok b, h2).
Proof.
  rewrite (bind_Ok (CSG_clone (mkCSG [])) _ h (mkCSG []) h eq_refl).
  run_with (Node_new_nil fuel h).
  destruct (CSG_clone csg h) as [[cb|e] h1] eqn:E1;
    [|by rewrite (bind_Throw _ _ _ _ _ E1)].
  run_with E1.
  destruct (Node_new fuel (CSG_polygons cb) h1) as [[b|e] h2] eqn:E2;
    [|by rewrite (bind_Throw _ _ _ _ _ E2)].
  eauto 6.
Qed.
End EmptyOperands.

(** X12. No operator returns a solid when its second operand is the empty
    solid, and [subtract] and [intersect] return none when their first
    operand is: whatever the other solid and the bound on the recursion,
    the call ends in an exception (in [invert], on the tree without plane
    that is built from no polygon). *)
Theorem empty_operand_never_returns {S : Type} (fuel : nat) (A C : CSG)
    (h : Heap S) :
  (CSG_union fuel A (mkCSG []) h).1 <> Ok C
  /\ (CSG_subtract fuel A (mkCSG []) h).1 <> Ok C
  /\ (CSG_intersect fuel A (mkCSG []) h).1 <> Ok C
  /\ (CSG_subtract fuel (mkCSG []) A h).1 <> Ok C
  /\ (CSG_intersect fuel (mkCSG []) A h).1 <> Ok C.
Proof.
  split; [|split; [|split; [|split]]]; intros E.
  - destruct (trees_made_r _ _ _ _ _ E) as (ca & h1 & a & h2 & E1 & E2).
    by rewrite (union_empty_r fuel A h ca h1 a h2 E1 E2) in E.
  - destruct (trees_made_r _ _ _ _ _ E) as (ca & h1 & a & h2 & E1 & E2).
    by apply (subtract_empty_r fuel A h ca h1 a h2 E1 E2 C).
  - destruct (trees_made_r _ _ _ _ _ E) as (ca & h1 & a & h2 & E1 & E2).
    by apply (intersect_empty_r fuel A h ca h1 a h2 E1 E2 C).
  - destruct (trees_made_l _ _ _ _ _ E) as (cb & h1 & b & h2 & E1 & E2).
    by rewrite (subtract_empty_l fuel A h cb h1 b h2 E1 E2) in E.
  - destruct (trees_made_l _ _ _ _ _ E) as (cb & h1 & b & h2 & E1 & E2).
    by rewrite (intersect_empty_l fuel A h cb h1 b h2 E1 E2) in E.
Qed.

(** X13. With an empty solid for operand the exception is a TypeError, as
    soon as the tree of the other solid gets built: [A.union(empty)],
    [empty.subtract(A)] and [empty.intersect(A)] clone [A], build its tree,
    and then throw a TypeError without having touched anything else. *)
Theorem empty_operand_TypeError {S : Type} (fuel : nat) (A A' : CSG)
    (a : Node) (h h1 h2 : Heap S) :
  CSG_clone A h = (Ok A', h1) ->
  Node_new fuel (CSG_polygons A') h1 = (Ok a, h2) ->
  CSG_union fuel A (mkCSG []) h = (Throw TypeError, h2)
  /\ CSG_subtract fuel (mkCSG []) A h = (Throw TypeError, h2)
  /\ CSG_intersect fuel (mkCSG []) A h = (Throw TypeError, h2).
Proof.
  intros E1 E2. split; [by eapply union_empty_r|].
  split; [by eapply subtract_empty_l | by eapply intersect_empty_l].
Qed.

Lemma empty_operand_TypeError_witness :
  CSG_union 6 (CSG_fromPolygons unit_cube_faces) (mkCSG []) unit_cube_heap
  = (Throw TypeError, unit_cube_clone_built.2)
  /\ CSG_subtract 6 (mkCSG []) (CSG_fromPolygons unit_cube_faces)
       unit_cube_heap
     = (Throw TypeError, unit_cube_clone_built.2)
  /\ CSG_intersect 6 (mkCSG []) (CSG_fromPolygons unit_cube_faces)
       unit_cube_heap
     = (Throw TypeError, unit_cube_clone_built.2).
Proof.
  apply (empty_operand_TypeError 6 (CSG_fromPolygons unit_cube_faces)
           (CSG_fromPolygons unit_cube_clone_faces) unit_cube_clone_tree
           unit_cube_heap unit_cube_clone.2 unit_cube_clone_built.2).
  - vm_compute. reflexivity.
  - vm_compute. reflexivity.
Defined.

Lemma Array_map_length {S A B : Type} (f : A -> M S B) (l : list A) :
  forall (h : Heap S) l' h',
    Array_map f l h = (Ok l', h') -> length l' = length l.
Proof.
  induction l as [|a l IH]; intros h l' h'; simpl.
  - by intros [= <- <-].
  - intros (b & h1 & _ & (bs & h2 & E & [= <- <-])%bind_Ok_inv)%bind_Ok_inv.
    simpl. f_equal. by eapply IH.
Qed.

(** X14. With the empty solid as its first operand [union] returns the
    second operand rebuilt: [empty.union(B)], for [B] not empty, clones [B]
    and builds the tree of the clone; when this tree is made, the clips
    remove nothing, the two inversions undo each other, and the result is
    the list of the polygons of a second tree, built from the polygons of
    the first. *)
Theorem union_empty_first {S : Type} (fuel : nat) (B B' : CSG) (b : Node)
    (h h1 h2 : Heap S) :
  CSG_polygons B <> [] ->
  CSG_clone B h = (Ok B', h1) ->
  Node_new fuel (CSG_polygons B') h1 = (Ok b, h2) ->
  CSG_union fuel (mkCSG []) B h
  = (let* a := Node_new fuel (Node_allPolygons b) in
     ret (CSG_fromPolygons (Node_allPolygons a))) h2.
Proof.
  intros HB E1 E2. unfold CSG_union.
  rewrite (two_trees_empty_l fuel B _ h B' h1 b h2 E1 E2).
  destruct (spec_run 0 0 false h _ _ _ _ (spec_CSG_clone 0 0 h B)
              (roomy_0 h) E1) as [_ HB'].
  assert (Hne : CSG_polygons B' <> []).
  { unfold CSG_clone in E1.
    apply bind_Ok_inv in E1 as (qs & h1' & E & [= <- <-]).
    apply Array_map_length in E. simpl. destruct qs; [|done].
    destruct (CSG_polygons B); [done | simpl in E; lia]. }
  unfold Node_new in E2.
  destruct (spec_run 0 0 false h1 _ _ _ _
              (spec_Node_build 0 0 fuel Node_empty _ h1
                 (good_tree_empty 0 0 h1) HB') (roomy_0 h1) E2)
    as (_ & Hb & Hpl).
  destruct (Hpl eq_refl) as [_ Hplaned]. specialize (Hplaned Hne).
  destruct (Node_invert_Ok b h2 Hplaned Hb) as [Ei He].
  destruct (Node_invert_Ok (Node_mirror b)
              (flipsHeap (Node_allPolygons b) h2)) as [Ei' _].
  { by rewrite planed_mirror. }
  { unfold valid_tree, good_tree. rewrite allPolygons_mirror.
    by eapply good_tree_mono. }
  rewrite mirror_mirror in Ei'.
  rewrite flipsHeap_undo in Ei' by (by rewrite allPolygons_mirror).
  run_with (Node_clipTo_empty b h2).
  run_with (Node_clipTo_planeless (S := S) b Node_empty eq_refl h2).
  run_with Ei.
  run_with (Node_clipTo_planeless (S := S) (Node_mirror b) Node_empty eq_refl
              (flipsHeap (Node_allPolygons b) h2)).
  run_with Ei'. done.
Qed.

Lemma union_empty_first_witness :
  CSG_union 6 (mkCSG []) (CSG_fromPolygons unit_cube_faces) unit_cube_heap
  = (let* a := Node_new 6 (Node_allPolygons unit_cube_clone_tree) in
     ret (CSG_fromPolygons (Node_allPolygons a))) unit_cube_clone_built.2.
Proof.
  apply (union_empty_first 6 (CSG_fromPolygons unit_cube_faces)
           (CSG_fromPolygons unit_cube_clone_faces) unit_cube_clone_tree
           unit_cube_heap unit_cube_clone.2 unit_cube_clone_built.2).
  - discriminate.
  - vm_compute. reflexivity.
  - vm_compute. reflexivity.
Defined.


(** ** cube *)

Section CubeFaces.
Context {S : Type}.
Implicit Types (h : Heap S).

Lemma map_Vertex_new_Ok {I : Type} (g : I -> Vector) (normal : Vector)
    (l : list I) :
  forall h,
    Array_map (fun i => Vertex_new (g i) normal) l h
    = (Ok (seq (length (vertexStore h)) (length l)),
       mkHeap (vertexStore h ++ map (fun i => mkVertex (g i) normal) l)
              (polygonStore h)).
Proof.
  induction l as [|i l IH]; intros h.
  - simpl. rewrite app_nil_r. by destruct h.
  - cbn [Array_map].
    rewrite (bind_Ok (Vertex_new (g i) normal) _ h (length (vertexStore h))
               (mkHeap (vertexStore h ++ [mkVertex (g i) normal])
                       (polygonStore h))); cycle 1.
    { unfold Vertex_new, newVertex. by rewrite !Vector_clone_id. }
    rewrite (bind_Ok _ _ _ _ _ (IH _)). simpl.
    by rewrite length_app, Nat.add_1_r, <- app_assoc.
Qed.

(** One line of the table of [cube]. *)
Lemma cube_face_Ok (c r : Vector) (info : list Z * Vector) h :
  3 <= length info.1 ->
  (let* vertices :=
     Array_map (fun i => Vertex_new (cube_corner c r i) info.2) info.1 in
   Polygon_new vertices None) h
  = (Ok (length (polygonStore h)), cloneHeap (cube_face c r info) h).
Proof.
  intros Hlen. run_with (map_Vertex_new_Ok (cube_corner c r) info.2 info.1 h).
  set (xs := map (fun i => mkVertex (cube_corner c r i) info.2) info.1).
  replace (length info.1) with (length xs) by apply length_map.
  rewrite (Polygon_new_exact _ _ _ xs); [done | |].
  - apply vertexObjects_seq_end.
  - unfold xs. by rewrite length_seq, length_map.
Qed.

Lemma cube_faces_Ok (c r : Vector) (infos : list (list Z * Vector)) :
  forall h, Forall (fun info => 3 <= length info.1) infos ->
    exists h',
      Array_map
        (fun info : list Z * Vector =>
           let* vertices :=
             Array_map (fun i => Vertex_new (cube_corner c r i) info.2)
                       info.1 in
           Polygon_new vertices None) infos h
      = (Ok (seq (length (polygonStore h)) (length infos)), h')
      /\ Forall2 (fun info q => faceOf h' q = Some (cube_face c r info)
                                /\ fresh h h' q)
                 infos (seq (length (polygonStore h)) (length infos))
      /\ unchanged h h'
      /\ vertexRefs h' (seq (length (polygonStore h)) (length infos))
         = seq (length (vertexStore h))
               (length (vertexStore h') - length (vertexStore h)).
Proof.
  induction infos as [|info infos IH]; intros h Hall.
  - exists h. split; [done|]. split; [constructor|].
    split; [apply unchanged_refl|]. by rewrite Nat.sub_diag.
  - inversion Hall as [|? ? Hinfo Hall']; subst.
    set (f := cube_face (S := S) c r info).
    pose proof (unchanged_cloneHeap h f) as Hu1.
    destruct (IH (cloneHeap f h) Hall') as (h' & E & Hfaces & Hu & Hrefs).
    assert (Hnp : length (polygonStore (cloneHeap f h))
                  = Datatypes.S (length (polygonStore h))).
    { simpl. rewrite length_app. simpl. lia. }
    assert (Hnv : length (vertexStore (cloneHeap f h))
                  = length (vertexStore h) + length (Face_vertices f)).
    { simpl. by rewrite length_app. }
    rewrite Hnp in *. rewrite Hnv in Hrefs.
    exists h'. cbn [Array_map length seq].
    rewrite (bind_Ok _ _ _ _ _ (cube_face_Ok c r info h Hinfo)).
    fold f. run_with E. split; [done|].
    assert (Hq : polygonStore (cloneHeap f h) !! length (polygonStore h)
                 = Some (mkPolygon
                           (seq (length (vertexStore h))
                                (length (Face_vertices f)))
                           (Face_shared f) (facePlane (Face_vertices f)))).
    { simpl. by rewrite list_lookup_middle. }
    split; [|split].
    + constructor.
      * split.
        -- eapply faceOf_unchanged; [exact Hu|].
           exact (faceOf_cloneHeap h f).
        -- split; [done|]. rewrite (proj2 Hu _ _ Hq). simpl.
           split; [|apply NoDup_seq]. apply Forall_seq. intros. lia.
      * eapply Forall2_impl; [exact Hfaces|]. intros info' q [Hf Hfr].
        split; [done|]. by eapply fresh_grow; [| |exact Hfr].
    + by eapply unchanged_trans.
    + rewrite vertexRefs_cons, Hrefs, (proj2 Hu _ _ Hq).
      cbn [Polygon_vertices].
      apply unchanged_lengths in Hu as [Hlv _]. rewrite Hnv in Hlv.
      rewrite <- seq_app. f_equal. lia.
Qed.
End CubeFaces.

(** X15. [cube] returns for every centre and every radius, numbers that are
    not finite included: it allocates six polygons, in the order of its
    table, each on four new vertex objects that no other polygon uses; the
    vertices of a face are the corners of its line of the table, with the
    normal of the line, the tag is undefined, and the plane is the plane of
    the first three corners.  Nothing that existed is touched. *)
Theorem cube_makes_six_faces {S : Type} (c r : Vector) (h : Heap S) :
  exists h',
    cube c r h
    = (Ok (CSG_fromPolygons (seq (length (polygonStore h)) 6)), h')
    /\ Forall2 (fun info q => faceOf h' q = Some (cube_face c r info)
                              /\ length (Face_vertices
                                           (cube_face (S := S) c r info))
                                 = 4
                              /\ fresh h h' q)
               cube_info (seq (length (polygonStore h)) 6)
    /\ separate h' (seq (length (polygonStore h)) 6)
    /\ unchanged h h'.
Proof.
  destruct (cube_faces_Ok c r cube_info h) as (h' & E & Hfaces & Hu & Hrefs).
  { repeat constructor; simpl; lia. }
  exists h'. split.
  { unfold cube. change (length cube_info) with 6 in E.
    by rewrite (bind_Ok _ _ _ _ _ E). }
  split; [|split; [|done]].
  - assert (H4 : Forall (fun info : list Z * Vector => length info.1 = 4)
                        cube_info) by (by repeat constructor).
    change (length cube_info) with 6 in Hfaces.
    revert H4 Hfaces. generalize (seq (length (polygonStore h)) 6).
    generalize cube_info. intros infos qs H4 Hfaces.
    induction Hfaces as [|info q infos qs [Hf Hfr] _ IH]; [constructor|].
    inversion H4 as [|? ? Hi H4']; subst.
    constructor; [|by apply IH].
    split; [done|]. split; [|done]. simpl. by rewrite length_map.
  - change (length cube_info) with 6 in Hrefs.
    split; [|rewrite Hrefs]; apply NoDup_seq.
Qed.

(** ** build on polygons that lie in the plane of the node *)

Section BuildCoplanar.
Context {S : Type}.
Implicit Types (h : Heap S).

Lemma build_loop_coplanar (plane : Plane) h ps own f b :
  Forall (fun r => polygonTypeIn h plane r = Some COPLANAR) ps ->
  Array_fold
    (fun fr p => Plane_splitPolygon plane p
                   build_polygons build_polygons build_front build_back fr)
    ps (own, f, b) h
  = (Ok (own ++ ps, f, b), h).
Proof.
  intros Hall. revert own.
  induction Hall as [|r ps Hr _ IH]; intros own; simpl.
  - by rewrite app_nil_r.
  - run_with (splitPolygon_whole plane h r COPLANAR
                build_polygons build_polygons build_front build_back
                (own, f, b) Hr ltac:(done)).
    unfold routed. simpl.
    destruct (facing h plane r); simpl; rewrite IH;
      by rewrite <- app_assoc.
Qed.

Lemma build_plane_Ok h (n : Node) p0 ps plane :
  splitting_plane h n (p0 :: ps) = Some plane ->
  (match Node_plane n with
   | Some plane => ret plane
   | None => let* p := getPolygon p0 in ret (Plane_clone (Polygon_plane p))
   end) h = (Ok plane, h).
Proof.
  unfold splitting_plane. destruct (Node_plane n) as [pl|].
  - by intros [= <-].
  - simpl. destruct (polygonStore h !! p0) as [p|] eqn:Hp; [|done].
    simpl. intros [= <-]. run_with (getPolygon_Some _ _ _ Hp).
    by rewrite Plane_clone_id.
Qed.
End BuildCoplanar.

(** X16. [build] on polygons that all lie in the plane it splits by (the
    plane of the node, or the plane of the first polygon when the node has
    none): every polygon is pushed onto the node itself, in the order of
    the list and whichever way it faces; the node gets the plane, its
    children are left as they are, no polygon is made and the heap is
    untouched.  A flat mesh thus builds into a single node.  The list is
    not the node's own array, which a list of other contents never is:
    called on its own array, the loop would push onto the array that it
    runs over. *)
Theorem build_coplanar {S : Type} (fuel : nat) (n : Node) (ps : list ref)
    (plane : Plane) (h : Heap S) :
  ps <> [] ->
  ps <> Node_polygons n ->
  splitting_plane h n ps = Some plane ->
  Forall (fun r => polygonTypeIn h plane r = Some COPLANAR) ps ->
  Node_build (Datatypes.S fuel) n ps h
  = (Ok (mkNode (Some plane) (Node_front n) (Node_back n)
                (Node_polygons n ++ ps)), h).
Proof.
  intros Hne _ Hplane Hall. destruct ps as [|p0 ps]; [done|].
  cbn [Node_build]. run_with (build_plane_Ok h n p0 ps plane Hplane).
  by run_with (build_loop_coplanar plane h (p0 :: ps) (Node_polygons n)
                 [] [] Hall).
Qed.

Lemma build_coplanar_witness :
  Node_build 1 Node_empty [0; 0] square_heap
  = (Ok (mkNode (Some (Polygon_plane square)) None None [0; 0]), square_heap).
Proof.
  apply (build_coplanar 0 Node_empty [0; 0] (Polygon_plane square)
           square_heap).
  - discriminate.
  - discriminate.
  - reflexivity.
  - repeat constructor; vm_compute; reflexivity.
Defined.


(** ** Shared tags *)

Section KeepsMore.
Context {S : Type}.

Lemma keeps_Array_map {A B} (f : A -> M S B) l :
  (forall a, keeps_polygons (f a)) -> keeps_polygons (Array_map f l).
Proof.
  intros Hf. induction l as [|a l IH]; simpl.
  - apply keeps_ret.
  - apply keeps_bind; [apply Hf|]. intros b.
    apply keeps_bind; [apply IH|]. intros bs. apply keeps_ret.
Qed.

Lemma keeps_Array_forEach {A} (f : A -> M S unit) l :
  (forall a, keeps_polygons (f a)) -> keeps_polygons (Array_forEach f l).
Proof.
  intros Hf. induction l as [|a l IH]; simpl.
  - apply keeps_ret.
  - apply keeps_bind; [apply Hf|]. intros _. apply IH.
Qed.

Lemma keeps_Vertex_flip v : keeps_polygons (Vertex_flip (S := S) v).
Proof.
  apply keeps_bind; [apply keeps_getVertex|]. intros x h.
  unfold setVertex. by destruct (vertexStore h !! v).
Qed.

Lemma keeps_Plane_types (this : Plane) vs :
  keeps_polygons (Plane_types (S := S) this vs).
Proof.
  apply keeps_Array_map. intros r.
  apply keeps_bind; [apply keeps_getVertex|]. intros. apply keeps_ret.
Qed.
End KeepsMore.

Section Tags.
Context {S : Type}.
Variables (h0 : Heap S) (src : list ref).
Implicit Types (h : Heap S).

Local Abbreviation tag_ok := (tag_ok h0 src).
Local Abbreviation known := (known h0 src).
Local Abbreviation made := (made h0).
Local Abbreviation tagged := (tagged h0 src).
Local Abbreviation tspec := (tspec h0 src).

Lemma tagged_start : tagged h0.
Proof.
  split; [done|]. intros r p Hp.
  rewrite decide_True; [done|]. by eapply lookup_lt_Some.
Qed.

Lemma made_known r : made r -> known r.
Proof. by left. Qed.

Lemma tspec_ret {A} (a : A) (Q : A -> Prop) : Q a -> tspec (ret a) Q.
Proof. by intros HQ h Hh. Qed.

Lemma tspec_throw {A} e (Q : A -> Prop) : tspec (throw e) Q.
Proof. by intros h Hh. Qed.

Lemma tspec_bind {A B} (m : M S A) (k : A -> M S B)
    (Q1 : A -> Prop) (Q2 : B -> Prop) :
  tspec m Q1 -> (forall a, Q1 a -> tspec (k a) Q2) ->
  tspec (let* x := m in k x) Q2.
Proof.
  intros Hm Hk h Hh. unfold bind. destruct (Hm h Hh) as [Hh1 Ha].
  destruct (m h) as [[a|e] h1]; simpl in *; [|done].
  by apply Hk.
Qed.

Lemma tspec_if {A} (c : bool) (m1 m2 : M S A) (Q : A -> Prop) :
  tspec m1 Q -> tspec m2 Q -> tspec (if c then m1 else m2) Q.
Proof. by destruct c. Qed.

Lemma tspec_keeps {A} (m : M S A) :
  keeps_polygons m -> tspec m (fun _ => True).
Proof.
  intros Hm h [Hlen Hh]. split; [|by destruct ((m h).1)].
  split; by rewrite Hm.
Qed.

Lemma tspec_fold {A B} (f : B -> A -> M S B) (P : A -> Prop)
    (I : B -> Prop) l :
  (forall b a, P a -> I b -> tspec (f b a) I) ->
  Forall P l -> forall b, I b -> tspec (Array_fold f l b) I.
Proof.
  intros Hf Hl. induction Hl as [|a l Ha Hl IH]; intros b Hb; simpl.
  - by apply tspec_ret.
  - eapply tspec_bind; [by apply Hf | apply IH].
Qed.

Lemma tspec_map {A B} (f : A -> M S B) (P : A -> Prop) (Q : B -> Prop) l :
  (forall a, P a -> tspec (f a) Q) ->
  Forall P l -> tspec (Array_map f l) (Forall Q).
Proof.
  intros Hf Hl. induction Hl as [|a l Ha Hl IH]; simpl.
  - by apply tspec_ret.
  - eapply tspec_bind; [by apply Hf|]. intros b Hb.
    eapply tspec_bind; [apply IH|]. intros bs Hbs.
    apply tspec_ret. by constructor.
Qed.

Lemma tspec_forEach {A} (f : A -> M S unit) (P : A -> Prop) l :
  (forall a, P a -> tspec (f a) (fun _ => True)) ->
  Forall P l -> tspec (Array_forEach f l) (fun _ => True).
Proof.
  intros Hf Hl. induction Hl as [|a l Ha Hl IH]; simpl.
  - by apply tspec_ret.
  - eapply tspec_bind; [by apply Hf|]. intros _ _. apply IH.
Qed.

Lemma tspec_getPolygon r :
  known r -> tspec (getPolygon r) (fun p => tag_ok (Polygon_shared p)).
Proof.
  intros Hr h [Hlen Hh]. unfold getPolygon.
  destruct (polygonStore h !! r) as [p|] eqn:Hp; simpl; [|done].
  split; [done|]. specialize (Hh r p Hp).
  destruct (decide (r < length (polygonStore h0))) as [Hlt|Hge]; [|done].
  destruct Hr as [Hr|Hr]; [lia|].
  by exists r, p.
Qed.

Lemma tspec_newPolygon (p : Polygon S) :
  tag_ok (Polygon_shared p) -> tspec (newPolygon p) made.
Proof.
  intros Hp h [Hlen Hh]. simpl. split; [|done]. split; simpl.
  - rewrite length_app. simpl. lia.
  - intros r q Hq. simpl in Hq.
    apply lookup_app_Some in Hq as [Hq|[Hge Hq]]; [by apply Hh|].
    rewrite decide_False by lia.
    apply list_lookup_singleton_Some in Hq as [_ <-]. done.
Qed.

Lemma tspec_setPolygon r (p : Polygon S) :
  made r -> tag_ok (Polygon_shared p) ->
  tspec (setPolygon r p) (fun _ => True).
Proof.
  intros Hr Hp h [Hlen Hh]. unfold setPolygon.
  destruct (polygonStore h !! r) as [p0|] eqn:Hp0; simpl; [|done].
  split; [|done]. split; simpl.
  - by rewrite length_insert.
  - intros r' q Hq. destruct (decide (r' = r)) as [->|Hne].
    + rewrite list_lookup_insert_eq in Hq by (by eapply lookup_lt_Some).
      injection Hq as <-. red in Hr. by rewrite decide_False by lia.
    + rewrite list_lookup_insert_ne in Hq by done. by apply Hh.
Qed.

Lemma tspec_Polygon_new vs (shared : option S) :
  tag_ok shared -> tspec (Polygon_new vs shared) made.
Proof.
  intros Hs. unfold Polygon_new.
  do 3 (eapply tspec_bind; [apply tspec_keeps, keeps_index|]; intros ? _;
        eapply tspec_bind; [apply tspec_keeps, keeps_getVertex|];
        intros ? _).
  by apply tspec_newPolygon.
Qed.

Lemma tspec_Polygon_clone r : known r -> tspec (Polygon_clone r) made.
Proof.
  intros Hr. eapply tspec_bind; [by apply tspec_getPolygon|].
  intros p Hp.
  eapply tspec_bind.
  { apply tspec_keeps, keeps_Array_map. intros. apply keeps_Vertex_clone. }
  intros vs _. by apply tspec_Polygon_new.
Qed.

Lemma tspec_Polygon_flip r : made r -> tspec (Polygon_flip r) (fun _ => True).
Proof.
  intros Hr. eapply tspec_bind; [by apply tspec_getPolygon, made_known|].
  intros p Hp.
  eapply tspec_bind; [by apply tspec_setPolygon|]. intros _ _.
  eapply tspec_bind.
  { apply tspec_keeps, keeps_Array_forEach. intros. apply keeps_Vertex_flip. }
  intros _ _.
  eapply tspec_bind; [by apply tspec_getPolygon, made_known|].
  intros p' Hp'. by apply tspec_setPolygon.
Qed.

Lemma tspec_Plane_splitPolygon {F} (this : Plane) r
    (cF cB fo bo : OutArray F) (fr : F) (K : ref -> Prop) (I : F -> Prop) :
  (forall q, made q -> K q) -> (forall q, K q -> known q) ->
  (forall a q x, a = cF \/ a = cB \/ a = fo \/ a = bo ->
                 K q -> I x -> I (push a q x)) ->
  K r -> I fr -> tspec (Plane_splitPolygon this r cF cB fo bo fr) I.
Proof.
  intros HK HKk Hpush Hr Hfr. unfold Plane_splitPolygon.
  eapply tspec_bind; [by apply tspec_getPolygon, HKk|]. intros p Hp.
  eapply tspec_bind; [apply tspec_keeps, keeps_Plane_types|].
  intros types _.
  apply tspec_if.
  { apply tspec_ret. destruct (_ <? _)%float; apply Hpush; auto. }
  apply tspec_if; [apply tspec_ret, Hpush; auto|].
  apply tspec_if; [apply tspec_ret, Hpush; auto|].
  apply tspec_if; [|by apply tspec_ret].
  eapply tspec_bind; [apply tspec_keeps, keeps_Plane_splitChains|].
  intros [f b] _.
  eapply (tspec_bind _ _ I).
  - apply tspec_if; [|by apply tspec_ret].
    eapply tspec_bind; [by apply tspec_Polygon_new|]. intros q Hq.
    apply tspec_ret, Hpush; auto.
  - intros fr' Hfr'. apply tspec_if; [|by apply tspec_ret].
    eapply tspec_bind; [by apply tspec_Polygon_new|]. intros q Hq.
    apply tspec_ret, Hpush; auto.
Qed.

Lemma tspec_Node_clipPolygons (K : ref -> Prop) (n : Node) :
  (forall q, made q -> K q) -> (forall q, K q -> known q) ->
  forall ps, Forall K ps -> tspec (Node_clipPolygons n ps) (Forall K).
Proof.
  intros HK HKk.
  induction n as [plane front back polygons IHf IHb] using Node_induction.
  intros ps Hps. simpl. destruct plane as [plane|]; [|by apply tspec_ret].
  eapply (tspec_bind _ _ (fun fr => Forall K fr.1 /\ Forall K fr.2)).
  { eapply (tspec_fold _ K); [|done|by split].
    intros fr p Hp Hfr. apply (tspec_Plane_splitPolygon _ _ _ _ _ _ _ K);
      [done..| |done|done].
    intros a q [f b] [->|[->|[->| ->]]] Hq [Hf Hb]; simpl;
      (split; [|done]) || (split; [done|]); apply Forall_app; auto. }
  intros [f b] [Hf Hb]. simpl in *.
  eapply (tspec_bind _ _ (Forall K)).
  { destruct front; [by apply IHf | by apply tspec_ret]. }
  intros f' Hf'.
  eapply (tspec_bind _ _ (Forall K)).
  { destruct back; [by apply IHb | by apply tspec_ret]. }
  intros b' Hb'. apply tspec_ret. by apply Forall_app.
Qed.

Lemma tspec_child (f : Node -> M S Node) (K : ref -> Prop)
    (c : option Node) :
  (forall n, c = Some n ->
     tspec (f n) (fun t => Forall K (Node_allPolygons t))) ->
  tspec match c with
        | Some n => let* n' := f n in ret (Some n')
        | None => ret None
        end
        (fun c' => Forall K match c' with
                            | Some n => Node_allPolygons n
                            | None => []
                            end).
Proof.
  intros Hf. destruct c as [n|]; [|by apply tspec_ret].
  eapply tspec_bind; [by apply Hf|]. intros t Ht. by apply tspec_ret.
Qed.

Lemma Forall_allPolygons (K : ref -> Prop) plane front back polygons :
  Forall K (Node_allPolygons (mkNode plane front back polygons))
  <-> Forall K polygons
      /\ Forall K match front with
                  | Some n => Node_allPolygons n
                  | None => []
                  end
      /\ Forall K match back with
                  | Some n => Node_allPolygons n
                  | None => []
                  end.
Proof. simpl. by rewrite !Forall_app. Qed.

Lemma tspec_Node_clipTo (n bsp : Node) :
  Forall made (Node_allPolygons n) ->
  tspec (Node_clipTo n bsp) (fun t => Forall made (Node_allPolygons t)).
Proof.
  induction n as [plane front back polygons IHf IHb] using Node_induction.
  intros (Hps & Hf & Hb)%Forall_allPolygons.
  cbn [Node_clipTo Node_polygons Node_front Node_back Node_plane].
  eapply tspec_bind.
  { apply (tspec_Node_clipPolygons made); [done|apply made_known|done]. }
  intros ps' Hps'.
  eapply tspec_bind.
  { apply (tspec_child (fun n => Node_clipTo n bsp) made).
    intros c ->. by apply IHf. }
  intros f' Hf'.
  eapply tspec_bind.
  { apply (tspec_child (fun n => Node_clipTo n bsp) made).
    intros c ->. by apply IHb. }
  intros b' Hb'. apply tspec_ret. by apply Forall_allPolygons.
Qed.

Lemma tspec_Node_invert (n : Node) :
  Forall made (Node_allPolygons n) ->
  tspec (Node_invert n) (fun t => Forall made (Node_allPolygons t)).
Proof.
  induction n as [plane front back polygons IHf IHb] using Node_induction.
  intros (Hps & Hf & Hb)%Forall_allPolygons.
  cbn [Node_invert Node_polygons Node_front Node_back Node_plane].
  eapply tspec_bind.
  { apply (tspec_forEach _ made); [|done]. apply tspec_Polygon_flip. }
  intros _ _. destruct plane as [plane|]; [|apply tspec_throw].
  eapply tspec_bind.
  { apply (tspec_child Node_invert made). intros c ->. by apply IHf. }
  intros f' Hf'.
  eapply tspec_bind.
  { apply (tspec_child Node_invert made). intros c ->. by apply IHb. }
  intros b' Hb'. apply tspec_ret. by apply Forall_allPolygons.
Qed.

Lemma tspec_Node_build (fuel : nat) :
  forall n ps,
    Forall made (Node_allPolygons n) -> Forall made ps ->
    tspec (Node_build fuel n ps)
          (fun t => Forall made (Node_allPolygons t)).
Proof.
  induction fuel as [|fuel IH]; intros n ps Hn Hps;
    destruct ps as [|p0 ps]; try (by apply tspec_ret); [apply tspec_throw|].
  destruct n as [plane front back polygons].
  apply Forall_allPolygons in Hn as (Hown & Hf & Hb).
  cbn [Node_build Node_polygons Node_front Node_back Node_plane].
  eapply (tspec_bind _ _ (fun _ => True)).
  { destruct plane; [by apply tspec_ret|].
    eapply tspec_bind; [apply tspec_getPolygon, made_known|].
    - by inversion Hps.
    - intros. by apply tspec_ret. }
  intros pl _.
  eapply (tspec_bind _ _
            (fun fr => Forall made fr.1.1 /\ Forall made fr.1.2
                       /\ Forall made fr.2)).
  { eapply (tspec_fold _ made); [|done|by repeat split].
    intros fr p Hp Hfr.
    apply (tspec_Plane_splitPolygon _ _ _ _ _ _ _ made);
      [done|apply made_known| |done|done].
    intros a q [[o f] b] [->|[->|[->| ->]]] Hq (Ho' & Hf' & Hb'); simpl;
      repeat split; try done; apply Forall_app; auto. }
  intros [[own f] b] (Ho' & Hf' & Hb'). simpl in *.
  eapply (tspec_bind _ _
            (fun c' => Forall made match c' with
                                   | Some n => Node_allPolygons n
                                   | None => []
                                   end)).
  { destruct f as [|q f]; [by apply tspec_ret|].
    eapply tspec_bind; [apply IH|].
    - destruct front; [done | constructor].
    - done.
    - intros t Ht. by apply tspec_ret. }
  intros nf Hnf.
  eapply (tspec_bind _ _
            (fun c' => Forall made match c' with
                                   | Some n => Node_allPolygons n
                                   | None => []
                                   end)).
  { destruct b as [|q b]; [by apply tspec_ret|].
    eapply tspec_bind; [apply IH|].
    - destruct back; [done | constructor].
    - done.
    - intros t Ht. by apply tspec_ret. }
  intros nb Hnb. apply tspec_ret. by apply Forall_allPolygons.
Qed.

Lemma tspec_CSG_clone (c : CSG) :
  Forall known (CSG_polygons c) ->
  tspec (CSG_clone c) (fun c' => Forall made (CSG_polygons c')).
Proof.
  intros Hc. eapply tspec_bind.
  - apply (tspec_map _ known made); [|done]. apply tspec_Polygon_clone.
  - intros qs Hqs. by apply tspec_ret.
Qed.

Lemma tspec_two_trees fuel (this csg : CSG)
    (k : Node -> Node -> M S CSG) :
  Forall known (CSG_polygons this) -> Forall known (CSG_polygons csg) ->
  (forall a b, Forall made (Node_allPolygons a) ->
               Forall made (Node_allPolygons b) ->
               tspec (k a b) (fun c => Forall made (CSG_polygons c))) ->
  tspec (let* ca := CSG_clone this in
         let* a := Node_new fuel (CSG_polygons ca) in
         let* cb := CSG_clone csg in
         let* b := Node_new fuel (CSG_polygons cb) in
         k a b)
        (fun c => Forall made (CSG_polygons c)).
Proof.
  intros Ha Hb Hk.
  eapply tspec_bind; [by apply tspec_CSG_clone|]. intros ca Hca.
  eapply tspec_bind; [apply tspec_Node_build; [constructor | done]|].
  intros a Ha'.
  eapply tspec_bind; [by apply tspec_CSG_clone|]. intros cb Hcb.
  eapply tspec_bind; [apply tspec_Node_build; [constructor | done]|].
  intros b Hb'. by apply Hk.
Qed.
Lemma tspec_CSG_union fuel (this csg : CSG) :
  Forall known (CSG_polygons this) -> Forall known (CSG_polygons csg) ->
  tspec (CSG_union fuel this csg) (fun c => Forall made (CSG_polygons c)).
Proof.
  intros Ha Hb. apply tspec_two_trees; [done..|]. intros a b Ha' Hb'.
  eapply tspec_bind; [by apply tspec_Node_clipTo|]. intros a1 Ha1.
  eapply tspec_bind; [by apply tspec_Node_clipTo|]. intros b1 Hb1.
  eapply tspec_bind; [by apply tspec_Node_invert|]. intros b2 Hb2.
  eapply tspec_bind; [by apply tspec_Node_clipTo|]. intros b3 Hb3.
  eapply tspec_bind; [by apply tspec_Node_invert|]. intros b4 Hb4.
  eapply tspec_bind; [by apply tspec_Node_build|]. intros a2 Ha2.
  by apply tspec_ret.
Qed.

Lemma tspec_CSG_subtract fuel (this csg : CSG) :
  Forall known (CSG_polygons this) -> Forall known (CSG_polygons csg) ->
  tspec (CSG_subtract fuel this csg) (fun c => Forall made (CSG_polygons c)).
Proof.
  intros Ha Hb. apply tspec_two_trees; [done..|]. intros a b Ha' Hb'.
  eapply tspec_bind; [by apply tspec_Node_invert|]. intros a0 Ha0.
  eapply tspec_bind; [by apply tspec_Node_clipTo|]. intros a1 Ha1.
  eapply tspec_bind; [by apply tspec_Node_clipTo|]. intros b1 Hb1.
  eapply tspec_bind; [by apply tspec_Node_invert|]. intros b2 Hb2.
  eapply tspec_bind; [by apply tspec_Node_clipTo|]. intros b3 Hb3.
  eapply tspec_bind; [by apply tspec_Node_invert|]. intros b4 Hb4.
  eapply tspec_bind; [by apply tspec_Node_build|]. intros a2 Ha2.
  eapply tspec_bind; [by apply tspec_Node_invert|]. intros a3 Ha3.
  by apply tspec_ret.
Qed.

Lemma tspec_CSG_intersect fuel (this csg : CSG) :
  Forall known (CSG_polygons this) -> Forall known (CSG_polygons csg) ->
  tspec (CSG_intersect fuel this csg)
        (fun c => Forall made (CSG_polygons c)).
Proof.
  intros Ha Hb. apply tspec_two_trees; [done..|]. intros a b Ha' Hb'.
  eapply tspec_bind; [by apply tspec_Node_invert|]. intros a0 Ha0.
  eapply tspec_bind; [by apply tspec_Node_clipTo|]. intros b1 Hb1.
  eapply tspec_bind; [by apply tspec_Node_invert|]. intros b2 Hb2.
  eapply tspec_bind; [by apply tspec_Node_clipTo|]. intros a1 Ha1.
  eapply tspec_bind; [by apply tspec_Node_clipTo|]. intros b3 Hb3.
  eapply tspec_bind; [by apply tspec_Node_build|]. intros a2 Ha2.
  eapply tspec_bind; [by apply tspec_Node_invert|]. intros a3 Ha3.
  by apply tspec_ret.
Qed.

Lemma tspec_run {A} (m : M S A) (Q : A -> Prop) a h' :
  tspec m Q -> m h0 = (Ok a, h') -> tagged h' /\ Q a.
Proof.
  intros Hm E. destruct (Hm h0 tagged_start) as [Ht Ha].
  by rewrite E in *.
Qed.

Lemma tagged_made h r p :
  tagged h -> made r -> polygonStore h !! r = Some p ->
  tag_ok (Polygon_shared p).
Proof.
  intros [_ Hh] Hr Hp. specialize (Hh r p Hp). red in Hr.
  by rewrite decide_False in Hh by lia.
Qed.
End Tags.

Section OperatorResults.
Context {S : Type}.
Variables (nv np : nat).
Implicit Types (h : Heap S).

Local Abbreviation good := (good nv np).
Local Abbreviation spec := (spec nv np).

(** The polygons of the solid that an operator returns belong to it. *)
Lemma spec_CSG_union_good h fuel (this csg : CSG) :
  spec false h (CSG_union fuel this csg)
    (fun h' c => Forall (good h') (CSG_polygons c)).
Proof.
  apply spec_two_trees. intros h0 a b Ha Hb.
  eapply spec_bind; [by apply spec_clipTo|]. intros h1 a1 He1 _ Ha1.
  eapply spec_bind; [apply spec_clipTo; by eapply good_tree_mono|].
  intros h2 b2 He2 _ Hb2.
  eapply spec_bind; [by apply spec_invert|]. intros h3 b3 He3 _ Hb3.
  eapply spec_bind; [by apply spec_clipTo|]. intros h4 b4 He4 _ Hb4.
  eapply spec_bind; [by apply spec_invert|]. intros h5 b5 He5 _ Hb5.
  eapply spec_bind.
  - apply spec_build_into; [|done]. eapply good_tree_mono; [|exact Ha1].
    repeat (eapply evolves_trans; [eassumption|]). apply evolves_refl.
  - intros h6 a6 He6 _ Ha6. by apply spec_ret.
Qed.

Lemma spec_CSG_subtract_good h fuel (this csg : CSG) :
  spec false h (CSG_subtract fuel this csg)
    (fun h' c => Forall (good h') (CSG_polygons c)).
Proof.
  apply spec_two_trees. intros h0 a b Ha Hb.
  eapply spec_bind; [by apply spec_invert|]. intros h1 a1 He1 _ Ha1.
  eapply spec_bind; [by apply spec_clipTo|]. intros h2 a2 He2 _ Ha2.
  eapply spec_bind.
  { apply spec_clipTo. eapply good_tree_mono; [|exact Hb].
    by eapply evolves_trans. }
  intros h3 b3 He3 _ Hb3.
  eapply spec_bind; [by apply spec_invert|]. intros h4 b4 He4 _ Hb4.
  eapply spec_bind; [by apply spec_clipTo|]. intros h5 b5 He5 _ Hb5.
  eapply spec_bind; [by apply spec_invert|]. intros h6 b6 He6 _ Hb6.
  eapply spec_bind.
  { apply spec_build_into; [|done]. eapply good_tree_mono; [|exact Ha2].
    repeat (eapply evolves_trans; [eassumption|]). apply evolves_refl. }
  intros h7 a7 He7 _ Ha7.
  eapply spec_bind; [by apply spec_invert|].
  intros h8 a8 He8 _ Ha8. by apply spec_ret.
Qed.

Lemma spec_CSG_intersect_good h fuel (this csg : CSG) :
  spec false h (CSG_intersect fuel this csg)
    (fun h' c => Forall (good h') (CSG_polygons c)).
Proof.
  apply spec_two_trees. intros h0 a b Ha Hb.
  eapply spec_bind; [by apply spec_invert|]. intros h1 a1 He1 _ Ha1.
  eapply spec_bind; [apply spec_clipTo; by eapply good_tree_mono|].
  intros h2 b2 He2 _ Hb2.
  eapply spec_bind; [by apply spec_invert|]. intros h3 b3 He3 _ Hb3.
  eapply spec_bind.
  { apply spec_clipTo. eapply good_tree_mono; [|exact Ha1].
    by eapply evolves_trans. }
  intros h4 a4 He4 _ Ha4.
  eapply spec_bind; [apply spec_clipTo; by eapply good_tree_mono|].
  intros h5 b5 He5 _ Hb5.
  eapply spec_bind.
  { apply spec_build_into; [|done]. by eapply good_tree_mono. }
  intros h6 a6 He6 _ Ha6.
  eapply spec_bind; [by apply spec_invert|].
  intros h7 a7 He7 _ Ha7. by apply spec_ret.
Qed.
End OperatorResults.

Lemma operator_tags {S : Type} (m : M S CSG) (A B C : CSG) (h h' : Heap S) :
  tspec h (CSG_polygons A ++ CSG_polygons B) m
    (fun c => Forall (made h) (CSG_polygons c)) ->
  spec 0 0 false h m (fun h' c => Forall (good 0 0 h') (CSG_polygons c)) ->
  m h = (Ok C, h') ->
  Forall (fun q =>
            length (polygonStore h) <= q
            /\ exists p', polygonStore h' !! q = Some p'
                 /\ tag_ok h (CSG_polygons A ++ CSG_polygons B)
                           (Polygon_shared p'))
         (CSG_polygons C).
Proof.
  intros Ht Hs E.
  destruct (tspec_run h _ m _ C h' Ht E) as [Htag Hmade].
  destruct (spec_run 0 0 false h m _ C h' Hs (roomy_0 h) E) as [_ Hgood].
  apply Forall_forall. intros q Hq.
  rewrite Forall_forall in Hmade, Hgood.
  split; [by apply Hmade|].
  destruct (good_lookup 0 0 h' q (Hgood q Hq)) as (p' & Hp' & _).
  exists p'. split; [done|]. eapply tagged_made; [done| |done].
  by apply Hmade.
Qed.

Lemma known_operands {S : Type} (h : Heap S) (A B : CSG) :
  Forall (known h (CSG_polygons A ++ CSG_polygons B)) (CSG_polygons A)
  /\ Forall (known h (CSG_polygons A ++ CSG_polygons B)) (CSG_polygons B).
Proof.
  split; apply Forall_forall; intros r Hr; right; apply elem_of_app; auto.
Qed.

(** X17. The operators keep the shared tags: every polygon of a solid that
    [union], [subtract] or [intersect] returns is a polygon made during the
    call (none is a polygon of an operand), and its shared tag is the tag
    that a polygon of one of the two operands had when the call started.
    No tag is made up, and none comes from a polygon that is not in the
    operands. *)
Theorem operators_keep_shared_tags {S : Type} (fuel : nat) (A B C : CSG)
    (h h' : Heap S) :
  CSG_union fuel A B h = (Ok C, h')
  \/ CSG_subtract fuel A B h = (Ok C, h')
  \/ CSG_intersect fuel A B h = (Ok C, h') ->
  Forall (fun q =>
            length (polygonStore h) <= q
            /\ exists p', polygonStore h' !! q = Some p'
                 /\ tag_ok h (CSG_polygons A ++ CSG_polygons B)
                           (Polygon_shared p'))
         (CSG_polygons C).
Proof.
  destruct (known_operands h A B) as [HA HB].
  intros [E|[E|E]].
  - eapply operator_tags; [|apply spec_CSG_union_good|exact E].
    by apply tspec_CSG_union.
  - eapply operator_tags; [|apply spec_CSG_subtract_good|exact E].
    by apply tspec_CSG_subtract.
  - eapply operator_tags; [|apply spec_CSG_intersect_good|exact E].
    by apply tspec_CSG_intersect.
Qed.

Lemma operators_keep_shared_tags_witness :
  Forall (fun q =>
            length (polygonStore two_cubes_heap) <= q
            /\ exists p', polygonStore two_cubes_union.2 !! q = Some p'
                 /\ tag_ok two_cubes_heap
                      (CSG_polygons two_cubes_A ++ CSG_polygons two_cubes_B)
                      (Polygon_shared p'))
         (CSG_polygons two_cubes_united).
Proof.
  apply (operators_keep_shared_tags 20 two_cubes_A two_cubes_B
           two_cubes_united two_cubes_heap two_cubes_union.2).
  left. vm_compute. reflexivity.
Defined.

(** X18. [clipPolygons] on polygons that are in the heap returns, whatever
    the tree: it does not throw, and each polygon it returns is in the
    heap and is either one of the polygons of the list, kept whole, or a
    polygon made during the call that carries the shared tag of a polygon
    of the list.  Every vertex and polygon that existed is as before. *)
Theorem clipPolygons_returns_pieces {S : Type} (n : Node) (ps : list ref)
    (h : Heap S) :
  Forall (valid_polygon h) ps ->
  exists qs h',
    Node_clipPolygons n ps h = (Ok qs, h')
    /\ Forall (valid_polygon h') qs
    /\ Forall (fun q =>
                 q ∈ ps
                 \/ (length (polygonStore h) <= q
                     /\ exists p', polygonStore h' !! q = Some p'
                          /\ tag_ok h ps (Polygon_shared p')))
              qs
    /\ unchanged h h'.
Proof.
  intros Hps.
  destruct (spec_Ok 0 0 h _ _ (roomy_0 h)
              (spec_Node_clipPolygons 0 0 n ps h Hps))
    as (qs & h' & E & _ & Hqs).
  exists qs, h'. split; [done|]. split; [done|].
  split; [|pose proof (grows_Node_clipPolygons n ps h) as Hu;
           by rewrite E in Hu].
  assert (Ht : tspec h ps (Node_clipPolygons n ps) (Forall (known h ps))).
  { apply (tspec_Node_clipPolygons h ps (known h ps)); [by left|done|].
    apply Forall_forall. intros r Hr. by right. }
  destruct (tspec_run h ps _ _ qs h' Ht E) as [Htag Hknown].
  apply Forall_forall. intros q Hq. rewrite Forall_forall in Hknown, Hqs.
  destruct (Hknown q Hq) as [Hmade|Hin]; [right|by left].
  split; [done|].
  destruct (good_lookup 0 0 h' q (Hqs q Hq)) as (p' & Hp' & _).
  exists p'. split; [done|]. by eapply tagged_made.
Qed.

Lemma clipPolygons_returns_pieces_witness :
  exists qs h',
    Node_clipPolygons unit_cube_tree unit_cube_faces unit_cube_built.2
    = (Ok qs, h')
    /\ Forall (valid_polygon h') qs
    /\ Forall (fun q =>
                 q ∈ unit_cube_faces
                 \/ (length (polygonStore unit_cube_built.2) <= q
                     /\ exists p', polygonStore h' !! q = Some p'
                          /\ tag_ok unit_cube_built.2 unit_cube_faces
                                    (Polygon_shared p')))
              qs
    /\ unchanged unit_cube_built.2 h'.
Proof.
  apply (clipPolygons_returns_pieces unit_cube_tree unit_cube_faces
           unit_cube_built.2).
  apply valid_polygonb_valid. vm_compute. reflexivity.
Defined.


(** ** Polygons that no plane of the tree cuts *)

Lemma filter_split {A : Type} (P F B : A -> bool) (l : list A) :
  List.filter (fun x => if P x then F x else B x) l
  ≡ₚ List.filter F (List.filter P l)
     ++ List.filter B (List.filter (fun x => negb (P x)) l).
Proof.
  induction l as [|x l IH]; [done|]. simpl.
  destruct (P x); simpl.
  - destruct (F x); simpl; by rewrite IH.
  - destruct (B x); simpl; [|done].
    rewrite IH. apply Permutation_middle.
Qed.

Lemma filter_true {A : Type} (l : list A) : List.filter (fun _ => true) l = l.
Proof. induction l as [|x l IH]; simpl; by rewrite ?IH. Qed.

Lemma filter_false {A : Type} (l : list A) :
  List.filter (fun _ => false) l = [].
Proof. by induction l. Qed.

Lemma elem_of_filter_bool {A : Type} (P : A -> bool) (l : list A) x :
  x ∈ List.filter P l -> x ∈ l.
Proof.
  rewrite !list_elem_of_In, filter_In. tauto.
Qed.

Section Whole.
Context {S : Type}.
Implicit Types (h : Heap S).

Lemma whole_type h plane r :
  whole h plane r = true ->
  exists t, polygonTypeIn h plane r = Some t /\ t <> SPANNING
            /\ (t = COPLANAR \/ t = FRONT \/ t = BACK).
Proof.
  unfold whole. destruct (polygonTypeIn h plane r) as [t|] eqn:Ht; [|done].
  intros Hns. apply negb_true_iff, Z.eqb_neq in Hns.
  exists t. split; [done|]. split; [done|].
  destruct (polygonTypeIn_range _ _ _ _ Ht) as [?|[?|[?|?]]]; auto. done.
Qed.

Lemma all_whole_spec h (n : Node) ps :
  all_whole h n ps = true
  <-> forall r plane, r ∈ ps -> plane ∈ Node_planes n ->
                      whole h plane r = true.
Proof.
  unfold all_whole. rewrite forallb_forall. split.
  - intros H r plane Hr Hpl. apply list_elem_of_In in Hr, Hpl.
    specialize (H r Hr). rewrite forallb_forall in H. by apply H.
  - intros H r Hr. apply forallb_forall. intros plane Hpl.
    apply H; by apply list_elem_of_In.
Qed.

Lemma clip_loop_whole (plane : Plane) h ps f b :
  Forall (fun r => whole h plane r = true) ps ->
  Array_fold
    (fun fr p => Plane_splitPolygon plane p
                   clip_front clip_back clip_front clip_back fr)
    ps (f, b) h
  = (Ok (f ++ List.filter (toFront h plane) ps,
         b ++ List.filter (fun r => negb (toFront h plane r)) ps), h).
Proof.
  intros Hall. revert f b.
  induction Hall as [|r ps Hr _ IH]; intros f b; simpl.
  - by rewrite !app_nil_r.
  - destruct (whole_type h plane r Hr) as (t & Ht & Hns & Hrange).
    run_with (splitPolygon_whole plane h r t
                clip_front clip_back clip_front clip_back (f, b) Ht Hns).
    unfold routed, toFront. rewrite Ht.
    destruct Hrange as [->|[->| ->]]; simpl;
      [destruct (facing h plane r); simpl|..];
      rewrite IH; by rewrite <- ?app_assoc.
Qed.

Lemma hasType_type (plane : Plane) h r t t' :
  polygonTypeIn h plane r = Some t -> hasType h plane t' r = (t =? t')%Z.
Proof. unfold hasType. by intros ->. Qed.

Lemma build_loop_whole (plane : Plane) h ps own f b :
  Forall (fun r => whole h plane r = true) ps ->
  Array_fold
    (fun fr p => Plane_splitPolygon plane p
                   build_polygons build_polygons build_front build_back fr)
    ps (own, f, b) h
  = (Ok (own ++ List.filter (hasType h plane COPLANAR) ps,
         f ++ List.filter (hasType h plane FRONT) ps,
         b ++ List.filter (hasType h plane BACK) ps), h).
Proof.
  intros Hall. revert own f b.
  induction Hall as [|r ps Hr _ IH]; intros own f b; simpl.
  - by rewrite !app_nil_r.
  - destruct (whole_type h plane r Hr) as (t & Ht & Hns & Hrange).
    run_with (splitPolygon_whole plane h r t
                build_polygons build_polygons build_front build_back
                (own, f, b) Ht Hns).
    unfold routed. rewrite !(hasType_type plane h r t _ Ht).
    destruct Hrange as [->|[->| ->]]; simpl;
      [destruct (facing h plane r); simpl|..];
      rewrite IH; by rewrite <- ?app_assoc.
Qed.

Lemma types_partition (plane : Plane) h ps :
  Forall (fun r => whole h plane r = true) ps ->
  List.filter (hasType h plane COPLANAR) ps
  ++ List.filter (hasType h plane FRONT) ps
  ++ List.filter (hasType h plane BACK) ps
  ≡ₚ ps.
Proof.
  intros Hall. induction Hall as [|r ps Hr _ IH]; [done|]. simpl.
  destruct (whole_type h plane r Hr) as (t & Ht & Hns & Hrange).
  rewrite !(hasType_type plane h r t _ Ht).
  destruct Hrange as [->|[->| ->]]; simpl.
  - by rewrite IH.
  - rewrite <- Permutation_middle. by rewrite IH.
  - rewrite app_assoc, <- Permutation_middle, <- app_assoc. by rewrite IH.
Qed.

Lemma Node_clipPolygons_whole (n : Node) :
  forall ps h, all_whole h n ps = true ->
    exists qs, Node_clipPolygons n ps h = (Ok qs, h)
               /\ qs ≡ₚ List.filter (outside h n) ps.
Proof.
  induction n as [plane front back polygons IHf IHb] using Node_induction.
  intros ps h Hall. rewrite all_whole_spec in Hall. simpl in *.
  destruct plane as [plane|]; simpl in *.
  2:{ exists ps. by rewrite filter_true. }
  assert (Hps : Forall (fun r => whole h plane r = true) ps).
  { apply Forall_forall. intros r Hr. apply Hall; [done | by left]. }
  set (f := List.filter (toFront h plane) ps).
  set (b := List.filter (fun r => negb (toFront h plane r)) ps).
  assert (exists qf,
    (match front with
     | Some c => Node_clipPolygons c f
     | None => ret f
     end) h = (Ok qf, h)
    /\ qf ≡ₚ List.filter
               (fun r => match front with
                         | Some c => outside h c r
                         | None => true
                         end) f) as (qf & Ef & Hqf).
  { destruct front as [c|]; simpl in *.
    - apply IHf. apply all_whole_spec. intros r pl Hr Hpl.
      apply Hall; [by eapply elem_of_filter_bool|].
      right. apply elem_of_app. by left.
    - exists f. by rewrite filter_true. }
  assert (exists qb,
    (match back with
     | Some c => Node_clipPolygons c b
     | None => ret []
     end) h = (Ok qb, h)
    /\ qb ≡ₚ List.filter
               (fun r => match back with
                         | Some c => outside h c r
                         | None => false
                         end) b) as (qb & Eb & Hqb).
  { destruct back as [c|]; simpl in *.
    - apply IHb. apply all_whole_spec. intros r pl Hr Hpl.
      apply Hall; [by eapply elem_of_filter_bool|].
      right. apply elem_of_app. by right.
    - exists []. by rewrite filter_false. }
  exists (qf ++ qb). split.
  - run_with (clip_loop_whole plane h ps [] [] Hps). simpl.
    fold f b. run_with Ef. by run_with Eb.
  - rewrite Hqf, Hqb. symmetry. apply filter_split.
Qed.

Lemma build_plane_inv h (n : Node) p0 plane h1 :
  (match Node_plane n with
   | Some plane => ret plane
   | None => let* p := getPolygon p0 in ret (Plane_clone (Polygon_plane p))
   end) h = (Ok plane, h1) -> h1 = h.
Proof.
  destruct (Node_plane n).
  - by intros [= _ <-].
  - intros (p & h2 & E & [= _ <-])%bind_Ok_inv. unfold getPolygon in E.
    destruct (polygonStore h !! p0); by injection E.
Qed.

Lemma allPolygons_default (c : option Node) :
  Node_allPolygons (default Node_empty c)
  = match c with Some n => Node_allPolygons n | None => [] end.
Proof. by destruct c. Qed.

Lemma Node_build_whole (fuel : nat) :
  forall (n : Node) ps t h h',
    Node_build fuel n ps h = (Ok t, h') -> all_whole h t ps = true ->
    h' = h /\ Node_allPolygons t ≡ₚ Node_allPolygons n ++ ps.
Proof.
  induction fuel as [|fuel IH]; intros n ps t h h' E Hall;
    destruct ps as [|p0 ps]; try done.
  - injection E as <- <-. by rewrite app_nil_r.
  - injection E as <- <-. by rewrite app_nil_r.
  - cbn [Node_build] in E.
    apply bind_Ok_inv in E as (plane & h1 & E0 & E).
    apply build_plane_inv in E0 as ->.
    apply bind_Ok_inv in E as ([[own f] b] & h2 & E1 & E).
    apply bind_Ok_inv in E as (nf & h3 & Ef & E).
    apply bind_Ok_inv in E as (nb & h4 & Eb & [= <- <-]).
    rewrite all_whole_spec in Hall. simpl in Hall.
    assert (Hps : Forall (fun r => whole h plane r = true) (p0 :: ps)).
    { apply Forall_forall. intros r Hr. apply Hall; [done | by left]. }
    pose proof (build_loop_whole plane h (p0 :: ps) (Node_polygons n)
                  [] [] Hps) as Hloop.
    pose proof (types_partition plane h (p0 :: ps) Hps) as Hparts.
    assert (Hfsub : forall r, r ∈ List.filter (hasType h plane FRONT)
                                    (p0 :: ps) -> r ∈ p0 :: ps)
      by (intros r; apply elem_of_filter_bool).
    assert (Hbsub : forall r, r ∈ List.filter (hasType h plane BACK)
                                    (p0 :: ps) -> r ∈ p0 :: ps)
      by (intros r; apply elem_of_filter_bool).
    revert Hloop Hparts Hfsub Hbsub.
    generalize (List.filter (hasType h plane FRONT) (p0 :: ps)).
    generalize (List.filter (hasType h plane BACK) (p0 :: ps)).
    generalize (List.filter (hasType h plane COPLANAR) (p0 :: ps)).
    intros cl bl fl Hloop Hparts Hfsub Hbsub.
    rewrite Hloop in E1. injection E1 as <- <- <- <-.
    rewrite !app_nil_l in *.
    assert (h3 = h
            /\ match nf with Some c => Node_allPolygons c | None => [] end
               ≡ₚ match Node_front n with
                  | Some c => Node_allPolygons c
                  | None => []
                  end ++ fl) as [-> Hnf].
    { destruct fl as [|q fl'].
      - unfold ret in Ef. injection Ef as <- <-. by rewrite app_nil_r.
      - apply bind_Ok_inv in Ef as (c & h5 & Ec & [= <- <-]).
        apply IH in Ec as [-> Hc].
        + split; [done|]. by rewrite Hc, allPolygons_default.
        + apply all_whole_spec. intros r pl Hr Hpl.
          apply Hall; [by apply Hfsub|].
          right. apply elem_of_app. by left. }
    assert (h4 = h
            /\ match nb with Some c => Node_allPolygons c | None => [] end
               ≡ₚ match Node_back n with
                  | Some c => Node_allPolygons c
                  | None => []
                  end ++ bl) as [-> Hnb].
    { destruct bl as [|q bl'].
      - unfold ret in Eb. injection Eb as <- <-. by rewrite app_nil_r.
      - apply bind_Ok_inv in Eb as (c & h5 & Ec & [= <- <-]).
        apply IH in Ec as [-> Hc].
        + split; [done|]. by rewrite Hc, allPolygons_default.
        + apply all_whole_spec. intros r pl Hr Hpl.
          apply Hall; [by apply Hbsub|].
          right. apply elem_of_app. by right. }
    split; [done|]. destruct n as [pl front back polygons]. simpl in *.
    rewrite Hnf, Hnb. rewrite <- Hparts.
    rewrite <- !app_assoc. f_equiv.
    rewrite Permutation_app_swap_app. f_equiv.
    rewrite (Permutation_app_swap_app _ cl). f_equiv.
    apply Permutation_app_swap_app.
Qed.

End Whole.

(** X19. [clipPolygons] on polygons that no plane of the tree cuts: it
    returns without touching the heap, no polygon is made, and the polygons
    returned are those of the list that are outside the solid, each once:
    a polygon is kept when its walk down the tree, to the front child where
    it is in front of the plane of the node (or lies in it and faces its
    way) and to the back child otherwise, ends at a missing front child;
    it is removed when the walk ends at a missing back child. *)
Theorem clipPolygons_whole_polygons {S : Type} (n : Node) (ps : list ref)
    (h : Heap S) :
  all_whole h n ps = true ->
  exists qs, Node_clipPolygons n ps h = (Ok qs, h)
             /\ qs ≡ₚ List.filter (outside h n) ps.
Proof. apply Node_clipPolygons_whole. Qed.

Lemma clipPolygons_whole_polygons_witness :
  exists qs,
    Node_clipPolygons unit_cube_tree unit_cube_faces unit_cube_built.2
    = (Ok qs, unit_cube_built.2)
    /\ qs ≡ₚ List.filter (outside unit_cube_built.2 unit_cube_tree)
               unit_cube_faces.
Proof.
  apply (clipPolygons_whole_polygons unit_cube_tree unit_cube_faces
           unit_cube_built.2).
  vm_compute. reflexivity.
Defined.

(** X20. [build] with polygons that no plane of the tree it returns cuts:
    no polygon is made and the heap is untouched, and the tree returned
    holds the polygons of the tree it was called on and the polygons of
    the list, each as many times as before: no polygon is lost and none is
    taken twice. *)
Theorem build_whole_polygons {S : Type} (fuel : nat) (n t : Node)
    (ps : list ref) (h h' : Heap S) :
  Node_build fuel n ps h = (Ok t, h') ->
  all_whole h t ps = true ->
  h' = h /\ Node_allPolygons t ≡ₚ Node_allPolygons n ++ ps.
Proof. apply Node_build_whole. Qed.

Lemma build_whole_polygons_witness :
  unit_cube_built.2 = unit_cube_heap
  /\ Node_allPolygons unit_cube_tree
     ≡ₚ Node_allPolygons Node_empty ++ unit_cube_faces.
Proof.
  apply (build_whole_polygons 6 Node_empty unit_cube_tree unit_cube_faces
           unit_cube_heap unit_cube_built.2).
  - vm_compute. reflexivity.
  - vm_compute. reflexivity.
Defined.


(** ** Plane.flip and the classification of points *)

Section FlippedSign.
Local Abbreviation nz := unsigned_zero.

Lemma binary_round_aux_opp s m e l :
  binary_round_aux prec emax (negb s) m e l
  = SFopp (binary_round_aux prec emax s m e l).
Proof.
  unfold binary_round_aux.
  destruct (shr_fexp prec emax m e l) as [mrs' e'].
  destruct (shr_fexp prec emax _ e' loc_Exact) as [mrs'' e''].
  destruct (shr_m mrs''); [done| |done].
  by destruct (_ <=? _)%Z.
Qed.

Lemma binary_round_opp s m e :
  binary_round prec emax (negb s) m e = SFopp (binary_round prec emax s m e).
Proof.
  unfold binary_round. destruct (shl_align m e _) as [mz ez].
  apply binary_round_aux_opp.
Qed.

Lemma cond_Zopp_negb s z : cond_Zopp (negb s) z = (- cond_Zopp s z)%Z.
Proof. destruct s; simpl; lia. Qed.

Lemma binary_normalize_opp z e :
  nz (binary_normalize prec emax (- z) e false)
  = nz (SFopp (binary_normalize prec emax z e false)).
Proof.
  destruct z as [|m|m]; simpl; [done| |].
  - by rewrite <- (binary_round_opp false).
  - f_equal. rewrite <- (binary_round_opp true). done.
Qed.

Lemma SFmul_opp x y : SF64mul (SFopp x) y = SFopp (SF64mul x y).
Proof.
  unfold SF64mul.
  destruct x as [sx|sx| |sx mx ex], y as [sy|sy| |sy my ey]; simpl;
    try done; try (by destruct sx, sy).
  rewrite <- binary_round_aux_opp. by destruct sx, sy.
Qed.

Lemma SFadd_opp x y :
  nz (SF64add (SFopp x) (SFopp y)) = nz (SFopp (SF64add x y)).
Proof.
  unfold SF64add.
  destruct x as [sx|sx| |sx mx ex], y as [sy|sy| |sy my ey]; simpl;
    try done; try (by destruct sx, sy).
  rewrite !cond_Zopp_negb, <- Z.opp_add_distr.
  apply binary_normalize_opp.
Qed.

Lemma SFsub_opp x y :
  nz (SF64sub (SFopp x) (SFopp y)) = nz (SFopp (SF64sub x y)).
Proof.
  unfold SF64sub.
  destruct x as [sx|sx| |sx mx ex], y as [sy|sy| |sy my ey]; simpl;
    try done; try (by destruct sx, sy).
  rewrite !cond_Zopp_negb.
  replace (- cond_Zopp sx (Z.pos (shl_align mx ex (Z.min ex ey)).1)
           - - cond_Zopp sy (Z.pos (shl_align my ey (Z.min ex ey)).1))%Z
    with (- (cond_Zopp sx (Z.pos (shl_align mx ex (Z.min ex ey)).1)
             - cond_Zopp sy (Z.pos (shl_align my ey (Z.min ex ey)).1)))%Z
    by lia.
  apply binary_normalize_opp.
Qed.

Lemma nz_cases x x' :
  nz x = nz x' ->
  x = x' \/ exists s s', x = S754_zero s /\ x' = S754_zero s'.
Proof.
  destruct x as [s| | |], x' as [s'| | |]; simpl; intros H;
    try discriminate H; try (by left); right; eauto.
Qed.

Lemma SFadd_nz x x' y :
  nz x = nz x' -> nz (SF64add x y) = nz (SF64add x' y).
Proof.
  intros [->|(s & s' & -> & ->)]%nz_cases; [done|].
  unfold SF64add. destruct y as [sy|sy| |sy my ey]; simpl; try done.
  by destruct s, s', sy.
Qed.

Lemma SFsub_nz x x' y :
  nz x = nz x' -> nz (SF64sub x y) = nz (SF64sub x' y).
Proof.
  intros [->|(s & s' & -> & ->)]%nz_cases; [done|].
  unfold SF64sub. destruct y as [sy|sy| |sy my ey]; simpl; try done.
  by destruct s, s', sy.
Qed.

Lemma SFcompare_nz_l x x' y :
  nz x = nz x' -> SFcompare x y = SFcompare x' y.
Proof.
  intros [->|(s & s' & -> & ->)]%nz_cases; [done|]. by destruct y.
Qed.

Lemma SFcompare_nz_r x x' y :
  nz x = nz x' -> SFcompare y x = SFcompare y x'.
Proof.
  intros [->|(s & s' & -> & ->)]%nz_cases; [done|]. by destruct y.
Qed.

Lemma SFcompare_opp x y : SFcompare (SFopp x) (SFopp y) = SFcompare y x.
Proof.
  destruct x as [sx|sx| |sx mx ex], y as [sy|sy| |sy my ey]; simpl;
    try done; try (by destruct sx, sy); try (by destruct sx);
    try (by destruct sy).
  rewrite (Z.compare_antisym ex ey).
  destruct sx, sy; simpl; try done; f_equal.
  - destruct (ex ?= ey)%Z; simpl; try done.
    by rewrite (Pos.compare_cont_antisym my mx Eq).
  - destruct (ex ?= ey)%Z; simpl; try done.
    by rewrite (Pos.compare_cont_antisym mx my Eq).
Qed.

Lemma SFopp_involutive x : SFopp (SFopp x) = x.
Proof. destruct x; simpl; by rewrite ?negb_involutive. Qed.

(** The distance of a point to the flipped plane is the opposite of its
    distance to the plane, up to the sign of zero. *)
Lemma Plane_distance_flip (pl : Plane) (pos : Vector) :
  nz (Prim2SF (Plane_distance (Plane_flip pl) pos))
  = nz (SFopp (Prim2SF (Plane_distance pl pos))).
Proof.
  unfold Plane_distance, Plane_flip, Vector_dot, Vector_negated. simpl.
  rewrite !sub_spec, !add_spec, !mul_spec, !opp_spec, !SFmul_opp.
  etransitivity; [|apply SFsub_opp]. apply SFsub_nz.
  etransitivity; [|apply SFadd_opp]. apply SFadd_nz.
  apply SFadd_opp.
Qed.

Lemma ltb_flip_l (t t' e : number) :
  nz (Prim2SF t') = nz (SFopp (Prim2SF t)) ->
  (t' <? - e)%float = (e <? t)%float.
Proof.
  intros H. rewrite !ltb_spec, opp_spec. unfold SFltb.
  by rewrite (SFcompare_nz_l _ _ _ H), SFcompare_opp.
Qed.

Lemma ltb_flip_r (t t' e : number) :
  nz (Prim2SF t') = nz (SFopp (Prim2SF t)) ->
  (e <? t')%float = (t <? - e)%float.
Proof.
  intros H. rewrite !ltb_spec, opp_spec. unfold SFltb.
  rewrite (SFcompare_nz_r _ _ _ H).
  by rewrite <- (SFopp_involutive (Prim2SF e)) at 1; rewrite SFcompare_opp.
Qed.

Lemma Plane_classify_flip (pl : Plane) (pos : Vector) :
  Plane_classify (Plane_flip pl) pos = flipType (Plane_classify pl pos).
Proof.
  unfold Plane_classify.
  pose proof (Plane_distance_flip pl pos) as H.
  rewrite (ltb_flip_l _ _ EPSILON H), (ltb_flip_r _ _ EPSILON H).
  pose proof (float_back_front_exclusive (Plane_distance pl pos)) as Hex.
  destruct (Plane_distance pl pos <? - EPSILON)%float.
  - by rewrite Hex.
  - by destruct (EPSILON <? Plane_distance pl pos)%float.
Qed.

Lemma flipType_lor (a b : Z) :
  (a = 0 \/ a = 1 \/ a = 2 \/ a = 3)%Z -> (b = 0 \/ b = 1 \/ b = 2 \/ b = 3)%Z ->
  flipType (Z.lor a b) = Z.lor (flipType a) (flipType b).
Proof. by intros [->|[->|[->| ->]]] [->|[->|[->| ->]]]. Qed.

Lemma Plane_classify_range (pl : Plane) (pos : Vector) :
  (Plane_classify pl pos = 0 \/ Plane_classify pl pos = 1
   \/ Plane_classify pl pos = 2 \/ Plane_classify pl pos = 3)%Z.
Proof.
  unfold Plane_classify. destruct (_ <? _)%float; [auto|].
  destruct (_ <? _)%float; auto.
Qed.

Lemma polygonTypeOf_flip (pl : Plane) (ps : list Vector) :
  polygonTypeOf (map (Plane_classify (Plane_flip pl)) ps)
  = flipType (polygonTypeOf (map (Plane_classify pl) ps)).
Proof.
  unfold polygonTypeOf.
  assert (G : forall acc, (acc = 0 \/ acc = 1 \/ acc = 2 \/ acc = 3)%Z ->
    fold_left Z.lor (map (Plane_classify (Plane_flip pl)) ps) (flipType acc)
    = flipType (fold_left Z.lor (map (Plane_classify pl) ps) acc)).
  { induction ps as [|p ps IH]; intros acc Hacc; simpl; [done|].
    rewrite Plane_classify_flip, <- flipType_lor;
      [|done|apply Plane_classify_range].
    apply IH. pose proof (Plane_classify_range pl p) as Hp.
    destruct Hacc as [->|[->|[->| ->]]], Hp as [->|[->|[->| ->]]]; auto. }
  apply (G 0%Z). auto.
Qed.

Lemma polygonTypeIn_flip {S : Type} (h : Heap S) (pl : Plane) (r : ref) :
  polygonTypeIn h (Plane_flip pl) r = flipType <$> polygonTypeIn h pl r.
Proof.
  unfold polygonTypeIn.
  destruct (polygonStore h !! r) as [p|]; simpl; [|done].
  destruct (vertexObjects h (Polygon_vertices p)) as [xs|]; simpl; [|done].
  f_equal.
  rewrite <- (map_map Vertex_pos (Plane_classify (Plane_flip pl))).
  rewrite <- (map_map Vertex_pos (Plane_classify pl)).
  apply polygonTypeOf_flip.
Qed.

Lemma Vector_dot_negated (n m : Vector) :
  nz (Prim2SF (Vector_dot (Vector_negated n) m))
  = nz (SFopp (Prim2SF (Vector_dot n m))).
Proof.
  unfold Vector_dot, Vector_negated. simpl.
  rewrite !add_spec, !mul_spec, !opp_spec, !SFmul_opp.
  etransitivity; [|apply SFadd_opp]. apply SFadd_nz.
  apply SFadd_opp.
Qed.

Lemma facing_exclusive {S : Type} (h : Heap S) (pl : Plane) (r : ref) :
  facing h pl r = true -> facing h (Plane_flip pl) r = false.
Proof.
  unfold facing. destruct (polygonStore h !! r) as [p|]; [|done].
  unfold Plane_flip. simpl.
  pose proof (Vector_dot_negated (Plane_normal pl)
                (Plane_normal (Polygon_plane p))) as H.
  rewrite !ltb_spec. unfold SFltb.
  rewrite (SFcompare_nz_r _ _ _ H).
  change (Prim2SF 0) with (S754_zero false).
  destruct (Prim2SF (Vector_dot (Plane_normal pl)
                       (Plane_normal (Polygon_plane p))))
    as [s|s| |s m e]; simpl; try done; by destruct s.
Qed.

Lemma toFront_flip {S : Type} (h : Heap S) (pl : Plane) (r : ref) :
  oneSided h pl r = true ->
  toFront h (Plane_flip pl) r = negb (toFront h pl r).
Proof.
  unfold oneSided, toFront, hasType. rewrite polygonTypeIn_flip.
  pose proof (facing_exclusive h pl r) as Hex.
  destruct (polygonTypeIn h pl r) as [t|] eqn:Ht; simpl; [|done].
  destruct (polygonTypeIn_range _ _ _ _ Ht) as [->|[->|[->| ->]]];
    simpl; try done.
  destruct (facing h pl r); simpl.
  - by rewrite Hex.
  - by intros ->.
Qed.

Lemma outside_mirror {S : Type} (h : Heap S) (r : ref) (n : Node) :
  planed n = true ->
  forallb (fun pl => oneSided h pl r) (Node_planes n) = true ->
  outside h (Node_mirror n) r = negb (outside h n r).
Proof.
  induction n as [plane front back polygons IHf IHb] using Node_induction.
  simpl. destruct plane as [plane|]; simpl; [|done].
  intros [Hpf Hpb]%andb_prop [Hside Hrest]%andb_prop.
  rewrite forallb_app in Hrest. apply andb_prop in Hrest as [Hsf Hsb].
  rewrite (toFront_flip h plane r Hside).
  destruct (toFront h plane r); simpl.
  - destruct front as [c|]; simpl in *; [by apply IHf | done].
  - destruct back as [c|]; simpl in *; [by apply IHb | done].
Qed.
End FlippedSign.

(** X21. [Plane.flip] exchanges front and back, exactly: for every plane
    and every point, in binary64 arithmetic with its infinities and NaN,
    the type of the point for the flipped plane is its type for the plane
    with FRONT and BACK exchanged; COPLANAR stays COPLANAR.  Hence the type
    of a polygon for the flipped plane is its type for the plane with FRONT
    and BACK exchanged, COPLANAR and SPANNING unchanged. *)
Theorem Plane_flip_swaps_front_and_back {S : Type} (pl : Plane)
    (pos : Vector) (h : Heap S) (r : ref) :
  Plane_classify (Plane_flip pl) pos = flipType (Plane_classify pl pos)
  /\ polygonTypeIn h (Plane_flip pl) r = flipType <$> polygonTypeIn h pl r.
Proof.
  split; [apply Plane_classify_flip | apply polygonTypeIn_flip].
Qed.

(** X22. [invert] exchanges inside and outside: for a tree with a plane at
    every node and a polygon that is on one side of every plane of the
    tree (in front, behind, or in the plane with a normal that points to
    one side), the walk down the mirrored tree, which is the tree that
    [invert] returns, ends outside exactly when the walk down the tree
    ends inside.  With [clipPolygons] on whole polygons this says: clipping
    against the inverted tree keeps what clipping against the tree
    removes. *)
Theorem invert_swaps_inside_and_outside {S : Type} (h : Heap S) (n : Node)
    (r : ref) :
  planed n = true ->
  forallb (fun pl => oneSided h pl r) (Node_planes n) = true ->
  outside h (Node_mirror n) r = negb (outside h n r).
Proof. apply outside_mirror. Qed.

Lemma invert_swaps_inside_and_outside_witness :
  outside unit_cube_built.2 (Node_mirror unit_cube_tree) 0
  = negb (outside unit_cube_built.2 unit_cube_tree 0).
Proof.
  apply (invert_swaps_inside_and_outside unit_cube_built.2 unit_cube_tree 0).
  - vm_compute. reflexivity.
  - vm_compute. reflexivity.
Defined.


(** ** The chains of a spanning polygon *)

Section ChainCounts.

(** The types of vertices: COPLANAR, FRONT or BACK. *)
Local Abbreviation vtype t := (t = COPLANAR \/ t = FRONT \/ t = BACK).

Lemma Plane_classify_vtype (pl : Plane) (pos : Vector) :
  vtype (Plane_classify pl pos).
Proof.
  unfold Plane_classify. destruct (_ <? _)%float; [auto|].
  destruct (_ <? _)%float; auto.
Qed.

(** Without a vertex in the plane and without a crossing, all the vertices
    are on the side of the first, and so is the vertex after the last. *)
Lemma turns_none (first t : Z) (l : list Z) :
  t = FRONT \/ t = BACK -> Forall (fun a => vtype a) l -> vtype first ->
  turns pushedBoth first (t :: l) = 0 ->
  Forall (fun a => a = t) l /\ Z.lor t first <> SPANNING.
Proof.
  intros Ht Hl Hfirst. revert t Ht.
  induction Hl as [|a m Ha Hm IH]; intros t Ht H.
  - simpl in H. split; [done|]. intros E. unfold pushedBoth in H.
    rewrite E in H. simpl in H.
    destruct (t =? COPLANAR)%Z; simpl in H; lia.
  - change (turns pushedBoth first (t :: a :: m))
      with (pushedBoth t a + turns pushedBoth first (a :: m)) in H.
    assert (Hat : a = t).
    { assert (H1 : pushedBoth t a = 0) by lia.
      assert (H2 : pushedBoth a (hd first m) = 0) by (simpl in H; lia).
      unfold pushedBoth in H1, H2.
      destruct Ht as [->| ->], Ha as [->|[->| ->]]; simpl in *;
        try done; lia. }
    subst a. destruct (IH t Ht) as [Hall Hlast]; [lia|].
    split; [by constructor | done].
Qed.

(** A vertex of the other side, and the turn comes back to this side: there
    is a vertex in the plane or a crossing. *)
Lemma turns_one (x : Z) (l : list Z) :
  x = FRONT \/ x = BACK -> Forall (fun a => vtype a) l ->
  (exists y, y ∈ l /\ (y = FRONT \/ y = BACK) /\ y <> x) ->
  1 <= turns pushedBoth x l.
Proof.
  intros Hx Hl. induction Hl as [|a m Ha Hm IH]; intros (y & Hy & Hyt & Hyx).
  - by apply elem_of_nil in Hy.
  - destruct (decide (a = COPLANAR)) as [->|Hac].
    { simpl. unfold pushedBoth at 1. simpl. lia. }
    destruct (decide (a = x)) as [->|Hax].
    + apply elem_of_cons in Hy as [->|Hy]; [done|].
      simpl. specialize (IH (ex_intro _ y (conj Hy (conj Hyt Hyx)))). lia.
    + destruct (Nat.eq_dec (turns pushedBoth x (a :: m)) 0) as [E|E];
        [|lia].
      apply turns_none in E as [_ Hlast]; try done.
      * exfalso. apply Hlast.
        destruct Hx as [->| ->], Ha as [->|[->| ->]]; done.
      * destruct Ha as [?|[?|?]]; auto. done.
      * destruct Hx as [->| ->]; auto.
Qed.

(** Vertices on both sides: at least two vertices in the plane or
    crossings, around the polygon. *)
Lemma turns_two (l : list Z) :
  Forall (fun a => vtype a) l -> FRONT ∈ l -> BACK ∈ l ->
  2 <= turns pushedBoth (hd 0%Z l) l.
Proof.
  intros Hl HF HB. destruct l as [|x l']; [by apply elem_of_nil in HF|].
  inversion Hl as [|? ? Hx Hl']; subst. cbn [hd].
  destruct Hx as [->|Hx].
  - (* the first vertex is in the plane *)
    apply elem_of_cons in HF as [HF|HF]; [done|].
    apply elem_of_cons in HB as [HB|HB]; [done|].
    change (turns pushedBoth COPLANAR (COPLANAR :: l'))
      with (pushedBoth COPLANAR (hd COPLANAR l')
            + turns pushedBoth COPLANAR l').
    assert (1 <= pushedBoth COPLANAR (hd COPLANAR l'))
      by (unfold pushedBoth; simpl; lia).
    assert (1 <= turns pushedBoth COPLANAR l'); [|lia].
    destruct l' as [|a m]; [by apply elem_of_nil in HF|].
    inversion Hl' as [|? ? Ha Hm]; subst.
    destruct (Nat.eq_dec (turns pushedBoth COPLANAR (a :: m)) 0) as [E|E];
      [|lia].
    destruct (decide (a = COPLANAR)) as [->|Hac].
    { simpl in E. unfold pushedBoth at 1 in E. simpl in E. lia. }
    apply turns_none in E as [Hall _]; try done; [|by destruct Ha as [?|?]|auto].
    exfalso. rewrite Forall_forall in Hall.
    assert (FRONT = a)
      by (apply elem_of_cons in HF as [HF|HF]; [done | by apply Hall]).
    assert (BACK = a)
      by (apply elem_of_cons in HB as [HB|HB]; [done | by apply Hall]).
    unfold FRONT, BACK in *. lia.
  - (* the first vertex is on a side *)
    assert (Hother : exists y, y ∈ l' /\ (y = FRONT \/ y = BACK) /\ y <> x).
    { destruct Hx as [->| ->].
      - apply elem_of_cons in HB as [HB|HB]; [done|]. exists BACK. auto.
      - apply elem_of_cons in HF as [HF|HF]; [done|]. exists FRONT. auto. }
    clear HF HB. revert Hother.
    induction Hl' as [|a m Ha Hm IH]; intros (y & Hy & Hyt & Hyx).
    { by apply elem_of_nil in Hy. }
    change (turns pushedBoth x (x :: a :: m))
      with (pushedBoth x a + turns pushedBoth x (a :: m)).
    destruct (decide (a = x)) as [->|Hax].
    + apply elem_of_cons in Hy as [->|Hy]; [done|].
      assert (2 <= turns pushedBoth x (x :: m)); [|lia].
      apply IH; [by constructor|]. by exists y.
    + destruct (decide (a = COPLANAR)) as [->|Hac].
      * apply elem_of_cons in Hy as [->|Hy];
          [by destruct Hyt|].
        assert (1 <= turns pushedBoth x m).
        { apply turns_one; [done..|]. by exists y. }
        cbn [turns].
        assert (1 <= pushedBoth COPLANAR (hd x m))
          by (unfold pushedBoth; simpl; lia).
        lia.
      * assert (Hcross : pushedBoth x a = 1).
        { unfold pushedBoth.
          destruct Hx as [->| ->], Ha as [->|[->| ->]]; done. }
        assert (1 <= turns pushedBoth x (a :: m)); [|lia].
        apply turns_one; [done|by constructor|].
        exists a. split; [by left|]. split; [|done].
        destruct Ha as [?|[?|?]]; auto. done.
Qed.

Lemma turns_pushedFront (first : Z) (l : list Z) :
  Forall (fun a => vtype a) l ->
  turns pushedFront first l
  = length (List.filter (fun a => (a =? FRONT)%Z) l)
    + turns pushedBoth first l.
Proof.
  intros Hl. induction Hl as [|a m Ha Hm IH]; [done|].
  cbn [turns List.filter]. rewrite IH. unfold pushedFront, pushedBoth.
  destruct Ha as [->|[->| ->]]; simpl; lia.
Qed.

Lemma turns_pushedBack (first : Z) (l : list Z) :
  Forall (fun a => vtype a) l ->
  turns pushedBack first l
  = length (List.filter (fun a => (a =? BACK)%Z) l)
    + turns pushedBoth first l.
Proof.
  intros Hl. induction Hl as [|a m Ha Hm IH]; [done|].
  cbn [turns List.filter]. rewrite IH. unfold pushedBack, pushedBoth.
  destruct Ha as [->|[->| ->]]; simpl; lia.
Qed.

Lemma filter_length_pos (t : Z) (l : list Z) :
  t ∈ l -> 1 <= length (List.filter (fun a => (a =? t)%Z) l).
Proof.
  induction l as [|a m IH]; intros Ht; [by apply elem_of_nil in Ht|].
  simpl. destruct (a =? t)%Z eqn:E; simpl; [lia|].
  apply elem_of_cons in Ht as [->|Ht]; [|by apply IH].
  by rewrite Z.eqb_refl in E.
Qed.

Lemma polygonTypeOf_spanning (l : list Z) :
  Forall (fun a => vtype a) l -> polygonTypeOf l = SPANNING ->
  FRONT ∈ l /\ BACK ∈ l.
Proof.
  unfold polygonTypeOf. intros Hl.
  assert (G : forall acc, (acc = 0 \/ acc = 1 \/ acc = 2 \/ acc = 3)%Z ->
    fold_left Z.lor l acc = SPANNING ->
    (acc = 1 \/ acc = 3 \/ FRONT ∈ l)%Z /\ (acc = 2 \/ acc = 3 \/ BACK ∈ l)%Z).
  { induction Hl as [|a m Ha Hm IH]; intros acc Hacc H; simpl in H.
    - unfold SPANNING in H. subst. auto.
    - destruct (IH (Z.lor acc a)) as [H1 H2]; [|done|].
      { destruct Hacc as [->|[->|[->| ->]]], Ha as [->|[->| ->]]; auto. }
      split.
      + destruct H1 as [H1|[H1|H1]]; [| |by right; right; right].
        * destruct Hacc as [->|[->|[->| ->]]], Ha as [->|[->| ->]];
            try done; auto; right; right; by left.
        * destruct Hacc as [->|[->|[->| ->]]], Ha as [->|[->| ->]];
            try done; auto; right; right; by left.
      + destruct H2 as [H2|[H2|H2]]; [| |by right; right; right].
        * destruct Hacc as [->|[->|[->| ->]]], Ha as [->|[->| ->]];
            try done; auto; right; right; by left.
        * destruct Hacc as [->|[->|[->| ->]]], Ha as [->|[->| ->]];
            try done; auto; right; right; by left. }
  intros H. destruct (G 0%Z) as [[?|[?|?]] [?|[?|?]]]; auto; done.
Qed.

(** Both chains of a polygon with vertices on both sides have three
    vertices or more. *)
Lemma turns_spanning (l : list Z) :
  Forall (fun a => vtype a) l -> polygonTypeOf l = SPANNING ->
  3 <= turns pushedFront (hd 0%Z l) l /\ 3 <= turns pushedBack (hd 0%Z l) l.
Proof.
  intros Hl Hs. destruct (polygonTypeOf_spanning l Hl Hs) as [HF HB].
  pose proof (turns_two l Hl HF HB).
  rewrite turns_pushedFront, turns_pushedBack by done.
  pose proof (filter_length_pos FRONT l HF).
  pose proof (filter_length_pos BACK l HB). lia.
Qed.
End ChainCounts.

Section ChainLengths.
Context {S : Type}.
Implicit Types (h : Heap S).

Lemma index_Ok_inv {A} (a : list A) i h x h' :
  index (S := S) a i h = (Ok x, h') -> a !! i = Some x /\ h' = h.
Proof.
  unfold index. destruct (a !! i); [|done]. by intros [= <- <-].
Qed.

(** One turn of the loop: what it adds to the two chains. *)
Lemma splitEdge_lengths (this : Plane) vertices types f b i h f' b' h' :
  Plane_splitEdge this vertices types (f, b) i h = (Ok (f', b'), h') ->
  exists ti tj,
    types !! i = Some ti
    /\ types !! ((i + 1) mod length vertices) = Some tj
    /\ length f' = length f + pushedFront ti tj
    /\ length b' = length b + pushedBack ti tj.
Proof.
  unfold Plane_splitEdge. intros E.
  apply bind_Ok_inv in E as (ti & h1 & [Hti ->]%index_Ok_inv & E).
  apply bind_Ok_inv in E as (tj & h1 & [Htj ->]%index_Ok_inv & E).
  apply bind_Ok_inv in E as (vi & h1 & [Hvi ->]%index_Ok_inv & E).
  apply bind_Ok_inv in E as (vj & h1 & [Hvj ->]%index_Ok_inv & E).
  apply bind_Ok_inv in E as (b1 & h1 & Eb & E).
  exists ti, tj. split; [done|]. split; [done|].
  assert (Hb1 : length b1
                = length b + (if (ti =? FRONT)%Z then 0 else 1)).
  { destruct (ti =? FRONT)%Z; simpl in Eb.
    - injection Eb as <- <-. lia.
    - apply bind_Ok_inv in Eb as (v & h2 & _ & [= <- <-]).
      rewrite length_app. simpl. lia. }
  unfold pushedFront, pushedBack.
  destruct (Z.lor ti tj =? SPANNING)%Z.
  - apply bind_Ok_inv in E as (pi & h2 & _ & E).
    apply bind_Ok_inv in E as (pj & h3 & _ & E).
    apply bind_Ok_inv in E as (v & h4 & _ & E).
    apply bind_Ok_inv in E as (v' & h5 & _ & [= <- <- <-]).
    rewrite !length_app, Hb1. simpl.
    destruct (ti =? BACK)%Z; simpl; rewrite ?length_app; simpl; lia.
  - injection E as <- <- <-. rewrite Hb1.
    destruct (ti =? BACK)%Z; simpl; rewrite ?length_app; simpl; lia.
Qed.

(** The loop from the turn of index [a] on. *)
Lemma splitChains_lengths_from (this : Plane) vertices types :
  length types = length vertices ->
  forall m a f b h f' b' h',
    a + m = length vertices ->
    Array_fold (Plane_splitEdge this vertices types) (seq a m) (f, b) h
    = (Ok (f', b'), h') ->
    length f'
    = length f + turns pushedFront (hd 0%Z types) (drop a types)
    /\ length b'
       = length b + turns pushedBack (hd 0%Z types) (drop a types).
Proof.
  intros Hlen. induction m as [|m IH]; intros a f b h f' b' h' Ha E.
  - injection E as <- <- <-. rewrite drop_ge by lia. simpl. lia.
  - cbn [seq Array_fold] in E.
    apply bind_Ok_inv in E as ([f1 b1] & h1 & Estep & E).
    apply splitEdge_lengths in Estep as (ti & tj & Hti & Htj & Hf1 & Hb1).
    apply IH in E as [Hf' Hb']; [|lia].
    rewrite (drop_S _ _ _ Hti). cbn [turns].
    assert (Hnext : hd (hd 0%Z types) (drop (Datatypes.S a) types) = tj).
    { destruct (decide (Datatypes.S a < length vertices)) as [Hlt|Hge].
      - rewrite Nat.add_1_r, Nat.mod_small in Htj by done.
        by rewrite (drop_S _ _ _ Htj).
      - assert (Datatypes.S a = length vertices) as Hn by lia.
        rewrite Nat.add_1_r, Hn, Nat.Div0.mod_same in Htj.
        rewrite drop_ge by lia. destruct types; [done|].
        by injection Htj as ->. }
    rewrite Hnext. lia.
Qed.

Lemma splitChains_lengths (this : Plane) vertices types h f b h' :
  length types = length vertices ->
  Plane_splitChains this vertices types h = (Ok (f, b), h') ->
  length f = turns pushedFront (hd 0%Z types) types
  /\ length b = turns pushedBack (hd 0%Z types) types.
Proof.
  intros Hlen E.
  by apply (splitChains_lengths_from this vertices types Hlen
              (length vertices) 0 [] []) in E.
Qed.
End ChainLengths.

(** X23. A spanning polygon is always split in two: for a polygon with
    vertices strictly on both sides of the plane, each of the two chains of
    the loop gets three vertices or more, so that both tests on the length
    of a chain succeed; [splitPolygon] returns, having made exactly two
    polygons with the shared tag of the polygon, the first on the chain [f]
    and pushed to [front], the second on the chain [b] and pushed to
    [back].  No fragment of a spanning polygon is ever dropped. *)
Theorem spanning_polygon_gives_two {S F : Type} (this : Plane) (h : Heap S)
    (r : ref) (p : Polygon S)
    (coplanarFront coplanarBack front back : OutArray F) (fr : F) :
  polygonStore h !! r = Some p ->
  polygonTypeIn h this r = Some SPANNING ->
  exists f b (h1 : Heap S) planef planeb,
    3 <= length f /\ 3 <= length b
    /\ Plane_splitPolygon this r coplanarFront coplanarBack front back fr h
       = (Ok (push back (Datatypes.S (length (polygonStore h)))
                (push front (length (polygonStore h)) fr)),
          mkHeap (vertexStore h1)
                 (polygonStore h
                  ++ [mkPolygon f (Polygon_shared p) planef;
                      mkPolygon b (Polygon_shared p) planeb])).
Proof.
  intros Hp Ht. unfold polygonTypeIn in Ht. rewrite Hp in Ht. simpl in Ht.
  destruct (vertexObjects h (Polygon_vertices p)) as [xs|] eqn:Hxs;
    [simpl in Ht|done].
  injection Ht as Ht.
  pose proof (Plane_types_Ok this h _ _ Hxs) as Etypes.
  set (types := map _ xs) in *.
  assert (Hlen : length types = length (Polygon_vertices p)).
  { subst types. rewrite length_map. by eapply vertexObjects_length. }
  assert (Hvs : Forall (goodv 0 h) (Polygon_vertices p)).
  { eapply Forall_impl; [by eapply vertexObjects_Forall|].
    intros v Hv. split; [lia | done]. }
  destruct (spec_Ok 0 0 h _ _ (roomy_0 h)
              (spec_Plane_splitChains 0 0 h this (Polygon_vertices p) types
                 Hvs Hlen))
    as ([f b] & h1 & Echains & _ & Hf & Hb).
  simpl in Hf, Hb.
  pose proof (keeps_Plane_splitChains this (Polygon_vertices p) types h)
    as Hkeep. rewrite Echains in Hkeep. simpl in Hkeep.
  destruct (splitChains_lengths this _ types h f b h1 Hlen Echains)
    as [Lf Lb].
  destruct (turns_spanning types) as [Hf3 Hb3]; [|done|].
  { subst types. apply Forall_map, Forall_forall. intros x _.
    apply Plane_classify_vtype. }
  rewrite <- Lf in Hf3. rewrite <- Lb in Hb3.
  assert (Hvalid : forall l, Forall (goodv 0 h1) l ->
            Forall (fun v => v < length (vertexStore h1)) l).
  { intros l Hl. eapply Forall_impl; [exact Hl|]. by intros v [_ ?]. }
  destruct (Polygon_new_Ok h1 f (Polygon_shared p) Hf3 (Hvalid f Hf))
    as [plf E1].
  destruct (Polygon_new_Ok
              (mkHeap (vertexStore h1)
                 (polygonStore h1 ++ [mkPolygon f (Polygon_shared p) plf]))
              b (Polygon_shared p) Hb3 (Hvalid b Hb)) as [plb E2].
  exists f, b, h1, plf, plb. split; [done|]. split; [done|].
  unfold Plane_splitPolygon.
  run_with (getPolygon_Some _ _ _ Hp). run_with Etypes. rewrite Ht.
  change (SPANNING =? COPLANAR)%Z with false.
  change (SPANNING =? FRONT)%Z with false.
  change (SPANNING =? BACK)%Z with false.
  change (SPANNING =? SPANNING)%Z with true. cbv iota.
  run_with Echains. cbv iota beta.
  apply Nat.leb_le in Hf3, Hb3. rewrite Hf3, Hb3.
  rewrite (bind_assoc (Polygon_new f _)). run_with E1.
  rewrite (bind_Ok (ret _) _ _ _ _ eq_refl).
  run_with E2. unfold ret. simpl.
  rewrite length_app, Hkeep, <- app_assoc. simpl. by rewrite Nat.add_1_r.
Qed.

Lemma spanning_polygon_gives_two_witness :
  exists f b (h1 : Heap nat) planef planeb,
    3 <= length f /\ 3 <= length b
    /\ Plane_splitPolygon yz_plane 0 lists_coplanarFront lists_coplanarBack
         lists_front lists_back ([], [], [], []) square_heap
       = (Ok (push lists_back (Datatypes.S (length (polygonStore square_heap)))
                (push lists_front (length (polygonStore square_heap))
                   ([], [], [], []))),
          mkHeap (vertexStore h1)
                 (polygonStore square_heap
                  ++ [mkPolygon f (Polygon_shared square) planef;
                      mkPolygon b (Polygon_shared square) planeb])).
Proof.
  apply (spanning_polygon_gives_two yz_plane square_heap 0 square).
  - reflexivity.
  - vm_compute. reflexivity.
Defined.


(** ** build keeps every polygon *)

Section BuildCount.
Context {S : Type}.
Implicit Types (h : Heap S).

Lemma getPolygon_Ok_inv h r p h' :
  getPolygon r h = (Ok p, h') -> polygonStore h !! r = Some p /\ h' = h.
Proof.
  unfold getPolygon. destruct (polygonStore h !! r); [|done].
  by intros [= <- <-].
Qed.

Lemma getVertex_Ok_inv h v x h' :
  getVertex v h = (Ok x, h') -> vertexStore h !! v = Some x /\ h' = h.
Proof.
  unfold getVertex. destruct (vertexStore h !! v); [|done].
  by intros [= <- <-].
Qed.

Lemma Plane_types_Ok_inv (this : Plane) vs :
  forall h types h',
    Plane_types this vs h = (Ok types, h') ->
    h' = h
    /\ exists xs, vertexObjects h vs = Some xs
                  /\ types = map (fun x => Plane_classify this (Vertex_pos x))
                                 xs.
Proof.
  unfold Plane_types. induction vs as [|v vs IH]; intros h types h' E.
  - injection E as <- <-. split; [done|]. by exists [].
  - simpl in E.
    apply bind_Ok_inv in E as (t & h1 & Et & E).
    apply bind_Ok_inv in Et as (x & h2 & [Hx ->]%getVertex_Ok_inv & Et).
    injection Et as <- <-.
    apply bind_Ok_inv in E as (ts & h3 & Ets & [= <- <-]).
    apply IH in Ets as (-> & xs & Hxs & ->). split; [done|].
    exists (x :: xs). split; [by apply vertexObjects_cons | done].
Qed.

(** [splitPolygon] pushes at least once: the polygon, or its two parts. *)
Lemma returns_splitPolygon_count {F} (this : Plane) r
    (cF cB fo bo : OutArray F) (fr : F) (size : F -> nat) :
  (forall a q x, a = cF \/ a = cB \/ a = fo \/ a = bo ->
                 size (push a q x) = Datatypes.S (size x)) ->
  returns (Plane_splitPolygon (S := S) this r cF cB fo bo fr)
          (fun fr' => Datatypes.S (size fr) <= size fr').
Proof.
  intros Hpush h fr' h' E. unfold Plane_splitPolygon in E.
  apply bind_Ok_inv in E as (p & h1 & [Hp ->]%getPolygon_Ok_inv & E).
  apply bind_Ok_inv in E as (types & h1 & Etypes & E).
  apply Plane_types_Ok_inv in Etypes as (-> & xs & Hxs & Htypes).
  assert (Hvt : Forall (fun a => a = COPLANAR \/ a = FRONT \/ a = BACK)
                       types).
  { subst types. apply Forall_map, Forall_forall. intros x _.
    apply Plane_classify_vtype. }
  assert (Hlen : length types = length (Polygon_vertices p)).
  { subst types. rewrite length_map. by eapply vertexObjects_length. }
  pose proof (polygonTypeOf_range this (map Vertex_pos xs)) as Hrange.
  rewrite map_map in Hrange. rewrite <- Htypes in Hrange. simpl in Hrange.
  destruct Hrange as [Ht|[Ht|[Ht|Ht]]]; rewrite Ht in E.
  - injection E as <- <-.
    destruct (_ <? _)%float; rewrite Hpush; auto.
  - injection E as <- <-. rewrite Hpush; auto.
  - injection E as <- <-. rewrite Hpush; auto.
  - change (SPANNING =? COPLANAR)%Z with false in E.
    change (SPANNING =? FRONT)%Z with false in E.
    change (SPANNING =? BACK)%Z with false in E.
    change (SPANNING =? SPANNING)%Z with true in E. cbv iota in E.
    apply bind_Ok_inv in E as ([f b] & h1 & Echains & E).
    destruct (splitChains_lengths this _ types h f b h1 Hlen Echains)
      as [Lf Lb].
    destruct (turns_spanning types Hvt Ht) as [Hf3 Hb3].
    rewrite <- Lf in Hf3. rewrite <- Lb in Hb3.
    apply Nat.leb_le in Hf3, Hb3. rewrite Hf3, Hb3 in E.
    apply bind_Ok_inv in E as (fr1 & h2 & E1 & E).
    apply bind_Ok_inv in E1 as (qf & h3 & _ & [= <- <-]).
    apply bind_Ok_inv in E as (qb & h4 & _ & [= <- <-]).
    rewrite !Hpush; auto.
Qed.

Lemma returns_fold_count {F} (this : Plane)
    (cF cB fo bo : OutArray F) (size : F -> nat) :
  (forall a q x, a = cF \/ a = cB \/ a = fo \/ a = bo ->
                 size (push a q x) = Datatypes.S (size x)) ->
  forall ps fr,
    returns (Array_fold
               (fun fr p =>
                  Plane_splitPolygon (S := S) this p cF cB fo bo fr) ps fr)
            (fun fr' => size fr + length ps <= size fr').
Proof.
  intros Hpush. induction ps as [|p ps IH]; intros fr; simpl.
  - apply returns_ret. lia.
  - eapply returns_bind; [by apply returns_splitPolygon_count|].
    intros fr1 H1 h fr' h' E. apply IH in E. simpl in *. lia.
Qed.

Lemma returns_Node_build_count (fuel : nat) :
  forall n ps,
    returns (Node_build (S := S) fuel n ps)
            (fun t => length (Node_allPolygons n) + length ps
                      <= length (Node_allPolygons t)).
Proof.
  induction fuel as [|fuel IH]; intros n ps; destruct ps as [|p0 ps];
    try (apply returns_ret; simpl; lia); [apply returns_throw|].
  destruct n as [plane front back polygons].
  cbn [Node_build Node_plane Node_front Node_back Node_polygons].
  eapply returns_bind; [apply returns_any|]. intros pl _.
  eapply (returns_bind _ _
            (fun fr => length polygons + length (p0 :: ps)
                       <= length fr.1.1 + length fr.1.2 + length fr.2)).
  { intros h fr h' E.
    apply (returns_fold_count pl _ _ _ _
             (fun fr => length fr.1.1 + length fr.1.2 + length fr.2))
      in E; [simpl in *; lia|].
    intros a q [[o f] b] [->|[->|[->| ->]]]; simpl;
      rewrite length_app; simpl; lia. }
  intros [[own f] b] Hcount. simpl in Hcount.
  eapply (returns_bind _ _
            (fun nf => length match front with
                              | Some c => Node_allPolygons c
                              | None => []
                              end + length f
                       <= length match nf with
                                 | Some c => Node_allPolygons c
                                 | None => []
                                 end)).
  { destruct f as [|q f].
    - apply returns_ret. simpl. lia.
    - eapply returns_bind; [apply IH|]. intros t Ht. apply returns_ret.
      rewrite allPolygons_default in Ht. exact Ht. }
  intros nf Hnf.
  eapply (returns_bind _ _
            (fun nb => length match back with
                              | Some c => Node_allPolygons c
                              | None => []
                              end + length b
                       <= length match nb with
                                 | Some c => Node_allPolygons c
                                 | None => []
                                 end)).
  { destruct b as [|q b].
    - apply returns_ret. simpl. lia.
    - eapply returns_bind; [apply IH|]. intros t Ht. apply returns_ret.
      rewrite allPolygons_default in Ht. exact Ht. }
  intros nb Hnb. apply returns_ret. simpl in *.
  rewrite !length_app in *. lia.
Qed.
End BuildCount.




(** ** Degenerate polygons: planes of NaN *)

Section Degenerate.
Local Open Scope float_scope.

Local Abbreviation zn := zero_or_nan.

Lemma zn_sub_self (x : number) : zn (x - x) = true.
Proof.
  unfold zero_or_nan. rewrite sub_spec. unfold SF64sub.
  destruct (Prim2SF x) as [s|s| |s m e]; simpl; try done;
    try (by destruct s).
  by rewrite Z.sub_diag.
Qed.

Lemma zn_mul_l (x y : number) : zn x = true -> zn (x * y) = true.
Proof.
  unfold zero_or_nan. rewrite mul_spec. unfold SF64mul.
  destruct (Prim2SF x) as [s|s| |s m e]; try done;
    by destruct (Prim2SF y).
Qed.

Lemma zn_mul_r (x y : number) : zn y = true -> zn (x * y) = true.
Proof.
  unfold zero_or_nan. rewrite mul_spec. unfold SF64mul.
  destruct (Prim2SF y) as [s|s| |s m e]; try done;
    by destruct (Prim2SF x).
Qed.

Lemma zn_sub (x y : number) : zn x = true -> zn y = true -> zn (x - y) = true.
Proof.
  unfold zero_or_nan. rewrite sub_spec. unfold SF64sub.
  destruct (Prim2SF x) as [s|s| |s m e]; try done;
    destruct (Prim2SF y) as [s'|s'| |s' m' e']; try done;
    by destruct s, s'.
Qed.

Lemma zn_add (x y : number) : zn x = true -> zn y = true -> zn (x + y) = true.
Proof.
  unfold zero_or_nan. rewrite add_spec. unfold SF64add.
  destruct (Prim2SF x) as [s|s| |s m e]; try done;
    destruct (Prim2SF y) as [s'|s'| |s' m' e']; try done;
    by destruct s, s'.
Qed.

Lemma zn_sqrt (x : number) : zn x = true -> zn (sqrt x) = true.
Proof.
  unfold zero_or_nan. rewrite sqrt_spec. unfold SF64sqrt.
  by destruct (Prim2SF x) as [s|s| |s m e].
Qed.

Lemma nan_div (x y : number) :
  zn x = true -> zn y = true -> Prim2SF (x / y) = S754_nan.
Proof.
  unfold zero_or_nan. rewrite div_spec. unfold SF64div.
  destruct (Prim2SF x) as [s|s| |s m e]; try done;
    by destruct (Prim2SF y) as [s'|s'| |s' m' e'].
Qed.

Lemma nan_mul_l (x y : number) :
  Prim2SF x = S754_nan -> Prim2SF (x * y) = S754_nan.
Proof. rewrite mul_spec. by intros ->. Qed.

Lemma nan_add_l (x y : number) :
  Prim2SF x = S754_nan -> Prim2SF (x + y) = S754_nan.
Proof. rewrite add_spec. by intros ->. Qed.

Lemma nan_sub_l (x y : number) :
  Prim2SF x = S754_nan -> Prim2SF (x - y) = S754_nan.
Proof. rewrite sub_spec. by intros ->. Qed.

Lemma nan_ltb (x y : number) :
  Prim2SF x = S754_nan \/ Prim2SF y = S754_nan -> (x <? y) = false.
Proof.
  rewrite ltb_spec. unfold SFltb.
  intros [-> | ->]; [done|]. by destruct (Prim2SF x).
Qed.

(** The normal that [fromPoints] makes of a degenerate triangle. *)
Lemma degenerate_normal (a b c : Vector) :
  degenerate a b c = true ->
  Prim2SF (Vector_x (Plane_normal (Plane_fromPoints a b c))) = S754_nan.
Proof.
  unfold degenerate, Plane_fromPoints. cbv zeta.
  set (n := Vector_cross (Vector_minus b a) (Vector_minus c a)).
  intros [[Hx Hy]%andb_prop Hz]%andb_prop.
  unfold Vector_unit, Vector_dividedBy, Vector_length, Vector_dot. simpl.
  apply nan_div; [done|]. apply zn_sqrt.
  repeat apply zn_add; by apply zn_mul_l.
Qed.

Lemma degenerate_dot (a b c m : Vector) :
  degenerate a b c = true ->
  Prim2SF (Vector_dot (Plane_normal (Plane_fromPoints a b c)) m)
  = S754_nan.
Proof.
  intros H. unfold Vector_dot.
  by apply nan_add_l, nan_add_l, nan_mul_l, degenerate_normal.
Qed.

Lemma degenerate_classify (a b c pos : Vector) :
  degenerate a b c = true ->
  Plane_classify (Plane_fromPoints a b c) pos = COPLANAR.
Proof.
  intros H. unfold Plane_classify, Plane_distance.
  assert (Ht : Prim2SF (Vector_dot (Plane_normal (Plane_fromPoints a b c))
                          pos
                        - Plane_w (Plane_fromPoints a b c)) = S754_nan)
    by (by apply nan_sub_l, degenerate_dot).
  rewrite !nan_ltb; auto.
Qed.

Lemma degenerate_first_two (a c : Vector) : degenerate a a c = true.
Proof.
  unfold degenerate, Vector_cross, Vector_minus. simpl.
  rewrite !andb_true_iff. repeat split;
    apply zn_sub; apply zn_mul_l, zn_sub_self.
Qed.

Lemma degenerate_first_last (a b : Vector) : degenerate a b a = true.
Proof.
  unfold degenerate, Vector_cross, Vector_minus. simpl.
  rewrite !andb_true_iff. repeat split;
    apply zn_sub; apply zn_mul_r, zn_sub_self.
Qed.

Lemma SFmul_comm (x y : spec_float) : SF64mul x y = SF64mul y x.
Proof.
  unfold SF64mul.
  destruct x as [sx|sx| |sx mx ex], y as [sy|sy| |sy my ey]; simpl;
    try done; try (by rewrite xorb_comm).
  by rewrite xorb_comm, Pos.mul_comm, Z.add_comm.
Qed.

Lemma float_mul_comm (x y : number) : x * y = y * x.
Proof. apply Prim2SF_inj. rewrite !mul_spec. apply SFmul_comm. Qed.

Lemma degenerate_last_two (a b : Vector) : degenerate a b b = true.
Proof.
  unfold degenerate, Vector_cross, Vector_minus. simpl.
  rewrite !andb_true_iff. repeat split.
  - rewrite (float_mul_comm (Vector_z b - Vector_z a)). apply zn_sub_self.
  - rewrite (float_mul_comm (Vector_x b - Vector_x a)). apply zn_sub_self.
  - rewrite (float_mul_comm (Vector_y b - Vector_y a)). apply zn_sub_self.
Qed.
End Degenerate.

Section DegenerateClip.
Context {S : Type}.
Implicit Types (h : Heap S).

Lemma vertexObjects_total h vs :
  Forall (fun v => v < length (vertexStore h)) vs ->
  exists xs, vertexObjects h vs = Some xs.
Proof.
  induction 1 as [|v vs Hv _ [xs IH]]; [by exists []|].
  destruct (lookup_lt_is_Some_2 _ _ Hv) as [x Hx].
  exists (x :: xs). by apply vertexObjects_cons.
Qed.

Lemma degenerate_polygonType (a b c : Vector) h r :
  degenerate a b c = true -> valid_polygon h r ->
  polygonTypeIn h (Plane_fromPoints a b c) r = Some COPLANAR.
Proof.
  intros Hd Hr. destruct (valid_polygon_lookup h r Hr) as (p & Hp & Hvs).
  destruct (vertexObjects_total h _ Hvs) as [xs Hxs].
  unfold polygonTypeIn. rewrite Hp. simpl. rewrite Hxs. simpl. f_equal.
  unfold polygonTypeOf. induction xs as [|x xs IH] in |- *; [done|].
  simpl. by rewrite degenerate_classify.
Qed.

Lemma degenerate_facing (a b c : Vector) h r :
  degenerate a b c = true ->
  facing h (Plane_fromPoints a b c) r = false.
Proof.
  intros Hd. unfold facing. destruct (polygonStore h !! r); [|done].
  apply nan_ltb. right. by apply degenerate_dot.
Qed.

Lemma filter_all_false {A : Type} (P : A -> bool) (l : list A) :
  (forall x, P x = false) -> List.filter P l = [].
Proof.
  intros HP. induction l as [|x l IH]; [done|]. simpl. by rewrite HP.
Qed.

End DegenerateClip.

(** X25. A polygon with two of its first three vertices at the same place
    gets a plane of NaN, for which every point is COPLANAR: for all
    numbers, [Plane.fromPoints] on three points of which two are the same
    returns a plane that gives the type COPLANAR to every point and whose
    normal has a NaN product with every vector, so that no polygon faces
    its way. *)
Theorem coincident_points_give_blind_plane (a b pos m : Vector) :
  Forall (fun plane =>
            Plane_classify plane pos = COPLANAR
            /\ (0 <? Vector_dot (Plane_normal plane) m)%float = false)
         [Plane_fromPoints a a b; Plane_fromPoints a b a;
          Plane_fromPoints a b b].
Proof.
  assert (G : forall x y z, degenerate x y z = true ->
    Plane_classify (Plane_fromPoints x y z) pos = COPLANAR
    /\ (0 <? Vector_dot (Plane_normal (Plane_fromPoints x y z)) m)%float
       = false).
  { intros x y z Hd. split; [by apply degenerate_classify|].
    apply nan_ltb. right. by apply degenerate_dot. }
  constructor; [apply G, degenerate_first_two|].
  constructor; [apply G, degenerate_first_last|].
  constructor; [apply G, degenerate_last_two | constructor].
Qed.

(** X26. A node whose plane comes from a degenerate triangle (three points
    whose cross product has only zeros and NaN for components: points that
    coincide or are aligned, as far as the arithmetic can tell) takes every
    polygon for coplanar and facing away.  When it has no back child,
    [clipPolygons] returns the empty list for every list of polygons that
    are in the heap, wherever these polygons are, and leaves the heap as it
    is; [build], on a list that is not the node's own array (a list of
    other contents never is), pushes every polygon onto the node itself. *)
Theorem degenerate_node_removes_everything {S : Type} (a b c : Vector)
    (front : option Node) (polygons ps : list ref) (fuel : nat)
    (h : Heap S) :
  degenerate a b c = true ->
  Forall (valid_polygon h) ps ->
  ps <> [] ->
  Forall (fun r => polygonTypeIn h (Plane_fromPoints a b c) r
                   = Some COPLANAR
                   /\ facing h (Plane_fromPoints a b c) r = false) ps
  /\ Node_clipPolygons
       (mkNode (Some (Plane_fromPoints a b c)) front None polygons) ps h
     = (Ok [], h)
  /\ (ps <> polygons ->
      Node_build (Datatypes.S fuel)
        (mkNode (Some (Plane_fromPoints a b c)) front None polygons) ps h
      = (Ok (mkNode (Some (Plane_fromPoints a b c)) front None
               (polygons ++ ps)), h)).
Proof.
  intros Hd Hps Hne.
  assert (Hall : Forall (fun r => polygonTypeIn h (Plane_fromPoints a b c) r
                                  = Some COPLANAR) ps).
  { eapply Forall_impl; [exact Hps|]. intros r.
    by apply degenerate_polygonType. }
  split; [|split].
  - eapply Forall_impl; [exact Hall|]. intros r Hr. split; [done|].
    by apply degenerate_facing.
  - cbn [Node_clipPolygons Node_plane Node_front Node_back].
    run_with (clip_loop_coplanar (Plane_fromPoints a b c) h ps [] [] Hall).
    rewrite filter_all_false by (intros r; by apply degenerate_facing).
    simpl. erewrite bind_Ok; cycle 1.
    { destruct front; [apply Node_clipPolygons_nil | reflexivity]. }
    reflexivity.
  - intros _. destruct ps as [|p0 ps]; [done|].
    cbn [Node_build Node_plane Node_front Node_back Node_polygons].
    rewrite (bind_Ok (ret _) _ h _ h eq_refl).
    by run_with (build_loop_coplanar (Plane_fromPoints a b c) h (p0 :: ps)
                   polygons [] [] Hall).
Qed.

Lemma degenerate_node_removes_everything_witness :
  Forall (fun r => polygonTypeIn unit_cube_heap
                     (Plane_fromPoints aligned_a aligned_b aligned_c) r
                   = Some COPLANAR
                   /\ facing unit_cube_heap
                        (Plane_fromPoints aligned_a aligned_b aligned_c) r
                      = false) unit_cube_faces
  /\ Node_clipPolygons
       (mkNode (Some (Plane_fromPoints aligned_a aligned_b aligned_c))
               None None [])
       unit_cube_faces unit_cube_heap
     = (Ok [], unit_cube_heap)
  /\ (unit_cube_faces <> [] ->
      Node_build 1
        (mkNode (Some (Plane_fromPoints aligned_a aligned_b aligned_c))
                None None []) unit_cube_faces unit_cube_heap
      = (Ok (mkNode (Some (Plane_fromPoints aligned_a aligned_b aligned_c))
               None None ([] ++ unit_cube_faces)), unit_cube_heap)).
Proof.
  apply (degenerate_node_removes_everything aligned_a aligned_b aligned_c
           None [] unit_cube_faces 0 unit_cube_heap).
  - vm_compute. reflexivity.
  - apply valid_polygonb_valid. vm_compute. reflexivity.
  - discriminate.
Defined.


(** ** Vertex objects are never shared *)

Section ChainOwnership.
Context {S : Type}.
Implicit Types (h : Heap S).

Lemma Vertex_new_Ok_inv pos normal h v h' :
  Vertex_new pos normal h = (Ok v, h') ->
  v = length (vertexStore h)
  /\ length (vertexStore h') = Datatypes.S (length (vertexStore h)).
Proof.
  unfold Vertex_new, newVertex. intros [= <- <-]. simpl.
  rewrite length_app. simpl. lia.
Qed.

Lemma Vertex_clone_Ok_inv v h v' h' :
  Vertex_clone v h = (Ok v', h') ->
  v' = length (vertexStore h)
  /\ length (vertexStore h') = Datatypes.S (length (vertexStore h)).
Proof.
  unfold Vertex_clone.
  intros (x & h1 & [_ ->]%getVertex_Ok_inv & E)%bind_Ok_inv.
  by apply Vertex_new_Ok_inv in E.
Qed.

Lemma Vertex_interpolate_Ok_inv v1 v2 t h v' h' :
  Vertex_interpolate v1 v2 t h = (Ok v', h') ->
  v' = length (vertexStore h)
  /\ length (vertexStore h') = Datatypes.S (length (vertexStore h)).
Proof.
  unfold Vertex_interpolate.
  intros (x & h1 & [_ ->]%getVertex_Ok_inv & E)%bind_Ok_inv.
  apply bind_Ok_inv in E as (y & h2 & [_ ->]%getVertex_Ok_inv & E).
  by apply Vertex_new_Ok_inv in E.
Qed.

Lemma chains_push_old nv0 old fb fb' h x :
  chains_ok nv0 old fb h ->
  fb'.1 ++ fb'.2 ≡ₚ x :: (fb.1 ++ fb.2) ->
  x ∉ old -> x < nv0 ->
  chains_ok nv0 (x :: old) fb' h.
Proof.
  intros (Hnd & Hlt & Hor & Hnv) Hp Hx Hxn. unfold chains_ok.
  rewrite Hp. split; [|split; [|split; [|done]]].
  - constructor; [|done]. intros Hin.
    rewrite Forall_forall in Hor. destruct (Hor _ Hin); [done|lia].
  - constructor; [lia|done].
  - constructor; [left; by left|].
    eapply Forall_impl; [exact Hor|]. intros v [?|?]; [left; by right|by right].
Qed.

Lemma chains_push_fresh nv0 old fb fb' h h' :
  chains_ok nv0 old fb h ->
  fb'.1 ++ fb'.2 ≡ₚ length (vertexStore h) :: (fb.1 ++ fb.2) ->
  length (vertexStore h') = Datatypes.S (length (vertexStore h)) ->
  chains_ok nv0 old fb' h'.
Proof.
  intros (Hnd & Hlt & Hor & Hnv) Hp Hlen. unfold chains_ok.
  rewrite Hp, Hlen. split; [|split; [|split; [|lia]]].
  - constructor; [|done]. intros Hin.
    rewrite Forall_forall in Hlt. specialize (Hlt _ Hin). lia.
  - constructor; [lia|]. eapply Forall_impl; [exact Hlt|]. intros; simpl in *; lia.
  - constructor; [by right|done].
Qed.

Lemma chains_weaken nv0 old old' fb h :
  chains_ok nv0 old fb h -> (forall v, v ∈ old -> v ∈ old') ->
  chains_ok nv0 old' fb h.
Proof.
  intros (Hnd & Hlt & Hor & Hnv) Hsub. split; [done|]. split; [done|].
  split; [|done]. eapply Forall_impl; [exact Hor|]. intros v [?|?]; auto.
Qed.

(** One turn of the loop keeps the chains apart. *)
Lemma splitEdge_chains (this : Plane) vs types nv0 fb a h fb' h' :
  NoDup vs -> Forall (fun v => v < nv0) vs ->
  chains_ok nv0 (take a vs) fb h ->
  Plane_splitEdge this vs types fb a h = (Ok fb', h') ->
  chains_ok nv0 (take (Datatypes.S a) vs) fb' h'.
Proof.
  intros Hnd Hold Hinv E. destruct fb as [f b]. unfold Plane_splitEdge in E.
  apply bind_Ok_inv in E as (ti & h1 & [Hti ->]%index_Ok_inv & E).
  apply bind_Ok_inv in E as (tj & h1 & [Htj ->]%index_Ok_inv & E).
  apply bind_Ok_inv in E as (vi & h1 & [Hvi ->]%index_Ok_inv & E).
  apply bind_Ok_inv in E as (vj & h1 & [Hvj ->]%index_Ok_inv & E).
  apply bind_Ok_inv in E as (b1 & h1 & Eb & E).
  assert (Hvi_new : vi ∉ take a vs).
  { intros (i & Hi)%list_elem_of_lookup.
    apply lookup_take_Some in Hi as [Hi Hlt].
    pose proof (NoDup_lookup _ _ _ _ Hnd Hi Hvi). lia. }
  assert (Hvi_old : vi < nv0).
  { rewrite Forall_forall in Hold. apply Hold.
    by eapply list_elem_of_lookup_2. }
  assert (Hsub : forall v, v ∈ vi :: take a vs -> v ∈ take (Datatypes.S a) vs).
  { intros v Hv. rewrite (take_S_r _ _ _ Hvi).
    apply elem_of_app. apply elem_of_cons in Hv as [->|Hv]; [right|by left].
    by apply list_elem_of_singleton. }
  assert (Hsub' : forall v, v ∈ take a vs -> v ∈ take (Datatypes.S a) vs).
  { intros v Hv. apply Hsub. by right. }
  assert (Hinv1 : chains_ok nv0 (take (Datatypes.S a) vs)
            (if negb (ti =? BACK)%Z then f ++ [vi] else f, b1) h1).
  { destruct (ti =? BACK)%Z, (ti =? FRONT)%Z; simpl in Eb |- *.
    - injection Eb as <- <-. by eapply chains_weaken.
    - injection Eb as <- <-.
      eapply chains_weaken; [|exact Hsub].
      eapply chains_push_old; [exact Hinv| |done|done]. simpl.
      by rewrite app_assoc, <- Permutation_cons_append.
    - injection Eb as <- <-.
      eapply chains_weaken; [|exact Hsub].
      eapply chains_push_old; [exact Hinv| |done|done]. simpl.
      rewrite <- app_assoc. simpl. by rewrite <- Permutation_middle.
    - apply bind_Ok_inv in Eb as (c & h2 & [-> Hc]%Vertex_clone_Ok_inv
                                  & [= <- <-]).
      eapply chains_push_fresh; [| |exact Hc].
      + eapply chains_weaken; [|exact Hsub].
        eapply (chains_push_old _ _ (f, b) (f ++ [vi], b));
          [exact Hinv| |done|done]. simpl.
        rewrite <- app_assoc. simpl. by rewrite <- Permutation_middle.
      + simpl. by rewrite app_assoc, <- Permutation_cons_append. }
  destruct (Z.lor ti tj =? SPANNING)%Z.
  - apply bind_Ok_inv in E as (pi & h2 & [_ ->]%getVertex_Ok_inv & E).
    apply bind_Ok_inv in E as (pj & h3 & [_ ->]%getVertex_Ok_inv & E).
    apply bind_Ok_inv in E as (v & h4 & [-> Hv]%Vertex_interpolate_Ok_inv & E).
    apply bind_Ok_inv in E as (v' & h5 & [-> Hv']%Vertex_clone_Ok_inv
                               & [= <- <-]).
    eapply chains_push_fresh; [| |exact Hv'].
    + eapply (chains_push_fresh _ _ _ (_ ++ [_], b1)); [exact Hinv1| |exact Hv].
      simpl. rewrite <- app_assoc. simpl. by rewrite <- Permutation_middle.
    + simpl. by rewrite app_assoc, <- Permutation_cons_append.
  - by injection E as <- <-.
Qed.

Lemma splitChains_chains_from (this : Plane) vs types nv0 :
  NoDup vs -> Forall (fun v => v < nv0) vs ->
  forall m a fb h fb' h',
    a + m = length vs ->
    chains_ok nv0 (take a vs) fb h ->
    Array_fold (Plane_splitEdge this vs types) (seq a m) fb h = (Ok fb', h') ->
    chains_ok nv0 vs fb' h'.
Proof.
  intros Hnd Hold. induction m as [|m IH]; intros a fb h fb' h' Ha Hinv E.
  - injection E as <- <-. rewrite take_ge in Hinv by lia. done.
  - cbn [seq Array_fold] in E.
    apply bind_Ok_inv in E as (fb1 & h1 & Estep & E).
    eapply (IH (Datatypes.S a)); [lia| |exact E].
    by eapply splitEdge_chains.
Qed.

(** The two chains of a split: no vertex is twice in them; their vertices
    are vertices of the polygon or new ones. *)
Lemma splitChains_chains (this : Plane) vs types h f b h' :
  NoDup vs -> Forall (fun v => v < length (vertexStore h)) vs ->
  Plane_splitChains this vs types h = (Ok (f, b), h') ->
  chains_ok (length (vertexStore h)) vs (f, b) h'.
Proof.
  intros Hnd Hold E.
  eapply (splitChains_chains_from this vs types _ Hnd Hold (length vs) 0);
    [done| |exact E].
  repeat split; simpl; auto using NoDup_nil_2.
Qed.
End ChainOwnership.

Section Live.
Context {S : Type}.
Implicit Types (h : Heap S).

Lemma vertexRefs_app h l1 l2 :
  vertexRefs h (l1 ++ l2) = vertexRefs h l1 ++ vertexRefs h l2.
Proof. unfold vertexRefs. apply bind_app. Qed.

Lemma live_perm h l l' : l ≡ₚ l' -> live h l -> live h l'.
Proof.
  intros Hp [Hv [Hnd Hvs]]. split; [by rewrite <- Hp|].
  split; [by rewrite <- Hp|]. unfold vertexRefs in *. by rewrite <- Hp.
Qed.

Lemma live_app_r h l1 l2 : live h (l1 ++ l2) -> live h l2.
Proof.
  intros [Hv [Hnd Hvs]]. apply Forall_app in Hv as [_ Hv].
  apply NoDup_app in Hnd as (_ & _ & Hnd).
  rewrite vertexRefs_app in Hvs. apply NoDup_app in Hvs as (_ & _ & Hvs).
  done.
Qed.

Lemma live_app_l h l1 l2 : live h (l1 ++ l2) -> live h l1.
Proof.
  intros H. apply (live_app_r h l2 l1).
  eapply live_perm; [|exact H]. apply Permutation_app_comm.
Qed.

Lemma live_tail h r l : live h (r :: l) -> live h l.
Proof. apply (live_app_r h [r] l). Qed.

Lemma valid_polygon_unchanged h h' r :
  unchanged h h' -> valid_polygon h r -> valid_polygon h' r.
Proof.
  intros Hu [_ Hr]. split; [lia|].
  destruct (polygonStore h !! r) as [p|] eqn:Hp; [|done].
  rewrite (proj2 Hu _ _ Hp). eapply Forall_impl; [exact Hr|].
  intros v [_ Hv]. split; [lia|].
  pose proof (unchanged_lengths h h' Hu). lia.
Qed.

Lemma vertexRefs_unchanged h h' l :
  unchanged h h' -> Forall (valid_polygon h) l ->
  vertexRefs h' l = vertexRefs h l.
Proof.
  intros Hu Hl. apply vertexRefs_ext. intros r Hr.
  rewrite Forall_forall in Hl. destruct (Hl r Hr) as [_ Hv].
  destruct (polygonStore h !! r) as [p|] eqn:Hp; [|done].
  by rewrite (proj2 Hu _ _ Hp).
Qed.

Lemma live_unchanged h h' l : unchanged h h' -> live h l -> live h' l.
Proof.
  intros Hu [Hv [Hnd Hvs]]. split.
  - eapply Forall_impl; [exact Hv|]. intros r.
    by apply valid_polygon_unchanged.
  - split; [done|]. by rewrite (vertexRefs_unchanged h h').
Qed.

Lemma valid_polygon_lt h r : valid_polygon h r -> r < length (polygonStore h).
Proof.
  intros [_ Hr]. destruct (polygonStore h !! r) as [p|] eqn:Hp; [|done].
  by eapply lookup_lt_Some.
Qed.

Lemma vertexRefs_lt h l v :
  Forall (valid_polygon h) l -> v ∈ vertexRefs h l ->
  v < length (vertexStore h).
Proof.
  intros Hl (r & Hv & Hr)%list_elem_of_bind.
  rewrite Forall_forall in Hl. destruct (Hl r Hr) as [_ Hgood].
  destruct (polygonStore h !! r) as [p|]; [|done].
  rewrite Forall_forall in Hgood. by destruct (Hgood v Hv).
Qed.

(** A new polygon, on vertices that no polygon of the list uses. *)
Lemma live_add h h' l q (pq : Polygon S) :
  live h l -> unchanged h h' ->
  polygonStore h' !! q = Some pq -> length (polygonStore h) <= q ->
  NoDup (Polygon_vertices pq) ->
  Forall (fun v => v < length (vertexStore h') /\ v ∉ vertexRefs h l)
         (Polygon_vertices pq) ->
  live h' (q :: l).
Proof.
  intros Hl Hu Hq Hnew Hnd Hvs.
  pose proof (live_unchanged h h' l Hu Hl) as [Hv' [Hnd' Hvs']].
  destruct Hl as [Hv _]. split; [|split].
  - constructor; [|done]. split; [lia|]. rewrite Hq.
    eapply Forall_impl; [exact Hvs|]. intros v [? _]. split; [lia|done].
  - constructor; [|done]. intros Hin.
    rewrite Forall_forall in Hv. apply Hv, valid_polygon_lt in Hin. lia.
  - rewrite vertexRefs_cons, Hq. apply NoDup_app. split; [done|].
    split; [|done]. intros v Hin. rewrite (vertexRefs_unchanged h h') by done.
    rewrite Forall_forall in Hvs. by destruct (Hvs v Hin).
Qed.

Lemma Polygon_new_Ok_inv vs (shared : option S) h q h' :
  Polygon_new vs shared h = (Ok q, h') ->
  exists pl, q = length (polygonStore h)
    /\ h' = mkHeap (vertexStore h)
                   (polygonStore h ++ [mkPolygon vs shared pl]).
Proof.
  unfold Polygon_new. intros E.
  apply bind_Ok_inv in E as (r0 & h1 & [_ ->]%index_Ok_inv & E).
  apply bind_Ok_inv in E as (v0 & h1 & [_ ->]%getVertex_Ok_inv & E).
  apply bind_Ok_inv in E as (r1 & h1 & [_ ->]%index_Ok_inv & E).
  apply bind_Ok_inv in E as (v1 & h1 & [_ ->]%getVertex_Ok_inv & E).
  apply bind_Ok_inv in E as (r2 & h1 & [_ ->]%index_Ok_inv & E).
  apply bind_Ok_inv in E as (v2 & h1 & [_ ->]%getVertex_Ok_inv & E).
  unfold newPolygon in E. injection E as <- <-. by eexists.
Qed.

Lemma unchanged_run {A} (m : M S A) h a h' :
  grows m -> m h = (Ok a, h') -> unchanged h h'.
Proof. intros Hg E. specialize (Hg h). by rewrite E in Hg. Qed.

(** [splitPolygon] keeps the polygons apart: the polygon it is called on
    goes to one array as it is, or makes way for its two parts, which share
    no vertex with each other or with any other polygon. *)
Lemma splitPolygon_live {F} (this : Plane) r (cF cB fo bo : OutArray F)
    (content : F -> list ref) (others : list ref) fr h fr' h' :
  (forall a q x, a = cF \/ a = cB \/ a = fo \/ a = bo ->
                 content (push a q x) ≡ₚ q :: content x) ->
  live h (r :: content fr ++ others) ->
  Plane_splitPolygon this r cF cB fo bo fr h = (Ok fr', h') ->
  live h' (content fr' ++ others).
Proof.
  intros Hpush Hlive E.
  assert (Hwhole : forall a, a = cF \/ a = cB \/ a = fo \/ a = bo ->
            live h (content (push a r fr) ++ others)).
  { intros a Ha. eapply live_perm; [|exact Hlive].
    by rewrite (Hpush a r fr Ha). }
  unfold Plane_splitPolygon in E.
  apply bind_Ok_inv in E as (p & h1 & [Hp ->]%getPolygon_Ok_inv & E).
  apply bind_Ok_inv in E as (types & h1 & Etypes & E).
  apply Plane_types_Ok_inv in Etypes as (-> & xs & Hxs & Htypes).
  assert (Hvt : Forall (fun a => a = COPLANAR \/ a = FRONT \/ a = BACK)
                       types).
  { subst types. apply Forall_map, Forall_forall. intros x _.
    apply Plane_classify_vtype. }
  assert (Hlen : length types = length (Polygon_vertices p)).
  { subst types. rewrite length_map. by eapply vertexObjects_length. }
  pose proof (polygonTypeOf_range this (map Vertex_pos xs)) as Hrange.
  rewrite map_map in Hrange. rewrite <- Htypes in Hrange. simpl in Hrange.
  destruct Hrange as [Ht|[Ht|[Ht|Ht]]]; rewrite Ht in E.
  - injection E as <- <-. destruct (_ <? _)%float; apply Hwhole; auto.
  - injection E as <- <-. apply Hwhole; auto.
  - injection E as <- <-. apply Hwhole; auto.
  - change (SPANNING =? COPLANAR)%Z with false in E.
    change (SPANNING =? FRONT)%Z with false in E.
    change (SPANNING =? BACK)%Z with false in E.
    change (SPANNING =? SPANNING)%Z with true in E. cbv iota in E.
    apply bind_Ok_inv in E as ([f b] & h1 & Echains & E).
    destruct (splitChains_lengths this _ types h f b h1 Hlen Echains)
      as [Lf Lb].
    destruct (turns_spanning types Hvt Ht) as [Hf3 Hb3].
    rewrite <- Lf in Hf3. rewrite <- Lb in Hb3.
    apply Nat.leb_le in Hf3, Hb3. rewrite Hf3, Hb3 in E.
    apply bind_Ok_inv in E as (fr1 & h2 & E1 & E).
    apply bind_Ok_inv in E1 as (qf & h3 & Ef & [= <- <-]).
    apply bind_Ok_inv in E as (qb & h4 & Eb & [= <- <-]).
    pose proof (unchanged_run _ _ _ _
                  (grows_Plane_splitChains this _ types) Echains) as Hu1.
    pose proof (unchanged_run _ _ _ _ (grows_Polygon_new _ _) Ef) as Hu2.
    pose proof (unchanged_run _ _ _ _ (grows_Polygon_new _ _) Eb) as Hu3.
    apply Polygon_new_Ok_inv in Ef as (plf & -> & ->).
    apply Polygon_new_Ok_inv in Eb as (plb & -> & ->).
    simpl in *.
    set (l0 := content fr ++ others) in *.
    pose proof Hlive as [Hvalid [_ Hsep]].
    rewrite vertexRefs_cons, Hp in Hsep.
    apply NoDup_app in Hsep as (Hndp & Hdisj & _).
    assert (Hold : Forall (fun v => v < length (vertexStore h))
                          (Polygon_vertices p)).
    { apply Forall_inv in Hvalid as [_ Hr]. rewrite Hp in Hr.
      eapply Forall_impl; [exact Hr|]. by intros v [_ ?]. }
    destruct (splitChains_chains this _ types h f b h1 Hndp Hold Echains)
      as (Hnd & Hlt & Hor & Hnv). simpl in Hnd, Hlt, Hor.
    apply NoDup_app in Hnd as (Hndf & Hfb & Hndb).
    apply Forall_app in Hlt as [Hltf Hltb].
    apply Forall_app in Hor as [Horf Horb].
    assert (Hout : forall v,
              v ∈ Polygon_vertices p \/ length (vertexStore h) <= v ->
              v ∉ vertexRefs h l0).
    { intros v [Hv|Hv] Hin; [by apply (Hdisj v)|].
      apply vertexRefs_lt in Hin; [lia|]. by apply Forall_inv_tail in Hvalid. }
    pose proof (unchanged_lengths h h1 Hu1) as [_ Hnp].
    eapply live_perm.
    { rewrite (Hpush bo), (Hpush fo) by auto. simpl. apply perm_swap. }
    set (h2 := mkHeap (vertexStore h1)
                 (polygonStore h1 ++ [mkPolygon f (Polygon_shared p) plf]))
      in *.
    assert (Hlive2 : live h2 (length (polygonStore h1) :: l0)).
    { eapply (live_add h h2 l0 _ (mkPolygon f (Polygon_shared p) plf)).
      - by eapply live_tail.
      - by eapply unchanged_trans.
      - subst h2. simpl. by apply list_lookup_middle.
      - done.
      - done.
      - simpl. rewrite Forall_forall. intros v Hv.
        rewrite Forall_forall in Hltf, Horf. split; [by apply Hltf|].
        by apply Hout, Horf. }
    eapply live_perm; [apply perm_swap|].
    eapply (live_add h2 _ _ _ (mkPolygon b (Polygon_shared p) plb)).
    + exact Hlive2.
    + done.
    + simpl. by apply list_lookup_middle.
    + done.
    + done.
    + simpl. rewrite Forall_forall. intros v Hv.
      rewrite Forall_forall in Hltb, Horb. split; [by apply Hltb|].
      rewrite list_lookup_middle by done. simpl.
      intros [Hin|Hin]%elem_of_app; [by apply (Hfb v)|].
      rewrite (vertexRefs_unchanged h h2) in Hin.
      * by apply (Hout v (Horb v Hv)).
      * by eapply unchanged_trans.
      * by apply Forall_inv_tail in Hvalid.
Qed.
End Live.

Section LiveTrees.
Context {S : Type}.
Implicit Types (h : Heap S).

Local Ltac live_from H := eapply live_perm; [|exact H]; solve_Permutation.

(** The loop over the polygons, in [clipPolygons] and in [build]. *)
Lemma splitPolygons_live {F} (this : Plane) (cF cB fo bo : OutArray F)
    (content : F -> list ref) (others : list ref) :
  (forall a q x, a = cF \/ a = cB \/ a = fo \/ a = bo ->
                 content (push a q x) ≡ₚ q :: content x) ->
  forall ps fr h fr' h',
    live h (ps ++ content fr ++ others) ->
    Array_fold (fun fr p => Plane_splitPolygon this p cF cB fo bo fr) ps fr h
    = (Ok fr', h') ->
    live h' (content fr' ++ others).
Proof.
  intros Hpush. induction ps as [|p ps IH]; intros fr h fr' h' Hlive E.
  - by injection E as <- <-.
  - simpl in E. apply bind_Ok_inv in E as (fr1 & h1 & E1 & E).
    apply (IH _ _ _ _) in E; [done|].
    apply (splitPolygon_live _ _ _ _ _ _ content (ps ++ others)) in E1;
      [|done|live_from Hlive].
    live_from E1.
Qed.

Lemma Node_clipPolygons_live (n : Node) :
  forall ps others h qs h',
    live h (ps ++ others) ->
    Node_clipPolygons n ps h = (Ok qs, h') ->
    live h' (qs ++ others).
Proof.
  induction n as [plane front back polygons IHf IHb] using Node_induction.
  intros ps others h qs h' Hlive E. simpl in E.
  destruct plane as [plane|]; [|by injection E as <- <-].
  apply bind_Ok_inv in E as ([f b] & h1 & Eloop & E).
  apply (splitPolygons_live plane _ _ _ _ (fun fr => fr.1 ++ fr.2) others)
    in Eloop; [| |done].
  2:{ intros a q [f0 b0] [->|[->|[->| ->]]]; simpl; solve_Permutation. }
  simpl in Eloop.
  apply bind_Ok_inv in E as (f' & h2 & Ef & E).
  assert (Hf : live h2 (f' ++ b ++ others)).
  { destruct front as [c|]; simpl in *.
    - eapply (IHf f (b ++ others)); [|exact Ef]. live_from Eloop.
    - injection Ef as <- <-. live_from Eloop. }
  apply bind_Ok_inv in E as (b' & h3 & Eb & [= <- <-]).
  destruct back as [c|]; simpl in *.
  - apply (IHb b (f' ++ others)) in Eb; [live_from Eb|live_from Hf].
  - injection Eb as <- <-. rewrite app_nil_r.
    apply (live_app_r h2 b). live_from Hf.
Qed.

Lemma Node_clipTo_live (n bsp : Node) :
  forall others h t h',
    live h (Node_allPolygons n ++ others) ->
    Node_clipTo n bsp h = (Ok t, h') ->
    live h' (Node_allPolygons t ++ others).
Proof.
  induction n as [plane front back polygons IHf IHb] using Node_induction.
  intros others h t h' Hlive E. simpl in E, Hlive.
  apply bind_Ok_inv in E as (qs & h1 & Eclip & E).
  apply (Node_clipPolygons_live bsp polygons
           (match front with Some c => Node_allPolygons c | None => [] end
            ++ match back with Some c => Node_allPolygons c | None => [] end
            ++ others)) in Eclip; [|live_from Hlive].
  apply bind_Ok_inv in E as (nf & h2 & Ef & E).
  assert (Hf : live h2 (match nf with Some c => Node_allPolygons c
                                 | None => [] end
                        ++ qs
                        ++ match back with Some c => Node_allPolygons c
                                      | None => [] end
                        ++ others)).
  { destruct front as [c|]; simpl in *.
    - apply bind_Ok_inv in Ef as (c' & h3 & Ec & [= <- <-]).
      eapply IHf; [|exact Ec]. live_from Eclip.
    - injection Ef as <- <-. live_from Eclip. }
  apply bind_Ok_inv in E as (nb & h3 & Eb & [= <- <-]). simpl.
  destruct back as [c|]; simpl in *.
  - apply bind_Ok_inv in Eb as (c' & h4 & Ec & [= <- <-]).
    apply (IHb (match nf with Some c => Node_allPolygons c | None => [] end
                ++ qs ++ others)) in Ec; [live_from Ec|live_from Hf].
  - injection Eb as <- <-. live_from Hf.
Qed.

Lemma Node_build_live (fuel : nat) :
  forall n ps others h t h',
    live h (Node_allPolygons n ++ ps ++ others) ->
    Node_build fuel n ps h = (Ok t, h') ->
    live h' (Node_allPolygons t ++ others).
Proof.
  induction fuel as [|fuel IH]; intros n ps others h t h' Hlive E;
    destruct ps as [|p0 ps]; try (injection E as <- <-; live_from Hlive);
    [done|].
  destruct n as [plane front back polygons].
  cbn [Node_build Node_plane Node_front Node_back Node_polygons] in E.
  simpl in Hlive.
  apply bind_Ok_inv in E as (pl & h1 & Epl & E).
  assert (h1 = h) as ->.
  { destruct plane; [by injection Epl as <- <-|].
    by apply bind_Ok_inv in Epl as (p & h2 & [_ ->]%getPolygon_Ok_inv
                                    & [= <- <-]). }
  clear Epl.
  set (F0 := match front with Some c => Node_allPolygons c | None => [] end)
    in *.
  set (B0 := match back with Some c => Node_allPolygons c | None => [] end)
    in *.
  apply bind_Ok_inv in E as ([[own f] b] & h1 & Eloop & E).
  apply (splitPolygons_live pl _ _ _ _
           (fun fr => fr.1.1 ++ fr.1.2 ++ fr.2) (F0 ++ B0 ++ others))
    in Eloop; [| |simpl; live_from Hlive].
  2:{ intros a q [[o0 f0] b0] [->|[->|[->| ->]]]; simpl; solve_Permutation. }
  simpl in Eloop.
  apply bind_Ok_inv in E as (nf & h2 & Ef & E).
  assert (Hf : live h2 (match nf with Some c => Node_allPolygons c
                                 | None => [] end
                        ++ own ++ b ++ B0 ++ others)).
  { destruct f as [|q f].
    - injection Ef as <- <-. live_from Eloop.
    - apply bind_Ok_inv in Ef as (c' & h3 & Ec & [= <- <-]).
      eapply (IH _ (q :: f)); [|exact Ec].
      rewrite allPolygons_default. fold F0. live_from Eloop. }
  apply bind_Ok_inv in E as (nb & h3 & Eb & [= <- <-]). simpl.
  destruct b as [|q b].
  - injection Eb as <- <-. live_from Hf.
  - apply bind_Ok_inv in Eb as (c' & h4 & Ec & [= <- <-]).
    apply (IH _ (q :: b)
             (match nf with Some c => Node_allPolygons c | None => [] end
              ++ own ++ others)) in Ec; [live_from Ec|].
    rewrite allPolygons_default. fold B0. live_from Hf.
Qed.
End LiveTrees.

Section LiveOperators.
Context {S : Type}.
Implicit Types (h : Heap S).

Local Ltac live_from H := eapply live_perm; [|exact H]; solve_Permutation.

Lemma Node_invert_planed (n : Node) :
  forall h t h', Node_invert n h = (Ok t, h') -> planed n = true.
Proof.
  induction n as [plane front back polygons IHf IHb] using Node_induction.
  intros h t h' E. simpl in E.
  apply bind_Ok_inv in E as (u & h1 & _ & E).
  destruct plane as [plane|]; [|done]. simpl.
  apply bind_Ok_inv in E as (nf & h2 & Ef & E).
  apply bind_Ok_inv in E as (nb & h3 & Eb & _).
  apply andb_true_iff. split.
  - destruct front as [c|]; simpl in *; [|done].
    apply bind_Ok_inv in Ef as (c' & h4 & Ec & _). by eapply IHf.
  - destruct back as [c|]; simpl in *; [|done].
    apply bind_Ok_inv in Eb as (c' & h4 & Ec & _). by eapply IHb.
Qed.

(** After flips, every polygon has the vertices that it had. *)
Lemma vertexRefs_flipped h h' ps l :
  flipped_once h h' ps -> vertexRefs h' l ≡ₚ vertexRefs h l.
Proof.
  intros [Hp _]. induction l as [|r l IH]; [done|].
  rewrite !vertexRefs_cons. f_equiv; [|done]. rewrite Hp.
  destruct (decide (r ∈ ps)); [|done].
  destruct (polygonStore h !! r) as [p|]; simpl; [|done].
  by rewrite <- Permutation_rev.
Qed.

Lemma Node_invert_live (n : Node) others h t h' :
  live h (Node_allPolygons n ++ others) ->
  Node_invert n h = (Ok t, h') ->
  live h' (Node_allPolygons t ++ others).
Proof.
  intros Hlive E. pose proof (Node_invert_planed n h t h' E) as Hpl.
  pose proof Hlive as [Hvalid [Hnd Hvs]].
  destruct (Node_invert_Ok n h Hpl) as [E' Hev].
  { by apply Forall_app in Hvalid as [? _]. }
  rewrite E' in E. injection E as <- <-.
  destruct (live_app_l _ _ _ Hlive) as [_ Hsep].
  pose proof (flipsHeap_flipped_once h _ Hsep) as Hflip.
  eapply live_perm; [by rewrite allPolygons_mirror|].
  split; [|split; [done|]].
  - eapply Forall_impl; [exact Hvalid|]. intros r. apply (ev_good _ _ _ _ Hev).
  - by rewrite (vertexRefs_flipped _ _ _ _ Hflip).
Qed.

Lemma map_Vertex_clone_Ok_inv vs :
  forall h vs' h',
    Array_map Vertex_clone vs h = (Ok vs', h') ->
    vs' = seq (length (vertexStore h)) (length vs)
    /\ length (vertexStore h') = length (vertexStore h) + length vs.
Proof.
  induction vs as [|v vs IH]; intros h vs' h' E; simpl in E.
  - injection E as <- <-. simpl. split; [done|lia].
  - apply bind_Ok_inv in E as (c & h1 & [-> Hc]%Vertex_clone_Ok_inv & E).
    apply bind_Ok_inv in E as (cs & h2 & [-> Hcs]%IH & [= <- <-]).
    simpl. rewrite Hc, Hcs. split; [done|lia].
Qed.

Lemma Polygon_clone_live r others h q h' :
  live h others -> Polygon_clone r h = (Ok q, h') -> live h' (q :: others).
Proof.
  intros Hlive E.
  pose proof (unchanged_run _ _ _ _ (grows_Polygon_clone r) E) as Hu.
  unfold Polygon_clone in E.
  apply bind_Ok_inv in E as (p & h1 & [Hp ->]%getPolygon_Ok_inv & E).
  apply bind_Ok_inv in E as (vs' & h1 & Evs & E).
  pose proof (unchanged_run _ _ _ _ (grows_map _ _ (grows_Vertex_clone)) Evs)
    as Hu1.
  apply map_Vertex_clone_Ok_inv in Evs as [-> Hlen].
  apply Polygon_new_Ok_inv in E as (pl & -> & ->).
  eapply (live_add h _ others _ (mkPolygon _ (Polygon_shared p) pl));
    [done|done| | | |]; simpl.
  - by apply list_lookup_middle.
  - by apply unchanged_lengths in Hu1 as [_ ?].
  - apply NoDup_seq.
  - rewrite Forall_forall. intros v [Hv1 Hv2]%elem_of_seq. split; [lia|].
    intros Hin. apply vertexRefs_lt in Hin; [lia|by destruct Hlive].
Qed.

Lemma clones_live ps :
  forall others h qs h',
    live h others ->
    Array_map Polygon_clone ps h = (Ok qs, h') ->
    live h' (qs ++ others).
Proof.
  induction ps as [|r ps IH]; intros others h qs h' Hlive E; simpl in E.
  - by injection E as <- <-.
  - apply bind_Ok_inv in E as (q & h1 & Eq & E).
    apply bind_Ok_inv in E as (qs' & h2 & Eqs & [= <- <-]).
    apply (Polygon_clone_live _ others) in Eq; [|done].
    apply (IH (q :: others)) in Eqs; [|done]. live_from Eqs.
Qed.

(** The first four steps of every operator: the two trees, built on
    clones of the operands. *)
Lemma two_trees_live {A} fuel (this csg : CSG) (k : Node -> Node -> M S A)
    others h c h' :
  live h others ->
  (let* ca := CSG_clone this in
   let* a := Node_new fuel (CSG_polygons ca) in
   let* cb := CSG_clone csg in
   let* b := Node_new fuel (CSG_polygons cb) in
   k a b) h = (Ok c, h') ->
  exists a b h1,
    live h1 (Node_allPolygons a ++ Node_allPolygons b ++ others)
    /\ k a b h1 = (Ok c, h').
Proof.
  intros Hlive E.
  apply bind_Ok_inv in E as (ca & h1 & Eca & E).
  apply bind_Ok_inv in Eca as (qa & h0 & Eqa & [= <- <-]).
  apply (clones_live _ others) in Eqa; [|done].
  apply bind_Ok_inv in E as (a & h2 & Ea & E).
  apply (Node_build_live fuel Node_empty _ others) in Ea; [|done].
  apply bind_Ok_inv in E as (cb & h3 & Ecb & E).
  apply bind_Ok_inv in Ecb as (qb & h5 & Eqb & [= <- <-]).
  apply (clones_live _ (Node_allPolygons a ++ others)) in Eqb; [|done].
  apply bind_Ok_inv in E as (b & h4 & Eb & E).
  apply (Node_build_live fuel Node_empty _ (Node_allPolygons a ++ others))
    in Eb; [|done].
  exists a, b, h4. split; [live_from Eb|done].
Qed.

(** The steps on the two trees [a] and [b], among other polygons. *)
Lemma clip_a_live (a b : Node) others h a' h' :
  live h (Node_allPolygons a ++ Node_allPolygons b ++ others) ->
  Node_clipTo a b h = (Ok a', h') ->
  live h' (Node_allPolygons a' ++ Node_allPolygons b ++ others).
Proof. apply Node_clipTo_live. Qed.

Lemma clip_b_live (a b : Node) others h b' h' :
  live h (Node_allPolygons a ++ Node_allPolygons b ++ others) ->
  Node_clipTo b a h = (Ok b', h') ->
  live h' (Node_allPolygons a ++ Node_allPolygons b' ++ others).
Proof.
  intros H E.
  apply (Node_clipTo_live _ _ (Node_allPolygons a ++ others)) in E;
    [live_from E|live_from H].
Qed.

Lemma invert_a_live (a b : Node) others h a' h' :
  live h (Node_allPolygons a ++ Node_allPolygons b ++ others) ->
  Node_invert a h = (Ok a', h') ->
  live h' (Node_allPolygons a' ++ Node_allPolygons b ++ others).
Proof. apply Node_invert_live. Qed.

Lemma invert_b_live (a b : Node) others h b' h' :
  live h (Node_allPolygons a ++ Node_allPolygons b ++ others) ->
  Node_invert b h = (Ok b', h') ->
  live h' (Node_allPolygons a ++ Node_allPolygons b' ++ others).
Proof.
  intros H E.
  apply (Node_invert_live _ (Node_allPolygons a ++ others)) in E;
    [live_from E|live_from H].
Qed.

Lemma build_a_live fuel (a b : Node) others h a' h' :
  live h (Node_allPolygons a ++ Node_allPolygons b ++ others) ->
  Node_build fuel a (Node_allPolygons b) h = (Ok a', h') ->
  live h' (Node_allPolygons a' ++ others).
Proof. apply Node_build_live. Qed.

Local Ltac step E H lem :=
  let x := fresh "n" in let h := fresh "h" in let E1 := fresh "E" in
  apply bind_Ok_inv in E as (x & h & E1 & E);
  apply (lem _ _ _ _ _ _ H) in E1; clear H; rename E1 into H.

Lemma CSG_union_live fuel (this csg : CSG) others h c h' :
  live h others ->
  CSG_union fuel this csg h = (Ok c, h') ->
  live h' (CSG_polygons c ++ others).
Proof.
  intros Hlive E. unfold CSG_union in E.
  apply (two_trees_live _ _ _ _ others) in E as (a & b & h1 & H & E);
    [|done].
  step E H clip_a_live. step E H clip_b_live. step E H invert_b_live.
  step E H clip_b_live. step E H invert_b_live.
  apply bind_Ok_inv in E as (a' & hz & Ea & [= <- <-]).
  by apply (build_a_live _ _ _ _ _ _ _ H) in Ea.
Qed.

Lemma CSG_subtract_live fuel (this csg : CSG) others h c h' :
  live h others ->
  CSG_subtract fuel this csg h = (Ok c, h') ->
  live h' (CSG_polygons c ++ others).
Proof.
  intros Hlive E. unfold CSG_subtract in E.
  apply (two_trees_live _ _ _ _ others) in E as (a & b & h1 & H & E);
    [|done].
  step E H invert_a_live.
  step E H clip_a_live. step E H clip_b_live. step E H invert_b_live.
  step E H clip_b_live. step E H invert_b_live.
  apply bind_Ok_inv in E as (a' & hy & Ea & E).
  apply (build_a_live _ _ _ _ _ _ _ H) in Ea.
  apply bind_Ok_inv in E as (a'' & hz & Ei & [= <- <-]).
  by apply (Node_invert_live _ _ _ _ _ Ea) in Ei.
Qed.

Lemma CSG_intersect_live fuel (this csg : CSG) others h c h' :
  live h others ->
  CSG_intersect fuel this csg h = (Ok c, h') ->
  live h' (CSG_polygons c ++ others).
Proof.
  intros Hlive E. unfold CSG_intersect in E.
  apply (two_trees_live _ _ _ _ others) in E as (a & b & h1 & H & E);
    [|done].
  step E H invert_a_live.
  step E H clip_b_live. step E H invert_b_live.
  step E H clip_a_live. step E H clip_b_live.
  apply bind_Ok_inv in E as (a' & hy & Ea & E).
  apply (build_a_live _ _ _ _ _ _ _ H) in Ea.
  apply bind_Ok_inv in E as (a'' & hz & Ei & [= <- <-]).
  by apply (Node_invert_live _ _ _ _ _ Ea) in Ei.
Qed.

End LiveOperators.

Lemma liveb_live {S : Type} (h : Heap S) (l : list ref) :
  liveb h l = true -> live h l.
Proof.
  unfold liveb. intros [[Hv Hnd]%andb_true_iff Hvs]%andb_true_iff.
  split; [by apply valid_polygonb_valid|].
  split; by eapply bool_decide_eq_true_1.
Qed.

(** X27. The methods of [Node] keep polygons apart.  Take polygons that are
    in the heap with their vertices, none of them twice and no vertex
    object used twice, within a polygon or by two of them: the polygons of
    a tree [n], a list [ps] and any others.  Whenever [clipPolygons],
    [clipTo], [invert] or [build] returns, the same is true of the polygons
    that it returns, or of the tree that it returns, together with the
    polygons that it was not called on.  Each part of a split polygon gets
    vertex objects of its own: the vertices on the plane and the new
    vertices on the edges are cloned for the back part. *)
Theorem tree_methods_keep_polygons_apart {S : Type} (fuel : nat)
    (n bsp : Node) (ps others : list ref) (h : Heap S) :
  live h (Node_allPolygons n ++ ps ++ others) ->
  (forall qs h', Node_clipPolygons bsp ps h = (Ok qs, h') ->
                 live h' (Node_allPolygons n ++ qs ++ others))
  /\ (forall t h', Node_clipTo n bsp h = (Ok t, h') ->
                   live h' (Node_allPolygons t ++ ps ++ others))
  /\ (forall t h', Node_invert n h = (Ok t, h') ->
                   live h' (Node_allPolygons t ++ ps ++ others))
  /\ (forall t h', Node_build fuel n ps h = (Ok t, h') ->
                   live h' (Node_allPolygons t ++ others)).
Proof.
  intros Hlive. split; [|split; [|split]].
  - intros qs h' E.
    apply (Node_clipPolygons_live _ _ (Node_allPolygons n ++ others)) in E.
    + eapply live_perm; [|exact E]. solve_Permutation.
    + eapply live_perm; [|exact Hlive]. solve_Permutation.
  - intros t h' E. by apply (Node_clipTo_live _ _ _ _ _ _ Hlive) in E.
  - intros t h' E. by apply (Node_invert_live _ _ _ _ _ Hlive) in E.
  - intros t h' E. by apply (Node_build_live _ _ _ _ _ _ _ Hlive) in E.
Qed.

Lemma tree_methods_keep_polygons_apart_witness :
  (forall qs h',
      Node_clipPolygons unit_cube_clone_tree unit_cube_faces
        unit_cube_clone_built.2 = (Ok qs, h') ->
      live h' (Node_allPolygons unit_cube_clone_tree ++ qs ++ []))
  /\ (forall t h',
        Node_clipTo unit_cube_clone_tree unit_cube_clone_tree
          unit_cube_clone_built.2 = (Ok t, h') ->
        live h' (Node_allPolygons t ++ unit_cube_faces ++ []))
  /\ (forall t h',
        Node_invert unit_cube_clone_tree unit_cube_clone_built.2
        = (Ok t, h') ->
        live h' (Node_allPolygons t ++ unit_cube_faces ++ []))
  /\ (forall t h',
        Node_build 6 unit_cube_clone_tree unit_cube_faces
          unit_cube_clone_built.2 = (Ok t, h') ->
        live h' (Node_allPolygons t ++ [])).
Proof.
  apply (tree_methods_keep_polygons_apart 6 unit_cube_clone_tree
           unit_cube_clone_tree unit_cube_faces [] unit_cube_clone_built.2).
  apply liveb_live. vm_compute. reflexivity.
Defined.

(** X28. The polygons of a result share nothing.  Whenever [union],
    [subtract] or [intersect] returns a solid, whatever the operands (the
    same solid twice, or solids that share vertex objects), the polygons of
    the result are in the heap with their vertices, no polygon is twice in
    the result, and no vertex object is used twice, within one polygon or
    by two polygons of the result.  Nor does the result share a polygon or
    a vertex object with polygons that were apart from each other before
    the call, such as those of the operands: changing a polygon of the
    result in place, as [flip] does, touches no other polygon. *)
Theorem operator_results_share_nothing {S : Type} (fuel : nat) (A B C : CSG)
    (others : list ref) (h h' : Heap S) :
  live h others ->
  CSG_union fuel A B h = (Ok C, h')
  \/ CSG_subtract fuel A B h = (Ok C, h')
  \/ CSG_intersect fuel A B h = (Ok C, h') ->
  live h' (CSG_polygons C ++ others).
Proof.
  intros Hlive [E|[E|E]].
  - by eapply CSG_union_live.
  - by eapply CSG_subtract_live.
  - by eapply CSG_intersect_live.
Qed.

Lemma operator_results_share_nothing_witness :
  live two_cubes_union.2
       (CSG_polygons two_cubes_united
        ++ CSG_polygons two_cubes_A ++ CSG_polygons two_cubes_B).
Proof.
  apply (operator_results_share_nothing 20 two_cubes_A two_cubes_B
           two_cubes_united
           (CSG_polygons two_cubes_A ++ CSG_polygons two_cubes_B)
           two_cubes_heap two_cubes_union.2).
  - apply liveb_live. vm_compute. reflexivity.
  - left. vm_compute. reflexivity.
Defined.


(** ** What no method does *)

Section Steps.
Context {S : Type} (R : Heap S -> Heap S -> Prop).
Hypothesis R_refl : forall h, R h h.
Hypothesis R_trans : forall h1 h2 h3, R h1 h2 -> R h2 h3 -> R h1 h3.

Lemma steps_ret {A} (a : A) : steps R (ret a).
Proof using R_refl. intros h. apply R_refl. Qed.

Lemma steps_throw {A} e : steps R (throw (A := A) e).
Proof using R_refl. intros h. apply R_refl. Qed.

Lemma steps_bind {A B} (m : M S A) (k : A -> M S B) :
  steps R m -> (forall a, steps R (k a)) -> steps R (let* x := m in k x).
Proof using R_refl R_trans.
  intros Hm Hk h. unfold bind. specialize (Hm h).
  destruct (m h) as [[a|e] h1]; simpl in *; [|done].
  eapply R_trans; [exact Hm | apply Hk].
Qed.

Lemma steps_index {A} (a : list A) i : steps R (index a i).
Proof using R_refl. intros h. unfold index. by destruct (a !! i). Qed.

Lemma steps_getVertex v : steps R (getVertex v).
Proof using R_refl.
  intros h. unfold getVertex. by destruct (vertexStore h !! v).
Qed.

Lemma steps_getPolygon r : steps R (getPolygon r).
Proof using R_refl.
  intros h. unfold getPolygon. by destruct (polygonStore h !! r).
Qed.

Lemma steps_fold {A B} (f : B -> A -> M S B) l :
  (forall b a, steps R (f b a)) -> forall b, steps R (Array_fold f l b).
Proof using R_refl R_trans.
  intros Hf. induction l as [|a l IH]; intros b; simpl.
  - apply steps_ret.
  - apply steps_bind; [apply Hf | apply IH].
Qed.

Lemma steps_map {A B} (f : A -> M S B) l :
  (forall a, steps R (f a)) -> steps R (Array_map f l).
Proof using R_refl R_trans.
  intros Hf. induction l as [|a l IH]; simpl.
  - apply steps_ret.
  - apply steps_bind; [apply Hf|]. intros b.
    apply steps_bind; [apply IH|]. intros bs. apply steps_ret.
Qed.

Lemma steps_forEach {A} (f : A -> M S unit) l :
  (forall a, steps R (f a)) -> steps R (Array_forEach f l).
Proof using R_refl R_trans.
  intros Hf. induction l as [|a l IH]; simpl.
  - apply steps_ret.
  - apply steps_bind; [apply Hf|]. intros _. apply IH.
Qed.

Lemma steps_if {A} (c : bool) (m1 m2 : M S A) :
  steps R m1 -> steps R m2 -> steps R (if c then m1 else m2).
Proof. by destruct c. Qed.

(** The methods, from the four steps that change the heap. *)
Hypothesis R_clone : forall v, steps R (Vertex_clone v).
Hypothesis R_interpolate : forall v w t, steps R (Vertex_interpolate v w t).
Hypothesis R_newPolygon : forall p, steps R (newPolygon p).
Hypothesis R_flip : forall r, steps R (Polygon_flip r).

Lemma steps_Polygon_new vs (shared : option S) :
  steps R (Polygon_new vs shared).
Proof using R_refl R_trans R_newPolygon.
  unfold Polygon_new.
  repeat (apply steps_bind;
          [first [apply steps_index | apply steps_getVertex]|]; intros).
  apply R_newPolygon.
Qed.

Lemma steps_Polygon_clone r : steps R (Polygon_clone r).
Proof using R_refl R_trans R_newPolygon R_clone.
  apply steps_bind; [apply steps_getPolygon|]. intros p.
  apply steps_bind; [apply steps_map, R_clone|]. intros.
  apply steps_Polygon_new.
Qed.

Lemma steps_Plane_types (this : Plane) vs : steps R (Plane_types this vs).
Proof using R_refl R_trans.
  apply steps_map. intros r.
  apply steps_bind; [apply steps_getVertex|]. intros. apply steps_ret.
Qed.

Lemma steps_Plane_splitEdge (this : Plane) vertices types fb i :
  steps R (Plane_splitEdge this vertices types fb i).
Proof using R_refl R_trans R_clone R_interpolate.
  destruct fb as [f b]. unfold Plane_splitEdge.
  do 4 (apply steps_bind; [apply steps_index|]; intros).
  apply steps_bind.
  - apply steps_if; [|apply steps_ret].
    apply steps_bind; [|intros; apply steps_ret].
    apply steps_if; [apply R_clone | apply steps_ret].
  - intros b'. apply steps_if; [|apply steps_ret].
    do 2 (apply steps_bind; [apply steps_getVertex|]; intros).
    apply steps_bind; [apply R_interpolate|]. intros.
    apply steps_bind; [apply R_clone|]. intros. apply steps_ret.
Qed.

Lemma steps_Plane_splitPolygon {F} (this : Plane) r
    (cF cB fo bo : OutArray F) fr :
  steps R (Plane_splitPolygon this r cF cB fo bo fr).
Proof using R_refl R_trans R_clone R_interpolate R_newPolygon.
  apply steps_bind; [apply steps_getPolygon|]. intros p.
  apply steps_bind; [apply steps_Plane_types|]. intros types.
  repeat (apply steps_if; [apply steps_ret|]).
  apply steps_if; [|apply steps_ret].
  apply steps_bind.
  { apply steps_fold. intros. apply steps_Plane_splitEdge. }
  intros [f b]. apply steps_bind.
  - apply steps_if; [|apply steps_ret].
    apply steps_bind; [apply steps_Polygon_new|]. intros. apply steps_ret.
  - intros fr'. apply steps_if; [|apply steps_ret].
    apply steps_bind; [apply steps_Polygon_new|]. intros. apply steps_ret.
Qed.

Lemma steps_child (f : Node -> M S Node) (c : option Node) :
  (forall n, c = Some n -> steps R (f n)) ->
  steps R match c with
          | Some n => let* n' := f n in ret (Some n')
          | None => ret None
          end.
Proof using R_refl R_trans.
  intros Hf. destruct c as [n|]; [|apply steps_ret].
  apply steps_bind; [by apply Hf|]. intros. apply steps_ret.
Qed.

Lemma steps_Node_clipPolygons (n : Node) :
  forall ps, steps R (Node_clipPolygons n ps).
Proof using R_refl R_trans R_clone R_interpolate R_newPolygon.
  induction n as [plane front back polygons IHf IHb] using Node_induction.
  intros ps. simpl. destruct plane as [plane|]; [|apply steps_ret].
  apply steps_bind.
  { apply steps_fold. intros. apply steps_Plane_splitPolygon. }
  intros [f b].
  apply steps_bind.
  { destruct front; [by apply IHf | apply steps_ret]. }
  intros f'. apply steps_bind; [|intros; apply steps_ret].
  destruct back; [by apply IHb | apply steps_ret].
Qed.

Lemma steps_Node_clipTo (n bsp : Node) : steps R (Node_clipTo n bsp).
Proof using R_refl R_trans R_clone R_interpolate R_newPolygon.
  induction n as [plane front back polygons IHf IHb] using Node_induction.
  simpl. apply steps_bind; [apply steps_Node_clipPolygons|]. intros ps.
  apply steps_bind.
  { apply (steps_child (fun n => Node_clipTo n bsp)).
    by intros n ->; apply IHf. }
  intros f. apply steps_bind; [|intros; apply steps_ret].
  apply (steps_child (fun n => Node_clipTo n bsp)).
  by intros n ->; apply IHb.
Qed.

Lemma steps_Node_invert (n : Node) : steps R (Node_invert n).
Proof using R_refl R_trans R_flip.
  induction n as [plane front back polygons IHf IHb] using Node_induction.
  simpl. apply steps_bind; [apply steps_forEach, R_flip|]. intros _.
  destruct plane as [plane|]; [|apply steps_throw].
  apply steps_bind.
  { apply (steps_child Node_invert). by intros n ->; apply IHf. }
  intros f. apply steps_bind; [|intros; apply steps_ret].
  apply (steps_child Node_invert). by intros n ->; apply IHb.
Qed.

Lemma steps_Node_build (fuel : nat) :
  forall n ps, steps R (Node_build fuel n ps).
Proof using R_refl R_trans R_clone R_interpolate R_newPolygon.
  induction fuel as [|fuel IH]; intros n ps; destruct ps as [|p0 ps];
    try apply steps_ret; [apply steps_throw|].
  cbn [Node_build]. apply steps_bind.
  { destruct (Node_plane n); [apply steps_ret|].
    apply steps_bind; [apply steps_getPolygon|]. intros. apply steps_ret. }
  intros plane. apply steps_bind.
  { apply steps_fold. intros. apply steps_Plane_splitPolygon. }
  intros [[own f] b].
  apply steps_bind.
  { destruct f; [apply steps_ret|].
    apply steps_bind; [apply IH|]. intros. apply steps_ret. }
  intros nf. apply steps_bind; [|intros; apply steps_ret].
  destruct b; [apply steps_ret|].
  apply steps_bind; [apply IH|]. intros. apply steps_ret.
Qed.

Lemma steps_CSG_clone (c : CSG) : steps R (CSG_clone c).
Proof using R_refl R_trans R_clone R_newPolygon.
  apply steps_bind; [|intros; apply steps_ret].
  apply steps_map, steps_Polygon_clone.
Qed.

Lemma steps_CSG_inverse (c : CSG) : steps R (CSG_inverse c).
Proof using R_refl R_trans R_clone R_newPolygon R_flip.
  apply steps_bind; [apply steps_CSG_clone|]. intros c'.
  apply steps_bind; [apply steps_forEach, R_flip|]. intros. apply steps_ret.
Qed.

Local Ltac steps_seq :=
  repeat (apply steps_bind;
          [first [apply steps_CSG_clone | apply steps_Node_build
                 | apply steps_Node_clipTo | apply steps_Node_invert]|];
          intros);
  apply steps_ret.

Lemma steps_CSG_union fuel (this csg : CSG) :
  steps R (CSG_union fuel this csg).
Proof using All. unfold CSG_union, Node_new. steps_seq. Qed.

Lemma steps_CSG_subtract fuel (this csg : CSG) :
  steps R (CSG_subtract fuel this csg).
Proof using All. unfold CSG_subtract, Node_new. steps_seq. Qed.

Lemma steps_CSG_intersect fuel (this csg : CSG) :
  steps R (CSG_intersect fuel this csg).
Proof using All. unfold CSG_intersect, Node_new. steps_seq. Qed.
End Steps.

Section Settled.
Context {S : Type}.
Implicit Types (h : Heap S).

Lemma settled_refl h : settled h h.
Proof.
  split; [by left|]. intros r p Hp. exists p. repeat split; auto.
Qed.

Lemma settled_trans h1 h2 h3 : settled h1 h2 -> settled h2 h3 -> settled h1 h3.
Proof.
  intros [Hv Hp] [Hv' Hp']. split.
  - intros v x Hx. destruct (Hv v x Hx) as [H|H];
      destruct (Hv' v _ H) as [H'|H']; auto.
    rewrite Vertex_flipped_involutive in H'. auto.
  - intros r p Hr. destruct (Hp r p Hr) as (p1 & H1 & Hs1 & Hl1 & Hpl1).
    destruct (Hp' r p1 H1) as (p2 & H2 & Hs2 & Hl2 & Hpl2).
    exists p2. split; [done|]. split; [congruence|]. split.
    + destruct Hl1 as [E1|E1], Hl2 as [E2|E2]; rewrite E2, E1;
        rewrite ?rev_involutive; auto.
    + destruct Hpl1 as [E1|E1], Hpl2 as [E2|E2]; rewrite E2, E1;
        rewrite ?Plane_flip_involutive; auto.
Qed.

Lemma steps_settled_Vertex_flip v : steps settled (Vertex_flip (S := S) v).
Proof.
  intros h. unfold Vertex_flip, bind, getVertex, setVertex.
  destruct (vertexStore h !! v) as [x|] eqn:Hx; simpl;
    [rewrite Hx; simpl|apply settled_refl].
  split; simpl.
  - intros v' x' Hx'. destruct (decide (v' = v)) as [->|Hne].
    + right. rewrite list_lookup_insert_eq by (by eapply lookup_lt_Some).
      assert (x' = x) as -> by congruence. done.
    + left. by rewrite list_lookup_insert_ne.
  - intros r p Hp. exists p. repeat split; auto.
Qed.

(** Writing a polygon over itself, reversed or with its plane flipped. *)
Lemma settled_setPolygon h r (p p' : Polygon S) :
  polygonStore h !! r = Some p ->
  Polygon_shared p' = Polygon_shared p ->
  Polygon_vertices p' = Polygon_vertices p
  \/ Polygon_vertices p' = rev (Polygon_vertices p) ->
  Polygon_plane p' = Polygon_plane p
  \/ Polygon_plane p' = Plane_flip (Polygon_plane p) ->
  settled h (setPolygon r p' h).2.
Proof.
  intros Hp Hs Hl Hpl. unfold setPolygon. rewrite Hp. split; simpl; [by left|].
  intros r' q Hq. destruct (decide (r' = r)) as [->|Hne].
  - exists p'. rewrite list_lookup_insert_eq by (by eapply lookup_lt_Some).
    assert (q = p) as -> by congruence. done.
  - exists q. rewrite list_lookup_insert_ne by done. repeat split; auto.
Qed.

Lemma steps_settled_Polygon_flip r : steps settled (Polygon_flip (S := S) r).
Proof.
  intros h. unfold Polygon_flip. unfold bind at 1. unfold getPolygon at 1.
  destruct (polygonStore h !! r) as [p|] eqn:Hp; [|apply settled_refl].
  unfold bind at 1.
  pose proof (settled_setPolygon h r p
                (mkPolygon (rev (Polygon_vertices p)) (Polygon_shared p)
                           (Polygon_plane p)) Hp eq_refl
                (or_intror eq_refl) (or_introl eq_refl)) as H1.
  destruct (setPolygon r _ h) as [[u|e] h1] eqn:E1; simpl in H1 |- *;
    [|done].
  assert (Hp1 : exists p1, polygonStore h1 !! r = Some p1).
  { unfold setPolygon in E1. rewrite Hp in E1. injection E1 as _ <-. simpl.
    eexists. apply list_lookup_insert_eq. by eapply lookup_lt_Some. }
  destruct Hp1 as [p1 Hp1].
  unfold bind at 1.
  pose proof (steps_forEach settled settled_refl settled_trans
                Vertex_flip (rev (Polygon_vertices p))
                steps_settled_Vertex_flip h1) as H2.
  pose proof (keeps_Array_forEach Vertex_flip (rev (Polygon_vertices p))
                keeps_Vertex_flip h1) as Hk.
  destruct (Array_forEach _ _ h1) as [[u'|e] h2]; simpl in H2, Hk |- *;
    [|by eapply settled_trans].
  unfold bind, getPolygon. rewrite Hk, Hp1.
  eapply settled_trans; [exact H1|]. eapply settled_trans; [exact H2|].
  apply (settled_setPolygon h2 r p1); simpl; auto. by rewrite Hk.
Qed.

Lemma steps_settled_Node_invert (n : Node) :
  steps settled (Node_invert (S := S) n).
Proof.
  apply (steps_Node_invert settled settled_refl settled_trans
           steps_settled_Polygon_flip).
Qed.
End Settled.

Section Derives.
Context {S : Type}.
Implicit Types (h : Heap S).

Lemma derives_refl h : derives h h.
Proof. apply Forall_forall. intros x Hx. by apply derived_old. Qed.

Lemma derived_from (old old' : list Vertex) x :
  Forall (derived old) old' -> derived old' x -> derived old x.
Proof.
  intros Hold. induction 1 as [x Hx|x _ IH|x y t _ IHx _ IHy].
  - rewrite Forall_forall in Hold. by apply Hold.
  - by apply derived_flipped.
  - by apply derived_between.
Qed.

Lemma derives_trans h1 h2 h3 : derives h1 h2 -> derives h2 h3 -> derives h1 h3.
Proof.
  intros H12 H23. eapply Forall_impl; [exact H23|].
  intros x. by apply derived_from.
Qed.

(** A call that leaves the vertices alone. *)
Lemma steps_derives_keeps {A} (m : M S A) :
  (forall h, vertexStore (m h).2 = vertexStore h) -> steps derives m.
Proof. intros Hm h. unfold derives. rewrite Hm. apply derives_refl. Qed.

Lemma derives_add h x :
  derived (vertexStore h) x ->
  derives h (mkHeap (vertexStore h ++ [x]) (polygonStore h)).
Proof.
  intros Hx. apply Forall_app. split; [apply derives_refl|].
  by constructor.
Qed.

Lemma steps_derives_Vertex_clone v : steps derives (Vertex_clone (S := S) v).
Proof.
  intros h. unfold Vertex_clone, bind, getVertex.
  destruct (vertexStore h !! v) as [x|] eqn:Hx; simpl; [|apply derives_refl].
  apply derives_add. rewrite !Vector_clone_id. destruct x. simpl.
  apply derived_old. by eapply list_elem_of_lookup_2.
Qed.

Lemma steps_derives_Vertex_interpolate v w t :
  steps derives (Vertex_interpolate (S := S) v w t).
Proof.
  intros h. unfold Vertex_interpolate, bind, getVertex.
  destruct (vertexStore h !! v) as [x|] eqn:Hx; simpl; [|apply derives_refl].
  destruct (vertexStore h !! w) as [y|] eqn:Hy; simpl; [|apply derives_refl].
  apply derives_add. rewrite !Vector_clone_id.
  apply derived_between; apply derived_old; by eapply list_elem_of_lookup_2.
Qed.

Lemma steps_derives_Vertex_flip v : steps derives (Vertex_flip (S := S) v).
Proof.
  intros h. unfold Vertex_flip, bind, getVertex, setVertex.
  destruct (vertexStore h !! v) as [x|] eqn:Hx; simpl;
    [rewrite Hx; simpl|apply derives_refl].
  apply Forall_insert; [apply derives_refl|].
  apply (derived_flipped _ x), derived_old. by eapply list_elem_of_lookup_2.
Qed.

Lemma steps_derives_newPolygon (p : Polygon S) : steps derives (newPolygon p).
Proof. by apply steps_derives_keeps. Qed.

Lemma steps_derives_setPolygon r (p : Polygon S) :
  steps derives (setPolygon r p).
Proof.
  apply steps_derives_keeps. intros h. unfold setPolygon.
  by destruct (polygonStore h !! r).
Qed.

Lemma steps_derives_Polygon_flip r : steps derives (Polygon_flip (S := S) r).
Proof.
  unfold Polygon_flip.
  apply (steps_bind derives derives_refl derives_trans);
    [apply (steps_getPolygon derives derives_refl)|]. intros p.
  apply (steps_bind derives derives_refl derives_trans);
    [apply steps_derives_setPolygon|]. intros _.
  apply (steps_bind derives derives_refl derives_trans).
  { apply (steps_forEach derives derives_refl derives_trans).
    apply steps_derives_Vertex_flip. }
  intros _.
  apply (steps_bind derives derives_refl derives_trans);
    [apply (steps_getPolygon derives derives_refl)|]. intros p'.
  apply steps_derives_setPolygon.
Qed.
End Derives.

(** X29. [flip] and [invert] never move anything.  Whatever the polygon
    or the tree (polygons or vertex objects used more than once, dangling
    references, a node without a plane) and whatever the outcome, a result
    or an exception half way: after [Polygon.flip], [Vertex.flip] and
    [Node.invert] every vertex that existed is at its reference with the
    same position and with its normal or the opposite normal, and every
    polygon that existed is at its reference with the same shared tag, its
    vertices in the same or in reverse order, and its plane or the flipped
    plane.  No object is lost, no vertex is moved and no polygon gets
    another vertex. *)
Theorem flip_and_invert_move_nothing {S : Type} (v r : ref) (n : Node) :
  steps (S := S) settled (Vertex_flip v)
  /\ steps (S := S) settled (Polygon_flip r)
  /\ steps (S := S) settled (Node_invert n).
Proof.
  split; [|split].
  - apply steps_settled_Vertex_flip.
  - apply steps_settled_Polygon_flip.
  - apply steps_settled_Node_invert.
Qed.

(** X30. No method makes a vertex out of nothing.  Whatever the input and
    the outcome, every vertex object that is in the heap after
    [splitPolygon], [clipPolygons], [clipTo], [invert], [build], [clone],
    [inverse], [union], [subtract] or [intersect], those of a result among
    them, comes from the vertices that were in the heap before the call:
    it is one of them, or such a vertex with its normal negated, or the
    vertex that [interpolate] computes from two such vertices.  Positions
    are only ever copied or interpolated between two vertices. *)
Theorem vertices_come_from_vertices {S F : Type} (fuel : nat) (this : Plane)
    (r : ref) (cF cB fo bo : OutArray F) (fr : F) (n bsp : Node)
    (ps : list ref) (A B : CSG) :
  steps (S := S) derives (Plane_splitPolygon this r cF cB fo bo fr)
  /\ steps (S := S) derives (Node_clipPolygons n ps)
  /\ steps (S := S) derives (Node_clipTo n bsp)
  /\ steps (S := S) derives (Node_invert n)
  /\ steps (S := S) derives (Node_build fuel n ps)
  /\ steps (S := S) derives (CSG_clone A)
  /\ steps (S := S) derives (CSG_inverse A)
  /\ steps (S := S) derives (CSG_union fuel A B)
  /\ steps (S := S) derives (CSG_subtract fuel A B)
  /\ steps (S := S) derives (CSG_intersect fuel A B).
Proof.
  pose proof (@derives_refl S) as Hr. pose proof (@derives_trans S) as Ht.
  pose proof (@steps_derives_Vertex_clone S) as Hc.
  pose proof (@steps_derives_Vertex_interpolate S) as Hi.
  pose proof (@steps_derives_newPolygon S) as Hn.
  pose proof (@steps_derives_Polygon_flip S) as Hf.
  repeat split.
  - exact (steps_Plane_splitPolygon derives Hr Ht Hc Hi Hn _ _ _ _ _ _ _).
  - exact (steps_Node_clipPolygons derives Hr Ht Hc Hi Hn _ _).
  - exact (steps_Node_clipTo derives Hr Ht Hc Hi Hn _ _).
  - exact (steps_Node_invert derives Hr Ht Hf _).
  - exact (steps_Node_build derives Hr Ht Hc Hi Hn _ _ _).
  - exact (steps_CSG_clone derives Hr Ht Hc Hn _).
  - exact (steps_CSG_inverse derives Hr Ht Hc Hn Hf _).
  - exact (steps_CSG_union derives Hr Ht Hc Hi Hn Hf _ _ _).
  - exact (steps_CSG_subtract derives Hr Ht Hc Hi Hn Hf _ _ _).
  - exact (steps_CSG_intersect derives Hr Ht Hc Hi Hn Hf _ _ _).
Qed.


(** * subtract and the complement identity *)

(** ** Numbers: zeros of either sign *)

Section Zeros.
Local Open Scope float_scope.

Lemma is_zero_spec (x : number) :
  is_zero x = true <-> exists s, Prim2SF x = S754_zero s.
Proof.
  unfold is_zero. rewrite FloatAxioms.eqb_spec.
  change (Prim2SF zero) with (S754_zero false). unfold SFeqb.
  destruct (Prim2SF x) as [s|s| |s m e]; simpl.
  - split; eauto.
  - split; [by destruct s|]. by intros [? ?].
  - split; [done|]. by intros [? ?].
  - split; [by destruct s|]. by intros [? ?].
Qed.

Lemma is_finite_spec (x : number) :
  is_finite x = true -> ~ spec_wild (Prim2SF x).
Proof.
  unfold is_finite, is_nan, is_infinity.
  rewrite !FloatAxioms.eqb_spec, abs_spec.
  change (Prim2SF infinity) with (S754_infinity false). unfold SFeqb.
  intros H [E|[s E]]; rewrite E in H; simpl in H; [done|].
  by destruct s.
Qed.

Lemma same_or_zeros_spec (x y : number) :
  same_or_zeros x y <-> spec_alike (Prim2SF x) (Prim2SF y).
Proof.
  unfold same_or_zeros, spec_alike. rewrite !is_zero_spec. split.
  - intros [->|[[s Hs] [s' Hs']]]; [by left|]. right. eauto.
  - intros [H|(s & s' & Hs & Hs')]; [left; by apply Prim2SF_inj|].
    right. eauto.
Qed.

Lemma same_or_zeros_refl (x : number) : same_or_zeros x x.
Proof. by left. Qed.

Lemma spec_alike_mul a a' b b' :
  spec_alike a a' -> spec_alike b b' ->
  spec_alike (SF64mul a b) (SF64mul a' b').
Proof.
  intros [->|(s & s' & -> & ->)] [->|(t & t' & -> & ->)].
  - by left.
  - destruct a' as [sa|sa| |sa m e]; simpl; [right|left|left|right]; eauto.
  - destruct b' as [sb|sb| |sb m e]; simpl; [right|left|left|right]; eauto.
  - right. simpl. eauto.
Qed.

Lemma spec_alike_add a a' b b' :
  spec_alike a a' -> spec_alike b b' ->
  spec_alike (SF64add a b) (SF64add a' b').
Proof.
  intros [->|(s & s' & -> & ->)] [->|(t & t' & -> & ->)].
  - by left.
  - destruct a' as [sa|sa| |sa m e]; simpl; [right|left|left|left];
      eauto; destruct sa, t, t'; simpl; eauto.
  - destruct b' as [sb|sb| |sb m e]; simpl; [right|left|left|left];
      eauto; destruct s, s', sb; simpl; eauto.
  - right. destruct s, s', t, t'; simpl; eauto.
Qed.

Lemma spec_alike_sub a a' b b' :
  spec_alike a a' -> spec_alike b b' ->
  spec_alike (SF64sub a b) (SF64sub a' b').
Proof.
  intros [->|(s & s' & -> & ->)] [->|(t & t' & -> & ->)].
  - by left.
  - destruct a' as [sa|sa| |sa m e]; simpl; [right|left|left|left];
      eauto; destruct sa, t, t'; simpl; eauto.
  - destruct b' as [sb|sb| |sb m e]; simpl; [right|left|left|left];
      eauto; destruct s, s', sb; simpl; eauto.
  - right. destruct s, s', t, t'; simpl; eauto.
Qed.

Lemma spec_alike_opp a a' : spec_alike a a' -> spec_alike (SFopp a) (SFopp a').
Proof. intros [->|(s & s' & -> & ->)]; [by left|]. right. simpl. eauto. Qed.

Lemma spec_alike_ltb a a' b b' :
  spec_alike a a' -> spec_alike b b' -> SFltb a b = SFltb a' b'.
Proof.
  intros [->|(s & s' & -> & ->)] [->|(t & t' & -> & ->)]; try done;
    first [ by destruct a' as [sa|sa| |sa m e]
          | by destruct b' as [sb|sb| |sb m e] ].
Qed.

Lemma same_or_zeros_mul x x' y y' :
  same_or_zeros x x' -> same_or_zeros y y' -> same_or_zeros (x * y) (x' * y').
Proof.
  rewrite !same_or_zeros_spec, !mul_spec. apply spec_alike_mul.
Qed.

Lemma same_or_zeros_add x x' y y' :
  same_or_zeros x x' -> same_or_zeros y y' -> same_or_zeros (x + y) (x' + y').
Proof.
  rewrite !same_or_zeros_spec, !add_spec. apply spec_alike_add.
Qed.

Lemma same_or_zeros_sub x x' y y' :
  same_or_zeros x x' -> same_or_zeros y y' -> same_or_zeros (x - y) (x' - y').
Proof.
  rewrite !same_or_zeros_spec, !sub_spec. apply spec_alike_sub.
Qed.

Lemma same_or_zeros_opp x x' : same_or_zeros x x' -> same_or_zeros (- x) (- x').
Proof. rewrite !same_or_zeros_spec, !opp_spec. apply spec_alike_opp. Qed.

Lemma same_or_zeros_ltb x x' y y' :
  same_or_zeros x x' -> same_or_zeros y y' -> (x <? y) = (x' <? y').
Proof.
  rewrite !same_or_zeros_spec, !ltb_spec. apply spec_alike_ltb.
Qed.

Lemma Vector_alike_refl (a : Vector) : Vector_alike a a.
Proof. repeat split; apply same_or_zeros_refl. Qed.

Lemma Plane_alike_refl (p : Plane) : Plane_alike p p.
Proof. split; [apply Vector_alike_refl | apply same_or_zeros_refl]. Qed.

Lemma Vector_alike_dot (a a' b b' : Vector) :
  Vector_alike a a' -> Vector_alike b b' ->
  same_or_zeros (Vector_dot a b) (Vector_dot a' b').
Proof.
  intros (Hx & Hy & Hz) (Hx' & Hy' & Hz'). unfold Vector_dot.
  repeat first [apply same_or_zeros_add | apply same_or_zeros_mul]; done.
Qed.

Lemma Vector_alike_negated (a a' : Vector) :
  Vector_alike a a' -> Vector_alike (Vector_negated a) (Vector_negated a').
Proof.
  intros (Hx & Hy & Hz). repeat split; simpl; by apply same_or_zeros_opp.
Qed.

Lemma Plane_alike_flip (p q : Plane) :
  Plane_alike p q -> Plane_alike (Plane_flip p) (Plane_flip q).
Proof.
  intros [Hn Hw]. split; simpl;
    [by apply Vector_alike_negated | by apply same_or_zeros_opp].
Qed.

Lemma Plane_alike_clone (p q : Plane) :
  Plane_alike p q -> Plane_alike (Plane_clone p) (Plane_clone q).
Proof. intros [(Hx & Hy & Hz) Hw]. by repeat split. Qed.

Lemma Plane_alike_distance (p q : Plane) (x : Vector) :
  Plane_alike p q ->
  same_or_zeros (Plane_distance p x) (Plane_distance q x).
Proof.
  intros [Hn Hw]. unfold Plane_distance.
  apply same_or_zeros_sub; [|done].
  apply Vector_alike_dot; [done | apply Vector_alike_refl].
Qed.

(** Planes alike give every point the same type ... *)
Lemma Plane_alike_classify (p q : Plane) (x : Vector) :
  Plane_alike p q -> Plane_classify p x = Plane_classify q x.
Proof.
  intros H. unfold Plane_classify.
  pose proof (Plane_alike_distance p q x H) as Hd.
  rewrite (same_or_zeros_ltb _ _ _ _ Hd (same_or_zeros_refl _)).
  by rewrite (same_or_zeros_ltb _ _ _ _ (same_or_zeros_refl EPSILON) Hd).
Qed.

(** ... and see every polygon from the same side. *)
Lemma Plane_alike_facing (p q p2 q2 : Plane) :
  Plane_alike p q -> Plane_alike p2 q2 ->
  (0 <? Vector_dot (Plane_normal p) (Plane_normal p2))
  = (0 <? Vector_dot (Plane_normal q) (Plane_normal q2)).
Proof.
  intros [Hn _] [Hn2 _]. apply same_or_zeros_ltb; [apply same_or_zeros_refl|].
  by apply Vector_alike_dot.
Qed.

(** A point that is not in the plane: the difference that [splitPolygon]
    divides is the same for the two planes. *)
Lemma spec_alike_sub_apart w w' d d' :
  spec_alike w w' -> spec_alike d d' ->
  SFltb (SF64sub d w) (SFopp (Prim2SF EPSILON)) = true
  \/ SFltb (Prim2SF EPSILON) (SF64sub d w) = true ->
  SF64sub w d = SF64sub w' d'.
Proof.
  rewrite EPSILON_spec.
  intros [->|(s & s' & -> & ->)] [->|(t & t' & -> & ->)]; [done| | |].
  - destruct w' as [sw|sw| |sw m e]; simpl; try done.
    intros [H|H]; destruct t, sw; simpl in H; done.
  - destruct d' as [sd|sd| |sd m e]; simpl; try done.
    intros [H|H]; destruct s, sd; simpl in H; done.
  - intros [H|H]; destruct s, t; simpl in H; done.
Qed.

Lemma classify_apart (p : Plane) (x : Vector) :
  Plane_classify p x <> COPLANAR ->
  (Plane_distance p x <? - EPSILON) = true
  \/ (EPSILON <? Plane_distance p x) = true.
Proof.
  unfold Plane_classify.
  destruct (_ <? - EPSILON); [by left|].
  destruct (EPSILON <? _); [by right|done].
Qed.

Lemma classify_range (p : Plane) (x : Vector) :
  Plane_classify p x = COPLANAR \/ Plane_classify p x = FRONT
  \/ Plane_classify p x = BACK.
Proof.
  unfold Plane_classify.
  destruct (_ <? - EPSILON); [auto|]. destruct (EPSILON <? _); auto.
Qed.

(** Division by a zero, and what comes of it. *)
Lemma spec_div_zero a s : spec_wild (SF64div a (S754_zero s)).
Proof.
  destruct a as [sa|sa| |sa m e]; simpl; unfold spec_wild; eauto.
Qed.

Lemma spec_mul_wild a b : spec_wild b -> spec_wild (SF64mul a b).
Proof.
  intros [->|[s ->]]; destruct a as [sa|sa| |sa m e]; simpl;
    unfold spec_wild; eauto.
Qed.

Lemma spec_add_wild a b : spec_wild b -> spec_wild (SF64add a b).
Proof.
  intros [->|[s ->]]; destruct a as [sa|sa| |sa m e]; simpl;
    unfold spec_wild; eauto.
  destruct sa, s; eauto.
Qed.

(** Two planes alike cut an edge that crosses them at the same place,
    unless the vertex made there has an infinite or NaN coordinate. *)
Lemma Plane_alike_cut (p q : Plane) (a b : Vector) :
  Plane_alike p q ->
  Z.lor (Plane_classify p a) (Plane_classify p b) = SPANNING ->
  finite_vector (Vector_lerp a b (Plane_cut p a b)) ->
  Plane_cut p a b = Plane_cut q a b.
Proof.
  intros Hpq Hspan (Hfin & _ & _).
  assert (Hne : Plane_classify p a <> COPLANAR).
  { intros E. rewrite E in Hspan.
    by destruct (classify_range p b) as [E'|[E'|E']]; rewrite E' in Hspan. }
  apply classify_apart in Hne.
  pose proof Hpq as [Hn Hw].
  pose proof (Vector_alike_dot _ _ a a Hn (Vector_alike_refl a)) as Hd.
  pose proof (Vector_alike_dot _ _ _ _ Hn
                (Vector_alike_refl (Vector_minus b a))) as Hden.
  assert (Hnum : (Plane_w p - Vector_dot (Plane_normal p) a)
                 = (Plane_w q - Vector_dot (Plane_normal q) a)).
  { apply Prim2SF_inj. rewrite !sub_spec.
    apply same_or_zeros_spec in Hw, Hd.
    apply spec_alike_sub_apart; [done|done|].
    unfold Plane_distance in Hne.
    by rewrite !ltb_spec, opp_spec, sub_spec in Hne. }
  unfold Plane_cut. rewrite Hnum.
  destruct Hden as [->|[Hz _]]; [done|]. exfalso.
  apply is_finite_spec in Hfin. apply Hfin.
  apply is_zero_spec in Hz as [s Hz].
  unfold Vector_lerp. simpl. rewrite add_spec, mul_spec.
  apply spec_add_wild, spec_mul_wild.
  unfold Plane_cut. rewrite div_spec, Hz. apply spec_div_zero.
Qed.
End Zeros.

(** ** The same calls from two heaps that are alike *)

Section Follows.
Context {S : Type}.
Variables (v0 p0 : ref -> ref -> Prop) (nv nv' np np' : nat).
Variable alikeP : Plane -> Plane -> Prop.
Variable sound : Vector -> Prop.
Hypothesis Hbase : base_ok v0 p0 nv nv' np np'.
Hypothesis alikeP_refl : forall p, alikeP p p.
Hypothesis alikeP_flip :
  forall p q, alikeP p q -> alikeP (Plane_flip p) (Plane_flip q).
Hypothesis alikeP_clone :
  forall p q, alikeP p q -> alikeP (Plane_clone p) (Plane_clone q).
Hypothesis alikeP_classify :
  forall p q x, alikeP p q -> Plane_classify p x = Plane_classify q x.
Hypothesis alikeP_facing :
  forall p q p2 q2, alikeP p q -> alikeP p2 q2 ->
    (0 <? Vector_dot (Plane_normal p) (Plane_normal p2))%float
    = (0 <? Vector_dot (Plane_normal q) (Plane_normal q2))%float.
Hypothesis alikeP_cut :
  forall p q a b, alikeP p q ->
    Z.lor (Plane_classify p a) (Plane_classify p b) = SPANNING ->
    sound (Vector_lerp a b (Plane_cut p a b)) ->
    Plane_cut p a b = Plane_cut q a b.

#[local] Abbreviation samev := (samev v0 nv nv').
#[local] Abbreviation samep := (samep p0 np np').
#[local] Abbreviation same_chains := (same_chains v0 nv nv').
#[local] Abbreviation same_polygon :=
  (same_polygon (S := S) v0 nv nv' alikeP).
#[local] Abbreviation alike := (alike (S := S) v0 p0 nv nv' np np' alikeP).
#[local] Abbreviation same_plane := (same_plane alikeP).
#[local] Abbreviation Node_alike := (Node_alike p0 np np' alikeP).
#[local] Abbreviation same_child := (same_child p0 np np' alikeP).
#[local] Abbreviation sound_heap := (sound_heap (S := S) nv sound).
#[local] Abbreviation before := (sound_before (S := S) nv sound).
#[local] Abbreviation follows_from :=
  (follows (S := S) v0 p0 nv nv' np np' alikeP sound).
#[local] Abbreviation follows := (follows_from (fun _ => True)).

Lemma samev_fun a b b' : samev a b -> samev a b' -> b = b'.
Proof using Hbase.
  destruct Hbase as (Hin & Hfun & _).
  intros [H|[? ?]] [H'|[? ?]]; [by eapply Hfun| | |lia].
  - apply Hin in H. lia.
  - apply Hin in H'. lia.
Qed.

Lemma samev_inj a a' b : samev a b -> samev a' b -> a = a'.
Proof using Hbase.
  destruct Hbase as (Hin & _ & Hinj & _).
  intros [H|[? ?]] [H'|[? ?]]; [by eapply Hinj| | |lia].
  - apply Hin in H. lia.
  - apply Hin in H'. lia.
Qed.

Lemma samep_fun a b b' : samep a b -> samep a b' -> b = b'.
Proof using Hbase.
  destruct Hbase as (_ & _ & _ & Hin & Hfun & _).
  intros [H|[? ?]] [H'|[? ?]]; [by eapply Hfun| | |lia].
  - apply Hin in H. lia.
  - apply Hin in H'. lia.
Qed.

Lemma samep_inj a a' b : samep a b -> samep a' b -> a = a'.
Proof using Hbase.
  destruct Hbase as (_ & _ & _ & Hin & _ & Hinj).
  intros [H|[? ?]] [H'|[? ?]]; [by eapply Hinj| | |lia].
  - apply Hin in H. lia.
  - apply Hin in H'. lia.
Qed.

(** *** Sound heaps come from sound heaps *)

Lemma before_refl h : before h h.
Proof. by intros H. Qed.

Lemma before_trans h1 h2 h3 : before h1 h2 -> before h2 h3 -> before h1 h3.
Proof. unfold sound_before. auto. Qed.

Lemma before_unchanged h h' : unchanged h h' -> before h h'.
Proof. intros [Hv _] Hs v x Hge Hx. apply (Hs v x Hge). by apply Hv. Qed.

Lemma before_settled h h' : settled h h' -> before h h'.
Proof.
  intros [Hv _] Hs v x Hge Hx.
  destruct (Hv v x Hx) as [H|H]; by apply (Hs v _ Hge) in H.
Qed.

Lemma backs_grows {A} (m : M S A) : grows m -> steps before m.
Proof. intros H h. apply before_unchanged, H. Qed.

Lemma backs_settled {A} (m : M S A) : steps settled m -> steps before m.
Proof. intros H h. apply before_settled, H. Qed.

Lemma sound_back {A} (m : M S A) h a h1 :
  steps before m -> m h = (Ok a, h1) -> sound_heap h1 -> sound_heap h.
Proof. intros Hm E. specialize (Hm h). by rewrite E in Hm. Qed.

Lemma backs_ret {A} (a : A) : steps before (ret a).
Proof. apply steps_ret, before_refl. Qed.

Lemma backs_throw {A} e : steps before (throw (A := A) e).
Proof. apply steps_throw, before_refl. Qed.

Lemma backs_bind {A B} (m : M S A) (k : A -> M S B) :
  steps before m -> (forall a, steps before (k a)) ->
  steps before (let* x := m in k x).
Proof. apply steps_bind; [apply before_refl | apply before_trans]. Qed.

Lemma backs_index {A} (a : list A) i : steps before (index a i).
Proof. apply steps_index, before_refl. Qed.

Lemma backs_getVertex v : steps before (getVertex v).
Proof. apply steps_getVertex, before_refl. Qed.

Lemma backs_getPolygon r : steps before (getPolygon r).
Proof. apply steps_getPolygon, before_refl. Qed.

Lemma backs_fold {A B} (f : B -> A -> M S B) l :
  (forall b a, steps before (f b a)) -> forall b, steps before (Array_fold f l b).
Proof. apply steps_fold; [apply before_refl | apply before_trans]. Qed.

Lemma backs_map {A B} (f : A -> M S B) l :
  (forall a, steps before (f a)) -> steps before (Array_map f l).
Proof. apply steps_map; [apply before_refl | apply before_trans]. Qed.

Lemma backs_forEach {A} (f : A -> M S unit) l :
  (forall a, steps before (f a)) -> steps before (Array_forEach f l).
Proof. apply steps_forEach; [apply before_refl | apply before_trans]. Qed.

Lemma backs_newVertex x : steps before (newVertex x).
Proof. apply backs_grows, grows_newVertex. Qed.

Lemma backs_newPolygon (p : Polygon S) : steps before (newPolygon p).
Proof. apply backs_grows, grows_newPolygon. Qed.

Lemma backs_setPolygon r (p : Polygon S) : steps before (setPolygon r p).
Proof.
  intros h. unfold setPolygon.
  destruct (polygonStore h !! r); [|apply before_refl]. by intros Hs.
Qed.

Lemma backs_Vertex_new pos normal : steps before (Vertex_new pos normal).
Proof. apply backs_newVertex. Qed.

Lemma backs_Vertex_clone v : steps before (Vertex_clone v).
Proof. apply backs_grows, grows_Vertex_clone. Qed.

Lemma backs_Vertex_interpolate v w t :
  steps before (Vertex_interpolate v w t).
Proof. apply backs_grows, grows_Vertex_interpolate. Qed.

Lemma backs_Vertex_flip v : steps before (Vertex_flip v).
Proof. apply backs_settled, steps_settled_Vertex_flip. Qed.

Lemma backs_Polygon_new vs (shared : option S) :
  steps before (Polygon_new vs shared).
Proof. apply backs_grows, grows_Polygon_new. Qed.

Lemma backs_Polygon_clone r : steps before (Polygon_clone r).
Proof. apply backs_grows, grows_Polygon_clone. Qed.

Lemma backs_Polygon_flip r : steps before (Polygon_flip r).
Proof. apply backs_settled, steps_settled_Polygon_flip. Qed.

Lemma backs_Plane_types (this : Plane) vs :
  steps before (Plane_types this vs).
Proof. apply backs_grows, grows_Plane_types. Qed.

Lemma backs_Plane_splitEdge (this : Plane) vs types fb i :
  steps before (Plane_splitEdge this vs types fb i).
Proof. apply backs_grows, grows_Plane_splitEdge. Qed.

Lemma backs_Plane_splitChains (this : Plane) vs types :
  steps before (Plane_splitChains this vs types).
Proof. apply backs_grows, grows_Plane_splitChains. Qed.

Lemma backs_Plane_splitPolygon {F} (this : Plane) r
    (cF cB fo bo : OutArray F) fr :
  steps before (Plane_splitPolygon this r cF cB fo bo fr).
Proof. apply backs_grows, grows_Plane_splitPolygon. Qed.

Lemma backs_Node_clipPolygons (n : Node) ps :
  steps before (Node_clipPolygons n ps).
Proof. apply backs_grows, grows_Node_clipPolygons. Qed.

Lemma backs_Node_clipTo (n bsp : Node) : steps before (Node_clipTo n bsp).
Proof. apply backs_grows, grows_Node_clipTo. Qed.

Lemma backs_Node_build fuel (n : Node) ps :
  steps before (Node_build fuel n ps).
Proof. apply backs_grows, grows_Node_build. Qed.

Lemma backs_Node_invert (n : Node) : steps before (Node_invert n).
Proof.
  apply steps_Node_invert;
    [apply before_refl | apply before_trans | apply backs_Polygon_flip].
Qed.

Lemma backs_CSG_clone (c : CSG) : steps before (CSG_clone c).
Proof. apply backs_grows, grows_CSG_clone. Qed.

Local Ltac solve_backs :=
  intros;
  repeat first
    [ apply backs_ret | apply backs_throw | apply backs_index
    | apply backs_getVertex | apply backs_getPolygon
    | apply backs_newVertex | apply backs_newPolygon | apply backs_setPolygon
    | apply backs_Vertex_new | apply backs_Vertex_clone
    | apply backs_Vertex_flip | apply backs_Vertex_interpolate
    | apply backs_Polygon_new | apply backs_Polygon_clone
    | apply backs_Polygon_flip
    | apply backs_Plane_types | apply backs_Plane_splitEdge
    | apply backs_Plane_splitChains | apply backs_Plane_splitPolygon
    | apply backs_Node_clipPolygons | apply backs_Node_clipTo
    | apply backs_Node_invert | apply backs_Node_build
    | apply backs_CSG_clone
    | apply backs_fold; intros | apply backs_map; intros
    | apply backs_forEach; intros
    | apply backs_bind; [|intros]
    | match goal with
      | |- steps _ (match ?x with _ => _ end) => destruct x
      end ].

(** *** The monad *)

Lemma follows_ret {A} P (Q : A -> A -> Prop) a a' :
  Q a a' -> follows_from P Q (ret a) (ret a').
Proof. intros HQ h h' Hh _ b h1 [= <- <-] _. by exists a', h'. Qed.

Lemma follows_throw {A} P (Q : A -> A -> Prop) e (m' : M S A) :
  follows_from P Q (throw e) m'.
Proof. by intros h h' Hh _ b h1 E. Qed.

Lemma follows_from_bind {A B} P (P1 : A -> Heap S -> Prop)
    (QA : A -> A -> Prop) (QB : B -> B -> Prop)
    (m m' : M S A) (k k' : A -> M S B) :
  follows_from P QA m m' ->
  (forall a, steps before (k a)) ->
  (forall h a h1, P h -> m h = (Ok a, h1) -> P1 a h1) ->
  (forall a a', QA a a' -> follows_from (P1 a) QB (k a) (k' a')) ->
  follows_from P QB (let* x := m in k x) (let* x := m' in k' x).
Proof.
  intros Hm Hback HP Hk h h' Hh HPh b h2 E Hs.
  apply bind_Ok_inv in E as (a & h1 & Em & Ek).
  pose proof (sound_back _ _ _ _ (Hback a) Ek Hs) as Hs1.
  destruct (Hm h h' Hh HPh a h1 Em Hs1) as (a' & h1' & Em' & Hh1 & Ha).
  destruct (Hk a a' Ha h1 h1' Hh1 (HP _ _ _ HPh Em) b h2 Ek Hs)
    as (b' & h2' & Ek' & Hh2 & Hb).
  exists b', h2'. split; [|done]. by rewrite (bind_Ok _ _ _ _ _ Em').
Qed.

Lemma follows_bind {A B} P (QA : A -> A -> Prop) (QB : B -> B -> Prop)
    (m m' : M S A) (k k' : A -> M S B) :
  follows_from P QA m m' ->
  (forall a, steps before (k a)) ->
  (forall a a', QA a a' -> follows QB (k a) (k' a')) ->
  follows_from P QB (let* x := m in k x) (let* x := m' in k' x).
Proof.
  intros Hm Hback Hk.
  by apply (follows_from_bind P (fun _ _ => True) QA).
Qed.

Lemma follows_weaken {A} P P' (Q Q' : A -> A -> Prop) (m m' : M S A) :
  follows_from P Q m m' -> (forall h, P' h -> P h) ->
  (forall a a', Q a a' -> Q' a a') -> follows_from P' Q' m m'.
Proof.
  intros Hm HP HQ h h' Hh HPh a h1 E Hs.
  destruct (Hm h h' Hh (HP h HPh) a h1 E Hs) as (a' & h1' & E' & Hh1 & Ha).
  eauto 6.
Qed.

Lemma follows_any {A} P (Q : A -> A -> Prop) (m m' : M S A) :
  follows Q m m' -> follows_from P Q m m'.
Proof. intros Hm. by apply (follows_weaken (fun _ => True) P Q Q). Qed.

Lemma follows_ex {A X} (P : X -> Heap S -> Prop) (Q : A -> A -> Prop)
    (m m' : M S A) :
  (forall x, follows_from (P x) Q m m') ->
  follows_from (fun h => exists x, P x h) Q m m'.
Proof. intros H h h' Hh [x Hx]. by apply (H x). Qed.

Lemma follows_pure {A} P (phi : Prop) (Q : A -> A -> Prop) (m m' : M S A) :
  (phi -> follows_from P Q m m') ->
  follows_from (fun h => P h /\ phi) Q m m'.
Proof. intros H h h' Hh [HP Hphi]. by apply H. Qed.

Lemma follows_if {A} P (Q : A -> A -> Prop) (c : bool)
    (m1 m2 m1' m2' : M S A) :
  follows_from P Q m1 m1' -> follows_from P Q m2 m2' ->
  follows_from P Q (if c then m1 else m2) (if c then m1' else m2').
Proof. by destruct c. Qed.

Lemma follows_index {A} (R : A -> A -> Prop) l l' i :
  Forall2 R l l' -> follows R (index l i) (index l' i).
Proof.
  intros Hl h h' Hh _ a h1 [Ha ->]%index_Ok_inv _.
  destruct (Forall2_lookup_l _ _ _ _ _ Hl Ha) as (a' & Ha' & HR).
  exists a', h'. split; [|done]. unfold index. by rewrite Ha'.
Qed.

Lemma follows_fold {A B} (R : A -> A -> Prop) (Q : B -> B -> Prop)
    (f f' : B -> A -> M S B) :
  (forall b a, steps before (f b a)) ->
  (forall b b' a a', Q b b' -> R a a' -> follows Q (f b a) (f' b' a')) ->
  forall l l', Forall2 R l l' ->
    forall b b', Q b b' -> follows Q (Array_fold f l b) (Array_fold f' l' b').
Proof.
  intros Hback Hf l l' Hl.
  induction Hl as [|a a' l l' Ha Hl IH]; intros b b' Hb.
  - by apply follows_ret.
  - simpl. eapply follows_bind; [by apply Hf|solve_backs; apply Hback|].
    intros b1 b1' Hb1. by apply IH.
Qed.

Lemma follows_map {A B} (R : A -> A -> Prop) (Q : B -> B -> Prop)
    (f f' : A -> M S B) :
  (forall a, steps before (f a)) ->
  (forall a a', R a a' -> follows Q (f a) (f' a')) ->
  forall l l', Forall2 R l l' ->
    follows (Forall2 Q) (Array_map f l) (Array_map f' l').
Proof.
  intros Hback Hf l l' Hl. induction Hl as [|a a' l l' Ha Hl IH]; simpl.
  - apply follows_ret. constructor.
  - eapply follows_bind; [by apply Hf|solve_backs; apply Hback|].
    intros b b' Hb.
    eapply follows_bind; [exact IH|solve_backs|]. intros bs bs' Hbs.
    apply follows_ret. by constructor.
Qed.

Lemma follows_forEach {A} (R : A -> A -> Prop) (f f' : A -> M S unit) :
  (forall a, steps before (f a)) ->
  (forall a a', R a a' -> follows (fun _ _ => True) (f a) (f' a')) ->
  forall l l', Forall2 R l l' ->
    follows (fun _ _ => True) (Array_forEach f l) (Array_forEach f' l').
Proof.
  intros Hback Hf l l' Hl. induction Hl as [|a a' l l' Ha Hl IH]; simpl.
  - by apply follows_ret.
  - eapply follows_bind; [by apply Hf|solve_backs; apply Hback|].
    intros _ _ _. exact IH.
Qed.

(** *** The heap operations *)

Lemma follows_getVertex a b :
  samev a b -> follows eq (getVertex a) (getVertex b).
Proof.
  intros Hab h h' Hh _ x h1 [Hx ->]%getVertex_Ok_inv _.
  pose proof Hh as (_ & _ & _ & _ & Hv & _).
  exists x, h'. split; [|done]. unfold getVertex.
  by rewrite (Hv a b x Hab Hx).
Qed.

Lemma follows_getPolygon a b :
  samep a b -> follows same_polygon (getPolygon a) (getPolygon b).
Proof.
  intros Hab h h' Hh _ p h1 [Hp ->]%getPolygon_Ok_inv _.
  pose proof Hh as (_ & _ & _ & _ & _ & Hpp).
  destruct (Hpp a b p Hab Hp) as (p' & Hp' & Hsame).
  exists p', h'. split; [|done]. unfold getPolygon. by rewrite Hp'.
Qed.

Lemma follows_newVertex x : follows samev (newVertex x) (newVertex x).
Proof using Hbase.
  intros h h' (Hnv & Hlv & Hnp & Hlp & Hv & Hp) _ a h1 E _.
  unfold newVertex in E. injection E as <- <-.
  eexists _, _. split; [reflexivity|]. split; [|right; lia].
  split; [simpl; rewrite length_app; lia|].
  split; [simpl; rewrite !length_app; simpl; lia|].
  split; [done|]. split; [done|]. split; [|done].
  simpl. intros a b y Hab Hy.
  destruct (decide (a < length (vertexStore h))) as [Hlt|Hge].
  - rewrite lookup_app_l in Hy by done.
    apply lookup_app_l_Some. by eapply Hv.
  - assert (a = length (vertexStore h)) as ->.
    { apply lookup_lt_Some in Hy. rewrite length_app in Hy. simpl in Hy. lia. }
    rewrite list_lookup_middle in Hy by done. injection Hy as <-.
    assert (b = length (vertexStore h')) as ->.
    { eapply samev_fun; [exact Hab|]. right. lia. }
    by apply list_lookup_middle.
Qed.

Lemma follows_setVertex a b x :
  samev a b -> follows (fun _ _ => True) (setVertex a x) (setVertex b x).
Proof using Hbase.
  intros Hab h h' Hh _ u h1 E _.
  pose proof Hh as (Hnv & Hlv & Hnp & Hlp & Hv & Hp).
  unfold setVertex in E.
  destruct (vertexStore h !! a) as [y|] eqn:Hy; [|done]. injection E as <- <-.
  exists tt. eexists. unfold setVertex. rewrite (Hv a b y Hab Hy).
  split; [reflexivity|]. split; [|done].
  split; [simpl; by rewrite length_insert|].
  split; [simpl; by rewrite !length_insert|].
  split; [done|]. split; [done|]. split; [|done].
  simpl. intros c d z Hcd Hz.
  destruct (decide (c = a)) as [->|Hne].
  - assert (d = b) as -> by (by eapply samev_fun).
    rewrite list_lookup_insert_eq in Hz by (by eapply lookup_lt_Some).
    rewrite list_lookup_insert_eq; [done|].
    eapply lookup_lt_Some. by eapply Hv.
  - rewrite list_lookup_insert_ne in Hz by done.
    rewrite list_lookup_insert_ne; [by eapply Hv|].
    intros ->. apply Hne. by eapply samev_inj.
Qed.

Lemma follows_newPolygon (p p' : Polygon S) :
  same_polygon p p' -> follows samep (newPolygon p) (newPolygon p').
Proof using Hbase.
  intros Hpp h h' (Hnv & Hlv & Hnp & Hlp & Hv & Hp) _ a h1 E _.
  unfold newPolygon in E. injection E as <- <-.
  eexists _, _. split; [reflexivity|]. split; [|right; lia].
  split; [done|]. split; [done|].
  split; [simpl; rewrite length_app; lia|].
  split; [simpl; rewrite !length_app; simpl; lia|].
  split; [done|].
  simpl. intros a b q Hab Hq.
  destruct (decide (a < length (polygonStore h))) as [Hlt|Hge].
  - rewrite lookup_app_l in Hq by done.
    destruct (Hp a b q Hab Hq) as (q' & Hq' & Hsame).
    exists q'. split; [|done]. by apply lookup_app_l_Some.
  - assert (a = length (polygonStore h)) as ->.
    { apply lookup_lt_Some in Hq. rewrite length_app in Hq. simpl in Hq. lia. }
    rewrite list_lookup_middle in Hq by done. injection Hq as <-.
    assert (b = length (polygonStore h')) as ->.
    { eapply samep_fun; [exact Hab|]. right. lia. }
    exists p'. split; [|done]. by apply list_lookup_middle.
Qed.

Lemma follows_setPolygon a b (p p' : Polygon S) :
  samep a b -> same_polygon p p' ->
  follows (fun _ _ => True) (setPolygon a p) (setPolygon b p').
Proof using Hbase.
  intros Hab Hpp h h' Hh _ u h1 E _.
  pose proof Hh as (Hnv & Hlv & Hnp & Hlp & Hv & Hp).
  unfold setPolygon in E.
  destruct (polygonStore h !! a) as [q|] eqn:Hq; [|done]. injection E as <- <-.
  destruct (Hp a b q Hab Hq) as (q' & Hq' & _).
  exists tt. eexists. unfold setPolygon. rewrite Hq'.
  split; [reflexivity|]. split; [|done].
  split; [done|]. split; [done|].
  split; [simpl; by rewrite length_insert|].
  split; [simpl; by rewrite !length_insert|].
  split; [done|].
  simpl. intros c d z Hcd Hz.
  destruct (decide (c = a)) as [->|Hne].
  - assert (d = b) as -> by (by eapply samep_fun).
    rewrite list_lookup_insert_eq in Hz by (by eapply lookup_lt_Some).
    injection Hz as <-. exists p'. split; [|done].
    apply list_lookup_insert_eq. by eapply lookup_lt_Some.
  - rewrite list_lookup_insert_ne in Hz by done.
    destruct (Hp c d z Hcd Hz) as (z' & Hz' & Hsame).
    exists z'. split; [|done]. rewrite list_lookup_insert_ne; [done|].
    intros ->. apply Hne. by eapply samep_inj.
Qed.

(** *** The methods *)

Lemma follows_Vertex_new pos normal :
  follows samev (Vertex_new pos normal) (Vertex_new pos normal).
Proof using Hbase. apply follows_newVertex. Qed.

Lemma follows_Vertex_clone a b :
  samev a b -> follows samev (Vertex_clone a) (Vertex_clone b).
Proof using Hbase.
  intros Hab. eapply follows_bind; [by apply follows_getVertex|solve_backs|].
  intros x ? <-. apply follows_Vertex_new.
Qed.

Lemma follows_Vertex_flip a b :
  samev a b -> follows (fun _ _ => True) (Vertex_flip a) (Vertex_flip b).
Proof using Hbase.
  intros Hab h h' Hh _ u h1 E Hs. unfold Vertex_flip in E.
  apply bind_Ok_inv in E as (x & ? & [Hx ->]%getVertex_Ok_inv & E).
  destruct (follows_setVertex a b _ Hab h h' Hh I u h1 E Hs)
    as (u' & h1' & E' & Hh1 & _).
  exists u', h1'. split; [|done]. unfold Vertex_flip.
  pose proof Hh as (_ & _ & _ & _ & Hv & _).
  by run_with (getVertex_Some h' b x (Hv a b x Hab Hx)).
Qed.

Lemma follows_Vertex_interpolate a1 a2 b1 b2 t :
  samev a1 b1 -> samev a2 b2 ->
  follows samev (Vertex_interpolate a1 a2 t) (Vertex_interpolate b1 b2 t).
Proof using Hbase.
  intros H1 H2.
  eapply follows_bind; [by apply follows_getVertex|solve_backs|].
  intros x ? <-.
  eapply follows_bind; [by apply follows_getVertex|solve_backs|].
  intros y ? <-. apply follows_Vertex_new.
Qed.

Lemma follows_Polygon_new vs vs' (shared : option S) :
  Forall2 samev vs vs' ->
  follows samep (Polygon_new vs shared) (Polygon_new vs' shared).
Proof using Hbase alikeP_refl.
  intros Hvs. unfold Polygon_new.
  eapply follows_bind; [by apply (follows_index samev)|solve_backs|].
  intros r0 r0' H0.
  eapply follows_bind; [by apply follows_getVertex|solve_backs|].
  intros x0 ? <-.
  eapply follows_bind; [by apply (follows_index samev)|solve_backs|].
  intros r1 r1' H1.
  eapply follows_bind; [by apply follows_getVertex|solve_backs|].
  intros x1 ? <-.
  eapply follows_bind; [by apply (follows_index samev)|solve_backs|].
  intros r2 r2' H2.
  eapply follows_bind; [by apply follows_getVertex|solve_backs|].
  intros x2 ? <-.
  apply follows_newPolygon. by repeat split.
Qed.

Lemma follows_Polygon_clone a b :
  samep a b -> follows samep (Polygon_clone a) (Polygon_clone b).
Proof using Hbase alikeP_refl.
  intros Hab. unfold Polygon_clone.
  eapply follows_bind; [by apply follows_getPolygon|solve_backs|].
  intros p p' (Hvs & Hs & Hpl).
  eapply follows_bind.
  { apply (follows_map samev samev); [solve_backs| |exact Hvs].
    intros. by apply follows_Vertex_clone. }
  { solve_backs. }
  intros vs vs' Hvs'. rewrite Hs. by apply follows_Polygon_new.
Qed.

Lemma follows_Polygon_flip a b :
  samep a b -> follows (fun _ _ => True) (Polygon_flip a) (Polygon_flip b).
Proof using Hbase alikeP_flip.
  intros Hab. unfold Polygon_flip.
  eapply follows_bind; [by apply follows_getPolygon|solve_backs|].
  intros p p' (Hvs & Hs & Hpl).
  assert (Hrev : Forall2 samev (rev (Polygon_vertices p))
                               (rev (Polygon_vertices p'))).
  { rewrite !rev_as_reverse. by apply Forall2_reverse. }
  eapply follows_bind.
  { apply follows_setPolygon; [done|]. by repeat split. }
  { solve_backs. }
  intros _ _ _. eapply follows_bind.
  { apply (follows_forEach samev); [solve_backs| |exact Hrev].
    intros. by apply follows_Vertex_flip. }
  { solve_backs. }
  intros _ _ _.
  eapply follows_bind; [by apply follows_getPolygon|solve_backs|].
  intros q q' (Hvs' & Hs' & Hpl').
  apply follows_setPolygon; [done|]. repeat split; simpl; auto.
Qed.

Lemma follows_Plane_types (this this' : Plane) vs vs' :
  alikeP this this' -> Forall2 samev vs vs' ->
  follows eq (Plane_types this vs) (Plane_types this' vs').
Proof using alikeP_classify.
  intros Hthis Hvs. unfold Plane_types.
  eapply (follows_weaken (fun _ => True)); [|done|].
  { apply (follows_map samev eq); [solve_backs| |exact Hvs]. intros a b Hab.
    eapply follows_bind; [by apply follows_getVertex|solve_backs|].
    intros x ? <-. apply follows_ret. by apply alikeP_classify. }
  intros l l' Hl. by apply list_eq_Forall2.
Qed.

(** One turn of the loop of [case SPANNING]: the vertex pushed to the back
    chain, and the vertex made where the edge crosses the plane. *)
Lemma follows_splitEdge_back (ti : Z) vi vi' b b' :
  samev vi vi' -> Forall2 samev b b' ->
  follows (Forall2 samev)
    (if negb (ti =? FRONT)%Z
     then let* v := if negb (ti =? BACK)%Z
                    then Vertex_clone vi else ret vi in
          ret (b ++ [v])
     else ret b)
    (if negb (ti =? FRONT)%Z
     then let* v := if negb (ti =? BACK)%Z
                    then Vertex_clone vi' else ret vi' in
          ret (b' ++ [v])
     else ret b').
Proof using Hbase.
  intros Hvi Hb. apply follows_if; [|by apply follows_ret].
  eapply follows_bind.
  - apply follows_if; [by apply follows_Vertex_clone|].
    apply follows_ret. exact Hvi.
  - solve_backs.
  - intros v v' Hv. apply follows_ret. apply Forall2_app; [done|].
    by constructor.
Qed.

Lemma follows_splitEdge_cut vi vj vi' vj' t f f' b b' :
  samev vi vi' -> samev vj vj' ->
  Forall2 samev f f' -> Forall2 samev b b' ->
  follows same_chains
    (let* v := Vertex_interpolate vi vj t in
     let* v' := Vertex_clone v in
     ret (f ++ [v], b ++ [v']))
    (let* v := Vertex_interpolate vi' vj' t in
     let* v' := Vertex_clone v in
     ret (f' ++ [v], b' ++ [v'])).
Proof using Hbase.
  intros Hvi Hvj Hf Hb.
  eapply follows_bind; [by apply follows_Vertex_interpolate|solve_backs|].
  intros v v' Hv.
  eapply follows_bind; [by apply follows_Vertex_clone|solve_backs|].
  intros w w' Hw.
  apply follows_ret. split; simpl; (apply Forall2_app; [done|]);
    by constructor.
Qed.

Lemma follows_Plane_splitEdge (this this' : Plane) vs vs' xs fb fb' i :
  alikeP this this' -> Forall2 samev vs vs' -> same_chains fb fb' ->
  follows_from (fun h => vertexObjects h vs = Some xs) same_chains
    (Plane_splitEdge this vs
       (map (fun x => Plane_classify this (Vertex_pos x)) xs) fb i)
    (Plane_splitEdge this' vs'
       (map (fun x => Plane_classify this (Vertex_pos x)) xs) fb' i).
Proof using Hbase alikeP_cut.
  intros Hthis Hvs [Hf Hb]. destruct fb as [f b], fb' as [f' b'].
  simpl in Hf, Hb.
  set (types := map (fun x => Plane_classify this (Vertex_pos x)) xs).
  intros h h' Hh Hxs r h1 E Hs.
  unfold Plane_splitEdge in E |- *. rewrite <- (Forall2_length _ _ _ Hvs).
  set (j := (i + 1) mod length vs) in *.
  apply bind_Ok_inv in E as (ti & ? & [Hti ->]%index_Ok_inv & E).
  apply bind_Ok_inv in E as (tj & ? & [Htj ->]%index_Ok_inv & E).
  apply bind_Ok_inv in E as (vi & ? & [Hvi ->]%index_Ok_inv & E).
  apply bind_Ok_inv in E as (vj & ? & [Hvj ->]%index_Ok_inv & E).
  destruct (Forall2_lookup_l _ _ _ _ _ Hvs Hvi) as (vi' & Hvi' & Hsi).
  destruct (Forall2_lookup_l _ _ _ _ _ Hvs Hvj) as (vj' & Hvj' & Hsj).
  run_with (index_Some (S := S) types i ti h' Hti).
  run_with (index_Some (S := S) types j tj h' Htj).
  run_with (index_Some (S := S) vs' i vi' h' Hvi').
  run_with (index_Some (S := S) vs' j vj' h' Hvj').
  apply bind_Ok_inv in E as (b1 & h2 & Eb & E).
  assert (Hs2 : sound_heap h2).
  { eapply sound_back; [|exact E|exact Hs]. solve_backs. }
  assert (Hu2 : unchanged h h2).
  { eapply unchanged_run; [|exact Eb].
    apply grows_if; [|apply grows_ret].
    apply grows_bind; [|intros; apply grows_ret].
    apply grows_if; [apply grows_Vertex_clone | apply grows_ret]. }
  destruct (follows_splitEdge_back ti vi vi' b b' Hsi Hb h h' Hh I b1 h2
              Eb Hs2) as (b1' & h2' & Eb' & Hh2 & Hb1).
  run_with Eb'.
  assert (Hf1 : Forall2 samev (if negb (ti =? BACK)%Z then f ++ [vi] else f)
                              (if negb (ti =? BACK)%Z then f' ++ [vi']
                               else f')).
  { destruct (negb (ti =? BACK)%Z); [|done].
    apply Forall2_app; [done|]. by constructor. }
  destruct (Z.lor ti tj =? SPANNING)%Z eqn:Hspan.
  2:{ injection E as <- <-. eexists _, h2'. split; [reflexivity|].
      split; [done|]. by split. }
  apply bind_Ok_inv in E as (pi & ? & [Hpi ->]%getVertex_Ok_inv & E).
  apply bind_Ok_inv in E as (pj & ? & [Hpj ->]%getVertex_Ok_inv & E).
  pose proof Hh2 as (Hnv2 & _ & _ & _ & Hv2 & _).
  run_with (getVertex_Some h2' vi' pi (Hv2 _ _ _ Hsi Hpi)).
  run_with (getVertex_Some h2' vj' pj (Hv2 _ _ _ Hsj Hpj)).
  assert (Hty : forall k vk tk pk,
            vs !! k = Some vk -> types !! k = Some tk ->
            vertexStore h2 !! vk = Some pk ->
            tk = Plane_classify this (Vertex_pos pk)).
  { intros k vk tk pk Hvk Htk Hpk.
    destruct (vertexObjects_lookup h vs xs k vk Hxs Hvk) as (x & Hx & Hvx).
    apply (proj1 Hu2) in Hvx.
    assert (pk = x) as -> by congruence.
    unfold types in Htk. rewrite list_lookup_fmap, Hx in Htk.
    by injection Htk as <-. }
  assert (Ht : Plane_cut this (Vertex_pos pi) (Vertex_pos pj)
               = Plane_cut this' (Vertex_pos pi) (Vertex_pos pj)).
  { apply alikeP_cut; [done| |].
    - rewrite <- (Hty i vi ti pi Hvi Hti Hpi).
      rewrite <- (Hty j vj tj pj Hvj Htj Hpj). by apply Z.eqb_eq.
    - apply bind_Ok_inv in E as (v & h3 & Ev & E).
      assert (Hs3 : sound_heap h3).
      { eapply sound_back; [|exact E|exact Hs]. solve_backs. }
      unfold Vertex_interpolate in Ev.
      rewrite (bind_Ok _ _ _ _ _ (getVertex_Some h2 vi pi Hpi)) in Ev.
      rewrite (bind_Ok _ _ _ _ _ (getVertex_Some h2 vj pj Hpj)) in Ev.
      unfold Vertex_new, newVertex in Ev. injection Ev as <- <-.
      specialize (Hs3 (length (vertexStore h2)) _ Hnv2
                      (list_lookup_middle _ _ _ _ eq_refl)).
      simpl in Hs3. by rewrite Vector_clone_id in Hs3. }
  fold (Plane_cut this (Vertex_pos pi) (Vertex_pos pj)) in E.
  fold (Plane_cut this' (Vertex_pos pi) (Vertex_pos pj)). rewrite <- Ht.
  exact (follows_splitEdge_cut vi vj vi' vj' _ _ _ _ _ Hsi Hsj Hf1 Hb1
           h2 h2' Hh2 I r h1 E Hs).
Qed.

Lemma follows_Plane_splitChains (this this' : Plane) vs vs' xs :
  alikeP this this' -> Forall2 samev vs vs' ->
  follows_from (fun h => vertexObjects h vs = Some xs) same_chains
    (Plane_splitChains this vs
       (map (fun x => Plane_classify this (Vertex_pos x)) xs))
    (Plane_splitChains this' vs'
       (map (fun x => Plane_classify this (Vertex_pos x)) xs)).
Proof using Hbase alikeP_cut.
  intros Hthis Hvs. unfold Plane_splitChains.
  rewrite <- (Forall2_length _ _ _ Hvs).
  generalize (seq 0 (length vs)). intros l.
  assert (G : forall fb fb', same_chains fb fb' ->
    follows_from (fun h => vertexObjects h vs = Some xs) same_chains
      (Array_fold (Plane_splitEdge this vs
         (map (fun x => Plane_classify this (Vertex_pos x)) xs)) l fb)
      (Array_fold (Plane_splitEdge this' vs'
         (map (fun x => Plane_classify this (Vertex_pos x)) xs)) l fb')).
  { induction l as [|i l IH]; intros fb fb' Hfb.
    - by apply follows_ret.
    - simpl.
      eapply (follows_from_bind _ (fun _ h => vertexObjects h vs = Some xs)).
      + by apply follows_Plane_splitEdge.
      + solve_backs.
      + intros h fb1 h1 Hxs E.
        eapply vertexObjects_unchanged; [|exact Hxs].
        eapply unchanged_run; [|exact E]. apply grows_Plane_splitEdge.
      + intros fb1 fb1' Hfb1. by apply IH. }
  apply G. split; constructor.
Qed.

Lemma follows_Plane_splitPolygon {F} (FR : F -> F -> Prop)
    (this this' : Plane) r r' (cF cB fo bo : OutArray F) fr fr' :
  (forall a q q' x x', a = cF \/ a = cB \/ a = fo \/ a = bo ->
     samep q q' -> FR x x' -> FR (push a q x) (push a q' x')) ->
  alikeP this this' -> samep r r' -> FR fr fr' ->
  follows FR (Plane_splitPolygon this r cF cB fo bo fr)
             (Plane_splitPolygon this' r' cF cB fo bo fr').
Proof using All.
  intros Hpush Hthis Hr Hfr. unfold Plane_splitPolygon.
  eapply follows_bind; [by apply follows_getPolygon|solve_backs|].
  intros p p' (Hvs & Hs & Hpl).
  eapply (follows_from_bind _
            (fun types h =>
               exists xs, vertexObjects h (Polygon_vertices p) = Some xs
                 /\ types = map (fun x => Plane_classify this (Vertex_pos x))
                                xs)).
  { by apply follows_Plane_types. }
  { solve_backs. }
  { intros h types h1 _ E.
    apply Plane_types_Ok_inv in E as (-> & xs & Hxs & ->). eauto. }
  intros types ? <-.
  rewrite <- Hs, (alikeP_facing this this' _ _ Hthis Hpl).
  apply follows_if.
  { apply follows_ret. destruct (_ <? _)%float; apply Hpush; auto. }
  apply follows_if; [apply follows_ret; apply Hpush; auto|].
  apply follows_if; [apply follows_ret; apply Hpush; auto|].
  apply follows_if; [|by apply follows_ret].
  apply follows_ex. intros xs. apply follows_pure. intros ->.
  eapply follows_bind; [by apply follows_Plane_splitChains|solve_backs|].
  intros [f b] [f' b'] [Hf Hb]. simpl in Hf, Hb.
  rewrite <- (Forall2_length _ _ _ Hf), <- (Forall2_length _ _ _ Hb).
  eapply (follows_bind _ FR).
  { apply follows_if; [|by apply follows_ret].
    eapply follows_bind; [by apply follows_Polygon_new|solve_backs|].
    intros q q' Hq. apply follows_ret. apply Hpush; auto. }
  { solve_backs. }
  intros fr1 fr1' Hfr1.
  apply follows_if; [|by apply follows_ret].
  eapply follows_bind; [by apply follows_Polygon_new|solve_backs|].
  intros q q' Hq. apply follows_ret. apply Hpush; auto.
Qed.

(** *** The methods of [Node] *)

Lemma Node_alike_allPolygons (n : Node) :
  forall n', Node_alike n n' ->
             Forall2 samep (Node_allPolygons n) (Node_allPolygons n').
Proof.
  induction n as [plane front back polygons IHf IHb] using Node_induction.
  intros [plane' front' back' polygons'] (_ & Hps & Hf & Hb). simpl in *.
  apply Forall2_app; [done|]. apply Forall2_app.
  - destruct front as [c|], front' as [c'|]; try done.
    by apply IHf.
  - destruct back as [c|], back' as [c'|]; try done.
    by apply IHb.
Qed.

Lemma Node_alike_empty : Node_alike Node_empty Node_empty.
Proof. repeat split. constructor. Qed.

Lemma follows_Node_clipPolygons (n : Node) :
  forall n' ps ps', Node_alike n n' -> Forall2 samep ps ps' ->
    follows (Forall2 samep) (Node_clipPolygons n ps)
                            (Node_clipPolygons n' ps').
Proof using All.
  induction n as [plane front back polygons IHf IHb] using Node_induction.
  intros [plane' front' back' polygons'] ps ps' (Hpl & _ & Hf & Hb) Hps.
  simpl in *.
  destruct plane as [plane|], plane' as [plane'|]; try done;
    [|by apply follows_ret].
  eapply (follows_bind _ (fun fr fr' => Forall2 samep fr.1 fr'.1
                                        /\ Forall2 samep fr.2 fr'.2)).
  { apply (follows_fold samep); [solve_backs| |done|by split; constructor].
    intros fr fr' p p' Hfr Hp.
    apply follows_Plane_splitPolygon; [|done|done|done].
    intros a q q' [f b] [f' b'] [->|[->|[->| ->]]] Hq [H1 H2]; simpl in *;
      split; try done; (apply Forall2_app; [done|]); by constructor. }
  { solve_backs. }
  intros [f b] [f' b'] [H1 H2]. simpl in H1, H2.
  eapply (follows_bind _ (Forall2 samep)).
  { destruct front as [c|], front' as [c'|]; try done;
      [by apply IHf | by apply follows_ret]. }
  { solve_backs. }
  intros f1 f1' Hf1.
  eapply (follows_bind _ (Forall2 samep)).
  { destruct back as [c|], back' as [c'|]; try done; [by apply IHb|].
    apply follows_ret. constructor. }
  { solve_backs. }
  intros b1 b1' Hb1. apply follows_ret. by apply Forall2_app.
Qed.

Lemma follows_child (f f' : Node -> M S Node) (c c' : option Node) :
  same_child c c' ->
  (forall n n', c = Some n -> c' = Some n' -> Node_alike n n' ->
                follows Node_alike (f n) (f' n')) ->
  follows same_child
    match c with
    | Some n => let* n' := f n in ret (Some n')
    | None => ret None
    end
    match c' with
    | Some n => let* n' := f' n in ret (Some n')
    | None => ret None
    end.
Proof.
  intros Hc Hf. destruct c as [n|], c' as [n'|]; try done;
    [|by apply follows_ret].
  eapply follows_bind; [by apply Hf|solve_backs|].
  intros t t' Ht. by apply follows_ret.
Qed.

Lemma follows_Node_clipTo (n : Node) :
  forall n' bsp bsp', Node_alike n n' -> Node_alike bsp bsp' ->
    follows Node_alike (Node_clipTo n bsp) (Node_clipTo n' bsp').
Proof using All.
  induction n as [plane front back polygons IHf IHb] using Node_induction.
  intros [plane' front' back' polygons'] bsp bsp' (Hpl & Hps & Hf & Hb) Hbsp.
  simpl in *.
  eapply follows_bind; [by apply follows_Node_clipPolygons|solve_backs|].
  intros qs qs' Hqs.
  eapply (follows_bind _ same_child).
  { apply (follows_child (fun n => Node_clipTo n bsp)
                         (fun n => Node_clipTo n bsp')); [done|].
    intros c c' -> -> Hc. by apply IHf. }
  { solve_backs. }
  intros nf nf' Hnf.
  eapply (follows_bind _ same_child).
  { apply (follows_child (fun n => Node_clipTo n bsp)
                         (fun n => Node_clipTo n bsp')); [done|].
    intros c c' -> -> Hc. by apply IHb. }
  { solve_backs. }
  intros nb nb' Hnb. apply follows_ret. by repeat split.
Qed.

Lemma follows_Node_invert (n : Node) :
  forall n', Node_alike n n' ->
    follows Node_alike (Node_invert n) (Node_invert n').
Proof using Hbase alikeP_flip.
  induction n as [plane front back polygons IHf IHb] using Node_induction.
  intros [plane' front' back' polygons'] (Hpl & Hps & Hf & Hb).
  simpl in *.
  eapply follows_bind.
  { apply (follows_forEach samep); [solve_backs| |exact Hps].
    intros. by apply follows_Polygon_flip. }
  { solve_backs. }
  intros _ _ _.
  destruct plane as [plane|], plane' as [plane'|]; try done.
  eapply (follows_bind _ same_child).
  { apply (follows_child Node_invert Node_invert); [done|].
    intros c c' -> -> Hc. by apply IHf. }
  { solve_backs. }
  intros nf nf' Hnf.
  eapply (follows_bind _ same_child).
  { apply (follows_child Node_invert Node_invert); [done|].
    intros c c' -> -> Hc. by apply IHb. }
  { solve_backs. }
  intros nb nb' Hnb. apply follows_ret. repeat split; try done.
  by apply alikeP_flip.
Qed.

Lemma Node_alike_default (c c' : option Node) :
  same_child c c' ->
  Node_alike (default Node_empty c) (default Node_empty c').
Proof.
  destruct c, c'; try done; intros _; apply Node_alike_empty.
Qed.

Lemma follows_Node_build (fuel : nat) :
  forall n n' ps ps', Node_alike n n' -> Forall2 samep ps ps' ->
    follows Node_alike (Node_build fuel n ps) (Node_build fuel n' ps').
Proof using All.
  induction fuel as [|fuel IH]; intros n n' ps ps' Hn Hps;
    destruct Hps as [|q0 q0' ps ps' Hq0 Hps];
    try (by apply follows_ret); [apply follows_throw|].
  destruct n as [plane front back polygons],
           n' as [plane' front' back' polygons'].
  destruct Hn as (Hpl & Hown & Hf & Hb). simpl in Hpl, Hown, Hf, Hb.
  cbn [Node_build Node_plane Node_front Node_back Node_polygons].
  eapply (follows_bind _ alikeP).
  { destruct plane as [plane|], plane' as [plane'|]; try done;
      [by apply follows_ret|].
    eapply follows_bind; [by apply follows_getPolygon|solve_backs|].
    intros p p' (_ & _ & Hpl'). apply follows_ret. by apply alikeP_clone. }
  { solve_backs. }
  intros pl pl' Hpls.
  eapply (follows_bind _ (fun fr fr' => Forall2 samep fr.1.1 fr'.1.1
                                        /\ Forall2 samep fr.1.2 fr'.1.2
                                        /\ Forall2 samep fr.2 fr'.2)).
  { apply (follows_fold samep); [solve_backs| |by constructor|].
    - intros fr fr' p p' Hfr Hp.
      apply follows_Plane_splitPolygon; [|done|done|done].
      intros a q q' [[o f] b] [[o' f'] b'] [->|[->|[->| ->]]] Hq (H1 & H2 & H3);
        simpl in *; repeat split; try done;
        (apply Forall2_app; [done|]); by constructor.
    - simpl. repeat split; [done|constructor|constructor]. }
  { solve_backs. }
  intros [[own f] b] [[own' f'] b'] (H1 & H2 & H3). simpl in H1, H2, H3.
  eapply (follows_bind _ same_child).
  { destruct H2 as [|q q' f f' Hq H2]; [by apply follows_ret|].
    eapply follows_bind.
    - apply IH; [by apply Node_alike_default|by constructor].
    - solve_backs.
    - intros t t' Ht. by apply follows_ret. }
  { solve_backs. }
  intros nf nf' Hnf.
  eapply (follows_bind _ same_child).
  { destruct H3 as [|q q' b b' Hq H3]; [by apply follows_ret|].
    eapply follows_bind.
    - apply IH; [by apply Node_alike_default|by constructor].
    - solve_backs.
    - intros t t' Ht. by apply follows_ret. }
  { solve_backs. }
  intros nb nb' Hnb. apply follows_ret. by repeat split.
Qed.

Lemma follows_clip_sequence fuel (a a' b b' : Node) :
  Node_alike a a' -> Node_alike b b' ->
  follows Node_alike (clip_sequence fuel a b) (clip_sequence fuel a' b').
Proof using All.
  intros Ha Hb. unfold clip_sequence.
  eapply follows_bind; [by apply follows_Node_clipTo|solve_backs|].
  intros a1 a1' Ha1.
  eapply follows_bind; [by apply follows_Node_clipTo|solve_backs|].
  intros b1 b1' Hb1.
  eapply follows_bind; [by apply follows_Node_invert|solve_backs|].
  intros b2 b2' Hb2.
  eapply follows_bind; [by apply follows_Node_clipTo|solve_backs|].
  intros b3 b3' Hb3.
  eapply follows_bind; [by apply follows_Node_invert|solve_backs|].
  intros b4 b4' Hb4.
  apply follows_Node_build; [done|]. by apply Node_alike_allPolygons.
Qed.

(** The tree of a solid: [new Node(this.clone().polygons)]. *)
Lemma follows_tree fuel (ps ps' : list ref) :
  Forall2 samep ps ps' ->
  follows Node_alike
    (let* c := CSG_clone (mkCSG ps) in Node_new fuel (CSG_polygons c))
    (let* c := CSG_clone (mkCSG ps') in Node_new fuel (CSG_polygons c)).
Proof using All.
  intros Hps. unfold CSG_clone. simpl.
  eapply (follows_bind _ (fun c c' => Forall2 samep (CSG_polygons c)
                                                    (CSG_polygons c'))).
  { eapply follows_bind.
    - apply (follows_map samep samep); [solve_backs| |exact Hps].
      intros. by apply follows_Polygon_clone.
    - solve_backs.
    - intros qs qs' Hqs. by apply follows_ret. }
  { intros c. apply backs_Node_build. }
  intros c c' Hc. apply follows_Node_build; [apply Node_alike_empty|done].
Qed.

(** The steps that [subtract] makes after the two trees, and the heaps
    they come from. *)
Lemma backs_clip_sequence fuel (a b : Node) :
  steps before (clip_sequence fuel a b).
Proof. unfold clip_sequence. solve_backs. Qed.

Lemma backs_tree fuel (ps : list ref) :
  steps before
    (let* c := CSG_clone (mkCSG ps) in Node_new fuel (CSG_polygons c)).
Proof.
  apply backs_bind; [apply backs_CSG_clone|]. intros c.
  apply backs_Node_build.
Qed.
End Follows.

(** ** Building the tree from flipped polygons *)

Lemma polygonTypeOf_rev (l : list Z) : polygonTypeOf (rev l) = polygonTypeOf l.
Proof.
  unfold polygonTypeOf.
  assert (G : forall m acc x,
            fold_left Z.lor m (Z.lor acc x) = Z.lor (fold_left Z.lor m acc) x).
  { induction m as [|y m IH]; intros acc x; simpl; [done|].
    rewrite <- IH. f_equal. rewrite <- !Z.lor_assoc. f_equal.
    apply Z.lor_comm. }
  induction l as [|x l IH]; simpl; [done|].
  rewrite fold_left_app, IH. simpl. by rewrite <- G.
Qed.

Section BuildFlipped.
Context {S : Type}.
Implicit Types (h : Heap S).

Lemma polygonTypeIn_faceOf h pl r :
  polygonTypeIn h pl r
  = (fun f => polygonTypeOf
                (map (fun x => Plane_classify pl (Vertex_pos x))
                     (Face_vertices f))) <$> faceOf h r.
Proof.
  unfold polygonTypeIn, faceOf.
  destruct (polygonStore h !! r) as [p|]; simpl; [|done].
  by destruct (vertexObjects h (Polygon_vertices p)).
Qed.

(** The type of a polygon after a flip, against the flipped plane. *)
Lemma polygonTypeIn_flipped h hf pl r f :
  faceOf h r = Some f -> faceOf hf r = Some (Face_flipped f) ->
  polygonTypeIn hf (Plane_flip pl) r = flipType <$> polygonTypeIn h pl r.
Proof.
  intros Hf Hff. rewrite !polygonTypeIn_faceOf, Hf, Hff. simpl. f_equal.
  rewrite map_rev, polygonTypeOf_rev, map_map. simpl.
  rewrite <- (map_map Vertex_pos (Plane_classify (Plane_flip pl))).
  rewrite <- (map_map Vertex_pos (Plane_classify pl)).
  apply polygonTypeOf_flip.
Qed.

Lemma hasType_flipped h hf pl r f t :
  faceOf h r = Some f -> faceOf hf r = Some (Face_flipped f) ->
  hasType hf (Plane_flip pl) t r = hasType h pl (flipType t) r.
Proof.
  intros Hf Hff. unfold hasType.
  rewrite (polygonTypeIn_flipped h hf pl r f Hf Hff).
  destruct (polygonTypeIn h pl r) as [t'|]; simpl; [|done].
  unfold flipType, FRONT, BACK.
  repeat (case_match; try lia).
Qed.

Lemma whole_flipped h hf pl r f :
  faceOf h r = Some f -> faceOf hf r = Some (Face_flipped f) ->
  whole hf (Plane_flip pl) r = whole h pl r.
Proof.
  intros Hf Hff. unfold whole.
  rewrite (polygonTypeIn_flipped h hf pl r f Hf Hff).
  destruct (polygonTypeIn h pl r) as [t'|]; simpl; [|done].
  unfold flipType, FRONT, BACK, SPANNING.
  repeat (case_match; try lia).
Qed.

Lemma flipped_in_filter h hf (P : ref -> bool) ps :
  flipped_in h hf ps -> flipped_in h hf (List.filter P ps).
Proof.
  intros H. apply Forall_forall. intros r Hr%elem_of_filter_bool.
  unfold flipped_in in H. rewrite Forall_forall in H. by apply H.
Qed.

Lemma never_split_filter h (P : ref -> bool) ps :
  never_split h ps -> never_split h (List.filter P ps).
Proof.
  intros H r r' p Hr%elem_of_filter_bool Hr'%elem_of_filter_bool. by apply H.
Qed.

Lemma mirror_empty : Node_mirror Node_empty = Node_empty.
Proof. reflexivity. Qed.

(** [new Node(polygons)] on polygons that are not split, and on the same
    polygons flipped: the second tree is the first one inverted. *)
Lemma build_flipped (fuel : nat) :
  forall ps h hf t h',
    flipped_in h hf ps -> never_split h ps ->
    Node_build fuel Node_empty ps h = (Ok t, h') ->
    h' = h
    /\ Node_allPolygons t ≡ₚ ps
    /\ Node_build fuel Node_empty ps hf = (Ok (Node_mirror t), hf).
Proof.
  induction fuel as [|fuel IH]; intros ps h hf t h' Hfl Hns E;
    destruct ps as [|p0 ps]; try done;
    try (by injection E as <- <-).
  assert (Hp0 := Forall_inv Hfl). destruct Hp0 as (f0 & Hf0 & Hff0).
  pose proof Hf0 as (p & Hp & _ & _ & Hplane)%faceOf_Some.
  pose proof Hff0 as (pf & Hpf & _ & _ & Hplanef)%faceOf_Some.
  simpl in Hplanef. rewrite Hplane in Hplanef.
  set (pl := Polygon_plane p) in *.
  assert (Hwhole : Forall (fun r => whole h pl r = true) (p0 :: ps)).
  { apply Forall_forall. intros r Hr. apply (Hns p0 r p); [by left|done..]. }
  assert (Hview : forall r, r ∈ p0 :: ps ->
            exists f, faceOf h r = Some f
                      /\ faceOf hf r = Some (Face_flipped f)).
  { intros r Hr. unfold flipped_in in Hfl. rewrite Forall_forall in Hfl.
    by apply Hfl. }
  assert (Hwholef : Forall (fun r => whole hf (Plane_flip pl) r = true)
                           (p0 :: ps)).
  { apply Forall_forall. intros r Hr. destruct (Hview r Hr) as (f & Hf & Hff).
    rewrite (whole_flipped h hf pl r f Hf Hff).
    rewrite Forall_forall in Hwhole. by apply Hwhole. }
  assert (Hfilter : forall t,
            List.filter (hasType hf (Plane_flip pl) t) (p0 :: ps)
            = List.filter (hasType h pl (flipType t)) (p0 :: ps)).
  { intros t0. apply filter_ext_in. intros r Hr%list_elem_of_In.
    destruct (Hview r Hr) as (f & Hf & Hff). by eapply hasType_flipped. }
  pose proof (types_partition pl h (p0 :: ps) Hwhole) as Hparts.
  cbn [Node_build Node_plane Node_front Node_back Node_polygons
       Node_empty] in E |- *.
  rewrite (bind_Ok _ _ _ _ _
             (build_plane_Ok h Node_empty p0 ps pl
                ltac:(unfold splitting_plane; simpl; by rewrite Hp))) in E.
  rewrite (bind_Ok _ _ _ _ _
             (build_loop_whole pl h (p0 :: ps) [] [] [] Hwhole)) in E.
  rewrite (bind_Ok _ _ _ _ _
             (build_plane_Ok hf Node_empty p0 ps (Plane_flip pl)
                ltac:(unfold splitting_plane; simpl; by rewrite Hpf, Hplanef))).
  rewrite (bind_Ok _ _ _ _ _
             (build_loop_whole (Plane_flip pl) hf (p0 :: ps) [] [] []
                Hwholef)).
  rewrite !Hfilter. change (flipType COPLANAR) with COPLANAR.
  change (flipType FRONT) with BACK. change (flipType BACK) with FRONT.
  pose proof (flipped_in_filter h hf (hasType h pl FRONT) _ Hfl) as HflF.
  pose proof (flipped_in_filter h hf (hasType h pl BACK) _ Hfl) as HflB.
  pose proof (never_split_filter h (hasType h pl FRONT) _ Hns) as HnsF.
  pose proof (never_split_filter h (hasType h pl BACK) _ Hns) as HnsB.
  revert E Hparts HflF HflB HnsF HnsB.
  generalize (List.filter (hasType h pl FRONT) (p0 :: ps)).
  generalize (List.filter (hasType h pl BACK) (p0 :: ps)).
  generalize (List.filter (hasType h pl COPLANAR) (p0 :: ps)).
  intros cl bl fl E Hparts HflF HflB HnsF HnsB. cbv iota beta in E |- *.
  rewrite !app_nil_l in *.
  apply bind_Ok_inv in E as (nf & h3 & Ef & E).
  apply bind_Ok_inv in E as (nb & h4 & Eb & [= <- <-]).
  assert (Gf : h3 = h
               /\ match nf with Some c => Node_allPolygons c | None => [] end
                  ≡ₚ fl
               /\ (match fl with
                   | [] => ret None
                   | _ :: _ =>
                       let* n := Node_build fuel Node_empty fl in ret (Some n)
                   end) hf = (Ok (Node_mirror <$> nf), hf)).
  { destruct fl as [|q fl'].
    - unfold ret in Ef. by injection Ef as <- <-.
    - apply bind_Ok_inv in Ef as (c & h5 & Ec & [= <- <-]).
      apply (IH _ _ hf) in Ec as (-> & Hc & Ec); [|done..].
      split; [done|]. split; [done|]. by run_with Ec. }
  destruct Gf as (-> & Hnf & Ef').
  assert (Gb : h4 = h
               /\ match nb with Some c => Node_allPolygons c | None => [] end
                  ≡ₚ bl
               /\ (match bl with
                   | [] => ret None
                   | _ :: _ =>
                       let* n := Node_build fuel Node_empty bl in ret (Some n)
                   end) hf = (Ok (Node_mirror <$> nb), hf)).
  { destruct bl as [|q bl'].
    - unfold ret in Eb. by injection Eb as <- <-.
    - apply bind_Ok_inv in Eb as (c & h5 & Ec & [= <- <-]).
      apply (IH _ _ hf) in Ec as (-> & Hc & Ec); [|done..].
      split; [done|]. split; [done|]. by run_with Ec. }
  destruct Gb as (-> & Hnb & Eb').
  split; [done|]. split.
  - simpl. by rewrite Hnf, Hnb, Hparts.
  - run_with Eb'. run_with Ef'. unfold ret. simpl.
    by destruct nf, nb.
Qed.
End BuildFlipped.

(** ** Reading two heaps that are alike *)

Section AlikeReading.
Context {S : Type}.
Variables (v0 p0 : ref -> ref -> Prop) (nv nv' np np' : nat).
Variable alikeP : Plane -> Plane -> Prop.
Implicit Types (h : Heap S).

#[local] Abbreviation samev := (samev v0 nv nv').
#[local] Abbreviation samep := (samep p0 np np').
#[local] Abbreviation alike := (alike (S := S) v0 p0 nv nv' np np' alikeP).

Lemma positions_faceOf h r :
  positions h r
  = (fun f : Face S => map Vertex_pos (Face_vertices f)) <$> faceOf h r.
Proof.
  unfold positions, faceOf.
  destruct (polygonStore h !! r) as [p|]; simpl; [|done].
  by destruct (vertexObjects h (Polygon_vertices p)).
Qed.

Lemma alike_vertexObjects h h' vs vs' xs :
  alike h h' -> Forall2 samev vs vs' ->
  vertexObjects h vs = Some xs -> vertexObjects h' vs' = Some xs.
Proof.
  intros (_ & _ & _ & _ & Hv & _) Hvs. rewrite !vertexObjects_Forall2.
  revert xs. induction Hvs as [|a b vs vs' Hab Hvs IH]; intros xs Hxs.
  - inversion Hxs. constructor.
  - inversion Hxs as [|? x ? xs' Hx Hxs']; subst. constructor; [|by apply IH].
    by eapply Hv.
Qed.

(** Paired polygons read as faces: the same vertices and the same tag. *)
Lemma alike_faceOf h h' r r' f :
  alike h h' -> samep r r' -> faceOf h r = Some f ->
  exists f', faceOf h' r' = Some f'
             /\ Face_vertices f' = Face_vertices f
             /\ Face_shared f' = Face_shared f
             /\ alikeP (Face_plane f) (Face_plane f').
Proof.
  intros Hh Hr (p & Hp & Hxs & Hs & Hpl)%faceOf_Some.
  pose proof Hh as (_ & _ & _ & _ & _ & Hpp).
  destruct (Hpp r r' p Hr Hp) as (p' & Hp' & Hvs & Hs' & Hpl').
  exists (mkFace (Face_vertices f) (Polygon_shared p') (Polygon_plane p')).
  split; [|simpl; repeat split; congruence].
  apply faceOf_Some. exists p'. split; [done|].
  split; [by eapply alike_vertexObjects|]. by split.
Qed.
End AlikeReading.

Section SameTrees.
Context {S : Type}.
Variables (p0 : ref -> ref -> Prop) (np np' : nat).

(** With every object paired with itself and every plane with itself, two
    trees alike are the same. *)
Lemma Node_alike_eq (n : Node) :
  (forall a b, samep p0 np np' a b -> a = b) ->
  forall n', Node_alike p0 np np' eq n n' -> n = n'.
Proof.
  intros Hid.
  induction n as [plane front back polygons IHf IHb] using Node_induction.
  intros [plane' front' back' polygons'] (Hpl & Hps & Hf & Hb).
  simpl in *. f_equal.
  - destruct plane, plane'; try done. by f_equal.
  - destruct front as [c|], front' as [c'|]; try done. f_equal. by apply IHf.
  - destruct back as [c|], back' as [c'|]; try done. f_equal. by apply IHb.
  - apply list_eq_Forall2. eapply Forall2_impl; [exact Hps|]. exact Hid.
Qed.
End SameTrees.

Section Glue.
Context {S : Type}.
Implicit Types (h : Heap S).

Lemma heap_eq h h' :
  (forall v, vertexStore h !! v = vertexStore h' !! v) ->
  (forall r, polygonStore h !! r = polygonStore h' !! r) ->
  h = h'.
Proof.
  intros Hv Hp. destruct h as [vs ps], h' as [vs' ps']. simpl in *.
  f_equal; by apply list_eq.
Qed.

(** [map(p => p.clone())] has returned: the polygons had three vertices
    or more. *)
Lemma Polygon_clone_Ok_inv h r q h' :
  Polygon_clone r h = (Ok q, h') ->
  exists p, polygonStore h !! r = Some p /\ 3 <= length (Polygon_vertices p).
Proof.
  unfold Polygon_clone. intros E.
  apply bind_Ok_inv in E as (p & h1 & [Hp ->]%getPolygon_Ok_inv & E).
  apply bind_Ok_inv in E as (vs & h1 & Evs & E).
  exists p. split; [done|].
  apply map_Vertex_clone_Ok_inv in Evs as [-> _].
  unfold Polygon_new in E.
  apply bind_Ok_inv in E as (r0 & h2 & _ & E).
  apply bind_Ok_inv in E as (x0 & h3 & _ & E).
  apply bind_Ok_inv in E as (r1 & h4 & _ & E).
  apply bind_Ok_inv in E as (x1 & h5 & _ & E).
  apply bind_Ok_inv in E as (r2 & h6 & [Hr2 _]%index_Ok_inv & _).
  apply lookup_lt_Some in Hr2. rewrite length_seq in Hr2. lia.
Qed.

Lemma clones_Ok_inv ps :
  forall h qs h', Forall (valid_polygon h) ps ->
    Array_map Polygon_clone ps h = (Ok qs, h') ->
    Forall (fun r => clonable h r = true) ps.
Proof.
  induction ps as [|r ps IH]; intros h qs h' Hps E; [constructor|].
  simpl in E. apply bind_Ok_inv in E as (q & h1 & Eq & E).
  apply bind_Ok_inv in E as (qs' & h2 & Eqs & _).
  pose proof (unchanged_run _ _ _ _ (grows_Polygon_clone r) Eq) as Hu.
  apply Forall_cons in Hps as [Hr Hps].
  assert (Hval : forall r', valid_polygon h r' ->
                   (exists p, polygonStore h !! r' = Some p
                              /\ 3 <= length (Polygon_vertices p)) ->
                   clonable h r' = true).
  { intros r' Hr' (p & Hp & Hlen).
    destruct (valid_polygon_lookup h r' Hr') as (p' & Hp' & Hvs).
    assert (p' = p) as -> by congruence.
    destruct (vertexObjects_total h _ Hvs) as [xs Hxs].
    assert (Hf : faceOf h r'
                 = Some (mkFace xs (Polygon_shared p) (Polygon_plane p))).
    { apply faceOf_Some. by exists p. }
    unfold clonable. rewrite Hf. cbn [Face_vertices].
    apply Nat.leb_le. erewrite vertexObjects_length by done. done. }
  constructor.
  - apply Hval; [done|]. by eapply Polygon_clone_Ok_inv.
  - assert (Hps1 : Forall (valid_polygon h1) ps).
    { eapply Forall_impl; [exact Hps|]. intros r'.
      by apply valid_polygon_unchanged. }
    specialize (IH _ _ _ Hps1 Eqs).
    rewrite Forall_forall in IH, Hps |- *. intros r' Hr'.
    apply Hval; [by apply Hps|].
    specialize (IH r' Hr'). unfold clonable in IH.
    destruct (faceOf h1 r') as [f|] eqn:Hf; [|done].
    apply faceOf_Some in Hf as (p & Hp & Hxs & _).
    destruct (valid_polygon_lookup h r' (Hps r' Hr')) as (p' & Hp' & _).
    pose proof (proj2 Hu _ _ Hp') as Hp1.
    assert (p' = p) as -> by congruence.
    exists p. split; [done|]. apply Nat.leb_le in IH.
    by erewrite <- vertexObjects_length.
Qed.

(** A vertex of polygons that share no vertex is at one place only. *)
Lemma vertex_place_unique h ps :
  NoDup (vertexRefs h ps) ->
  forall i i' r r' p p' j j' a,
    ps !! i = Some r -> ps !! i' = Some r' ->
    polygonStore h !! r = Some p -> polygonStore h !! r' = Some p' ->
    Polygon_vertices p !! j = Some a -> Polygon_vertices p' !! j' = Some a ->
    i = i' /\ j = j'.
Proof.
  induction ps as [|q ps IH]; intros Hnd i i' r r' p p' j j' a Hi Hi' Hp Hp'
    Hj Hj'; [done|].
  rewrite vertexRefs_cons in Hnd. apply NoDup_app in Hnd as (Hq & Hdisj & Hps).
  destruct i as [|i], i' as [|i']; simpl in Hi, Hi'.
  - injection Hi as <-. injection Hi' as <-. split; [done|].
    rewrite Hp in Hq, Hp'. injection Hp' as <-.
    exact (NoDup_lookup _ _ _ _ Hq Hj Hj').
  - injection Hi as <-. rewrite Hp in Hdisj. exfalso.
    apply (Hdisj a); [by eapply list_elem_of_lookup_2|].
    eapply elem_of_vertexRefs; [by eapply list_elem_of_lookup_2|done|].
    by eapply list_elem_of_lookup_2.
  - injection Hi' as <-. rewrite Hp' in Hdisj. exfalso.
    apply (Hdisj a); [by eapply list_elem_of_lookup_2|].
    eapply elem_of_vertexRefs; [by eapply list_elem_of_lookup_2|done|].
    by eapply list_elem_of_lookup_2.
  - destruct (IH Hps i i' r r' p p' j j' a) as [-> ->]; done.
Qed.

(** The clips and inversions of [union] keep the polygons apart. *)
Lemma clip_sequence_live fuel (a b : Node) others h a' h' :
  live h (Node_allPolygons a ++ Node_allPolygons b ++ others) ->
  clip_sequence fuel a b h = (Ok a', h') ->
  live h' (Node_allPolygons a' ++ others).
Proof.
  intros H E. unfold clip_sequence in E.
  apply bind_Ok_inv in E as (a1 & h1 & E1 & E).
  apply (clip_a_live _ _ _ _ _ _ H) in E1.
  apply bind_Ok_inv in E as (b1 & h2 & E2 & E).
  apply (clip_b_live _ _ _ _ _ _ E1) in E2.
  apply bind_Ok_inv in E as (b2 & h3 & E3 & E).
  apply (invert_b_live _ _ _ _ _ _ E2) in E3.
  apply bind_Ok_inv in E as (b3 & h4 & E4 & E).
  apply (clip_b_live _ _ _ _ _ _ E3) in E4.
  apply bind_Ok_inv in E as (b4 & h5 & E5 & E).
  apply (invert_b_live _ _ _ _ _ _ E4) in E5.
  by apply (build_a_live _ _ _ _ _ _ _ E5) in E.
Qed.
End Glue.

(** ** A list of polygons and its clone *)

Section CloneAlike.
Context {S : Type}.
Variables (g : Heap S) (ps bs : list ref).
Variable alikeP : Plane -> Plane -> Prop.
Hypothesis alikeP_refl : forall p, alikeP p p.
Hypothesis Hclon : Forall (fun r => clonable g r = true) ps.
Hypothesis Hsep : separate g ps.
Hypothesis Hplanes :
  forall r f, r ∈ ps -> faceOf g r = Some f ->
              alikeP (Face_plane f) (facePlane (Face_vertices f)).
Hypothesis Hbs : Forall (valid_polygon g) bs.
Hypothesis Hdisj_p : forall r, r ∈ bs -> r ∉ ps.
Hypothesis Hdisj_v : forall v, v ∈ vertexRefs g bs -> v ∉ vertexRefs g ps.

#[local] Abbreviation qs := (seq (length (polygonStore g)) (length ps)).

(** The polygons of a list whose planes are like the planes of their
    first three vertices, and their clones: the heap before [clone] and the heap
    after it are alike, with each polygon paired with its clone and the
    polygons of another list paired with themselves. *)
Lemma clone_alike :
  exists g',
    Array_map Polygon_clone ps g = (Ok qs, g')
    /\ unchanged g g'
    /\ let V0 a b := paired_vertices g g' ps qs a b
                     \/ kept (vertexRefs g bs) a b in
       let P0 a b := paired ps qs a b \/ kept bs a b in
       let nv := length (vertexStore g) in
       let nv' := length (vertexStore g') in
       let np := length (polygonStore g) in
       let np' := length (polygonStore g') in
       base_ok V0 P0 nv nv' np np'
       /\ alike V0 P0 nv nv' np np' alikeP g g'
       /\ Forall2 (samep P0 np np') ps qs
       /\ Forall2 (samep P0 np np') bs bs.
Proof using All.
  destruct (clones_Ok ps g Hclon) as (g' & E & Hcopy & Hu & Hlen & Hvr).
  exists g'. split; [done|]. split; [done|]. intros V0 P0 nv nv' np np'.
  destruct Hsep as [Hndp Hndv].
  pose proof (unchanged_lengths g g' Hu) as [Hlv Hlp].
  assert (Hndq : NoDup qs) by apply NoDup_seq.
  assert (Hndvq : NoDup (vertexRefs g' qs)) by (rewrite Hvr; apply NoDup_seq).
  assert (Hpair : forall r q, paired ps qs r q -> copy_of g g' r q).
  { intros r q (i & Hi & Hi'). by eapply Forall2_lookup_lr. }
  assert (Hps_in : forall r q, paired ps qs r q -> r ∈ ps /\ q ∈ qs).
  { intros r q (i & Hi & Hi'). split; by eapply list_elem_of_lookup_2. }
  assert (Hvalid : forall r, r ∈ ps -> valid_polygon g r).
  { intros r Hr. apply faceOf_valid, clonable_is_Some.
    rewrite Forall_forall in Hclon. by apply Hclon. }
  assert (Hvalidq : forall r q, paired ps qs r q -> valid_polygon g' q).
  { intros r q (f & _ & Hf & _)%Hpair. apply faceOf_valid. eauto. }
  assert (Hfreshv : forall v, v ∈ vertexRefs g' qs -> nv <= v).
  { intros v Hv. rewrite Hvr in Hv. apply elem_of_seq in Hv. unfold nv. lia. }
  assert (Hfreshq : forall q, q ∈ qs -> np <= q).
  { intros q Hq. apply elem_of_seq in Hq. unfold np. lia. }
  assert (Hbs_lt : forall r, r ∈ bs -> r < np).
  { intros r Hr. rewrite Forall_forall in Hbs.
    by apply valid_polygon_lt, Hbs. }
  assert (Hbsv_lt : forall v, v ∈ vertexRefs g bs -> v < nv).
  { intros v Hv. by eapply vertexRefs_lt. }
  (* where the vertices of a pair are *)
  assert (Hpv : forall a b, paired_vertices g g' ps qs a b ->
            exists i j r q p p' (f : Face S),
              ps !! i = Some r /\ qs !! i = Some q
              /\ polygonStore g !! r = Some p
              /\ polygonStore g' !! q = Some p'
              /\ Polygon_vertices p !! j = Some a
              /\ Polygon_vertices p' !! j = Some b
              /\ vertexObjects g (Polygon_vertices p) = Some (Face_vertices f)
              /\ vertexObjects g' (Polygon_vertices p')
                 = Some (Face_vertices f)).
  { intros a b (r & q & p & p' & Hrq & Hp & Hp' & (j & Hj & Hj')).
    pose proof Hrq as (i & Hi & Hi').
    destruct (Hpair r q Hrq) as (f & Hf & Hf' & _).
    apply faceOf_Some in Hf as (p1 & Hp1 & Hxs & _).
    apply faceOf_Some in Hf' as (p2 & Hp2 & Hxs' & _).
    assert (p1 = p) as -> by congruence.
    assert (p2 = p') as -> by congruence.
    exists i, j, r, q, p, p', f. by repeat split. }
  split; [|split; [|split]].
  - (* the pairs of the start *)
    split; [|split; [|split; [|split; [|split]]]].
    + intros a b [Hab|[-> Hb]].
      * destruct (Hpv a b Hab)
          as (i & j & r & q & p & p' & f & _ & _ & _ & _ & Hj & Hj' & Hxs & Hxs').
        apply vertexObjects_Forall in Hxs, Hxs'.
        rewrite Forall_forall in Hxs, Hxs'. split.
        -- apply Hxs. by eapply list_elem_of_lookup_2.
        -- apply Hxs'. by eapply list_elem_of_lookup_2.
      * apply Hbsv_lt in Hb. unfold nv, nv' in *. lia.
    + intros a b b' [Hab|[Ea Hb]] [Hab'|[Ea' Hb']]; [| | |congruence].
      * destruct (Hpv a b Hab)
          as (i & j & r & q & p & p' & f & Hi & Hq & Hp & Hp' & Hj & Hj' & _).
        destruct (Hpv a b' Hab')
          as (i2 & j2 & r2 & q2 & p2 & p2' & f2 & Hi2 & Hq2 & Hp2 & Hp2'
              & Hj2 & Hj2' & _).
        destruct (vertex_place_unique g ps Hndv i i2 r r2 p p2 j j2 a)
          as [<- <-]; try done.
        assert (q2 = q) as -> by congruence.
        assert (p2' = p') as -> by congruence. congruence.
      * exfalso. destruct (Hpv a b Hab)
          as (i & j & r & q & p & p' & f & Hi & _ & Hp & _ & Hj & _).
        apply (Hdisj_v a Hb').
        eapply elem_of_vertexRefs; [by eapply list_elem_of_lookup_2|done|].
        by eapply list_elem_of_lookup_2.
      * exfalso. destruct (Hpv a b' Hab')
          as (i & j & r & q & p & p' & f & Hi & _ & Hp & _ & Hj & _).
        apply (Hdisj_v a Hb).
        eapply elem_of_vertexRefs; [by eapply list_elem_of_lookup_2|done|].
        by eapply list_elem_of_lookup_2.
    + intros a a' b [Hab|[Ea Hb]] [Hab'|[Ea' Hb']]; [| | |congruence].
      * destruct (Hpv a b Hab)
          as (i & j & r & q & p & p' & f & Hi & Hq & Hp & Hp' & Hj & Hj' & _).
        destruct (Hpv a' b Hab')
          as (i2 & j2 & r2 & q2 & p2 & p2' & f2 & Hi2 & Hq2 & Hp2 & Hp2'
              & Hj2 & Hj2' & _).
        destruct (vertex_place_unique g' qs Hndvq i i2 q q2 p' p2' j j2 b)
          as [<- <-]; try done.
        assert (r2 = r) as -> by congruence.
        assert (p2 = p) as -> by congruence. congruence.
      * exfalso. destruct (Hpv a b Hab)
          as (i & j & r & q & p & p' & f & _ & Hq & _ & Hp' & _ & Hj' & _).
        assert (nv <= b); [|apply Hbsv_lt in Hb'; lia].
        apply Hfreshv.
        eapply elem_of_vertexRefs; [by eapply list_elem_of_lookup_2|done|].
        by eapply list_elem_of_lookup_2.
      * exfalso. destruct (Hpv a' b Hab')
          as (i & j & r & q & p & p' & f & _ & Hq & _ & Hp' & _ & Hj' & _).
        assert (nv <= b); [|apply Hbsv_lt in Hb; lia].
        apply Hfreshv.
        eapply elem_of_vertexRefs; [by eapply list_elem_of_lookup_2|done|].
        by eapply list_elem_of_lookup_2.
    + intros a b [Hab|[-> Hb]].
      * destruct (Hps_in a b Hab) as [Ha Hb]. split.
        -- by apply valid_polygon_lt, Hvalid.
        -- eapply valid_polygon_lt, Hvalidq. exact Hab.
      * apply Hbs_lt in Hb. unfold np, np' in *. lia.
    + intros a b b' [(i & Hi & Hi')|[Ea Hb]] [(i2 & Hi2 & Hi2')|[Ea' Hb']];
        [| | |congruence].
      * pose proof (NoDup_lookup _ _ _ _ Hndp Hi Hi2) as <-. congruence.
      * exfalso. apply (Hdisj_p a Hb'). by eapply list_elem_of_lookup_2.
      * exfalso. apply (Hdisj_p a Hb). by eapply list_elem_of_lookup_2.
    + intros a a' b [(i & Hi & Hi')|[Ea Hb]] [(i2 & Hi2 & Hi2')|[Ea' Hb']];
        [| | |congruence].
      * pose proof (NoDup_lookup _ _ _ _ Hndq Hi' Hi2') as <-. congruence.
      * exfalso. assert (np <= b); [|apply Hbs_lt in Hb'; lia].
        apply Hfreshq. by eapply list_elem_of_lookup_2.
      * exfalso. assert (np <= b); [|apply Hbs_lt in Hb; lia].
        apply Hfreshq. by eapply list_elem_of_lookup_2.
  - (* the two heaps *)
    split; [done|]. split; [unfold nv, nv'; lia|].
    split; [done|]. split; [unfold np, np'; lia|]. split.
    + intros a b x [[Hab|[-> Hb]]|[Hge _]] Hx.
      * destruct (Hpv a b Hab)
          as (i & j & r & q & p & p' & f & _ & _ & _ & _ & Hj & Hj' & Hxs & Hxs').
        destruct (vertexObjects_lookup g _ _ _ _ Hxs Hj) as (y & Hy & Hay).
        destruct (vertexObjects_lookup g' _ _ _ _ Hxs' Hj') as (y' & Hy' & Hby).
        congruence.
      * by apply (proj1 Hu).
      * apply lookup_lt_Some in Hx. unfold nv in Hge. lia.
    + intros a b p [[Hab|[-> Hb]]|[Hge _]] Hp.
      * destruct (Hpair a b Hab) as (f & Hf & Hf' & _).
        destruct (Hps_in a b Hab) as [Ha _].
        pose proof (Hplanes a f Ha Hf) as Hplane.
        apply faceOf_Some in Hf as (p1 & Hp1 & Hxs & Hs & Hpl).
        apply faceOf_Some in Hf' as (p' & Hp' & Hxs' & Hs' & Hpl').
        assert (p1 = p) as -> by congruence. simpl in *.
        exists p'. split; [done|].
        split; [|split; [congruence|by rewrite <- Hpl, <- Hpl']].
        apply Forall2_same_length_lookup_2.
        -- apply vertexObjects_length in Hxs, Hxs'. congruence.
        -- intros j x y Hj Hj'. left. left. exists a, b, p, p'.
           split; [done|]. split; [done|]. split; [done|]. by exists j.
      * exists p. split; [by apply (proj2 Hu)|]. split; [|by split].
        apply Forall_Forall2_diag, Forall_forall. intros v Hv.
        left. right. split; [done|]. by eapply elem_of_vertexRefs.
      * apply lookup_lt_Some in Hp. unfold np in Hge. lia.
  - apply Forall2_same_length_lookup_2; [by rewrite length_seq|].
    intros i r q Hi Hi'. left. left. by exists i.
  - apply Forall_Forall2_diag, Forall_forall. intros r Hr. left. by right.
Qed.
End CloneAlike.

(** ** Calls beside flipped polygons *)

Section ExactPlanes.
Context {S : Type}.
Variables (v0 p0 : ref -> ref -> Prop) (nv nv' np np' : nat).
Hypothesis Hbase : base_ok v0 p0 nv nv' np np'.

(** The tree of a solid, from two heaps alike with the same planes. *)
Lemma follows_tree_exact fuel (ps ps' : list ref) :
  Forall2 (samep p0 np np') ps ps' ->
  follows (S := S) v0 p0 nv nv' np np' eq (fun _ => True) (fun _ => True)
    (Node_alike p0 np np' eq)
    (let* c := CSG_clone (mkCSG ps) in Node_new fuel (CSG_polygons c))
    (let* c := CSG_clone (mkCSG ps') in Node_new fuel (CSG_polygons c)).
Proof using Hbase.
  apply follows_tree; try done.
  - by intros p q ->.
  - by intros p q ->.
  - by intros p q x ->.
  - by intros p q p2 q2 -> ->.
  - by intros p q a b ->.
Qed.
End ExactPlanes.

Section BesideFlips.
Context {S : Type}.
Implicit Types (h g : Heap S).

Lemma same_domain_length {A B} (l : list A) (l' : list B) :
  (forall i, is_Some (l !! i) <-> is_Some (l' !! i)) -> length l = length l'.
Proof.
  intros H. pose proof (H (length l)) as H1. pose proof (H (length l')) as H2.
  rewrite !lookup_lt_is_Some in H1, H2. lia.
Qed.

Lemma flipped_once_lengths h g ps :
  flipped_once h g ps ->
  length (vertexStore g) = length (vertexStore h)
  /\ length (polygonStore g) = length (polygonStore h).
Proof.
  intros [Hp Hv]. split; apply same_domain_length; intros i.
  - rewrite Hv. destruct (decide _); [|done]. by rewrite fmap_is_Some.
  - rewrite Hp. destruct (decide _); [|done]. by rewrite fmap_is_Some.
Qed.

(** The flips of a list of polygons, in any order, lead to one heap. *)
Lemma flipped_once_unique h g g' ps ps' :
  ps ≡ₚ ps' -> flipped_once h g ps -> flipped_once h g' ps' -> g = g'.
Proof.
  intros Hperm [Hp Hv] [Hp' Hv']. apply heap_eq.
  - intros v. rewrite Hv, Hv'.
    assert (Hiff : v ∈ vertexRefs h ps <-> v ∈ vertexRefs h ps').
    { unfold vertexRefs. by rewrite Hperm. }
    destruct (decide _), (decide _); tauto.
  - intros r. rewrite Hp, Hp'.
    assert (Hiff : r ∈ ps <-> r ∈ ps') by (by rewrite Hperm).
    destruct (decide _), (decide _); tauto.
Qed.

(** The tree of a solid, made beside polygons that have been flipped: the
    same tree, and the same heap with these polygons flipped. *)
Lemma tree_beside_flips fuel (bs cs : list ref) h g b h' :
  Forall (valid_polygon h) cs -> Forall (valid_polygon h) bs ->
  (forall r, r ∈ bs -> r ∉ cs) ->
  (forall v, v ∈ vertexRefs h bs -> v ∉ vertexRefs h cs) ->
  flipped_once h g cs ->
  (let* c := CSG_clone (mkCSG bs) in Node_new fuel (CSG_polygons c)) h
  = (Ok b, h') ->
  exists g',
    (let* c := CSG_clone (mkCSG bs) in Node_new fuel (CSG_polygons c)) g
    = (Ok b, g')
    /\ flipped_once h' g' cs
    /\ unchanged h h' /\ unchanged g g'.
Proof.
  intros Hcs Hbs Hdp Hdv Hflip E.
  pose proof (flipped_once_lengths h g cs Hflip) as [Hlv Hlp].
  pose proof Hflip as [Hfp Hfv].
  set (V0 := kept (vertexRefs h bs)). set (P0 := kept bs).
  set (nv := length (vertexStore h)). set (np := length (polygonStore h)).
  assert (Hbase : base_ok V0 P0 nv nv np np).
  { split; [|split; [|split; [|split; [|split]]]].
    - intros a ? [<- Ha]. apply (vertexRefs_lt h bs a Hbs) in Ha.
      unfold nv. lia.
    - intros a ? ? [<- _] [<- _]. done.
    - intros ? ? b0 [-> _] [-> _]. done.
    - intros a ? [<- Ha]. rewrite Forall_forall in Hbs.
      apply Hbs, valid_polygon_lt in Ha. unfold np. lia.
    - intros a ? ? [<- _] [<- _]. done.
    - intros ? ? b0 [-> _] [-> _]. done. }
  assert (Hidv : forall a c, samev V0 nv nv a c -> a = c).
  { intros a c [[-> _]|[_ H]]; [done|lia]. }
  assert (Hidp : forall a c, samep P0 np np a c -> a = c).
  { intros a c [[-> _]|[_ H]]; [done|lia]. }
  assert (Halike : alike V0 P0 nv nv np np eq h g).
  { split; [done|]. split; [unfold nv; lia|].
    split; [done|]. split; [unfold np; lia|]. split.
    - intros a c x [[<- Ha]|[Hge _]] Hx.
      + by rewrite Hfv, decide_False by by apply Hdv.
      + apply lookup_lt_Some in Hx. unfold nv in Hge. lia.
    - intros a c p [[<- Ha]|[Hge _]] Hp.
      + exists p. split; [by rewrite Hfp, decide_False by by apply Hdp|].
        split; [|done]. apply Forall_Forall2_diag, Forall_forall.
        intros v Hv. left. split; [done|]. by eapply elem_of_vertexRefs.
      + apply lookup_lt_Some in Hp. unfold np in Hge. lia. }
  assert (Hps : Forall2 (samep P0 np np) bs bs).
  { apply Forall_Forall2_diag, Forall_forall. intros r Hr. left. by split. }
  destruct (follows_tree_exact V0 P0 nv nv np np Hbase fuel bs bs Hps
              h g Halike I b h' E (fun _ _ _ _ => I))
    as (b' & g' & E' & Hal' & Hb).
  apply (Node_alike_eq P0 np np b Hidp) in Hb as <-.
  exists g'. split; [done|].
  assert (Hu : unchanged h h').
  { apply (unchanged_run _ _ _ _ (grows_bind _ _ (grows_CSG_clone _)
             (fun c => grows_Node_build fuel Node_empty _)) E). }
  assert (Hu' : unchanged g g').
  { apply (unchanged_run _ _ _ _ (grows_bind _ _ (grows_CSG_clone _)
             (fun c => grows_Node_build fuel Node_empty _)) E'). }
  split; [|done].
  destruct Hal' as (_ & Hnv & _ & Hnp & Hsv & Hsp).
  assert (Hvr : vertexRefs h' cs = vertexRefs h cs)
    by by apply vertexRefs_unchanged.
  split.
  - intros r. destruct (decide (r < np)) as [Hlt|Hge].
    + destruct (lookup_lt_is_Some_2 (polygonStore h) r Hlt) as [p Hp].
      rewrite (proj2 Hu _ _ Hp).
      assert (is_Some (polygonStore g !! r)) as [p' Hp'].
      { apply lookup_lt_is_Some. unfold np in Hlt. lia. }
      rewrite (proj2 Hu' _ _ Hp'). by rewrite <- Hp, <- Hfp.
    + rewrite decide_False.
      2:{ intros Hr. rewrite Forall_forall in Hcs.
          apply Hcs, valid_polygon_lt in Hr. unfold np in Hge. lia. }
      destruct (polygonStore h' !! r) as [p|] eqn:Hp.
      * destruct (Hsp r r p) as (p' & -> & Hvs & Hs & Hpl);
          [right; lia|done|].
        f_equal. destruct p, p'. simpl in *. f_equal; try done.
        symmetry. apply list_eq_Forall2. eapply Forall2_impl; [exact Hvs|].
        intros. by apply Hidv.
      * apply lookup_ge_None. apply lookup_ge_None in Hp. lia.
  - intros v. rewrite Hvr. destruct (decide (v < nv)) as [Hlt|Hge].
    + destruct (lookup_lt_is_Some_2 (vertexStore h) v Hlt) as [x Hx].
      rewrite (proj1 Hu _ _ Hx).
      assert (is_Some (vertexStore g !! v)) as [x' Hx'].
      { apply lookup_lt_is_Some. unfold nv in Hlt. lia. }
      rewrite (proj1 Hu' _ _ Hx'). by rewrite <- Hx, <- Hfv.
    + rewrite decide_False.
      2:{ intros Hv. apply (vertexRefs_lt h cs v Hcs) in Hv.
          unfold nv in Hge. lia. }
      destruct (vertexStore h' !! v) as [x|] eqn:Hx.
      * apply (Hsv v v x); [right; lia|done].
      * apply lookup_ge_None. apply lookup_ge_None in Hx. lia.
Qed.
End BesideFlips.

(** ** The two computations, call by call *)

Section PlanesAlike.
Context {S : Type}.
Variables (v0 p0 : ref -> ref -> Prop) (nv nv' np np' : nat).
Hypothesis Hbase : base_ok v0 p0 nv nv' np np'.

#[local] Abbreviation follows_alike :=
  (follows (S := S) v0 p0 nv nv' np np' Plane_alike finite_vector
           (fun _ => True) (Node_alike p0 np np' Plane_alike)).

Local Ltac planes_alike :=
  first [ done | apply Plane_alike_refl | apply Plane_alike_flip
        | apply Plane_alike_clone | apply Plane_alike_classify
        | apply Plane_alike_facing | apply Plane_alike_cut ].

(** [build], the tree of a solid and the steps of [union], from two heaps
    alike whose planes are the same but for the sign of zeros. *)
Lemma follows_Node_build_alike fuel (n n' : Node) (ps ps' : list ref) :
  Node_alike p0 np np' Plane_alike n n' ->
  Forall2 (samep p0 np np') ps ps' ->
  follows_alike (Node_build fuel n ps) (Node_build fuel n' ps').
Proof using Hbase. intros. apply follows_Node_build; planes_alike. Qed.

Lemma follows_tree_alike fuel (ps ps' : list ref) :
  Forall2 (samep p0 np np') ps ps' ->
  follows_alike
    (let* c := CSG_clone (mkCSG ps) in Node_new fuel (CSG_polygons c))
    (let* c := CSG_clone (mkCSG ps') in Node_new fuel (CSG_polygons c)).
Proof using Hbase. intros. apply follows_tree; planes_alike. Qed.

Lemma follows_clip_sequence_alike fuel (a a' b b' : Node) :
  Node_alike p0 np np' Plane_alike a a' ->
  Node_alike p0 np np' Plane_alike b b' ->
  follows_alike (clip_sequence fuel a b) (clip_sequence fuel a' b').
Proof using Hbase. intros. apply follows_clip_sequence; planes_alike. Qed.
End PlanesAlike.

Section Complement.
Context {S : Type}.
Implicit Types (h g : Heap S).

Lemma finite_since_sound n h :
  finite_since n h = true -> sound_heap n finite_vector h.
Proof.
  unfold finite_since. rewrite forallb_forall. intros H v x Hge Hx.
  assert (Hin : In x (drop n (vertexStore h))).
  { apply list_elem_of_In, list_elem_of_lookup. exists (v - n).
    rewrite lookup_drop. by replace (n + (v - n)) with v by lia. }
  apply H in Hin. by repeat (apply andb_prop in Hin as [Hin ?]).
Qed.

Lemma sound_heap_later n n' h :
  n <= n' -> sound_heap n finite_vector h -> sound_heap n' finite_vector h.
Proof. intros Hn H v x Hge. apply H. lia. Qed.

Lemma valid_faceOf h r : valid_polygon h r -> is_Some (faceOf h r).
Proof.
  intros (p & Hp & Hvs)%valid_polygon_lookup.
  destruct (vertexObjects_total h _ Hvs) as [xs Hxs].
  exists (mkFace xs (Polygon_shared p) (Polygon_plane p)).
  apply faceOf_Some. by exists p.
Qed.

Lemma whole_faceOf h h' pl r r' f :
  faceOf h r = Some f -> Face_vertices <$> faceOf h' r' = Some (Face_vertices f) ->
  whole h' pl r' = whole h pl r.
Proof.
  intros Hf Hf'. unfold whole. rewrite !polygonTypeIn_faceOf, Hf.
  destruct (faceOf h' r') as [f'|]; [|done]. simpl in *.
  injection Hf' as ->. done.
Qed.

Lemma valid_flipped_once h g ps r :
  flipped_once h g ps -> valid_polygon h r -> valid_polygon g r.
Proof.
  intros Hfl Hr. pose proof (flipped_once_lengths h g ps Hfl) as [Hlv _].
  destruct Hfl as [Hp _].
  destruct (valid_polygon_lookup h r Hr) as (p & Hpr & Hvs).
  split; [lia|]. rewrite Hp, Hpr.
  assert (G : Forall (fun v => 0 <= v /\ v < length (vertexStore g))
                     (Polygon_vertices p)).
  { eapply Forall_impl; [exact Hvs|]. intros v Hv. simpl in *. lia. }
  destruct (decide (r ∈ ps)); simpl; [|done].
  rewrite rev_as_reverse. by apply Forall_reverse.
Qed.

Lemma run_bind {A B} (m : M S A) (k : A -> M S B) h a h1 b h2 :
  m h = (Ok a, h1) -> k a h1 = (Ok b, h2) ->
  (let* x := m in k x) h = (Ok b, h2).
Proof. intros E1 E2. by run_with E1. Qed.

(** The positions of the results, polygon by polygon. *)
Lemma positions_flipped h r f :
  faceOf h r = Some (Face_flipped f) ->
  positions h r = Some (rev (map Vertex_pos (Face_vertices f))).
Proof.
  intros Hf. rewrite positions_faceOf, Hf. simpl.
  by rewrite map_rev, map_map.
Qed.

Section Run.
Variables (fuel : nat) (As bs : list ref) (h : Heap S).
Hypothesis HA : Forall (fun r => clonable h r = true) As.
Hypothesis HB : Forall (fun r => clonable h r = true) bs.
Hypothesis Hturn : Forall (plane_turns h) As.
Hypothesis Hcut : uncut h As = true.

#[local] Abbreviation cs := (seq (length (polygonStore h)) (length As)).

Lemma complement_run c1 hS c2 hI :
  CSG_subtract fuel (mkCSG As) (mkCSG bs) h = (Ok c1, hS) ->
  finite_since (length (vertexStore h)) hS = true ->
  inverse_union_inverse fuel (mkCSG As) (mkCSG bs) h = (Ok c2, hI) ->
  map (positions hS) (CSG_polygons c1)
  ≡ₚ map (positions hI) (CSG_polygons c2).
Proof using All.
  intros ES Hfin EI. apply finite_since_sound in Hfin.
  destruct (clones_Ok As h HA) as (h1 & Ec & Hcopy & Hu1 & Hlen1 & Hvr1).
  pose proof (unchanged_lengths h h1 Hu1) as [Hlv1 Hlp1].
  (* the clones of A *)
  assert (Hface : forall i r q, As !! i = Some r -> cs !! i = Some q ->
            exists f, faceOf h r = Some f
                      /\ faceOf h1 q = Some (Face_rebuilt f)
                      /\ 3 <= length (Face_vertices f)
                      /\ Plane_alike
                           (Plane_flip (facePlane (Face_vertices f)))
                           (facePlane (Face_vertices (Face_flipped f)))).
  { intros i r q Hi Hq.
    destruct (Forall2_lookup_lr _ _ _ _ _ _ Hcopy Hi Hq) as (f & Hf & Hf' & _).
    exists f. split; [done|]. split; [done|].
    assert (Hr : r ∈ As) by by eapply list_elem_of_lookup_2.
    rewrite Forall_forall in HA, Hturn. split.
    - specialize (HA r Hr). unfold clonable in HA. rewrite Hf in HA.
      by apply Nat.leb_le.
    - specialize (Hturn r Hr). unfold plane_turns in Hturn. by rewrite Hf in Hturn. }
  assert (Hcs_from : forall q, q ∈ cs ->
            exists i r, As !! i = Some r /\ cs !! i = Some q).
  { intros q [i Hi]%list_elem_of_lookup.
    destruct (Forall2_lookup_r _ _ _ _ _ Hcopy Hi) as (r & Hr & _). eauto. }
  assert (Hvalid1 : Forall (valid_polygon h1) cs).
  { apply Forall_forall. intros q (i & r & Hi & Hq)%Hcs_from.
    destruct (Hface i r q Hi Hq) as (f & _ & Hf & _).
    apply faceOf_valid. eauto. }
  assert (Hsep1 : separate h1 cs).
  { split; [|rewrite Hvr1]; apply NoDup_seq. }
  assert (HvalidB : Forall (valid_polygon h) bs).
  { eapply Forall_impl; [exact HB|]. intros r Hr. simpl in Hr.
    by apply faceOf_valid, clonable_is_Some. }
  assert (HvalidB1 : Forall (valid_polygon h1) bs).
  { eapply Forall_impl; [exact HvalidB|]. intros r.
    by apply valid_polygon_unchanged. }
  assert (Hdp : forall r, r ∈ bs -> r ∉ cs).
  { intros r Hr Hr'. rewrite Forall_forall in HvalidB.
    apply HvalidB, valid_polygon_lt in Hr. apply elem_of_seq in Hr'. lia. }
  assert (HvrB : vertexRefs h1 bs = vertexRefs h bs)
    by by apply vertexRefs_unchanged.
  assert (Hdv : forall v, v ∈ vertexRefs h1 bs -> v ∉ vertexRefs h1 cs).
  { intros v Hv Hv'. rewrite HvrB in Hv.
    apply (vertexRefs_lt h bs v HvalidB) in Hv.
    rewrite Hvr1 in Hv'. apply elem_of_seq in Hv'. lia. }
  (* the same polygons, flipped *)
  set (g1 := flipsHeap cs h1).
  pose proof (flipsHeap_flipped_once h1 cs Hsep1) as Hflip1. fold g1 in Hflip1.
  assert (Hflipped : flipped_in h1 g1 cs).
  { apply Forall_forall. intros q Hq.
    destruct (Hcs_from q Hq) as (i & r & Hi & Hqi).
    destruct (Hface i r q Hi Hqi) as (f & _ & Hf & _).
    exists (Face_rebuilt f). split; [done|].
    by apply (faceOf_flipped_once h1 g1 cs). }
  assert (Hnever : never_split h1 cs).
  { intros q q' p Hq Hq' Hp.
    destruct (Hcs_from q Hq) as (i & r & Hi & Hqi).
    destruct (Hcs_from q' Hq') as (i' & r' & Hi' & Hqi').
    destruct (Hface i r q Hi Hqi) as (f & Hfr & Hf & _).
    destruct (Hface i' r' q' Hi' Hqi') as (f' & Hfr' & Hf' & _).
    apply faceOf_Some in Hf as (p1 & Hp1 & _ & _ & Hpl).
    assert (p1 = p) as -> by congruence. rewrite <- Hpl. simpl.
    rewrite (whole_faceOf h h1 _ r' q' f' Hfr') by by rewrite Hf'.
    unfold uncut in Hcut. rewrite forallb_forall in Hcut.
    assert (Hr : r ∈ As) by by eapply list_elem_of_lookup_2.
    assert (Hr' : r' ∈ As) by by eapply list_elem_of_lookup_2.
    apply list_elem_of_In in Hr, Hr'.
    specialize (Hcut r Hr). rewrite Hfr in Hcut.
    rewrite forallb_forall in Hcut. by apply Hcut. }
  (* subtract, call by call *)
  unfold CSG_subtract, CSG_clone in ES. simpl in ES.
  apply bind_Ok_inv in ES as (ca & hx & Eca & ES).
  rewrite (bind_Ok _ _ _ _ _ Ec) in Eca. injection Eca as <- <-. simpl in ES.
  apply bind_Ok_inv in ES as (a0 & h2 & Ea0 & ES). unfold Node_new in Ea0.
  destruct (build_flipped fuel cs h1 g1 a0 h2 Hflipped Hnever Ea0)
    as (-> & Hall & Ea0').
  apply bind_Ok_inv in ES as (cb & h3 & Ecb & ES).
  apply bind_Ok_inv in ES as (b0 & h4 & Eb0 & ES).
  assert (Etree : (let* c := CSG_clone (mkCSG bs)
                   in Node_new fuel (CSG_polygons c)) h1 = (Ok b0, h4)).
  { unfold CSG_clone. simpl. by eapply run_bind. }
  assert (Hlive1 : live h1 cs) by done.
  assert (Hlive4 : live h4 (Node_allPolygons a0 ++ Node_allPolygons b0)).
  { apply bind_Ok_inv in Ecb as (qb & hy & Eqb & [= <- <-]).
    apply (clones_live _ (Node_allPolygons a0)) in Eqb;
      [|eapply live_perm; [by symmetry|done]].
    apply (Node_build_live fuel Node_empty _ (Node_allPolygons a0)) in Eb0;
      [|done].
    eapply live_perm; [|exact Eb0]. apply Permutation_app_comm. }
  destruct (tree_beside_flips fuel bs cs h1 g1 b0 h4 Hvalid1 HvalidB1 Hdp Hdv
              Hflip1 Etree) as (g4 & Etree' & Hflip4 & Hu4 & Hug4).
  apply bind_Ok_inv in ES as (a1 & h5 & Ea1 & ES).
  pose proof (Node_invert_live a0 _ h4 a1 h5 Hlive4 Ea1) as Hlive5.
  pose proof (Node_invert_planed a0 h4 a1 h5 Ea1) as Hpl0.
  pose proof (live_app_l _ _ _ Hlive4) as Hlive4a.
  destruct (Node_invert_Ok a0 h4 Hpl0 (proj1 Hlive4a)) as [Ea1' _].
  rewrite Ea1' in Ea1. injection Ea1 as <- <-.
  pose proof (flipsHeap_flipped_once h4 _ (proj2 Hlive4a)) as Hflip4'.
  pose proof (flipped_once_unique h4 _ g4 _ cs Hall Hflip4' Hflip4) as Eg4.
  rewrite Eg4 in ES, Hlive5. clear Eg4 Hflip4' Ea1'.
  assert (Eclip : exists a2 h6,
             clip_sequence fuel (Node_mirror a0) b0 g4 = (Ok a2, h6)
             /\ Node_invert a2 h6 = (Ok (Node_mirror a2), hS)
             /\ c1 = mkCSG (Node_allPolygons (Node_mirror a2))
             /\ flipped_once h6 hS (Node_allPolygons a2)
             /\ live h6 (Node_allPolygons a2)).
  { apply bind_Ok_inv in ES as (x1 & k1 & E1 & ES).
    apply bind_Ok_inv in ES as (x2 & k2 & E2 & ES).
    apply bind_Ok_inv in ES as (x3 & k3 & E3 & ES).
    apply bind_Ok_inv in ES as (x4 & k4 & E4 & ES).
    apply bind_Ok_inv in ES as (x5 & k5 & E5 & ES).
    apply bind_Ok_inv in ES as (a2 & h6 & E6 & ES).
    apply bind_Ok_inv in ES as (a3 & h7 & E7 & [= <- <-]).
    assert (Ecl : clip_sequence fuel (Node_mirror a0) b0 g4 = (Ok a2, h6)).
    { unfold clip_sequence. run_with E1. run_with E2. run_with E3.
      run_with E4. by run_with E5. }
    assert (Hl6 : live h6 (Node_allPolygons a2 ++ [])).
    { apply (clip_sequence_live fuel (Node_mirror a0) b0 [] g4 a2 h6);
        [by rewrite app_nil_r|done]. }
    rewrite app_nil_r in Hl6.
    pose proof (Node_invert_planed a2 h6 a3 h7 E7) as Hpl2.
    destruct (Node_invert_Ok a2 h6 Hpl2 (proj1 Hl6)) as [E7' _].
    rewrite E7' in E7. injection E7 as <- <-.
    exists a2, h6. split; [done|]. split; [done|]. split; [done|].
    split; [|done]. by apply flipsHeap_flipped_once, Hl6. }
  destruct Eclip as (a2 & h6 & Eclip & Einv2 & -> & HflipS & Hlive6).
  clear ES.
  (* the clones of the flipped polygons *)
  assert (Hclon1 : Forall (fun r => clonable g1 r = true) cs).
  { apply Forall_forall. intros q Hq.
    destruct (Hcs_from q Hq) as (i & r & Hi & Hqi).
    destruct (Hface i r q Hi Hqi) as (f & _ & Hf & Hlen & _).
    unfold clonable.
    rewrite (faceOf_flipped_once h1 g1 cs q _ Hflip1 Hq Hf).
    apply Nat.leb_le. cbn [Face_vertices Face_flipped Face_rebuilt].
    by rewrite length_rev, length_map. }
  assert (Hsepg1 : separate g1 cs) by by apply (separate_flipped_once h1).
  assert (Hplanes1 : forall r f, r ∈ cs -> faceOf g1 r = Some f ->
            Plane_alike (Face_plane f) (facePlane (Face_vertices f))).
  { intros q f' Hq Hf'.
    destruct (Hcs_from q Hq) as (i & r & Hi & Hqi).
    destruct (Hface i r q Hi Hqi) as (f & _ & Hf & _ & Ht).
    rewrite (faceOf_flipped_once h1 g1 cs q _ Hflip1 Hq Hf) in Hf'.
    injection Hf' as <-. exact Ht. }
  assert (HvalidBg : Forall (valid_polygon g1) bs).
  { eapply Forall_impl; [exact HvalidB1|]. intros r.
    by apply (valid_flipped_once h1 g1 cs). }
  assert (Hdvg : forall v, v ∈ vertexRefs g1 bs -> v ∉ vertexRefs g1 cs).
  { intros v Hv Hv'.
    rewrite (vertexRefs_flipped h1 g1 cs cs Hflip1) in Hv'.
    rewrite (vertexRefs_flipped h1 g1 cs bs Hflip1) in Hv.
    by apply (Hdv v). }
  destruct (clone_alike g1 cs bs Plane_alike Plane_alike_refl Hclon1 Hsepg1
              Hplanes1 HvalidBg Hdp Hdvg)
    as (g1b & Ecl2 & Hug1b & Hrel).
  cbv zeta in Hrel.
  set (cs2 := seq (length (polygonStore g1)) (length cs)) in *.
  set (V0 := fun a b => paired_vertices g1 g1b cs cs2 a b
                        \/ kept (vertexRefs g1 bs) a b) in *.
  set (P0 := fun a b => paired cs cs2 a b \/ kept bs a b) in *.
  set (nv := length (vertexStore g1)) in *.
  set (nv' := length (vertexStore g1b)) in *.
  set (np := length (polygonStore g1)) in *.
  set (np' := length (polygonStore g1b)) in *.
  destruct Hrel as (Hbase & Halike & Hcs2 & Hbs2).
  (* the heaps of [subtract] hold no vertex gone wild *)
  assert (Hs6 : sound_heap nv finite_vector h6).
  { eapply (sound_back nv finite_vector); [apply backs_Node_invert| |].
    - exact Einv2.
    - eapply sound_heap_later; [|exact Hfin].
      unfold nv. rewrite (proj1 (flipped_once_lengths h1 g1 cs Hflip1)).
      lia. }
  assert (Hs4 : sound_heap nv finite_vector g4).
  { eapply (sound_back nv finite_vector);
      [apply backs_clip_sequence|exact Eclip|exact Hs6]. }
  assert (Hs1 : sound_heap nv finite_vector g1).
  { eapply (sound_back nv finite_vector);
      [apply backs_tree|exact Etree'|exact Hs4]. }
  destruct (follows_Node_build_alike V0 P0 nv nv' np np' Hbase fuel
              Node_empty Node_empty cs cs2
              (Node_alike_empty P0 np np' Plane_alike) Hcs2
              g1 g1b Halike I _ _ Ea0' Hs1)
    as (a0' & g2' & Ea0I & Hal2 & Ha0).
  destruct (follows_tree_alike V0 P0 nv nv' np np' Hbase fuel bs bs Hbs2
              g1 g2' Hal2 I b0 g4 Etree' Hs4)
    as (b0' & g4' & EtreeI & Hal4 & Hb0).
  destruct (follows_clip_sequence_alike V0 P0 nv nv' np np' Hbase fuel
              _ _ _ _ Ha0 Hb0 g4 g4' Hal4 I a2 h6 Eclip Hs6)
    as (a2' & g6' & EclipI & Hal6 & Ha2).
  (* the inverse of the union, call by call *)
  assert (EinvA : CSG_inverse (mkCSG As) h = (Ok (mkCSG cs), g1)).
  { assert (EcA : CSG_clone (mkCSG As) h = (Ok (mkCSG cs), h1)).
    { unfold CSG_clone. cbn [CSG_polygons]. by run_with Ec. }
    unfold CSG_inverse. run_with EcA. cbn [CSG_polygons].
    destruct (forEach_Polygon_flip_valid cs h1 Hvalid1) as [Ef _].
    by run_with Ef. }
  assert (Eunion : CSG_union fuel (mkCSG cs) (mkCSG bs) g1
                   = (Ok (mkCSG (Node_allPolygons a2')), g6')).
  { assert (EcI : CSG_clone (mkCSG cs) g1 = (Ok (mkCSG cs2), g1b)).
    { unfold CSG_clone. cbn [CSG_polygons]. by run_with Ecl2. }
    unfold CSG_union, Node_new. run_with EcI. cbn [CSG_polygons].
    run_with Ea0I.
    unfold Node_new in EtreeI.
    apply bind_Ok_inv in EtreeI as (cb' & hz & Ecb' & Eb0').
    run_with Ecb'. run_with Eb0'.
    unfold clip_sequence in EclipI.
    apply bind_Ok_inv in EclipI as (x1 & k1 & E1 & EclipI).
    apply bind_Ok_inv in EclipI as (x2 & k2 & E2 & EclipI).
    apply bind_Ok_inv in EclipI as (x3 & k3 & E3 & EclipI).
    apply bind_Ok_inv in EclipI as (x4 & k4 & E4 & EclipI).
    apply bind_Ok_inv in EclipI as (x5 & k5 & E5 & EclipI).
    run_with E1. run_with E2. run_with E3. run_with E4. run_with E5.
    by run_with EclipI. }
  unfold inverse_union_inverse in EI.
  rewrite (bind_Ok _ _ _ _ _ EinvA), (bind_Ok _ _ _ _ _ Eunion) in EI.
  (* the polygons of the two results *)
  pose proof (Node_alike_allPolygons P0 np np' Plane_alike a2 a2' Ha2)
    as Hpairs.
  assert (HfaceI : forall i r r',
            Node_allPolygons a2 !! i = Some r ->
            Node_allPolygons a2' !! i = Some r' ->
            exists f f', faceOf h6 r = Some f /\ faceOf g6' r' = Some f'
                         /\ Face_vertices f' = Face_vertices f).
  { intros i r r' Hi Hi'.
    destruct Hlive6 as [Hv6 _]. rewrite Forall_forall in Hv6.
    destruct (valid_faceOf h6 r) as [f Hf].
    { apply Hv6. by eapply list_elem_of_lookup_2. }
    destruct (alike_faceOf V0 P0 nv nv' np np' Plane_alike h6 g6' r r' f
                Hal6) as (f' & Hf' & Hvs & _); [|done|by exists f, f'].
    by eapply Forall2_lookup_lr. }
  assert (HvalidI : Forall (valid_polygon g6') (Node_allPolygons a2')).
  { apply Forall_forall. intros r' [i Hi']%list_elem_of_lookup.
    destruct (Forall2_lookup_r _ _ _ _ _ Hpairs Hi') as (r & Hi & _).
    destruct (HfaceI i r r' Hi Hi') as (f & f' & _ & Hf & _).
    apply faceOf_valid. eauto. }
  pose proof EI as EI0.
  unfold CSG_inverse, CSG_clone in EI0. simpl in EI0.
  apply bind_Ok_inv in EI0 as (cq & hq & Ecq & _).
  apply bind_Ok_inv in Ecq as (qs & hq' & Eqs & _).
  pose proof (clones_Ok_inv _ _ _ _ HvalidI Eqs) as HclonI.
  destruct (CSG_inverse_Ok (mkCSG (Node_allPolygons a2')) g6' HclonI)
    as (B' & hI' & EinvI & Hmade & _ & _).
  rewrite EI in EinvI. injection EinvI as <- <-. simpl in Hmade.
  simpl.
  transitivity (map (positions hS) (Node_allPolygons a2)).
  { apply Permutation_map, allPolygons_mirror. }
  assert (map (positions hS) (Node_allPolygons a2)
          = map (positions hI) (CSG_polygons c2)) as ->; [|done].
  apply list_eq_Forall2, Forall2_fmap.
  apply Forall2_same_length_lookup_2.
  { rewrite (Forall2_length _ _ _ Hpairs). by eapply Forall2_length. }
  intros i r q Hi Hq.
  destruct (Forall2_lookup_l _ _ _ _ _ Hpairs Hi) as (r' & Hi' & _).
  destruct (HfaceI i r r' Hi Hi') as (f & f' & Hf & Hf' & Hvs).
  destruct (Forall2_lookup_lr _ _ _ _ _ _ Hmade Hi' Hq)
    as (f2 & Hf2 & Hfq & _).
  assert (f2 = f') as -> by congruence.
  rewrite (positions_flipped hI q _ Hfq). simpl. rewrite Hvs.
  apply positions_flipped.
  apply (faceOf_flipped_once h6 hS (Node_allPolygons a2)); [done| |done].
  by eapply list_elem_of_lookup_2.
Qed.
End Run.

End Complement.


